(** * Workflow engine: a shallow embedding of [src/_node.ts], [src/_context.ts],
  [src/_dependency-map.ts] and [src/workflow.ts], with the properties of the
  natural-language specification stated and settled against it.

  Conventions of the embedding.
  - JavaScript values that the code inspects with [typeof], truthiness or
      comparisons are values of [JsValue]; functions are kept apart from data
      (see [FunOr]) because the code never inspects a function beyond
      [typeof f === "function"] and calling it.  An object is opaque: it is
      described by what converting it to a string and freezing it do, the
      only operations the code applies to a value it does not know.
  - A JavaScript number is a rational, an infinity or NaN.  The loop
      variable of [run] is a double that holds a natural number: [plus_one]
      rounds as the addition of doubles does, and the loop is followed for
      at most [2^53 + 1] turns.
  - The caller-supplied functions are opaque.  The behaviour of [execute]
      is a function of the number of calls made before and of the context
      it is given; the [enabled] callback, the error handler and the hooks
      return or throw.
  - What a call prints is not modelled, but the conversion to a string of
      what a template literal interpolates is, since it can throw.
  - Wall-clock data (timestamps, durations, retry delays) is not modelled.
  - Asynchrony is modelled by an explicit scheduler state and one atomic
      step per continuation of the source; the order in which in-flight
      continuations run is chosen by a schedule (a list of events).  The
      statuses of the nodes and the state of the update queue outlive a
      run: a run starts from any statuses and from a queue that is either
      intact or rejected. *)

From Stdlib Require Import QArith.
From stdpp Require Import gmap strings list fin_maps pretty.

Close Scope Q_scope.
Open Scope string_scope.
Open Scope list_scope.
Open Scope nat_scope.

(* ===================================================================== *)
(** ** JavaScript values *)
(* ===================================================================== *)

Inductive JsNumber :=
| Finite (q : Q)
| NaN
| PosInfinity
| NegInfinity.

(** Values, and what a [throw] carries.

    An object is opaque to the code: [ref] tells objects apart, and the two
    other fields describe the object under the only operations that the
    code applies to a value it does not know.  [conversion] is the result
    of converting the object to a primitive with the hint "string", as a
    template literal, [String(v)] and the operator [in] do; [freezing] is
    what [deepFreeze] throws when it reaches the object (a typed array, a
    cyclic structure, a throwing getter), [None] when it freezes it or finds
    it frozen.

    An [Error] instance is described by its message, and is converted to
    a string by [Error.prototype.toString]; instances whose class replaces
    that conversion are not told apart.  [NonErrorThrow v] is the object
    built by [new Error(`Non error throw: ${String(v)}`)] in [Node.run]. *)
Inductive JsValue :=
| JUndefined
| JNull
| JBool (b : bool)
| JNum (x : JsNumber)
| JStr (s : string)
| JObj (ref : nat) (conversion : Conversion) (freezing : option Thrown)
| JSymbol (description : string)
with Conversion :=
| ToStr (s : string)
| ToSym
| ConversionThrows (t : Thrown)
with Thrown :=
| ThrowError (e : JsError)
| ThrowValue (v : JsValue)
with JsError :=
| Error (message : string)
| NonErrorThrow (thrown : JsValue).

(** [x < 0] on numbers; every comparison with NaN is false. *)
Definition num_lt_zero (x : JsNumber) : bool :=
  match x with
  | Finite q => (Qnum q <? 0)%Z
  | NegInfinity => true
  | NaN | PosInfinity => false
  end.

(** [Number.isInteger(x)] on numbers. *)
Definition num_isInteger (x : JsNumber) : bool :=
  match x with
  | Finite q => (Z.rem (Qnum q) (Z.pos (Qden q)) =? 0)%Z
  | NaN | PosInfinity | NegInfinity => false
  end.

Definition typeof_number (v : JsValue) : bool :=
  match v with JNum _ => true | _ => false end.

Definition typeof_string (v : JsValue) : bool :=
  match v with JStr _ => true | _ => false end.

(** [v < 0] where [v] has passed [typeof v === "number"]. *)
Definition js_lt_zero (v : JsValue) : bool :=
  match v with JNum x => num_lt_zero x | _ => false end.

Definition Number_isInteger (v : JsValue) : bool :=
  match v with JNum x => num_isInteger x | _ => false end.

(** ToBoolean. *)
Definition truthy (v : JsValue) : bool :=
  match v with
  | JUndefined | JNull => false
  | JBool b => b
  | JNum (Finite q) => negb (Qnum q =? 0)%Z
  | JNum NaN => false
  | JNum _ => true
  | JStr s => negb (String.eqb s EmptyString)
  | JObj _ _ _ | JSymbol _ => true
  end.

(** A position that holds either a function or some other value. *)
Inductive FunOr (F : Type) :=
| IsFun (f : F)
| NotFun (v : JsValue).
Arguments IsFun {F} f.
Arguments NotFun {F} v.

Definition typeof_function {F} (x : FunOr F) : bool :=
  match x with IsFun _ => true | NotFun _ => false end.

Definition truthy_or {F} (x : FunOr F) : bool :=
  match x with IsFun _ => true | NotFun v => truthy v end.

Definition instanceof_Error (t : Thrown) : bool :=
  match t with ThrowError _ => true | ThrowValue _ => false end.

(** The outcome of calling (and awaiting) a caller-supplied function, or of
    an operation of the language that may throw. *)
Inductive Outcome (A : Type) :=
| Returned (a : A)
| Threw (t : Thrown).
Arguments Returned {A} a.
Arguments Threw {A} t.

#[global] Instance JsNumber_inhabited : Inhabited JsNumber := populate NaN.
#[global] Instance JsValue_inhabited : Inhabited JsValue := populate JUndefined.

(** [new TypeError(message)], an [Error] instance. *)
Definition TypeError (message : string) : Thrown := ThrowError (Error message).

(** ToString(v), as applied by a template literal: what it throws, if it
    throws.  Symbols are not converted, and an object is converted by its
    own methods. *)
Definition ToString_throws (v : JsValue) : option Thrown :=
  match v with
  | JSymbol _ | JObj _ ToSym _ =>
      Some (TypeError "Cannot convert a Symbol value to a string")
  | JObj _ (ConversionThrows t) _ => Some t
  | _ => None
  end.

(** [`... ${err}`] where [err] was caught: an [Error] instance is converted
    by [Error.prototype.toString]. *)
Definition interpolate (err : Thrown) : option Thrown :=
  match err with
  | ThrowError _ => None
  | ThrowValue v => ToString_throws v
  end.

(** Doubles hold the natural numbers up to [2^53] exactly. *)
Definition two53 : N := 9007199254740992%N.

(** Number::toString(x) for the numbers whose digits are the decimal
    numeral of an integer below [2^53] in absolute value; the digits of the
    other finite numbers (shortest decimal that reads back as the same
    double) are not part of this model, which answers [None] for them. *)
Definition Number_toString (x : JsNumber) : option string :=
  match x with
  | NaN => Some "NaN"
  | PosInfinity => Some "Infinity"
  | NegInfinity => Some "-Infinity"
  | Finite q =>
      let z := (Qnum q / Z.pos (Qden q))%Z in
      if num_isInteger x && (Z.abs z <? Z.of_N two53)%Z
      then Some (pretty z) else None
  end.

(** ToPropertyKey(v): a string ([Some]) or a symbol ([None]); the whole is
    [None] where [Number_toString] is. *)
Definition ToPropertyKey (v : JsValue) : option (Outcome (option string)) :=
  match v with
  | JUndefined => Some (Returned (Some "undefined"))
  | JNull => Some (Returned (Some "null"))
  | JBool true => Some (Returned (Some "true"))
  | JBool false => Some (Returned (Some "false"))
  | JNum x =>
      match Number_toString x with
      | Some s => Some (Returned (Some s))
      | None => None
      end
  | JStr s => Some (Returned (Some s))
  | JObj _ (ToStr s) _ => Some (Returned (Some s))
  | JObj _ ToSym _ | JSymbol _ => Some (Returned None)
  | JObj _ (ConversionThrows t) _ => Some (Threw t)
  end.

(* ===================================================================== *)
(** ** [_context.ts]: the execution context *)
(* ===================================================================== *)

(** A snapshot is a frozen plain object: its own properties are a finite
    map from keys to values, and it inherits from [Object.prototype]. *)
Abbreviation Snapshot := (gmap string JsValue).

(** The names of the properties of [Object.prototype]. *)
Definition Object_prototype_names : list string :=
  ["constructor"; "__defineGetter__"; "__defineSetter__"; "hasOwnProperty";
   "__lookupGetter__"; "__lookupSetter__"; "isPrototypeOf";
   "propertyIsEnumerable"; "toString"; "valueOf"; "__proto__";
   "toLocaleString"].

(** [key in ctx] for a property key: own or inherited; a snapshot has no
    property named by a symbol. *)
Definition has_property (ctx : Snapshot) (key : option string) : bool :=
  match key with
  | Some s =>
      bool_decide (is_Some (ctx !! s))
      || bool_decide (s ∈ Object_prototype_names)
  | None => false
  end.

Module Context.

(** [deepFreeze(value)] where the traversal of the object being frozen
    reaches [value]: only objects that are not frozen yet are entered, and
    what is thrown inside propagates. *)
Definition deepFreeze (value : JsValue) : option Thrown :=
  match value with
  | JObj _ _ freezing => freezing
  | _ => None
  end.

(** [reset(initialValue)]: the object assigned to [#object], unless
    [deepFreeze] throws. *)
Definition reset (initialValue : JsValue) : Outcome Snapshot :=
  match initialValue with
  | JUndefined | JNull => Returned {[ "initial" := JUndefined ]}
  | v =>
      match deepFreeze v with
      | Some t => Threw t
      | None => Returned {[ "initial" := v ]}
      end
  end.

(** [{ ...this.#object, ...updateValue }]. *)
Definition merge (object updateValue : Snapshot) : Snapshot :=
  updateValue ∪ object.

(** The body of the closure queued by [update({ [key]: value })]:
    [deepFreeze({ ...this.#object, ...updateValue })].  The values of
    [#object] are frozen already and are not entered again. *)
Definition update (object : Snapshot) (key : string) (value : JsValue)
    : Outcome Snapshot :=
  match deepFreeze value with
  | Some t => Threw t
  | None => Returned (merge object {[ key := value ]})
  end.

End Context.

(* ===================================================================== *)
(** ** [_dependency-map.ts] *)
(* ===================================================================== *)

Module DependencyMap.

Abbreviation t := (gmap string (list string)).

Definition empty : t := ∅.

Definition get (m : t) (key : string) : list string :=
  default [] (m !! key).

Definition add (m : t) (key value : string) : t :=
  <[ key := get m key ++ [value] ]> m.

End DependencyMap.


(* ===================================================================== *)
(** ** Synchronous code that may throw *)
(* ===================================================================== *)

Inductive Result (A : Type) :=
| Ok (a : A)
| Throws (e : JsError).
Arguments Ok {A} a.
Arguments Throws {A} e.

#[global] Instance Result_ret : MRet Result := fun A a => Ok a.

#[global] Instance Result_bind : MBind Result := fun A B k r =>
  match r with
  | Ok a => k a
  | Throws e => Throws e
  end.

(** [if (cond) throw new Error(msg);] followed by the rest of the body. *)
Definition throw_if {A} (cond : bool) (msg : string) (rest : Result A) : Result A :=
  if cond then Throws (Error msg) else rest.

Definition is_Ok {A} (r : Result A) : bool :=
  match r with Ok _ => true | Throws _ => false end.

(* ===================================================================== *)
(** ** [error.ts] and the types of [_node.ts] *)
(* ===================================================================== *)

(** [class NodeError extends Error { id; error }]; its message is
    [`Node ${id} failed: ${error.message}`]. *)
Record NodeError := { ne_id : string; ne_error : JsError }.

(** [type NodeStatus = "pending" | "running" | "completed" | "failed" | "skipped"]. *)
Module NodeStatus.

Inductive t := pending | running | completed | failed | skipped.

#[global] Instance eq_dec : EqDecision t.
Proof. solve_decision. Defined.

End NodeStatus.

(** [NodeCompletionEvent], without its wall-clock fields. *)
Record NodeCompletionEvent := {
  ev_nodeId : string;
  ev_status : NodeStatus.t;
  ev_result : option JsValue;
  ev_error : option NodeError;
  ev_context : Snapshot
}.

Record RetryPolicy := { maxRetries : JsValue; retryDelayMs : JsValue }.

(** [enabled?: boolean | ((ctx) => boolean)]; the callback may throw. *)
Inductive Enabled :=
| EnabledBool (b : bool)
| EnabledFn (f : Snapshot -> Outcome bool).

Module NodeOptions.

(** [execute] is indexed by the number of calls made before (0 for the
    initial call). *)
Record t := {
  id : string;
  dependencies : option (list JsValue);
  enabled : option Enabled;
  retryPolicy : option RetryPolicy;
  execute : nat -> Snapshot -> Outcome JsValue;
  errorHandler : option (JsError -> Snapshot -> Outcome unit);
  onCompleted : option (NodeCompletionEvent -> Outcome unit)
}.

End NodeOptions.

(* ===================================================================== *)
(** ** [_node.ts]: class [Node] *)
(* ===================================================================== *)

Module Node.

(** The private fields [#options] and [#retryPolicy].  The mutable field
    [#status] is kept in the store of the scheduler, keyed by node. *)
Record t := {
  options : NodeOptions.t;
  retryPolicy : RetryPolicy
}.

Definition defaultRetryPolicy : RetryPolicy :=
  {| maxRetries := JNum (Finite 0); retryDelayMs := JNum (Finite 0) |}.

(** [#validateRetryPolicy]. *)
Definition validateRetryPolicy (p : RetryPolicy) : Result unit :=
  throw_if (negb (typeof_number (maxRetries p))
            || js_lt_zero (maxRetries p)
            || negb (Number_isInteger (maxRetries p)))
    "maxRetries must be a non-negative integer"
  (throw_if (negb (typeof_number (retryDelayMs p))
             || js_lt_zero (retryDelayMs p))
    "retryDelayMs must be a non-negative number"
  (Ok tt)).

(** The constructor. *)
Definition new (o : NodeOptions.t) : Result t :=
  match NodeOptions.retryPolicy o with
  | Some p =>
      _ ← validateRetryPolicy p;
      Ok {| options := o; retryPolicy := p |}
  | None => Ok {| options := o; retryPolicy := defaultRetryPolicy |}
  end.

Definition id (n : t) : string := NodeOptions.id (options n).

Definition onCompleted (n : t) := NodeOptions.onCompleted (options n).

(** [dep in ctx] for an element of the dependency list; [None] where the
    model does not determine the property key. *)
Definition dep_in (dep : JsValue) (ctx : Snapshot) : option (Outcome bool) :=
  match ToPropertyKey dep with
  | Some (Returned key) => Some (Returned (has_property ctx key))
  | Some (Threw t) => Some (Threw t)
  | None => None
  end.

(** The loop of [isEnabled] over the dependencies: [Returned true] when it
    executes [return true], [Returned false] when it runs to its end. *)
Fixpoint missing_dependency (deps : list JsValue) (ctx : Snapshot)
    : option (Outcome bool) :=
  match deps with
  | [] => Some (Returned false)
  | dep :: rest =>
      match dep_in dep ctx with
      | Some (Returned true) => missing_dependency rest ctx
      | Some (Returned false) => Some (Returned true)
      | Some (Threw t) => Some (Threw t)
      | None => None
      end
  end.

(** The method [isEnabled(ctx?, skipCallbackIfMissingDeps = false)];
    [None] where [dep_in] is. *)
Definition isEnabled (n : t) (ctx : option Snapshot)
    (skipCallbackIfMissingDeps : bool) : option (Outcome bool) :=
  match NodeOptions.enabled (options n) with
  | None => Some (Returned true)
  | Some (EnabledBool b) => Some (Returned b)
  | Some (EnabledFn f) =>
      match ctx with
      | None =>
          Some (Threw (ThrowError (Error
            ("Context is required to evaluate enabled function for node "
             +:+ id n))))
      | Some c =>
          match
            (if skipCallbackIfMissingDeps
             then missing_dependency
                    (default [] (NodeOptions.dependencies (options n))) c
             else Some (Returned false))
          with
          | Some (Returned true) => Some (Returned true)
          | Some (Returned false) => Some (f c)
          | Some (Threw t) => Some (Threw t)
          | None => None
          end
      end
  end.

(** The getter [enabledType]. *)
Definition enabledType (n : t) : string :=
  match NodeOptions.enabled (options n) with
  | None | Some (EnabledBool true) => "enabled"
  | Some (EnabledBool false) => "disabled"
  | Some (EnabledFn _) => "conditional"
  end.

(** [maxRetries] of a validated policy as a counter. *)
Definition maxRetries_nat (n : t) : nat :=
  match maxRetries (retryPolicy n) with
  | JNum (Finite q) => Z.to_nat (Qnum q / Z.pos (Qden q))
  | _ => 0
  end.

(** The double nearest to a natural number, ties going to the even
    significand of 53 bits. *)
Definition round_double (x : N) : N :=
  if (x <=? two53)%N then x
  else
    let unit := (2 ^ (N.log2 x - 52))%N in
    let q := (x / unit)%N in
    let rest := (x mod unit)%N in
    if (2 * rest <? unit)%N then (q * unit)%N
    else if (unit <? 2 * rest)%N then ((q + 1) * unit)%N
    else if N.even q then (q * unit)%N else ((q + 1) * unit)%N.

(** [x + 1] and [x++] on a double that holds a natural number: exact up
    to [2^53], where the sum is rounded back to [2^53]. *)
Definition plus_one (x : nat) : nat :=
  N.to_nat (round_double (N.of_nat x + 1)).

(** What one call of [run] did and how its promise settled. *)
Record RunResult := {
  status : option NodeStatus.t;         (* last value written to [#status] *)
  settled : option (Outcome JsValue);  (* resolved value or rejection;
                                          [None]: not settled as far as the
                                          model follows the call *)
  executeCalls : nat;                  (* invocations of [execute] *)
  handled : list (JsError * Outcome unit)
                                       (* invocations of [errorHandler] *)
}.

(** [err instanceof Error ? err : new Error(`Non error throw: ${String(err)}`)],
    evaluated after the template literal before it has converted [err]. *)
Definition as_Error (err : Thrown) : JsError :=
  match err with
  | ThrowError e => e
  | ThrowValue v => NonErrorThrow v
  end.

(** A [console.error] whose template literal throws [t]: the exception
    leaves [run] from inside the [catch] block, after [calls] invocations
    of [execute], with the status still [running]. *)
Definition escaped (t : Thrown) (calls : nat)
    (handled : list (JsError * Outcome unit)) : RunResult :=
  {| status := Some NodeStatus.running; settled := Some (Threw t);
     executeCalls := calls; handled := handled |}.

(** The [catch] block of [run] when [attempt === maxRetries]. *)
Definition last_attempt (n : t) (ctx : Snapshot) (err : Thrown) (calls : nat)
    : RunResult :=
  match interpolate err with
  | Some t => escaped t calls []
  | None =>
      let error := as_Error err in
      let failed handled :=
        {| status := Some NodeStatus.failed;
           settled := Some (Threw (ThrowError error));
           executeCalls := calls; handled := handled |} in
      match NodeOptions.errorHandler (options n) with
      | Some handler =>
          match handler error ctx with
          | Returned u => failed [(error, Returned u)]
          | Threw thrown =>
              (* [console.error(`Error in node error handler ...: ${error}`)] *)
              match interpolate thrown with
              | Some t => escaped t calls [(error, Threw thrown)]
              | None => failed [(error, Threw thrown)]
              end
          end
      | None => failed []
      end
  end.

(** The [for] loop of [run], followed for [fuel] turns; [attempt] is the
    loop variable and [calls] the number of invocations of [execute] so
    far. *)
Fixpoint run_loop (n : t) (ctx : Snapshot) (fuel attempt calls : nat)
    : RunResult :=
  match fuel with
  | 0 =>
      {| status := Some NodeStatus.running; settled := None;
         executeCalls := calls; handled := [] |}
  | S fuel' =>
      if (attempt <? plus_one (maxRetries_nat n))%nat then
        match NodeOptions.execute (options n) calls ctx with
        | Returned result =>
            {| status := Some NodeStatus.completed;
               settled := Some (Returned result);
               executeCalls := S calls; handled := [] |}
        | Threw err =>
            if (attempt =? maxRetries_nat n)%nat then
              last_attempt n ctx err (S calls)
            else
              (* [console.error(`Node failed, retrying ...: ${err}`)] *)
              match interpolate err with
              | Some t => escaped t (S calls) []
              | None => run_loop n ctx fuel' (plus_one attempt) (S calls)
              end
        end
      else
        {| status := if (calls =? 0)%nat then None
                     else Some NodeStatus.running;
           settled :=
             Some (Threw (ThrowError (Error "Unexpected end of run method")));
           executeCalls := calls; handled := [] |}
  end.

(** The turns of the loop that the model follows: all of them when
    [maxRetries] is at most [2^53].  Above, [attempt++] stops changing
    [attempt] at [2^53], the loop goes on for as long as [execute] throws,
    and the model stops after [2^53 + 1] turns. *)
Definition run_fuel (n : t) : nat :=
  N.to_nat (N.min (N.of_nat (maxRetries_nat n) + 1) two53 + 1).

(** [async run(ctx)]. *)
Definition run (n : t) (ctx : Snapshot) : RunResult :=
  match isEnabled n (Some ctx) false with
  | Some (Threw t) =>
      {| status := None; settled := Some (Threw t);
         executeCalls := 0; handled := [] |}
  | Some (Returned false) =>
      {| status := Some NodeStatus.skipped; settled := Some (Returned JNull);
         executeCalls := 0; handled := [] |}
  | Some (Returned true) => run_loop n ctx (run_fuel n) 0 0
  | None =>
      {| status := None; settled := None; executeCalls := 0; handled := [] |}
  end.

End Node.

(* ===================================================================== *)
(** ** A JavaScript [Map] with string keys, in insertion order *)
(* ===================================================================== *)

Module JsMap.

Section ops.
Context {V : Type}.

Fixpoint get (m : list (string * V)) (k : string) : option V :=
  match m with
  | [] => None
  | (k', v) :: m' => if decide (k' = k) then Some v else get m' k
  end.

Definition has (m : list (string * V)) (k : string) : bool :=
  match get m k with Some _ => true | None => false end.

(** [set] keeps the position of a key that is already present. *)
Fixpoint set (m : list (string * V)) (k : string) (v : V) : list (string * V) :=
  match m with
  | [] => [(k, v)]
  | (k', v') :: m' =>
      if decide (k' = k) then (k', v) :: m' else (k', v') :: set m' k v
  end.

Definition keys (m : list (string * V)) : list string := m.*1.

Definition size (m : list (string * V)) : nat := length m.

End ops.

End JsMap.

(* ===================================================================== *)
(** ** [workflow.ts]: class [WorkflowRunner], its fields *)
(* ===================================================================== *)

(** A context factory takes no argument: its behaviour is the outcome of
    calling and awaiting it. *)
Definition Factory := Outcome JsValue.

(** [onNodesCompleted(ctx, errors)]. *)
Definition CompletionHook :=
  Snapshot -> option (list NodeError) -> Outcome unit.

Module WorkflowRunner.

Record t := {
  contextValueOrFactory : FunOr Factory;
  topologicalOrder : list string;
  nodes : list (string * Node.t);
  nodeDependencies : DependencyMap.t;
  onNodesCompleted : FunOr CompletionHook
}.

End WorkflowRunner.

(* ===================================================================== *)
(** ** [workflow.ts]: class [Workflow] *)
(* ===================================================================== *)

(** Non-structural recursion is bounded by fuel; [OutOfFuel] is not a
    behaviour of the source and is shown not to occur. *)
Inductive Fueled (A : Type) :=
| Ran (a : A)
| OutOfFuel.
Arguments Ran {A} a.
Arguments OutOfFuel {A}.

(** State of [#topologicalSort]: the sets [visited] and [temp] and the
    array [#topologicalOrder]. *)
Record SortState := {
  visited : gset string;
  temp : gset string;
  order : list string
}.

Inductive SortResult :=
| Sorted (st : SortState)
| Circular (nodeId : string)     (* "Circular dependency detected involving node ..." *)
| SortOutOfFuel.

Module Workflow.

Record t := {
  contextValueOrFactory : FunOr Factory;
  nodes : list (string * Node.t);
  nodeDependencies : DependencyMap.t;
  topologicalOrder : list string
}.

(** The constructor argument when it is an object; a field is [None] when
    the key is not [in] the object. *)
Record Options := {
  contextValue : option (FunOr Factory);
  contextFactory : option (FunOr Factory)
}.

Definition is_undefined {F} (x : FunOr F) : bool :=
  match x with NotFun JUndefined => true | _ => false end.

Definition with_context (x : FunOr Factory) : t :=
  {| contextValueOrFactory := x; nodes := [];
     nodeDependencies := DependencyMap.empty; topologicalOrder := [] |}.

(** The constructor. *)
Definition new (options : option Options) : Result t :=
  match options with
  | None => Ok (with_context (NotFun JUndefined))
  | Some o =>
      match contextValue o, contextFactory o with
      | Some _, Some _ =>
          Throws (Error "Cannot specify both contextValue and contextFactory")
      | Some v, None =>
          if is_undefined v then Ok (with_context (NotFun JUndefined))
          else
            throw_if (typeof_function v) "Context value must not be a function"
              (Ok (with_context v))
      | None, Some f =>
          throw_if (negb (typeof_function f))
            "Context factory must be a function that returns a value or Promise"
            (Ok (with_context f))
      | None, None => Ok (with_context (NotFun JUndefined))
      end
  end.

Definition size (w : t) : nat := JsMap.size (nodes w).

Definition set_nodeDependencies (w : t) (d : DependencyMap.t) : t :=
  {| contextValueOrFactory := contextValueOrFactory w; nodes := nodes w;
     nodeDependencies := d; topologicalOrder := topologicalOrder w |}.

Definition set_nodes (w : t) (m : list (string * Node.t)) : t :=
  {| contextValueOrFactory := contextValueOrFactory w; nodes := m;
     nodeDependencies := nodeDependencies w;
     topologicalOrder := topologicalOrder w |}.

Definition set_topologicalOrder (w : t) (o : list string) : t :=
  {| contextValueOrFactory := contextValueOrFactory w; nodes := nodes w;
     nodeDependencies := nodeDependencies w; topologicalOrder := o |}.

(** The loop over [options.dependencies ?? []] in [addNode].  A [throw]
    leaves the edges recorded so far in the dependency map. *)
Fixpoint addDependencies (w : t) (nodeId : string) (deps : list JsValue)
    : t * option JsError :=
  match deps with
  | [] => (w, None)
  | JStr depId :: rest =>
      if decide (depId = nodeId) then
        (w, Some (Error ("Node " +:+ nodeId +:+ " cannot depend on itself")))
      else
        match JsMap.get (nodes w) depId with
        | None =>
            (w, Some (Error ("Dependency " +:+ depId +:+ " not found for node "
                             +:+ nodeId)))
        | Some _ =>
            addDependencies
              (set_nodeDependencies w
                 (DependencyMap.add (nodeDependencies w) nodeId depId))
              nodeId rest
        end
  | _ :: _ => (w, Some (Error "Dependency ID must be a string"))
  end.

(** [addNode(options)]: the builder after the call, and the error thrown if
    any; without an error the call returns [this]. *)
Definition addNode (w : t) (options : NodeOptions.t) : t * option JsError :=
  let nodeId := NodeOptions.id options in
  if decide (nodeId = "initial") then
    (w, Some (Error ("Node with id '" +:+ nodeId
                     +:+ "' cannot be created. 'initial' is a reserved keyword.")))
  else if JsMap.has (nodes w) nodeId then
    (w, Some (Error ("Node with id " +:+ nodeId +:+ " already exists")))
  else
    match Node.new options with
    | Throws e => (w, Some e)
    | Ok node =>
        match addDependencies w nodeId
                (default [] (NodeOptions.dependencies options)) with
        | (w', Some e) => (w', Some e)
        | (w', None) => (set_nodes w' (JsMap.set (nodes w') nodeId node), None)
        end
    end.

(** [for (const depId of deps) visit(depId)]. *)
Fixpoint visit_each (visit : string -> SortState -> SortResult)
    (deps : list string) (st : SortState) : SortResult :=
  match deps with
  | [] => Sorted st
  | depId :: rest =>
      match visit depId st with
      | Sorted st' => visit_each visit rest st'
      | r => r
      end
  end.

(** The closure [visit] of [#topologicalSort]. *)
Fixpoint visit (fuel : nat) (deps : DependencyMap.t) (nodeId : string)
    (st : SortState) : SortResult :=
  match fuel with
  | 0 => SortOutOfFuel
  | S fuel' =>
      if decide (nodeId ∈ temp st) then Circular nodeId
      else if decide (nodeId ∈ visited st) then Sorted st
      else
        match visit_each (visit fuel' deps) (DependencyMap.get deps nodeId)
                {| visited := visited st; temp := {[nodeId]} ∪ temp st;
                   order := order st |} with
        | Sorted st' =>
            Sorted {| visited := {[nodeId]} ∪ visited st';
                      temp := temp st' ∖ {[nodeId]};
                      order := order st' ++ [nodeId] |}
        | r => r
        end
  end.

(** [for (const nodeId of this.#nodes.keys()) if (!visited.has(nodeId)) visit(nodeId)]. *)
Definition visit_roots (fuel : nat) (deps : DependencyMap.t)
    (roots : list string) (st : SortState) : SortResult :=
  visit_each
    (fun nodeId st =>
       if decide (nodeId ∈ visited st) then Sorted st
       else visit fuel deps nodeId st)
    roots st.

(** Every identifier the sort can meet: the keys of the node map and the
    identifiers stored in the dependency map. *)
Definition mentioned (w : t) : gset string :=
  list_to_set (JsMap.keys (nodes w))
  ∪ ⋃ ((fun kv => list_to_set (C := gset string) kv.2)
        <$> map_to_list (nodeDependencies w)).

(** The recursion of [visit] is at most one deeper than the number of
    identifiers on the path, so this fuel is never exhausted. *)
Definition sort_fuel (w : t) : nat := S (base.size (mentioned w)).

(** [#topologicalSort()]: pushes onto the array the builder already has. *)
Definition topologicalSort (w : t) : SortResult :=
  visit_roots (sort_fuel w) (nodeDependencies w) (JsMap.keys (nodes w))
    {| visited := ∅; temp := ∅; order := topologicalOrder w |}.

(** [build({ onNodesCompleted })]: the builder after the call and the runner. *)
Definition build (w : t) (onNodesCompleted : FunOr CompletionHook)
    : Fueled (Result (t * WorkflowRunner.t)) :=
  if (size w =? 0)%nat then
    Ran (Throws (Error
      "Unable to build WorkflowRunner. No nodes added to the workflow"))
  else if truthy_or onNodesCompleted && negb (typeof_function onNodesCompleted)
  then Ran (Throws (Error "onNodesCompleted must be a function (sync or async)."))
  else
    match topologicalSort w with
    | SortOutOfFuel => OutOfFuel
    | Circular nodeId =>
        Ran (Throws (Error ("Circular dependency detected involving node "
                            +:+ nodeId)))
    | Sorted st =>
        let w' := set_topologicalOrder w (order st) in
        Ran (Ok (w',
                 {| WorkflowRunner.contextValueOrFactory := contextValueOrFactory w';
                    WorkflowRunner.topologicalOrder := topologicalOrder w';
                    WorkflowRunner.nodes := nodes w';
                    WorkflowRunner.nodeDependencies := nodeDependencies w';
                    WorkflowRunner.onNodesCompleted := onNodesCompleted |}))
    end.

End Workflow.


(* ===================================================================== *)
(** ** [workflow.ts]: [WorkflowRunner.#run] and [trigger] *)
(* ===================================================================== *)

Module Scheduler.

(** Where an in-flight call of the closure [runNode] is suspended. *)
Inductive Phase :=
| InRun (r : Node.RunResult)      (* [await node.run(this.#context.value)] *)
| InUpdate (result : JsValue)     (* [await this.#context.update({ [nodeId]: result })] *)
| UpdateRejected (reason : Thrown)
                                  (* the same [await], the promise of
                                     [update] being rejected *)
| InHook.                         (* [await node.onCompleted(event)] *)

(** Where the [while] loop of [#run] is. *)
Inductive Loop :=
| Iterating                       (* about to evaluate the loop condition *)
| Racing (ids : list string)      (* [await Promise.race(running.values())] *)
| Exited                          (* left the loop *)
| Crashed (e : JsError).          (* [#run] rejected from inside the loop *)

(** One call of [node.run] as the scheduler issued it. *)
Record Call := {
  call_id : string;
  call_ctx : Snapshot;
  call_result : Node.RunResult
}.

Record State := {
  (* [Context]: the frozen object, the closures queued behind it, and the
     reason with which the promise [#updateQueue] is rejected once a
     closure has thrown *)
  object : Snapshot;
  updateQueue : list (string * JsValue);
  queueRejected : option Thrown;
  (* [Node.#status] of the node registered under each key *)
  status : gmap string NodeStatus.t;
  (* locals of [#run] *)
  completed : gset string;
  running : gmap string Phase;
  readyNodes : list string;
  loop : Loop;
  (* [WorkflowRunner.#errors] *)
  errors : list NodeError;
  (* observations: calls of [node.run] and events handed to [onCompleted] *)
  calls : list Call;
  events : list NodeCompletionEvent
}.

Definition status_of (s : gmap string NodeStatus.t) (nodeId : string) : NodeStatus.t :=
  default NodeStatus.pending (s !! nodeId).

(** [set.add(x)] on an insertion-ordered [Set]. *)
Definition Set_add (l : list string) (x : string) : list string :=
  if decide (x ∈ l) then l else l ++ [x].

(** [node.isEnabled] read as a property in [workflow.ts]: [isEnabled] is a
    method of [Node], so the expression is the function object itself. *)
Definition isEnabled_property (n : Node.t)
    : FunOr (option Snapshot -> bool -> option (Outcome bool)) :=
  IsFun (Node.isEnabled n).

(** The state [s] with other statuses of the nodes. *)
Definition set_status (s : State) (st : gmap string NodeStatus.t) : State :=
  {| object := object s; updateQueue := updateQueue s;
     queueRejected := queueRejected s; status := st;
     completed := completed s; running := running s;
     readyNodes := readyNodes s; loop := loop s; errors := errors s;
     calls := calls s; events := events s |}.

Section run.

Variable r : WorkflowRunner.t.

Abbreviation nodes := (WorkflowRunner.nodes r).
Abbreviation deps := (WorkflowRunner.nodeDependencies r).

(** The callback of [every] in the readiness scan. *)
Definition dependency_done (s : State) (depId : string) : bool :=
  match JsMap.get nodes depId with
  | Some depNode =>
      bool_decide (depId ∈ completed s)
      && bool_decide (status_of (status s) depId = NodeStatus.completed)
      && truthy_or (isEnabled_property depNode)
  | None => false
  end.

(** [canRun] of the readiness scan. *)
Definition canRun (s : State) (n : Node.t) : bool :=
  truthy_or (isEnabled_property n)
  && forallb (dependency_done s) (DependencyMap.get deps (Node.id n)).

(** The scan in the [finally] block of [runNode]; [s] is read, [ready] grows. *)
Fixpoint scan (s : State) (ns : list (string * Node.t)) (ready : list string)
    : list string :=
  match ns with
  | [] => ready
  | (id, n) :: ns' =>
      scan s ns'
        (if bool_decide (id ∉ completed s) && bool_decide (running s !! id = None)
            && canRun s n
         then Set_add ready id else ready)
  end.

(** The [finally] block of [runNode]. *)
Definition finally (s : State) (nodeId : string) : State :=
  let s1 :=
    {| object := object s; updateQueue := updateQueue s;
       queueRejected := queueRejected s; status := status s;
       completed := completed s; running := delete nodeId (running s);
       readyNodes := readyNodes s; loop := loop s; errors := errors s;
       calls := calls s; events := events s |} in
  {| object := object s1; updateQueue := updateQueue s1;
     queueRejected := queueRejected s1; status := status s1;
     completed := completed s1; running := running s1;
     readyNodes := scan s1 nodes (readyNodes s1); loop := loop s1;
     errors := errors s1; calls := calls s1; events := events s1 |}.

(** After [completed.add(nodeId)]: call the node's [onCompleted] with
    [event] if it has one and wait for it, otherwise fall into [finally].
    What the hook returns or throws is dropped by the [try]/[catch]. *)
Definition notify (s : State) (nodeId : string) (n : Node.t)
    (event : NodeCompletionEvent) : State :=
  match Node.onCompleted n with
  | Some _ =>
      {| object := object s; updateQueue := updateQueue s;
         queueRejected := queueRejected s; status := status s;
         completed := completed s; running := <[nodeId := InHook]> (running s);
         readyNodes := readyNodes s; loop := loop s; errors := errors s;
         calls := calls s; events := events s ++ [event] |}
  | None => finally s nodeId
  end.

(** [runNode(nodeId)] up to its first suspension, at [await node.run(...)]:
    [node.run] checks enablement and makes the first call of [execute]
    with the snapshot current at that moment. *)
Definition start (s : State) (nodeId : string) : State :=
  match JsMap.get nodes nodeId with
  | None =>
      {| object := object s; updateQueue := updateQueue s;
         queueRejected := queueRejected s; status := status s;
         completed := completed s; running := running s;
         readyNodes := readyNodes s;
         loop := Crashed (Error ("Node " +:+ nodeId +:+ " not found"));
         errors := errors s; calls := calls s; events := events s |}
  | Some n =>
      let res := Node.run n (object s) in
      {| object := object s; updateQueue := updateQueue s;
         queueRejected := queueRejected s;
         status :=
           match Node.status res with
           | None => status s
           | Some NodeStatus.skipped => <[nodeId := NodeStatus.skipped]> (status s)
           | Some _ => <[nodeId := NodeStatus.running]> (status s)
           end;
         completed := completed s;
         running := <[nodeId := InRun res]> (running s);
         readyNodes := readyNodes s; loop := loop s; errors := errors s;
         calls := calls s ++ [{| call_id := nodeId; call_ctx := object s;
                                 call_result := res |}];
         events := events s |}
  end.

(** [for (const nodeId of readyNodes) { readyNodes.delete(nodeId); ... }]. *)
Definition start_ready (s : State) : State :=
  foldl start
    {| object := object s; updateQueue := updateQueue s;
       queueRejected := queueRejected s; status := status s;
       completed := completed s; running := running s; readyNodes := [];
       loop := loop s; errors := errors s; calls := calls s;
       events := events s |}
    (readyNodes s).

Definition set_loop (s : State) (l : Loop) : State :=
  {| object := object s; updateQueue := updateQueue s;
     queueRejected := queueRejected s; status := status s;
     completed := completed s; running := running s;
     readyNodes := readyNodes s; loop := l; errors := errors s;
     calls := calls s; events := events s |}.

(** One turn of the [while] loop, from its condition to its [await] or exit. *)
Definition iterate (s : State) : State :=
  if (size (completed s) <? JsMap.size nodes)%nat then
    let s' := start_ready s in
    match loop s' with
    | Crashed _ => s'
    | _ =>
        if (0 <? size (running s'))%nat
        then set_loop s' (Racing (elements (dom (running s'))))
        else set_loop s' Exited
    end
  else set_loop s Exited.

(** The continuations that the event loop can run next. *)
Inductive Event :=
| Resume                          (* the [while] loop: first turn, or [Promise.race] settled *)
| Settle (nodeId : string)        (* [node.run] of the node settled *)
| Apply                           (* the update queue comes to its oldest closure *)
| Continue (nodeId : string)      (* the node's [context.update] promise settled *)
| Finish (nodeId : string).       (* the node's [onCompleted] settled *)

(** The [catch] block of [runNode], entered with [err] from a rejected
    [node.run] or a rejected [context.update]. *)
Definition fail (s : State) (nodeId : string) (n : Node.t) (err : Thrown)
    : State :=
  let nodeError :=
    match err with
    | ThrowError e => Some {| ne_id := nodeId; ne_error := e |}
    | ThrowValue _ => None
    end in
  notify
    {| object := object s; updateQueue := updateQueue s;
       queueRejected := queueRejected s; status := status s;
       completed := {[nodeId]} ∪ completed s; running := running s;
       readyNodes := readyNodes s; loop := loop s;
       errors := errors s ++ option_list nodeError;
       calls := calls s; events := events s |}
    nodeId n
    {| ev_nodeId := nodeId; ev_status := NodeStatus.failed; ev_result := None;
       ev_error := nodeError; ev_context := object s |}.

(** [runNode] after [await node.run(...)]; the status is the one that
    [run] wrote last. *)
Definition settle (s : State) (nodeId : string) (n : Node.t)
    (res : Node.RunResult) : State :=
  let st := match Node.status res with
            | Some x => <[nodeId := x]> (status s)
            | None => status s
            end in
  match Node.settled res with
  | Some (Returned result) =>
      {| object := object s;
         updateQueue := updateQueue s ++ [(nodeId, result)];
         queueRejected := queueRejected s;
         status := st; completed := completed s;
         running := <[nodeId := InUpdate result]> (running s);
         readyNodes := readyNodes s; loop := loop s; errors := errors s;
         calls := calls s; events := events s |}
  | Some (Threw err) => fail (set_status s st) nodeId n err
  | None => s
  end.

(** [runNode] after [await this.#context.update(...)] when the promise
    resolved. *)
Definition continue (s : State) (nodeId : string) (n : Node.t)
    (result : JsValue) : State :=
  notify
    {| object := object s; updateQueue := updateQueue s;
       queueRejected := queueRejected s; status := status s;
       completed := {[nodeId]} ∪ completed s; running := running s;
       readyNodes := readyNodes s; loop := loop s; errors := errors s;
       calls := calls s; events := events s |}
    nodeId n
    {| ev_nodeId := nodeId; ev_status := NodeStatus.completed; ev_result := Some result;
       ev_error := None; ev_context := object s |}.

(** The promise that [update] returned to the node is rejected. *)
Definition reject_update (s : State) (nodeId : string)
    (rest : list (string * JsValue)) (reason : Thrown) : State :=
  {| object := object s; updateQueue := rest; queueRejected := Some reason;
     status := status s; completed := completed s;
     running := <[nodeId := UpdateRejected reason]> (running s);
     readyNodes := readyNodes s; loop := loop s; errors := errors s;
     calls := calls s; events := events s |}.

(** The queue comes to the closure queued by [Context.update]: it is run
    unless the promise before it is rejected, and a closure that throws
    rejects its promise and with it every later one. *)
Definition apply_update (s : State) (u : string * JsValue)
    (rest : list (string * JsValue)) : State :=
  match queueRejected s with
  | Some reason => reject_update s u.1 rest reason
  | None =>
      match Context.update (object s) u.1 u.2 with
      | Returned o =>
          {| object := o; updateQueue := rest;
             queueRejected := queueRejected s; status := status s;
             completed := completed s; running := running s;
             readyNodes := readyNodes s; loop := loop s; errors := errors s;
             calls := calls s; events := events s |}
      | Threw reason => reject_update s u.1 rest reason
      end
  end.

(** One step of the event loop; [None] when the continuation named by the
    event is not runnable in [s]. *)
Definition step (s : State) (e : Event) : option State :=
  match e with
  | Resume =>
      match loop s with
      | Iterating => Some (iterate s)
      | Racing ids =>
          if existsb (fun id => bool_decide (running s !! id = None)) ids
          then Some (iterate s) else None
      | Exited | Crashed _ => None
      end
  | Settle nodeId =>
      match running s !! nodeId, JsMap.get nodes nodeId with
      | Some (InRun res), Some n =>
          match Node.settled res with
          | Some _ => Some (settle s nodeId n res)
          | None => None
          end
      | _, _ => None
      end
  | Apply =>
      match updateQueue s with
      | u :: rest => Some (apply_update s u rest)
      | [] => None
      end
  | Continue nodeId =>
      match running s !! nodeId, JsMap.get nodes nodeId with
      | Some (InUpdate result), Some n =>
          if bool_decide (nodeId ∈ (updateQueue s).*1) then None
          else Some (continue s nodeId n result)
      | Some (UpdateRejected reason), Some n => Some (fail s nodeId n reason)
      | _, _ => None
      end
  | Finish nodeId =>
      match running s !! nodeId with
      | Some InHook => Some (finally s nodeId)
      | _ => None
      end
  end.

(** Running a schedule. *)
Fixpoint exec (s : State) (schedule : list Event) : option State :=
  match schedule with
  | [] => Some s
  | e :: rest =>
      match step s e with
      | Some s' => exec s' rest
      | None => None
      end
  end.

(** The context object between runs: the constructor of [Context] and the
    [finally] block of [trigger] both leave [reset(undefined)] behind. *)
Definition idle_object : Snapshot := {[ "initial" := JUndefined ]}.

(** [#run] before its loop: the context is reset to the initial value only
    when [this.#contextValueOrFactory] is truthy. *)
Definition seed : Outcome Snapshot :=
  if truthy_or (WorkflowRunner.contextValueOrFactory r) then
    match WorkflowRunner.contextValueOrFactory r with
    | IsFun factory =>
        match factory with
        | Returned value => Context.reset value
        | Threw t => Threw t
        end
    | NotFun value => Context.reset value
    end
  else Returned idle_object.

(** The callback of [this.#topologicalOrder.filter]. *)
Fixpoint initial_ready (order : list string) : Result (list string) :=
  match order with
  | [] => Ok []
  | nodeId :: rest =>
      match JsMap.get nodes nodeId with
      | None => Throws (Error ("Node " +:+ nodeId +:+ " not found"))
      | Some node =>
          ready ← initial_ready rest;
          Ok (if truthy_or (isEnabled_property node)
                 && (length (DependencyMap.get deps nodeId) =? 0)%nat
              then nodeId :: ready else ready)
      end
  end.

(** [new Set(array)]: the first occurrence of each element, in order. *)
Definition Set_of (l : list string) : list string := foldl Set_add [] l.

(** What a runner carries from its earlier runs into a call of [trigger]:
    [status0] holds the statuses of the nodes, and [queue0] the reason with
    which the promise [#updateQueue] of its context is rejected, if it is
    (the context object and the error list are reset at the end of every
    run, the queue is not). *)
Definition init (status0 : gmap string NodeStatus.t) (queue0 : option Thrown)
    : Outcome State :=
  if (length (WorkflowRunner.topologicalOrder r) =? 0)%nat then
    Threw (ThrowError (Error
      "No nodes to run. Did you forget to call topologicalSort?"))
  else
    match seed with
    | Threw t => Threw t
    | Returned obj =>
        match initial_ready (WorkflowRunner.topologicalOrder r) with
        | Throws e => Threw (ThrowError e)
        | Ok ready =>
            Returned
              {| object := obj; updateQueue := []; queueRejected := queue0;
                 status := status0;
                 completed := ∅; running := ∅; readyNodes := Set_of ready;
                 loop := Iterating; errors := []; calls := []; events := [] |}
        end
    end.

(** What [trigger] hands back: how its promise settles, and the calls of
    the [onNodesCompleted] hook with their arguments. *)
Record Triggered := {
  promise : Outcome Snapshot;
  hookCalls : list (Snapshot * option (list NodeError));
  final : option State
}.

(** [#run] after its loop. *)
Definition conclude (s : State) : Triggered :=
  let errs := if (0 <? length (errors s))%nat then Some (errors s) else None in
  match loop s with
  | Crashed e =>
      {| promise := Threw (ThrowError e); hookCalls := []; final := Some s |}
  | _ =>
      if truthy_or (WorkflowRunner.onNodesCompleted r) then
        match WorkflowRunner.onNodesCompleted r with
        | IsFun hook =>
            {| promise :=
                 match hook (object s) errs with
                 | Returned _ => Returned (object s)
                 | Threw t => Threw t
                 end;
               hookCalls := [(object s, errs)];
               final := Some s |}
        | NotFun _ =>
            {| promise := Threw (ThrowError (Error
                 "this.#onNodesCompleted is not a function"));
               hookCalls := []; final := Some s |}
        end
      else {| promise := Returned (object s); hookCalls := []; final := Some s |}
  end.

Definition is_over (s : State) : bool :=
  match loop s with Exited | Crashed _ => true | _ => false end.

(** [trigger()] under a schedule: [None] when the schedule is not a complete
    run of the event loop (an event is not runnable where it stands, or the
    loop has not exited when the schedule ends). *)
Definition trigger (status0 : gmap string NodeStatus.t)
    (queue0 : option Thrown) (schedule : list Event) : option Triggered :=
  match init status0 queue0 with
  | Threw t => Some {| promise := Threw t; hookCalls := []; final := None |}
  | Returned s0 =>
      match exec s0 schedule with
      | Some s => if is_over s then Some (conclude s) else None
      | None => None
      end
  end.

End run.

End Scheduler.

(* ********************************************************************* *)
(** * Statements *)
(* ********************************************************************* *)

(* ===================================================================== *)
(** ** Statements about [Node]: the words of the specification *)
(* ===================================================================== *)

(** "a non-negative integer". *)
Definition nonneg_integer (v : JsValue) : Prop :=
  ∃ z : Z, (0 ≤ z)%Z ∧ ∃ q, v = JNum (Finite q) ∧ (q == inject_Z z)%Q.

(** "a non-negative number": a number that is at least zero. *)
Definition nonneg_number (v : JsValue) : Prop :=
  v = JNum PosInfinity ∨ ∃ q, v = JNum (Finite q) ∧ (0 <= q)%Q.

(** Options that differ from node to node in the examples below. *)
Definition node_options (id : string) (deps : list string)
    (enabled : option Enabled) (policy : option RetryPolicy)
    (execute : nat -> Snapshot -> Outcome JsValue) : NodeOptions.t :=
  {| NodeOptions.id := id;
     NodeOptions.dependencies := Some (JStr <$> deps);
     NodeOptions.enabled := enabled;
     NodeOptions.retryPolicy := policy;
     NodeOptions.execute := execute;
     NodeOptions.errorHandler := None;
     NodeOptions.onCompleted := None |}.

Definition policy (maxRetries : JsValue) (retryDelayMs : JsValue) : RetryPolicy :=
  {| maxRetries := maxRetries; retryDelayMs := retryDelayMs |}.

Definition int (z : Z) : JsValue := JNum (Finite (inject_Z z)).

(** [retryPolicy: { maxRetries: 0, retryDelayMs: NaN }]. *)
Definition nan_delay_options : NodeOptions.t :=
  node_options "n" [] None (Some (policy (int 0) (JNum NaN)))
    (fun _ _ => Returned JNull).

(** Attempt [k] of the node's [execute] on [ctx] throws. *)
Definition attempt_fails (n : Node.t) (ctx : Snapshot) (k : nat) : Prop :=
  ∃ t, NodeOptions.execute (Node.options n) k ctx = Threw t.

(** Attempt [k] throws something that the report of the failure can convert
    to a string. *)
Definition attempt_reported (n : Node.t) (ctx : Snapshot) (k : nat) : Prop :=
  ∃ t, NodeOptions.execute (Node.options n) k ctx = Threw t
       ∧ interpolate t = None.

(** How [run] ends when attempt [k] is the first to return, with [v]. *)
Definition completed_run (k : nat) (v : JsValue) : Node.RunResult :=
  {| Node.status := Some NodeStatus.completed;
     Node.settled := Some (Returned v);
     Node.executeCalls := k + 1; Node.handled := [] |}.

(** How [run] ends when the last of [calls] attempts threw [t], with
    [handled] telling the calls of the error handler. *)
Definition failed_run (t : Thrown) (calls : nat)
    (handled : list (JsError * Outcome unit)) : Node.RunResult :=
  {| Node.status := Some NodeStatus.failed;
     Node.settled := Some (Threw (ThrowError (Node.as_Error t)));
     Node.executeCalls := calls; Node.handled := handled |}.

(** The retry contract of [Node.run] as the specification words it; the
    last clause says the rejection is the very failure of the last attempt. *)
Definition retry_contract_as_specified (n : Node.t) (ctx : Snapshot) : Prop :=
  let m := Node.maxRetries_nat n in
  let res := Node.run n ctx in
  Node.executeCalls res ≤ m + 1
  ∧ (∀ k v, k ≤ m → (∀ j, j < k → attempt_fails n ctx j) →
       NodeOptions.execute (Node.options n) k ctx = Returned v →
       Node.status res = Some NodeStatus.completed
       ∧ Node.settled res = Some (Returned v))
  ∧ (∀ t, (∀ j, j < m → attempt_fails n ctx j) →
       NodeOptions.execute (Node.options n) m ctx = Threw t →
       Node.status res = Some NodeStatus.failed
       ∧ (∀ h, NodeOptions.errorHandler (Node.options n) = Some h →
            length (Node.handled res) = 1)
       ∧ Node.settled res = Some (Threw t)).

(** A node whose only attempt throws the string ["boom"]. *)
Definition throws_string : Node.t :=
  {| Node.options :=
       node_options "n" [] None None
         (fun _ _ => Threw (ThrowValue (JStr "boom")));
     Node.retryPolicy := Node.defaultRetryPolicy |}.

(** A node that fails twice and then returns ["success"], with two retries
    and an error handler that itself throws. *)
Definition flaky : Node.t :=
  {| Node.options :=
       {| NodeOptions.id := "retry-node";
          NodeOptions.dependencies := None;
          NodeOptions.enabled := None;
          NodeOptions.retryPolicy := Some (policy (int 2) (int 10));
          NodeOptions.execute := fun attempt _ =>
            if (attempt <? 2)%nat then Threw (ThrowError (Error "Failing"))
            else Returned (JStr "success");
          NodeOptions.errorHandler :=
            Some (fun _ _ => Threw (ThrowError (Error "handler")));
          NodeOptions.onCompleted := None |};
     Node.retryPolicy := policy (int 2) (int 10) |}.

(* ===================================================================== *)
(** ** Statements about the graph builder *)
(* ===================================================================== *)

(** [a] lists [b] among its dependencies. *)
Definition depends_on (deps : DependencyMap.t) (a b : string) : Prop :=
  b ∈ DependencyMap.get deps a.

(** [a] depends on [b] through one or more edges. *)
Definition depends_transitively (deps : DependencyMap.t) : relation string :=
  tc (depends_on deps).

(** A dependency cycle through a registered node. *)
Definition cyclic (w : Workflow.t) : Prop :=
  ∃ x, x ∈ JsMap.keys (Workflow.nodes w)
       ∧ depends_transitively (Workflow.nodeDependencies w) x x.

(** Every recorded edge leads to a registered node. *)
Definition edges_closed (w : Workflow.t) : Prop :=
  ∀ a b, depends_on (Workflow.nodeDependencies w) a b →
         b ∈ JsMap.keys (Workflow.nodes w).

(** [order] lists dependencies before dependents. *)
Definition dependencies_first (deps : DependencyMap.t) (order : list string)
    : Prop :=
  ∀ i j n d, order !! j = Some n → order !! i = Some d →
             depends_on deps n d → i < j.

(** The builders that the public interface can produce before [build]:
    the constructor followed by calls of [addNode], whether they return or
    throw. *)
Inductive constructed : Workflow.t → Prop :=
| constructed_new options w :
    Workflow.new options = Ok w → constructed w
| constructed_addNode w options :
    constructed w → constructed (Workflow.addNode w options).1.


(** The runners that [build] returns when it is called on a builder for
    the first time. *)
Definition built (r : WorkflowRunner.t) : Prop :=
  ∃ w hook w', constructed w ∧ Workflow.build w hook = Ran (Ok (w', r)).

(** The string identifiers of a dependency list. *)
Definition dep_strings (deps : list JsValue) : list string :=
  omap (fun d => match d with JStr s => Some s | _ => None end) deps.

(** The conditions under which the specification says [addNode] fails. *)
Definition rejected_by_specification (w : Workflow.t) (o : NodeOptions.t)
    : Prop :=
  let deps := default [] (NodeOptions.dependencies o) in
  NodeOptions.id o = "initial"
  ∨ JsMap.has (Workflow.nodes w) (NodeOptions.id o) = true
  ∨ JStr (NodeOptions.id o) ∈ deps
  ∨ (∃ d, d ∈ deps ∧ typeof_string d = false)
  ∨ (∃ s, JStr s ∈ deps ∧ JsMap.get (Workflow.nodes w) s = None).

(** "[addNode] throws exactly when" one of these conditions holds. *)
Definition addNode_throws_exactly_as_specified : Prop :=
  ∀ w o, is_Some (Workflow.addNode w o).2 ↔ rejected_by_specification w o.

(** A dependency identifier that the loop of [addNode] accepts. *)
Definition acceptable_dependency (w : Workflow.t) (nodeId : string)
    (d : JsValue) : Prop :=
  ∃ s, d = JStr s ∧ s ≠ nodeId ∧ is_Some (JsMap.get (Workflow.nodes w) s).

(** The invariant of the builders made through the public interface. *)
Record well_formed (w : Workflow.t) : Prop := {
  wf_NoDup : NoDup (JsMap.keys (Workflow.nodes w));
  wf_initial : "initial" ∉ JsMap.keys (Workflow.nodes w);
  wf_ids : ∀ k n, (k, n) ∈ Workflow.nodes w → Node.id n = k;
  wf_order : Workflow.topologicalOrder w = [];
  wf_edges : ∀ a b, depends_on (Workflow.nodeDependencies w) a b →
      ∃ i, JsMap.keys (Workflow.nodes w) !! i = Some b
           ∧ ∀ j, JsMap.keys (Workflow.nodes w) !! j = Some a → i < j
}.

Definition empty_builder : Workflow.t := Workflow.with_context (NotFun JUndefined).

(** [addNode({ id: "node1", execute, retryPolicy: { maxRetries: -1, retryDelayMs: 100 } })]. *)
Definition bad_policy_options : NodeOptions.t :=
  node_options "node1" [] None (Some (policy (int (-1)) (int 100)))
    (fun _ _ => Returned (JStr "result1")).

Definition plain (id : string) (deps : list string) (result : JsValue)
    : NodeOptions.t :=
  node_options id deps None None (fun _ _ => Returned result).

(** A builder holding the single node ["node1"]. *)
Definition one_node : Workflow.t :=
  (Workflow.addNode empty_builder (plain "node1" [] (JStr "result1"))).1.

(** "[build] throws when a supplied final-completion hook is not a
    function"; a hook is supplied when the option is not [undefined]. *)
Definition build_rejects_every_non_function_hook : Prop :=
  ∀ w hook, Workflow.size w ≠ 0 →
    typeof_function hook = false → hook ≠ NotFun JUndefined →
    ∃ e, Workflow.build w hook = Ran (Throws e).

(** A graph that no sequence of [addNode] calls produces: A and B depend
    on each other. *)
Definition two_cycle_dependencies : DependencyMap.t :=
  <["A" := ["B"]]> (<["B" := ["A"]]> ∅).

Definition two_cycle : Workflow.t :=
  {| Workflow.contextValueOrFactory := NotFun JUndefined;
     Workflow.nodes :=
       [("A", {| Node.options := plain "A" ["B"] JNull;
                 Node.retryPolicy := Node.defaultRetryPolicy |});
        ("B", {| Node.options := plain "B" ["A"] JNull;
                 Node.retryPolicy := Node.defaultRetryPolicy |})];
     Workflow.nodeDependencies := two_cycle_dependencies;
     Workflow.topologicalOrder := [] |}.

(** The diamond of the specification's example scenario. *)
Definition number_of (ctx : Snapshot) (key : string) : Z :=
  match ctx !! key with
  | Some (JNum (Finite q)) => (Qnum q / Z.pos (Qden q))%Z
  | _ => 0%Z
  end.

Definition diamond : Workflow.t :=
  let w1 := (Workflow.addNode empty_builder
               (node_options "A" [] None None (fun _ _ => Returned (int 1)))).1 in
  let w2 := (Workflow.addNode w1
               (node_options "B" ["A"] None None
                  (fun _ c => Returned (int (number_of c "A" + 1))))).1 in
  let w3 := (Workflow.addNode w2
               (node_options "C" ["A"] None None
                  (fun _ c => Returned (int (number_of c "A" + 2))))).1 in
  (Workflow.addNode w3
     (node_options "D" ["B"; "C"] None None
        (fun _ c => Returned (int (number_of c "B" + number_of c "C"))))).1.



(* ===================================================================== *)
(** ** The state of the sort *)
(* ===================================================================== *)

(** The array only grows at its end, so what it held before the sort does
    not influence the sort. *)
Definition with_order (o : list string) (st : SortState) : SortState :=
  {| visited := visited st; temp := temp st; order := o |}.

Definition prepend (o : list string) (res : SortResult) : SortResult :=
  match res with
  | Sorted st => Sorted (with_order (o ++ order st) st)
  | r => r
  end.

(** The invariant of the sort on the part of the array written by it. *)
Record sorted_so_far (deps : DependencyMap.t) (U : gset string)
    (st : SortState) : Prop := {
  ssf_visited : ∀ x, x ∈ visited st ↔ x ∈ order st;
  ssf_NoDup : NoDup (order st);
  ssf_first : ∀ l1 k l2, order st = l1 ++ k :: l2 →
                ∀ d, depends_on deps k d → d ∈ l1;
  ssf_temp : ∀ x, x ∈ temp st → x ∉ visited st;
  ssf_within : ∀ x, x ∈ order st → x ∈ U
}.

(** The state in which [#topologicalSort] starts, but for the array. *)
Definition fresh_sort : SortState := {| visited := ∅; temp := ∅; order := [] |}.

(* ===================================================================== *)
(** ** Statements about the scheduler *)
(* ===================================================================== *)

(** What [build] guarantees of the runner it returns. *)
Record runnable (r : WorkflowRunner.t) : Prop := {
  rn_NoDup : NoDup (JsMap.keys (WorkflowRunner.nodes r));
  rn_initial : "initial" ∉ JsMap.keys (WorkflowRunner.nodes r);
  rn_ids : ∀ k n, (k, n) ∈ WorkflowRunner.nodes r → Node.id n = k;
  rn_edges : ∀ a b, depends_on (WorkflowRunner.nodeDependencies r) a b →
      ∃ i, JsMap.keys (WorkflowRunner.nodes r) !! i = Some b
           ∧ ∀ j, JsMap.keys (WorkflowRunner.nodes r) !! j = Some a → i < j;
  rn_order : WorkflowRunner.topologicalOrder r
             ≡ₚ JsMap.keys (WorkflowRunner.nodes r);
  rn_nonempty : WorkflowRunner.nodes r ≠ [];
  rn_hook : truthy_or (WorkflowRunner.onNodesCompleted r) = false
            ∨ typeof_function (WorkflowRunner.onNodesCompleted r) = true
}.

(** Later events carry snapshots that extend those of earlier events. *)
Definition growing (l : list NodeCompletionEvent) : Prop :=
  ∀ i j e1 e2, i ≤ j → l !! i = Some e1 → l !! j = Some e2 →
               ev_context e1 ⊆ ev_context e2.

Import Scheduler.

Section invariants.

Variable r : WorkflowRunner.t.

Local Notation nodes := (WorkflowRunner.nodes r).
Local Notation keys := (JsMap.keys (WorkflowRunner.nodes r)).

(** The bookkeeping of [#run] is consistent; [ready] stands for the ready
    set, which during the start loop is the part still to be started. *)
Record consistent (ready : list string) (s : State) : Prop := {
  cs_completed : ∀ id, id ∈ completed s → id ∈ keys;
  cs_running : ∀ id p, running s !! id = Some p → id ∈ keys;
  cs_ready : ∀ id, id ∈ ready →
      id ∈ keys ∧ id ∉ completed s ∧ running s !! id = None;
  cs_ready_NoDup : NoDup ready;
  cs_phase : ∀ id p, running s !! id = Some p →
      (id ∈ completed s ↔ p = InHook);
  cs_queue : ∀ id v, (id, v) ∈ updateQueue s →
      running s !! id = Some (InUpdate v);
  cs_queue_NoDup : NoDup (updateQueue s).*1;
  cs_object : ∀ id, is_Some (object s !! id) →
      id = "initial" ∨ id ∈ completed s
      ∨ ∃ v, running s !! id = Some (InUpdate v) ∧ id ∉ (updateQueue s).*1;
  cs_events : ∀ e, e ∈ events s → ev_context e ⊆ object s;
  cs_growing : growing (events s);
  cs_loop : ∀ e, loop s ≠ Crashed e;
  cs_rejected : ∀ id e, running s !! id = Some (UpdateRejected e) →
      queueRejected s = Some e
}.

End invariants.

(* ===================================================================== *)
(** ** The scheduler: what a run records *)
(* ===================================================================== *)

Section history.

Variable r : WorkflowRunner.t.

Local Notation nodes := (WorkflowRunner.nodes r).
Local Notation deps := (WorkflowRunner.nodeDependencies r).
Local Notation keys := (JsMap.keys (WorkflowRunner.nodes r)).

(** The node finished and its [run] left it [completed]. *)
Definition succeeded (s : State) (d : string) : Prop :=
  d ∈ completed s ∧ status_of (status s) d = NodeStatus.completed.

(** The log of calls, the statuses, the context and the error list tell
    the same story; what is said of the context and of the error list holds
    as long as the update queue has not been rejected. *)
Record recorded (ready : list string) (s : State) : Prop := {
  rc_NoDup : NoDup (call_id <$> calls s);
  rc_called : ∀ id, id ∈ call_id <$> calls s ↔
      id ∈ completed s ∨ is_Some (running s !! id);
  rc_run : ∀ c, c ∈ calls s →
      ∃ n, JsMap.get nodes (call_id c) = Some n
           ∧ call_result c = Node.run n (call_ctx c);
  rc_ready : ∀ id d, id ∈ ready → depends_on deps id d → succeeded s d;
  rc_deps : ∀ c d, c ∈ calls s → depends_on deps (call_id c) d →
      succeeded s d;
  rc_inrun : ∀ id res, running s !! id = Some (InRun res) →
      ∃ ctx, {| call_id := id; call_ctx := ctx; call_result := res |} ∈ calls s;
  rc_inupdate : ∀ id v, running s !! id = Some (InUpdate v) →
      (∃ c, c ∈ calls s ∧ call_id c = id
            ∧ Node.settled (call_result c) = Some (Returned v))
      ∧ (id ∉ (updateQueue s).*1 → object s !! id = Some v);
  rc_status : ∀ c x, c ∈ calls s → Node.status (call_result c) = Some x →
      call_id c ∈ completed s
      ∨ (∃ v, running s !! call_id c = Some (InUpdate v))
      ∨ (∃ e, running s !! call_id c = Some (UpdateRejected e)) →
      status_of (status s) (call_id c) = x;
  rc_result : queueRejected s = None →
      ∀ c v, c ∈ calls s → call_id c ∈ completed s →
      Node.settled (call_result c) = Some (Returned v) →
      object s !! call_id c = Some v;
  rc_errors : queueRejected s = None →
      ∀ ne, ne ∈ errors s ↔
      ∃ c, c ∈ calls s ∧ call_id c ∈ completed s
           ∧ Node.settled (call_result c)
             = Some (Threw (ThrowError (ne_error ne)))
           ∧ ne_id ne = call_id c;
  rc_errors_completed : ∀ ne, ne ∈ errors s → ne_id ne ∈ completed s;
  rc_errors_NoDup : NoDup (ne_id <$> errors s)
}.

(** The node finished, is no longer in flight, and was left [completed]. *)
Definition settled_well (s : State) (d : string) : Prop :=
  succeeded s d ∧ running s !! d = None.

(** The readiness scans keep up with the completions: a node all of whose
    dependencies are settled well is ready, in flight or finished. *)
Definition caught_up (ready : list string) (s : State) : Prop :=
  ∀ id, id ∈ keys →
    (∀ d, depends_on deps id d → settled_well s d) →
    id ∈ ready ∨ id ∈ completed s ∨ is_Some (running s !! id).

(** The loop is where the bookkeeping says. *)
Record looping (s : State) : Prop := {
  lp_iterating : loop s = Iterating → running s = ∅;
  lp_racing : ∀ ids, loop s = Racing ids → ids ≠ [];
  lp_exited : loop s = Exited →
      readyNodes s = []
      ∧ (running s = ∅ ∨ ∀ k, k ∈ keys → k ∈ completed s)
}.

(** The invariant of a run between two steps, and inside the loop that
    starts the ready nodes. *)
Record starting (ready : list string) (s : State) : Prop := {
  st_consistent : consistent r ready s;
  st_recorded : recorded ready s;
  st_caught_up : caught_up ready s
}.

Record invariant (s : State) : Prop := {
  inv_starting : starting (readyNodes s) s;
  inv_looping : looping s
}.

(** How far the node is from having finished. *)
Definition distance (s : State) (k : string) : nat :=
  match running s !! k with
  | Some (InRun _) => 4
  | Some (InUpdate _) => if bool_decide (k ∈ (updateQueue s).*1) then 3 else 2
  | Some (UpdateRejected _) => 2
  | Some InHook => 1
  | None => if bool_decide (k ∈ completed s) then 0 else 5
  end.

(** Whether the loop itself can take a turn. *)
Definition loop_pending (s : State) : nat :=
  match loop s with
  | Iterating => 1
  | Racing ids =>
      if existsb (fun id => bool_decide (running s !! id = None)) ids
      then 1 else 0
  | Exited | Crashed _ => 0
  end.

(** A bound on the number of steps that remain. *)
Definition remaining (s : State) : nat :=
  2 * sum_list (distance s <$> keys) + loop_pending s.

(** In the run that led to [s], every call of [run] for the node [id] or
    for a node that it depends on, directly or not, found its node enabled
    and succeeded. *)
Definition unobstructed (s : State) (id : string) : Prop :=
  ∀ c, c ∈ calls s →
       call_id c = id ∨ depends_transitively deps id (call_id c) →
       Node.status (call_result c) = Some NodeStatus.completed.

(** The calls of [run] of every node settle as far as the model follows
    them: no retry count exceeds [2^53]. *)
Definition followed : Prop :=
  ∀ k n, (k, n) ∈ nodes →
         (N.of_nat (Node.maxRetries_nat n) ≤ two53)%N.

End history.

(* ===================================================================== *)
(** ** Runs: the words of the specification and example workflows *)
(* ===================================================================== *)

Definition empty_runner : WorkflowRunner.t :=
  {| WorkflowRunner.contextValueOrFactory := NotFun JUndefined;
     WorkflowRunner.topologicalOrder := [];
     WorkflowRunner.nodes := [];
     WorkflowRunner.nodeDependencies := DependencyMap.empty;
     WorkflowRunner.onNodesCompleted := NotFun JUndefined |}.

(** [w.build({ onNodesCompleted: hook })] when it returns. *)
Definition runner_of (w : Workflow.t) (hook : FunOr CompletionHook)
    : WorkflowRunner.t :=
  match Workflow.build w hook with
  | Ran (Ok (_, r)) => r
  | _ => empty_runner
  end.

Definition no_hook : FunOr CompletionHook := NotFun JUndefined.

(** The [run] of node [X] failed after its last attempt in the run that
    led to [s]: it left the status [failed] and its promise rejected. *)
Definition failed_in (s : State) (X : string) : Prop :=
  ∃ c t, c ∈ calls s ∧ call_id c = X
         ∧ Node.status (call_result c) = Some NodeStatus.failed
         ∧ Node.settled (call_result c) = Some (Threw t).

(** The [execute] function of node [id] was invoked in the run. *)
Definition executed_in (s : State) (id : string) : Prop :=
  ∃ c, c ∈ calls s ∧ call_id c = id ∧ 0 < Node.executeCalls (call_result c).

(** "For every workflow in which X fails and Y lists X among its
    dependencies, every node with no dependency path to X still executes
    and its result appears in the final context." *)
Definition independent_nodes_always_appear : Prop :=
  ∀ r status0 queue0 schedule t s X Y Z,
    built r → trigger r status0 queue0 schedule = Some t → final t = Some s →
    failed_in s X →
    depends_on (WorkflowRunner.nodeDependencies r) Y X →
    Y ∈ JsMap.keys (WorkflowRunner.nodes r) →
    Z ∈ JsMap.keys (WorkflowRunner.nodes r) → Z ≠ X →
    ¬ depends_transitively (WorkflowRunner.nodeDependencies r) Z X →
    executed_in s Z ∧ is_Some (object s !! Z).

(** "A falsy context value, or a context factory that resolves to a falsy
    value, leaves the initial key undefined." *)
Definition falsy_seed_leaves_initial_undefined : Prop :=
  ∀ r status0 queue0 schedule t c v,
    built r → truthy v = false →
    WorkflowRunner.contextValueOrFactory r = NotFun v
    ∨ WorkflowRunner.contextValueOrFactory r = IsFun (Returned v) →
    trigger r status0 queue0 schedule = Some t → promise t = Returned c →
    c !! "initial" = Some JUndefined.

(** The test "disabled node is skipped": a single node with
    [enabled: false]. *)
Definition disabled_only : Workflow.t :=
  (Workflow.addNode empty_builder
     (node_options "node1" [] (Some (EnabledBool false)) None
        (fun _ _ => Returned (JStr "result1")))).1.

Definition always_failing (id : string) : NodeOptions.t :=
  node_options id [] None None
    (fun _ _ => Threw (ThrowError (Error (id +:+ " failed")))).

(** X fails and Y depends on it; Z has no dependencies and fails too. *)
Definition two_failures : Workflow.t :=
  (Workflow.addNode
     (Workflow.addNode
        (Workflow.addNode empty_builder (always_failing "X")).1
        (plain "Y" ["X"] (JStr "y"))).1
     (always_failing "Z")).1.

Definition with_onCompleted (o : NodeOptions.t) : NodeOptions.t :=
  {| NodeOptions.id := NodeOptions.id o;
     NodeOptions.dependencies := NodeOptions.dependencies o;
     NodeOptions.enabled := NodeOptions.enabled o;
     NodeOptions.retryPolicy := NodeOptions.retryPolicy o;
     NodeOptions.execute := NodeOptions.execute o;
     NodeOptions.errorHandler := NodeOptions.errorHandler o;
     NodeOptions.onCompleted := Some (fun _ => Returned tt) |}.

(** A chain of two nodes that both have a completion hook. *)
Definition hooked : Workflow.t :=
  (Workflow.addNode
     (Workflow.addNode empty_builder
        (with_onCompleted (plain "A" [] (int 1)))).1
     (with_onCompleted (plain "B" ["A"] (int 2)))).1.

Definition hooked_schedule : list Event :=
  [Resume; Settle "A"; Apply; Continue "A"; Finish "A"; Resume;
   Settle "B"; Apply; Continue "B"; Finish "B"; Resume].

(** [new Workflow({ contextFactory: () => 0 })] with one node. *)
Definition factory_zero : Workflow.t :=
  (Workflow.addNode
     (Workflow.with_context (IsFun (Returned (int 0))))
     (plain "node1" [] (JStr "result1"))).1.

Definition one_node_schedule : list Event :=
  [Resume; Settle "node1"; Apply; Continue "node1"; Resume].

(** A completion hook that throws. *)
Definition throwing_hook : FunOr CompletionHook :=
  IsFun (fun _ _ => Threw (ThrowError (Error "hook failed"))).

(** X fails; Y depends on X; Z stands alone. *)
Definition failing_branch : Workflow.t :=
  (Workflow.addNode
     (Workflow.addNode
        (Workflow.addNode empty_builder (always_failing "X")).1
        (plain "Y" ["X"] (JStr "y"))).1
     (plain "Z" [] (JStr "z"))).1.

Definition failing_branch_schedule : list Event :=
  [Resume; Settle "Z"; Settle "X"; Apply; Continue "Z"; Resume].

(** A completion hook that returns. *)
Definition quiet_hook : FunOr CompletionHook :=
  IsFun (fun _ _ => Returned tt).

(** [new Workflow({ contextValue: 0 })] with one node. *)
Definition value_zero : Workflow.t :=
  (Workflow.addNode
     (Workflow.with_context (NotFun (int 0)))
     (plain "node1" [] (JStr "result1"))).1.

(* ===================================================================== *)
(** ** Further statements: nodes, the dependency map and the builder *)
(* ===================================================================== *)

(** A sequence of calls [add(key, value)], oldest first. *)
Definition add_all (m : DependencyMap.t) (l : list (string * string))
    : DependencyMap.t :=
  foldl (fun m kv => DependencyMap.add m kv.1 kv.2) m l.

(** The values of the pairs of [l] whose key is [key], in order. *)
Definition values_under (key : string) (l : list (string * string))
    : list string :=
  (filter (fun kv => kv.1 = key) l).*2.

(** How [run] ends when the node is skipped. *)
Definition skipped_run : Node.RunResult :=
  {| Node.status := Some NodeStatus.skipped;
     Node.settled := Some (Returned JNull);
     Node.executeCalls := 0; Node.handled := [] |}.

(** How [run] ends when the [enabled] callback throws [t]. *)
Definition refused_run (t : Thrown) : Node.RunResult :=
  {| Node.status := None; Node.settled := Some (Threw t);
     Node.executeCalls := 0; Node.handled := [] |}.

(** How [run] ends when the last of [m + 1] attempts threw [t], something
    the report of the failure can convert to a string. *)
Definition exhausted_run (n : Node.t) (ctx : Snapshot) (m : nat) (t : Thrown)
    (res : Node.RunResult) : Prop :=
  match NodeOptions.errorHandler (Node.options n) with
  | None => res = failed_run t (m + 1) []
  | Some h =>
      match h (Node.as_Error t) ctx with
      | Returned u => res = failed_run t (m + 1) [(Node.as_Error t, Returned u)]
      | Threw thrown =>
          match interpolate thrown with
          | None => res = failed_run t (m + 1) [(Node.as_Error t, Threw thrown)]
          | Some e =>
              res = Node.escaped e (m + 1) [(Node.as_Error t, Threw thrown)]
          end
      end
  end.

(** The dependencies of a node given as strings, as [addNode] requires. *)
Definition listed_strings (n : Node.t) (ids : list string) : Prop :=
  default [] (NodeOptions.dependencies (Node.options n)) = JStr <$> ids.

(** A builder with one node A and a failed attempt to add B:
    [addNode({ id: "B", dependencies: ["A", "missing"], ... })] throws. *)
Definition after_failed_addNode : Workflow.t :=
  (Workflow.addNode
     (Workflow.addNode empty_builder (plain "A" [] (int 1))).1
     (plain "B" ["A"; "missing"] (int 2))).1.

(* ===================================================================== *)
(** ** Further statements about a run *)
(* ===================================================================== *)

Section observations.

Variable r : WorkflowRunner.t.

Local Notation nodes := (WorkflowRunner.nodes r).
Local Notation deps := (WorkflowRunner.nodeDependencies r).

(** The call [c] of [run] for node [d] resolved to [v], and the context
    that the call [c'] was given holds [v] under the key [d]. *)
Definition informs (c : Call) (d : string) (v : JsValue) (c' : Call) : Prop :=
  call_id c = d
  ∧ Node.settled (call_result c) = Some (Returned v)
  ∧ Node.status (call_result c) = Some NodeStatus.completed
  ∧ call_ctx c' !! d = Some v.

(** Every call of [run] so far wrote a status: no [enabled] callback
    threw. *)
Definition decided (s : State) : Prop :=
  ∀ c, c ∈ calls s → is_Some (Node.status (call_result c)).

(** No update of the context has been rejected, in this run or before it,
    and every call of [run] wrote a status. *)
Definition undisturbed (s : State) : Prop :=
  queueRejected s = None ∧ decided s.

(** What the contexts handed to [run] hold, and where the keys of the
    context come from; [seeded] is the context the run started with. *)
Record informed (seeded : Snapshot) (s : State) : Prop := {
  inf_object : ∀ c, c ∈ calls s → call_ctx c ⊆ object s;
  inf_growing : ∀ i j ci cj, i ≤ j →
      calls s !! i = Some ci → calls s !! j = Some cj →
      call_ctx ci ⊆ call_ctx cj;
  inf_dependencies : undisturbed s → ∀ j c d,
      calls s !! j = Some c → depends_on deps (call_id c) d →
      ∃ i c' v, i < j ∧ calls s !! i = Some c' ∧ informs c' d v c;
  inf_seeded : seeded ⊆ object s;
  inf_initial : ∀ c, c ∈ calls s → seeded ⊆ call_ctx c;
  inf_results : ∀ k v, object s !! k = Some v → k ≠ "initial" →
      ∃ c, c ∈ calls s ∧ call_id c = k
           ∧ Node.settled (call_result c) = Some (Returned v)
}.

(** The event of the [catch] block of [runNode] for node [id], which
    caught [t]. *)
Definition failure_event (id : string) (t : Thrown) (e : NodeCompletionEvent)
    : Prop :=
  ev_status e = NodeStatus.failed ∧ ev_result e = None
  ∧ ev_error e = match t with
                 | ThrowError er => Some {| ne_id := id; ne_error := er |}
                 | ThrowValue _ => None
                 end
  ∧ ev_context e !! id = None.

(** The event handed to the [onCompleted] hook of the node of call [c],
    in a run whose update queue ends as [rejected]: the event of the [try]
    block when [run] resolved and the update was applied, and the event of
    the [catch] block, for what was caught, when [run] rejected or when
    the update was rejected. *)
Definition event_of (rejected : option Thrown) (c : Call)
    (e : NodeCompletionEvent) : Prop :=
  ev_nodeId e = call_id c
  ∧ match Node.settled (call_result c) with
    | Some (Returned v) =>
        (ev_status e = NodeStatus.completed ∧ ev_result e = Some v
         ∧ ev_error e = None ∧ ev_context e !! call_id c = Some v)
        ∨ (∃ reason, rejected = Some reason
                     ∧ failure_event (call_id c) reason e)
    | Some (Threw t) => failure_event (call_id c) t e
    | None => False
    end.

(** The completion events and the finished nodes that have a hook
    correspond; an update is only rejected for a node whose [run]
    resolved. *)
Record reported (s : State) : Prop := {
  rp_events : ∀ e, e ∈ events s →
      ev_nodeId e ∈ completed s
      ∧ ∃ c n, c ∈ calls s ∧ JsMap.get nodes (call_id c) = Some n
               ∧ is_Some (Node.onCompleted n)
               ∧ event_of (queueRejected s) c e;
  rp_NoDup : NoDup (ev_nodeId <$> events s);
  rp_all : ∀ id n, id ∈ completed s → JsMap.get nodes id = Some n →
      is_Some (Node.onCompleted n) → id ∈ ev_nodeId <$> events s;
  rp_rejected : ∀ id reason,
      running s !! id = Some (UpdateRejected reason) →
      ∃ c v, c ∈ calls s ∧ call_id c = id
             ∧ Node.settled (call_result c) = Some (Returned v)
}.

(** The nodes for which no call of [run] wrote a status, those that were
    not started among them, have the status they had when [trigger] was
    called. *)
Definition untouched (status0 : gmap string NodeStatus.t) (s : State) : Prop :=
  ∀ id, (∀ c, c ∈ calls s → call_id c = id →
              Node.status (call_result c) = None) →
        status s !! id = status0 !! id.

(** The calls that start the nodes of [l] from the context [ctx]. *)
Definition calls_of (ctx : Snapshot) (l : list string) : list Call :=
  omap (fun id =>
          n ← JsMap.get nodes id;
          Some {| call_id := id; call_ctx := ctx;
                  call_result := Node.run n ctx |}) l.

End observations.

(** Every finished node was started by a call of [run] that wrote a
    status. *)
Definition finished_decided (s : State) : Prop :=
  ∀ d, d ∈ completed s →
       ∃ c, c ∈ calls s ∧ call_id c = d
            ∧ is_Some (Node.status (call_result c)).

(** Two states of runs that differ at most in the statuses of the nodes
    for which no call of [run] wrote a status. *)
Definition same_run (s1 s2 : State) : Prop :=
  ∃ st, s2 = set_status s1 st
        ∧ ∀ c, c ∈ calls s1 → is_Some (Node.status (call_result c)) →
               status s1 !! call_id c = st !! call_id c.

(* ===================================================================== *)
(** ** [workflow.ts]: [WorkflowRunner.printWorkflow] *)
(* ===================================================================== *)

(** A string is the sequence of its code units; the regular expression of
    [sanitizeId] has no [u] flag and so works unit by unit. *)

(** The character class [[a-zA-Z0-9_]]. *)
Definition is_word_unit (a : Ascii.ascii) : bool :=
  let n := Ascii.nat_of_ascii a in
  ((48 <=? n) && (n <=? 57)) || ((65 <=? n) && (n <=? 90))
  || ((97 <=? n) && (n <=? 122)) || (n =? 95).

(** The code units of ["_"], of a line feed and of a double quote. *)
Definition underscore : Ascii.ascii := Ascii.ascii_of_nat 95.
Definition line_feed : Ascii.ascii := Ascii.ascii_of_nat 10.
Definition quotation_mark : Ascii.ascii := Ascii.ascii_of_nat 34.

(** [id.replace(/[^a-zA-Z0-9_]/g, "_")]. *)
Fixpoint sanitizeId (id : string) : string :=
  match id with
  | EmptyString => EmptyString
  | String a rest =>
      String (if is_word_unit a then a else underscore) (sanitizeId rest)
  end.

Definition newline : string := String line_feed EmptyString.
Definition double_quote : string := String quotation_mark EmptyString.

Section printWorkflow.

Variable r : WorkflowRunner.t.

Local Notation nodes := (WorkflowRunner.nodes r).
Local Notation deps := (WorkflowRunner.nodeDependencies r).

(** The helper [getNodeLabel]; [node.isEnabled] is read as a property. *)
Definition getNodeLabel (nodeId : string) : string :=
  match JsMap.get nodes nodeId with
  | None => nodeId
  | Some node =>
      if truthy_or (isEnabled_property node) then nodeId
      else nodeId +:+ " (Disabled)"
  end.

(** The array [output] and the set [edges]. *)
Record Printed := { output : list string; edges : list string }.

(** The line of an edge from a dependency to the node that has it. *)
Definition edge_line (sanitizedNodeId depId : string) : string :=
  "    " +:+ sanitizeId depId +:+ " --> " +:+ sanitizedNodeId.

(** The body of the loop over [this.#nodes]. *)
Definition print_node (p : Printed) (entry : string * Node.t) : Printed :=
  let nodeId := entry.1 in
  let node := entry.2 in
  let sanitizedNodeId := sanitizeId nodeId in
  let nodeLabel := getNodeLabel nodeId in
  let output1 :=
    output p ++ ["    " +:+ sanitizedNodeId +:+ "[" +:+ double_quote
                 +:+ nodeLabel +:+ double_quote +:+ "]"] in
  let output2 :=
    if negb (truthy_or (isEnabled_property node)) then
      output1 ++ ["    style " +:+ sanitizedNodeId
                  +:+ " fill:#ccc,stroke:#999,color:#666"]
    else output1 in
  let dependencies := DependencyMap.get deps nodeId in
  if (length dependencies =? 0)%nat then
    {| output := output2; edges := edges p |}
  else
    {| output := output2;
       edges := foldl (fun es depId => Set_add es (edge_line sanitizedNodeId depId))
                  (edges p) dependencies |}.

(** [printWorkflow()]: the lines before [join] and the string returned. *)
Definition printWorkflow_lines : list string :=
  let p := foldl print_node
             {| output := ["```mermaid"; "graph TD"]; edges := [] |} nodes in
  output p ++ edges p ++ ["```"].

Definition printWorkflow : string :=
  if (JsMap.size nodes =? 0)%nat then "Empty workflow"
  else String.concat newline printWorkflow_lines.

(** The line that defines a node, when it is labelled with its id. *)
Definition node_line (nodeId : string) : string :=
  "    " +:+ sanitizeId nodeId +:+ "[" +:+ double_quote +:+ nodeId
  +:+ double_quote +:+ "]".

(** The lines of the edges in the order in which the loops meet them. *)
Definition edge_lines (ns : list (string * Node.t)) : list string :=
  flat_map (fun entry => edge_line (sanitizeId entry.1)
                           <$> DependencyMap.get deps entry.1) ns.

End printWorkflow.

(** Every code unit of the string is in the class [[a-zA-Z0-9_]]. *)
Fixpoint all_word_units (s : string) : bool :=
  match s with
  | EmptyString => true
  | String a rest => is_word_unit a && all_word_units rest
  end.

(** A node with [enabled: false] and a node that depends on it. *)
Definition with_disabled : Workflow.t :=
  (Workflow.addNode
     (Workflow.addNode empty_builder
        (node_options "off" [] (Some (EnabledBool false)) None
           (fun _ _ => Returned (int 1)))).1
     (plain "next" ["off"] (int 2))).1.

Definition with_disabled_schedule : list Event :=
  [Resume; Settle "off"; Apply; Continue "off"; Resume].



(** A node constructed with [maxRetries: 3] whose [execute] always
    throws. *)
Definition always_throws : NodeOptions.t :=
  node_options "n" [] None (Some (policy (int 3) (int 0)))
    (fun _ _ => Threw (ThrowError (Error "no"))).

(** A node enabled by a callback on the result of its dependency A. *)
Definition conditional_node : Node.t :=
  {| Node.options :=
       node_options "B" ["A"]
         (Some (EnabledFn (fun ctx =>
            Returned
              match ctx !! "A" with Some (JBool b) => b | _ => false end)))
         None (fun _ _ => Returned (int 2));
     Node.retryPolicy := Node.defaultRetryPolicy |}.

(* ********************************************************************* *)
(** * Proofs *)
(* ********************************************************************* *)

(* ===================================================================== *)
(** ** [Node]: retry policy validation *)
(* ===================================================================== *)

Lemma num_isInteger_spec q :
  num_isInteger (Finite q) = true ↔ ∃ z : Z, (q == inject_Z z)%Q.
Proof.
  destruct q as [a b]. unfold num_isInteger, Qeq, inject_Z. simpl.
  rewrite Z.eqb_eq. split.
  - intros H. exists (a / Z.pos b)%Z.
    apply Z.rem_divide in H; [|lia]. destruct H as [c ->].
    rewrite Z.div_mul by lia. lia.
  - intros [z Hz]. apply Z.rem_divide; [lia|]. exists z. lia.
Qed.

Lemma num_lt_zero_spec q : num_lt_zero (Finite q) = false ↔ (0 <= q)%Q.
Proof.
  destruct q as [a b]. unfold num_lt_zero, Qle. simpl.
  rewrite Z.ltb_ge. lia.
Qed.

Lemma nonneg_integer_spec v :
  nonneg_integer v ↔
  typeof_number v = true ∧ js_lt_zero v = false ∧ Number_isInteger v = true.
Proof.
  split.
  - intros (z & Hz & q & -> & Hq). simpl. split_and!; [done| |].
    + apply num_lt_zero_spec. rewrite Hq. unfold Qle, inject_Z. simpl. lia.
    + apply num_isInteger_spec. eauto.
  - intros (Ht & Hl & Hi). destruct v as [| | |[q| | |]| | |]; try done.
    simpl in *. apply num_isInteger_spec in Hi as [z Hz].
    apply num_lt_zero_spec in Hl. exists z. split; [|eauto].
    rewrite Hz in Hl. unfold Qle, inject_Z in Hl. simpl in Hl. lia.
Qed.

(** What the validation accepts as a delay: any number that is not below
    zero, NaN included. *)
Lemma delay_accepted_spec v :
  typeof_number v = true ∧ js_lt_zero v = false ↔
  nonneg_number v ∨ v = JNum NaN.
Proof.
  split.
  - intros [Ht Hl]. destruct v as [| | |[q| | |]| | |]; try done.
    + left. right. exists q. split; [done|]. by apply num_lt_zero_spec.
    + by right.
    + left. by left.
  - intros [[->|(q & -> & Hq)] | ->]; simpl; try done.
    split; [done|]. by apply num_lt_zero_spec.
Qed.

Lemma validateRetryPolicy_Ok p :
  Node.validateRetryPolicy p = Ok tt ↔
  nonneg_integer (maxRetries p)
  ∧ (nonneg_number (retryDelayMs p) ∨ retryDelayMs p = JNum NaN).
Proof.
  rewrite nonneg_integer_spec, <- delay_accepted_spec.
  unfold Node.validateRetryPolicy, throw_if.
  destruct (typeof_number (maxRetries p)), (js_lt_zero (maxRetries p)),
    (Number_isInteger (maxRetries p)), (typeof_number (retryDelayMs p)),
    (js_lt_zero (retryDelayMs p)); simpl; intuition congruence.
Qed.

(** A policy that passes validation is stored as it was given. *)
Lemma new_stores_policy o p n :
  NodeOptions.retryPolicy o = Some p → Node.new o = Ok n →
  Node.retryPolicy n = p ∧ Node.options n = o.
Proof.
  unfold Node.new. intros ->.
  destruct (Node.validateRetryPolicy p) as [[]|e]; simpl; [|done].
  by intros [= <-].
Qed.


Lemma new_succeeds_iff o p :
  NodeOptions.retryPolicy o = Some p →
  is_Ok (Node.new o) = true ↔
  nonneg_integer (maxRetries p)
  ∧ (nonneg_number (retryDelayMs p) ∨ retryDelayMs p = JNum NaN).
Proof.
  intros Hp. rewrite <- validateRetryPolicy_Ok. unfold Node.new. rewrite Hp.
  destruct (Node.validateRetryPolicy p) as [[]|e]; simpl; naive_solver.
Qed.

(** C9 (evaluation at the failing input): a node whose retry policy is
    [{ maxRetries: 0, retryDelayMs: NaN }] is constructed and keeps that
    policy, although NaN is not a non-negative number. *)
Theorem retryDelayMs_NaN_is_accepted :
  Node.new nan_delay_options
  = Ok {| Node.options := nan_delay_options;
          Node.retryPolicy := policy (int 0) (JNum NaN) |}
  ∧ ¬ nonneg_number (JNum NaN).
Proof.
  split; [reflexivity|].
  intros [H|(q & H & _)]; discriminate H.
Qed.

(* ===================================================================== *)
(** ** [Node.run]: the retry loop *)
(* ===================================================================== *)

Lemma plus_one_exact x : (N.of_nat x < two53)%N → Node.plus_one x = S x.
Proof.
  intros Hx. unfold Node.plus_one, Node.round_double.
  destruct (N.leb_spec (N.of_nat x + 1) two53); lia.
Qed.

Lemma plus_one_two53 x : N.of_nat x = two53 → Node.plus_one x = x.
Proof.
  intros Hx. unfold Node.plus_one. rewrite Hx.
  replace (Node.round_double (two53 + 1)) with two53 by (by vm_compute).
  lia.
Qed.

Lemma run_fuel_exact n :
  (N.of_nat (Node.maxRetries_nat n) < two53)%N →
  Node.run_fuel n = Node.maxRetries_nat n + 2.
Proof. unfold Node.run_fuel. lia. Qed.

Lemma last_attempt_cases n ctx t calls :
  (∃ e, interpolate t = Some e
        ∧ Node.last_attempt n ctx t calls = Node.escaped e calls [])
  ∨ (interpolate t = None
     ∧ NodeOptions.errorHandler (Node.options n) = None
     ∧ Node.last_attempt n ctx t calls = failed_run t calls [])
  ∨ (∃ h, interpolate t = None
        ∧ NodeOptions.errorHandler (Node.options n) = Some h
        ∧ ((∀ e, h (Node.as_Error t) ctx = Threw e → interpolate e = None)
           ∧ Node.last_attempt n ctx t calls
             = failed_run t calls [(Node.as_Error t, h (Node.as_Error t) ctx)]
           ∨ ∃ thrown e, h (Node.as_Error t) ctx = Threw thrown
               ∧ interpolate thrown = Some e
               ∧ Node.last_attempt n ctx t calls
                 = Node.escaped e calls [(Node.as_Error t, Threw thrown)])).
Proof.
  unfold Node.last_attempt, failed_run.
  destruct (interpolate t) as [e|] eqn:Hi; [left; eauto|right].
  destruct (NodeOptions.errorHandler (Node.options n)) as [h|]; [right|by left].
  exists h. split_and!; [done..|].
  destruct (h (Node.as_Error t) ctx) as [u|thrown] eqn:Hh.
  - left. split; [by intros e [=]|done].
  - destruct (interpolate thrown) as [e|] eqn:Hi'.
    + right. by exists thrown, e.
    + left. split; [|done]. intros e [= <-]. done.
Qed.

Section run_loop.

Variables (n : Node.t) (ctx : Snapshot).

Local Notation m := (Node.maxRetries_nat n).
Local Notation exec_ := (NodeOptions.execute (Node.options n)).

Hypothesis Hm : (N.of_nat m < two53)%N.

(** With a retry count below [2^53] the loop variable counts the calls of
    [execute], and the loop ends in one of three ways. *)
Lemma run_loop_inversion fuel attempt :
  attempt ≤ m → m < fuel + attempt →
  (∀ j, j < attempt → attempt_reported n ctx j) →
  let res := Node.run_loop n ctx fuel attempt attempt in
  (∃ k v, k ≤ m ∧ (∀ j, j < k → attempt_reported n ctx j)
     ∧ exec_ k ctx = Returned v ∧ res = completed_run k v)
  ∨ (∃ k t e, k < m ∧ (∀ j, j < k → attempt_reported n ctx j)
       ∧ exec_ k ctx = Threw t ∧ interpolate t = Some e
       ∧ res = Node.escaped e (k + 1) [])
  ∨ (∃ t, (∀ j, j < m → attempt_reported n ctx j)
       ∧ exec_ m ctx = Threw t
       ∧ res = Node.last_attempt n ctx t (m + 1)).
Proof.
  simpl. revert attempt.
  induction fuel as [|fuel IH]; intros attempt Hle Hfuel Hrep; [lia|]. simpl.
  rewrite (plus_one_exact m Hm).
  destruct (Nat.ltb_spec attempt (S m)) as [_|?]; [|lia].
  destruct (exec_ attempt ctx) as [v|t] eqn:Hex.
  - left. exists attempt, v. unfold completed_run.
    by rewrite Nat.add_1_r.
  - destruct (Nat.eqb_spec attempt m) as [->|Hne].
    + right; right. exists t. by rewrite Nat.add_1_r.
    + destruct (interpolate t) as [e|] eqn:Hi.
      * right; left. exists attempt, t, e. rewrite Nat.add_1_r.
        split_and!; [lia|done..].
      * rewrite plus_one_exact by lia.
        apply IH; [lia..|]. intros j Hj.
        destruct (decide (j = attempt)) as [->|]; [by exists t|].
        apply Hrep. lia.
Qed.

End run_loop.

Lemma run_enabled n ctx :
  Node.isEnabled n (Some ctx) false = Some (Returned true) →
  Node.run n ctx = Node.run_loop n ctx (Node.run_fuel n) 0 0.
Proof. unfold Node.run. by intros ->. Qed.

Lemma run_disabled n ctx :
  Node.isEnabled n (Some ctx) false = Some (Returned false) →
  Node.run n ctx
  = {| Node.status := Some NodeStatus.skipped;
       Node.settled := Some (Returned JNull);
       Node.executeCalls := 0; Node.handled := [] |}.
Proof. unfold Node.run. by intros ->. Qed.

(** How [run] ends on an enabled node with a retry count below [2^53]. *)
Lemma run_enabled_inversion n ctx :
  let m := Node.maxRetries_nat n in
  (N.of_nat m < two53)%N →
  Node.isEnabled n (Some ctx) false = Some (Returned true) →
  let res := Node.run n ctx in
  (∃ k v, k ≤ m ∧ (∀ j, j < k → attempt_reported n ctx j)
     ∧ NodeOptions.execute (Node.options n) k ctx = Returned v
     ∧ res = completed_run k v)
  ∨ (∃ k t e, k < m ∧ (∀ j, j < k → attempt_reported n ctx j)
       ∧ NodeOptions.execute (Node.options n) k ctx = Threw t
       ∧ interpolate t = Some e
       ∧ res = Node.escaped e (k + 1) [])
  ∨ (∃ t, (∀ j, j < m → attempt_reported n ctx j)
       ∧ NodeOptions.execute (Node.options n) m ctx = Threw t
       ∧ res = Node.last_attempt n ctx t (m + 1)).
Proof.
  simpl. intros Hm Hen. rewrite (run_enabled _ _ Hen), (run_fuel_exact _ Hm).
  apply (run_loop_inversion n ctx Hm); [lia..|]. intros j Hj. lia.
Qed.

(** The first attempt that does not throw something reportable decides. *)
Lemma attempt_reported_not_returned n ctx k v :
  attempt_reported n ctx k →
  NodeOptions.execute (Node.options n) k ctx = Returned v → False.
Proof. intros (t & Ht & _) Hv. congruence. Qed.

Lemma attempt_reported_interpolate n ctx k t e :
  attempt_reported n ctx k →
  NodeOptions.execute (Node.options n) k ctx = Threw t →
  interpolate t = Some e → False.
Proof. intros (t' & Ht & Hi) Hv He. congruence. Qed.

(** C3 (counterexample): with no retries and an [execute] that throws the
    string ["boom"], the promise of [run] rejects with a new [Error] made
    from the string, not with the thrown value, so the contract as specified
    does not hold of this node. *)
Lemma retry_contract_fails_for_thrown_string :
  Node.isEnabled throws_string (Some ∅) false = Some (Returned true)
  ∧ ¬ retry_contract_as_specified throws_string ∅.
Proof.
  split; [reflexivity|].
  intros (_ & _ & H).
  destruct (H (ThrowValue (JStr "boom"))) as (_ & _ & Hs).
  - intros j Hj. vm_compute in Hj. lia.
  - reflexivity.
  - vm_compute in Hs. discriminate Hs.
Qed.

(** C3 (amended): an enabled node with [maxRetries = m] below [2^53] has
    [execute] invoked at most [m + 1] times by [run].  If attempt [k] is
    the first to return, what the attempts before it threw having been
    reported, the status becomes [completed], the result of that attempt is
    returned and [execute] was invoked [k + 1] times.  If all [m + 1]
    attempts throw, what they threw being such that the reports of the
    failures can convert it to a string, [execute] was invoked [m + 1]
    times and the error handler, if present, exactly once; unless the
    handler throws something that cannot be converted to a string, the
    status becomes [failed], whatever the handler returns or throws does
    not reach the caller, and [run] rejects with the failure of the last
    attempt itself when that is an [Error] and otherwise with a new [Error]
    made from the thrown value. *)
Theorem run_retry_contract n ctx :
  Node.isEnabled n (Some ctx) false = Some (Returned true) →
  let m := Node.maxRetries_nat n in
  (N.of_nat m < two53)%N →
  let res := Node.run n ctx in
  Node.executeCalls res ≤ m + 1
  ∧ (∀ k v, k ≤ m → (∀ j, j < k → attempt_reported n ctx j) →
       NodeOptions.execute (Node.options n) k ctx = Returned v →
       Node.status res = Some NodeStatus.completed
       ∧ Node.settled res = Some (Returned v)
       ∧ Node.executeCalls res = k + 1)
  ∧ (∀ t, (∀ j, j < m → attempt_reported n ctx j) →
       NodeOptions.execute (Node.options n) m ctx = Threw t →
       interpolate t = None →
       Node.executeCalls res = m + 1
       ∧ (∀ h, NodeOptions.errorHandler (Node.options n) = Some h →
            Node.handled res = [(Node.as_Error t, h (Node.as_Error t) ctx)])
       ∧ (NodeOptions.errorHandler (Node.options n) = None →
            Node.handled res = [])
       ∧ ((∀ h thrown, NodeOptions.errorHandler (Node.options n) = Some h →
             h (Node.as_Error t) ctx = Threw thrown →
             interpolate thrown = None) →
          Node.status res = Some NodeStatus.failed
          ∧ Node.settled res = Some (Threw (ThrowError (Node.as_Error t)))
          ∧ (∀ e, t = ThrowError e → Node.settled res = Some (Threw t)))).
Proof.
  intros Hen m Hm res.
  pose proof (run_enabled_inversion n ctx Hm Hen) as Hinv. simpl in Hinv.
  fold res in Hinv. fold m in Hinv. split_and!.
  - destruct Hinv as [(k & v & Hk & _ & _ & ->)
                     |[(k & t & e & Hk & _ & _ & _ & ->)|(t & _ & _ & ->)]];
      simpl; [lia..|].
    destruct (last_attempt_cases n ctx t (m + 1))
      as [(e & _ & ->)|[(_ & _ & ->)|(h & _ & _ & [[_ ->]|(? & ? & _ & _ & ->)])]];
      simpl; lia.
  - intros k v Hk Hrep Hv.
    destruct Hinv as [(k' & v' & Hk' & Hrep' & Hv' & ->)
                     |[(k' & t & e & Hk' & Hrep' & Ht & He & ->)
                      |(t & Hrep' & Ht & ->)]].
    + destruct (Nat.lt_trichotomy k k') as [Hlt|[->|Hlt]].
      * destruct (attempt_reported_not_returned _ _ _ _ (Hrep' k Hlt) Hv).
      * rewrite Hv in Hv'. injection Hv' as <-. done.
      * destruct (attempt_reported_not_returned _ _ _ _ (Hrep k' Hlt) Hv').
    + destruct (Nat.lt_trichotomy k k') as [Hlt|[->|Hlt]].
      * destruct (attempt_reported_not_returned _ _ _ _ (Hrep' k Hlt) Hv).
      * congruence.
      * destruct (attempt_reported_interpolate _ _ _ _ _ (Hrep k' Hlt) Ht He).
    + destruct (decide (k = m)) as [->|Hne]; [congruence|].
      destruct (attempt_reported_not_returned _ _ _ _ (Hrep' k ltac:(lia)) Hv).
  - intros t Hrep Ht Hi.
    destruct Hinv as [(k' & v' & Hk' & Hrep' & Hv' & ->)
                     |[(k' & t' & e & Hk' & Hrep' & Ht' & He & ->)
                      |(t' & Hrep' & Ht' & ->)]].
    + destruct (decide (k' = m)) as [->|Hne]; [congruence|].
      destruct (attempt_reported_not_returned _ _ _ _ (Hrep k' ltac:(lia)) Hv').
    + destruct (attempt_reported_interpolate _ _ _ _ _ (Hrep k' Hk') Ht' He).
    + assert (t' = t) as -> by congruence.
      destruct (last_attempt_cases n ctx t (m + 1))
        as [(e & He & _)|[(_ & Hnone & ->)
           |(h & _ & Hh & [[Hok ->]|(thrown & e & Hth & He & ->)])]];
        [congruence|simpl..].
      * split_and!; try done; [by rewrite Hnone|].
        intros _. split_and!; try done. by intros e ->.
      * split_and!; try done.
        -- intros h' Hh'. congruence.
        -- by rewrite Hh.
        -- intros _. split_and!; try done. by intros e ->.
      * split_and!; try done.
        -- intros h' Hh'. assert (h' = h) as -> by congruence. by rewrite Hth.
        -- by rewrite Hh.
        -- intros Hok. rewrite (Hok h thrown Hh Hth) in He. discriminate He.
Qed.

Lemma run_retry_contract_witness :
  Node.status (Node.run flaky ∅) = Some NodeStatus.completed
  ∧ Node.settled (Node.run flaky ∅) = Some (Returned (JStr "success"))
  ∧ Node.executeCalls (Node.run flaky ∅) = 3.
Proof.
  assert (Hen : Node.isEnabled flaky (Some ∅) false = Some (Returned true))
    by reflexivity.
  assert (Hm : (N.of_nat (Node.maxRetries_nat flaky) < two53)%N)
    by (vm_compute; reflexivity).
  destruct (run_retry_contract flaky ∅ Hen Hm) as (_ & Hs & _).
  apply (Hs 2 (JStr "success")).
  - vm_compute. lia.
  - intros j Hj. exists (ThrowError (Error "Failing")).
    destruct j as [|[|j]]; [split; reflexivity..|lia].
  - reflexivity.
Defined.
(* ===================================================================== *)
(** ** [Workflow.#topologicalSort]: the depth-first sort *)
(* ===================================================================== *)

Section sort.

Variable deps : DependencyMap.t.

Local Notation edge := (depends_on deps).

Lemma visit_each_Sorted (P : SortState → Prop) f ds st st' :
  Workflow.visit_each f ds st = Sorted st' →
  P st →
  (∀ d s s', d ∈ ds → P s → f d s = Sorted s' → P s') →
  P st'.
Proof.
  revert st. induction ds as [|d ds IH]; intros st Hv HP Hf; simpl in Hv.
  - by injection Hv as <-.
  - destruct (f d st) as [s1| |] eqn:Hd; try done.
    apply (IH s1); [done| |].
    + eapply Hf; [left|done..].
    + intros d' s s' Hin. apply Hf. by right.
Qed.

Lemma visit_each_other (P : SortState → Prop) f ds st res :
  Workflow.visit_each f ds st = res →
  (∀ s, res ≠ Sorted s) →
  P st →
  (∀ d s s', d ∈ ds → P s → f d s = Sorted s' → P s') →
  ∃ d s, d ∈ ds ∧ P s ∧ f d s = res.
Proof.
  revert st. induction ds as [|d ds IH]; intros st Hv Hres HP Hf; simpl in Hv.
  - by destruct (Hres st).
  - destruct (f d st) as [s1| |] eqn:Hd.
    + destruct (IH s1) as (d' & s & Hin & Hs & Hfd); [done..| | |].
      * eapply Hf; [left|done..].
      * intros d' s s' Hin. apply Hf. by right.
      * exists d', s. split_and!; [by right|done..].
    + exists d, st. subst res. split_and!; [left|done..].
    + exists d, st. subst res. split_and!; [left|done..].
Qed.

(** A visit that returns leaves [temp] as it found it. *)
Lemma visit_temp fuel n st st' :
  Workflow.visit fuel deps n st = Sorted st' → temp st' = temp st.
Proof.
  revert n st st'. induction fuel as [|fuel IH]; intros n st st'; simpl; [done|].
  destruct (decide (n ∈ temp st)) as [|Hnt]; [done|].
  destruct (decide (n ∈ visited st)); [by intros [= <-]|].
  destruct (Workflow.visit_each _ _ _) as [s2| |] eqn:He; try done.
  intros [= <-]. simpl.
  assert (temp s2 = {[n]} ∪ temp st) as ->; [|set_solver].
  apply (visit_each_Sorted (fun s => temp s = {[n]} ∪ temp st) _ _ _ _ He);
    [done|].
  intros d s s' _ Hs Hd. apply IH in Hd. congruence.
Qed.

(** The error names a node that depends on itself through the graph. *)
Lemma visit_Circular fuel n st m :
  Workflow.visit fuel deps n st = Circular m →
  (∀ x, x ∈ temp st → depends_transitively deps x n) →
  depends_transitively deps m m.
Proof.
  revert n st. induction fuel as [|fuel IH]; intros n st; simpl; [done|].
  destruct (decide (n ∈ temp st)) as [Hin|Hnt].
  { intros [= <-] Hp. by apply Hp. }
  destruct (decide (n ∈ visited st)); [done|].
  destruct (Workflow.visit_each _ _ _) as [s2| |] eqn:He; try done.
  intros [= <-] Hp.
  destruct (visit_each_other (fun s => temp s = {[n]} ∪ temp st) _ _ _ _ He)
    as (d & s & Hd & Hs & Hv); [done|done| |].
  { intros d s s' _ Hs Hd. apply visit_temp in Hd. congruence. }
  apply (IH _ _ Hv). intros x. rewrite Hs, elem_of_union, elem_of_singleton.
  intros [->|Hx].
  - by apply tc_once.
  - eapply tc_r; [by apply Hp|done].
Qed.

(** Fuel: each level of recursion adds a node to [temp]. *)
Lemma visit_fuel (U : gset string) fuel n st :
  (∀ a b, a ∈ U → edge a b → b ∈ U) →
  n ∈ U → size (U ∖ temp st) < fuel →
  Workflow.visit fuel deps n st ≠ SortOutOfFuel.
Proof.
  intros HU. revert n st. induction fuel as [|fuel IH]; intros n st Hn Hsz;
    simpl; [lia|].
  destruct (decide (n ∈ temp st)) as [|Hnt]; [done|].
  destruct (decide (n ∈ visited st)); [done|].
  destruct (Workflow.visit_each _ _ _) as [s2| |] eqn:He; try done.
  destruct (visit_each_other (fun s => temp s = {[n]} ∪ temp st) _ _ _ _ He)
    as (d & s & Hd & Hs & Hv); [done|done| |].
  { intros d s s' _ Hs Hd. apply visit_temp in Hd. congruence. }
  apply IH in Hv; [done| |].
  - by apply (HU n).
  - rewrite Hs.
    assert (U ∖ ({[n]} ∪ temp st) ⊂ U ∖ temp st) as Hsub by set_solver.
    apply subset_size in Hsub. lia.
Qed.

Lemma visit_each_prepend o f ds st :
  (∀ d s, d ∈ ds → f d (with_order (o ++ order s) s) = prepend o (f d s)) →
  Workflow.visit_each f ds (with_order (o ++ order st) st)
  = prepend o (Workflow.visit_each f ds st).
Proof.
  revert st. induction ds as [|d ds IH]; intros st Hf; simpl; [done|].
  rewrite Hf by left. destruct (f d st) as [s1| |]; simpl; try done.
  apply IH. intros d' s Hin. apply Hf. by right.
Qed.

Lemma visit_prepend o fuel n st :
  Workflow.visit fuel deps n (with_order (o ++ order st) st)
  = prepend o (Workflow.visit fuel deps n st).
Proof.
  revert n st. induction fuel as [|fuel IH]; intros n st; simpl; [done|].
  destruct (decide (n ∈ temp st)); [done|].
  destruct (decide (n ∈ visited st)); [done|].
  pose proof (visit_each_prepend o (Workflow.visit fuel deps)
    (DependencyMap.get deps n)
    {| visited := visited st; temp := {[n]} ∪ temp st; order := order st |})
    as Hp.
  unfold with_order in Hp. simpl in Hp. rewrite Hp by (intros; apply IH).
  clear Hp. destruct (Workflow.visit_each _ _ _); simpl; try done.
  unfold with_order. simpl. by rewrite <- app_assoc.
Qed.

Lemma visit_roots_prepend o fuel roots st :
  Workflow.visit_roots fuel deps roots (with_order (o ++ order st) st)
  = prepend o (Workflow.visit_roots fuel deps roots st).
Proof.
  apply visit_each_prepend. intros d s _. simpl.
  destruct (decide (d ∈ visited s)); [done|]. apply visit_prepend.
Qed.

Lemma visit_sorted U fuel n st st' :
  (∀ a b, a ∈ U → edge a b → b ∈ U) →
  n ∈ U →
  Workflow.visit fuel deps n st = Sorted st' →
  sorted_so_far deps U st →
  sorted_so_far deps U st' ∧ n ∈ visited st' ∧ visited st ⊆ visited st'.
Proof.
  intros HU. revert n st st'.
  induction fuel as [|fuel IH]; intros n st st' Hn; simpl; [done|].
  destruct (decide (n ∈ temp st)) as [|Hnt]; [done|].
  destruct (decide (n ∈ visited st)) as [Hv|Hnv]; [by intros [= <-]|].
  destruct (Workflow.visit_each _ _ _) as [s2| |] eqn:He; try done.
  intros [= <-] Hinv.
  set (st1 := {| visited := visited st; temp := {[n]} ∪ temp st;
                 order := order st |}) in *.
  assert (sorted_so_far deps U s2 ∧ temp s2 = {[n]} ∪ temp st
          ∧ visited st ⊆ visited s2) as (H2 & Ht2 & Hsub).
  { apply (visit_each_Sorted
      (fun s => sorted_so_far deps U s ∧ temp s = {[n]} ∪ temp st
                ∧ visited st ⊆ visited s) _ _ _ _ He).
    - split_and!; [|done|done]. destruct Hinv. split; simpl; try done.
      intros x. rewrite elem_of_union, elem_of_singleton.
      intros [->|?]; [done|auto].
    - intros d s s' Hd (Hs & Hts & Hss) Hvd.
      pose proof (visit_temp _ _ _ _ Hvd) as Htd.
      apply IH in Hvd as (? & ? & ?); [|by apply (HU n)|done].
      split_and!; [done|congruence|set_solver]. }
  assert (∀ d, edge n d → d ∈ visited s2) as Hdeps.
  { intros d Hd.
    enough (Hgen : ∀ ds s s', Workflow.visit_each (Workflow.visit fuel deps) ds s
                     = Sorted s' → sorted_so_far deps U s →
                     (∀ x, x ∈ ds → x ∈ U) →
                     sorted_so_far deps U s'
                     ∧ visited s ⊆ visited s'
                     ∧ ∀ x, x ∈ ds → x ∈ visited s').
    { destruct (Hgen _ _ _ He) as (_ & _ & Hall).
      - destruct Hinv. split; simpl; try done.
        intros x. rewrite elem_of_union, elem_of_singleton.
        intros [->|?]; [done|auto].
      - intros x Hx. by apply (HU n).
      - by apply Hall. }
    clear -IH. induction ds as [|x ds IHds]; intros s s' Hvs Hs Hin; simpl in Hvs.
    - injection Hvs as <-. split_and!; [done|done|]. by intros x ?%elem_of_nil.
    - destruct (Workflow.visit fuel deps x s) as [s1| |] eqn:Hx; try done.
      apply IH in Hx as (H1 & Hx1 & Hsub1); [|apply Hin; left|done].
      apply IHds in Hvs as (H' & Hsub' & Hall'); [|done|].
      + split_and!; [done|set_solver|].
        intros y [->|Hy]%elem_of_cons; [set_solver|by apply Hall'].
      + intros y Hy. apply Hin. by right. }
  destruct H2 as [Hvis Hnd Hfirst Htemp Hwithin].
  assert (n ∉ order s2) as Hnotin.
  { rewrite <- Hvis. apply Htemp. rewrite Ht2. set_solver. }
  split_and!; [split; simpl| set_solver | set_solver].
  - intros x. rewrite elem_of_union, elem_of_singleton, elem_of_app,
      list_elem_of_singleton, Hvis. tauto.
  - apply NoDup_app. split_and!; [done| |apply NoDup_singleton].
    intros x Hx ->%list_elem_of_singleton. done.
  - intros l1 k l2 Heq d Hd.
    destruct l2 as [|y l2 _] using rev_ind.
    + apply app_inj_tail in Heq as [<- <-]. apply Hvis. by apply Hdeps.
    + rewrite app_comm_cons, app_assoc in Heq.
      apply app_inj_tail in Heq as [Heq _]. by eapply Hfirst.
  - intros x. rewrite Ht2, elem_of_difference, elem_of_union,
      !elem_of_singleton.
    intros [[->|Hx] Hne]; [done|].
    rewrite not_elem_of_union, elem_of_singleton. split; [done|].
    apply Htemp. rewrite Ht2. set_solver.
  - intros x [Hx| ->%list_elem_of_singleton]%elem_of_app; [auto|done].
Qed.

Lemma visit_roots_sorted U fuel roots st st' :
  (∀ a b, a ∈ U → edge a b → b ∈ U) →
  (∀ x, x ∈ roots → x ∈ U) →
  Workflow.visit_roots fuel deps roots st = Sorted st' →
  sorted_so_far deps U st →
  sorted_so_far deps U st' ∧ visited st ⊆ visited st'
  ∧ ∀ x, x ∈ roots → x ∈ visited st'.
Proof.
  intros HU. unfold Workflow.visit_roots. revert st st'.
  induction roots as [|x roots IH]; intros st st' Hin Hv Hs; simpl in Hv.
  - injection Hv as <-. split_and!; [done|done|]. by intros x ?%elem_of_nil.
  - destruct (decide (x ∈ visited st)) as [Hx|Hx].
    + apply IH in Hv as (H1 & Hsub & Hall); [|intros; apply Hin; by right|done].
      split_and!; [done|done|].
      intros y [->|Hy]%elem_of_cons; [set_solver|by apply Hall].
    + destruct (Workflow.visit fuel deps x st) as [s1| |] eqn:Hvx; try done.
      apply (visit_sorted U) in Hvx as (H1 & Hx1 & Hsub1);
        [|done|apply Hin; left|done].
      apply IH in Hv as (H' & Hsub' & Hall');
        [|intros; apply Hin; by right|done].
      split_and!; [done|set_solver|].
      intros y [->|Hy]%elem_of_cons; [set_solver|by apply Hall'].
Qed.

Lemma visit_roots_temp fuel roots st st' :
  Workflow.visit_roots fuel deps roots st = Sorted st' → temp st' = temp st.
Proof.
  intros Hv.
  apply (visit_each_Sorted (fun s => temp s = temp st) _ _ _ _ Hv); [done|].
  intros d s s' _ Hs. destruct (decide (d ∈ visited s)).
  - by intros [= <-].
  - intros Hd%visit_temp. congruence.
Qed.

Lemma visit_roots_Circular fuel roots st m :
  Workflow.visit_roots fuel deps roots st = Circular m →
  temp st = ∅ →
  depends_transitively deps m m.
Proof.
  intros Hv Ht.
  destruct (visit_each_other (fun s => temp s = ∅) _ _ _ _ Hv)
    as (d & s & _ & Hs & Hd); [done|done| |].
  - intros d s s' _ Hs. destruct (decide (d ∈ visited s)).
    + by intros [= <-].
    + intros Hd%visit_temp. congruence.
  - destruct (decide (d ∈ visited s)); [done|].
    apply visit_Circular in Hd; [done|]. rewrite Hs. set_solver.
Qed.

Lemma visit_roots_fuel (U : gset string) fuel roots st :
  (∀ a b, a ∈ U → edge a b → b ∈ U) →
  (∀ x, x ∈ roots → x ∈ U) →
  temp st = ∅ → size U < fuel →
  Workflow.visit_roots fuel deps roots st ≠ SortOutOfFuel.
Proof.
  intros HU Hin Ht Hsz Hv.
  destruct (visit_each_other (fun s => temp s = ∅) _ _ _ _ Hv)
    as (d & s & Hd & Hs & Hvd); [done|done| |].
  - intros d s s' _ Hs. destruct (decide (d ∈ visited s)).
    + by intros [= <-].
    + intros Hd%visit_temp. congruence.
  - destruct (decide (d ∈ visited s)); [done|].
    apply (visit_fuel U) in Hvd; [done|done|by apply Hin|].
    rewrite Hs. replace (U ∖ ∅) with U by set_solver. done.
Qed.

End sort.

(* ===================================================================== *)
(** ** The node map and the dependency map *)
(* ===================================================================== *)

Lemma JsMap_get_None {V} (m : list (string * V)) k :
  JsMap.get m k = None ↔ k ∉ JsMap.keys m.
Proof.
  unfold JsMap.keys. induction m as [|[k' v] m IH]; simpl.
  - split; [intros _; apply not_elem_of_nil|done].
  - rewrite not_elem_of_cons. destruct (decide (k' = k)); naive_solver.
Qed.

Lemma JsMap_get_Some {V} (m : list (string * V)) k v :
  JsMap.get m k = Some v → (k, v) ∈ m.
Proof.
  induction m as [|[k' v'] m IH]; simpl; [done|].
  destruct (decide (k' = k)) as [->|].
  - intros [= ->]. left.
  - intros ?. right. auto.
Qed.

Lemma JsMap_get_elem_of {V} (m : list (string * V)) k v :
  NoDup (JsMap.keys m) → (k, v) ∈ m → JsMap.get m k = Some v.
Proof.
  unfold JsMap.keys. induction m as [|[k' v'] m IH]; simpl.
  - by intros _ ?%elem_of_nil.
  - intros [Hk Hnd]%NoDup_cons [[= -> ->]|Hin]%elem_of_cons.
    + by rewrite decide_True.
    + rewrite decide_False; [auto|]. intros ->. apply Hk.
      apply list_elem_of_fmap. by exists (k, v).
Qed.

Lemma JsMap_get_is_Some {V} (m : list (string * V)) k :
  is_Some (JsMap.get m k) ↔ k ∈ JsMap.keys m.
Proof.
  rewrite <- not_eq_None_Some, JsMap_get_None.
  destruct (decide (k ∈ JsMap.keys m)); naive_solver.
Qed.

Lemma JsMap_has_true {V} (m : list (string * V)) k :
  JsMap.has m k = true ↔ k ∈ JsMap.keys m.
Proof.
  rewrite <- JsMap_get_is_Some. unfold JsMap.has.
  destruct (JsMap.get m k); split; try done; eauto.
Qed.

Lemma JsMap_set_fresh {V} (m : list (string * V)) k v :
  k ∉ JsMap.keys m → JsMap.set m k v = m ++ [(k, v)].
Proof.
  unfold JsMap.keys. induction m as [|[k' v'] m IH]; simpl; [done|].
  rewrite not_elem_of_cons. intros [Hne Hk].
  rewrite decide_False by done. by rewrite IH.
Qed.

Lemma DependencyMap_get_add m key value k :
  DependencyMap.get (DependencyMap.add m key value) k
  = if decide (key = k) then DependencyMap.get m key ++ [value]
    else DependencyMap.get m k.
Proof.
  unfold DependencyMap.add, DependencyMap.get at 1.
  rewrite lookup_insert. by destruct (decide (key = k)).
Qed.

Lemma DependencyMap_get_empty k : DependencyMap.get DependencyMap.empty k = [].
Proof. done. Qed.

(* ===================================================================== *)
(** ** [Workflow.addNode] *)
(* ===================================================================== *)

Lemma addDependencies_frame w nodeId ds :
  let w' := (Workflow.addDependencies w nodeId ds).1 in
  Workflow.nodes w' = Workflow.nodes w
  ∧ Workflow.topologicalOrder w' = Workflow.topologicalOrder w
  ∧ Workflow.contextValueOrFactory w' = Workflow.contextValueOrFactory w
  ∧ (∀ k, k ≠ nodeId →
       DependencyMap.get (Workflow.nodeDependencies w') k
       = DependencyMap.get (Workflow.nodeDependencies w) k)
  ∧ ∃ added,
      DependencyMap.get (Workflow.nodeDependencies w') nodeId
      = DependencyMap.get (Workflow.nodeDependencies w) nodeId ++ added
      ∧ (∀ b, b ∈ added → b ≠ nodeId ∧ b ∈ JsMap.keys (Workflow.nodes w))
      ∧ ((Workflow.addDependencies w nodeId ds).2 = None →
           added = dep_strings ds).
Proof.
  revert w. induction ds as [|d ds IH]; intros w; simpl.
  { split_and!; try done. exists []. rewrite app_nil_r.
    split_and!; [done| |done]. by intros b ?%elem_of_nil. }
  assert (∀ e : JsError,
    let w' := (w, Some e).1 in
    Workflow.nodes w' = Workflow.nodes w
    ∧ Workflow.topologicalOrder w' = Workflow.topologicalOrder w
    ∧ Workflow.contextValueOrFactory w' = Workflow.contextValueOrFactory w
    ∧ (∀ k, k ≠ nodeId →
         DependencyMap.get (Workflow.nodeDependencies w') k
         = DependencyMap.get (Workflow.nodeDependencies w) k)
    ∧ ∃ added,
        DependencyMap.get (Workflow.nodeDependencies w') nodeId
        = DependencyMap.get (Workflow.nodeDependencies w) nodeId ++ added
        ∧ (∀ b, b ∈ added → b ≠ nodeId ∧ b ∈ JsMap.keys (Workflow.nodes w))
        ∧ ((w, Some e).2 = None → added = dep_strings (d :: ds))) as Hfail.
  { intros e. simpl. split_and!; try done. exists []. rewrite app_nil_r.
    split_and!; [done| |done]. by intros b ?%elem_of_nil. }
  destruct d as [| | | |s| |]; try apply Hfail.
  destruct (decide (s = nodeId)) as [->|Hne]; [apply Hfail|].
  destruct (JsMap.get (Workflow.nodes w) s) as [n|] eqn:Hget; [|apply Hfail].
  set (w1 := Workflow.set_nodeDependencies w _).
  destruct (IH w1) as (Hn & Ho & Hc & Hk & added & Ha & Hin & Hok).
  split_and!; try done.
  - intros k Hkne. rewrite Hk by done. subst w1. simpl.
    rewrite DependencyMap_get_add. by rewrite decide_False.
  - exists (s :: added). split_and!.
    + rewrite Ha. subst w1. simpl. rewrite DependencyMap_get_add.
      rewrite decide_True by done. by rewrite <- app_assoc.
    + intros b [->|Hb]%elem_of_cons.
      * split; [done|]. apply JsMap_get_is_Some. by rewrite Hget.
      * apply Hin in Hb. by subst w1.
    + intros Hnone. simpl. f_equal. by apply Hok.
Qed.

Lemma addDependencies_None w nodeId ds :
  (Workflow.addDependencies w nodeId ds).2 = None ↔
  Forall (acceptable_dependency w nodeId) ds.
Proof.
  revert w. induction ds as [|d ds IH]; intros w; simpl.
  { split; [constructor|done]. }
  rewrite Forall_cons.
  destruct d as [| | | |s| |]; simpl;
    try (split; [done|intros [(s' & [=] & _) _]]).
  destruct (decide (s = nodeId)) as [->|Hne]; simpl.
  { split; [done|]. by intros [(s' & [= <-] & ? & _) _]. }
  destruct (JsMap.get (Workflow.nodes w) s) as [n|] eqn:Hget; simpl.
  - rewrite IH. split.
    + intros H. split; [exists s; rewrite Hget; eauto|].
      eapply Forall_impl; [exact H|]. intros d (s' & -> & ? & ?). by exists s'.
    + intros [_ H]. eapply Forall_impl; [exact H|].
      intros d (s' & -> & ? & ?). by exists s'.
  - split; [done|]. intros [(s' & [= <-] & _ & [? Hs]) _]. congruence.
Qed.

Lemma acceptable_dependencies_iff w nodeId ds :
  Forall (acceptable_dependency w nodeId) ds ↔
  ¬ (JStr nodeId ∈ ds
     ∨ (∃ d, d ∈ ds ∧ typeof_string d = false)
     ∨ (∃ s, JStr s ∈ ds ∧ JsMap.get (Workflow.nodes w) s = None)).
Proof.
  rewrite Forall_forall. split.
  - intros H [Hin|[(d & Hin & Hd)|(s & Hin & Hs)]].
    + apply H in Hin as (s & [= <-] & ? & _). done.
    + apply H in Hin as (s & -> & _). done.
    + apply H in Hin as (s' & [= <-] & _ & [? ?]). congruence.
  - intros H d Hin. destruct d as [| | | |s| |];
      try (destruct H; right; left; eexists; split; [exact Hin|done]).
    exists s. split_and!; [done| |].
    + intros ->. apply H. by left.
    + destruct (JsMap.get (Workflow.nodes w) s) eqn:Hs; [eauto|].
      destruct H. right. right. eauto.
Qed.

Lemma addDependencies_Some w nodeId ds e :
  (Workflow.addDependencies w nodeId ds).2 = Some e →
  JStr nodeId ∈ ds
  ∨ (∃ d, d ∈ ds ∧ typeof_string d = false)
  ∨ (∃ s, JStr s ∈ ds ∧ JsMap.get (Workflow.nodes w) s = None).
Proof.
  revert w. induction ds as [|d ds IH]; intros w; simpl; [done|].
  destruct d as [| | | |s| |];
    try (intros _; right; left; eexists; split; [left|done]).
  destruct (decide (s = nodeId)) as [->|Hne]; [intros _; left; left|].
  destruct (JsMap.get (Workflow.nodes w) s) as [n|] eqn:Hget.
  - intros [H|[(d & Hd & Ht)|(s' & Hs & Hg)]]%IH.
    + left. by right.
    + right. left. exists d. split; [by right|done].
    + right. right. exists s'. split; [by right|done].
  - intros _. right. right. exists s. split; [left|done].
Qed.

(** C6 (counterexample): on an empty builder, options with
    [maxRetries: -1] make [addNode] throw although the id is neither
    reserved nor registered and there are no dependencies. *)
Lemma addNode_throws_on_invalid_retry_policy :
  ¬ addNode_throws_exactly_as_specified.
Proof.
  intros H.
  assert (is_Some (Workflow.addNode empty_builder bad_policy_options).2)
    as Hthrows by (vm_compute; eauto).
  apply H in Hthrows as [Hi|[Hh|[Hs|[(d & Hd & _)|(s & Hs & _)]]]].
  - discriminate Hi.
  - discriminate Hh.
  - simpl in Hs. by apply elem_of_nil in Hs.
  - simpl in Hd. by apply elem_of_nil in Hd.
  - simpl in Hs. by apply elem_of_nil in Hs.
Qed.

(** C6 (amended): [addNode(options)] throws exactly when [options.id] is
    ["initial"], or a node with that id is registered, or the retry policy
    of the options is rejected by the node constructor, or a listed
    dependency equals the id, is not a string or names no registered node;
    otherwise the node is appended to the node map, the listed dependencies
    are appended in list order to the entry of the id in the dependency
    index, no other entry changes, and the call returns the builder. *)
Theorem addNode_contract w o :
  let w' := (Workflow.addNode w o).1 in
  let nodeId := NodeOptions.id o in
  (is_Some (Workflow.addNode w o).2 ↔
     rejected_by_specification w o ∨ is_Ok (Node.new o) = false)
  ∧ ((Workflow.addNode w o).2 = None →
       ∃ node, Node.new o = Ok node
         ∧ Workflow.nodes w' = Workflow.nodes w ++ [(nodeId, node)]
         ∧ DependencyMap.get (Workflow.nodeDependencies w') nodeId
           = DependencyMap.get (Workflow.nodeDependencies w) nodeId
             ++ dep_strings (default [] (NodeOptions.dependencies o))
         ∧ (∀ k, k ≠ nodeId →
              DependencyMap.get (Workflow.nodeDependencies w') k
              = DependencyMap.get (Workflow.nodeDependencies w) k)
         ∧ Workflow.contextValueOrFactory w' = Workflow.contextValueOrFactory w
         ∧ Workflow.topologicalOrder w' = Workflow.topologicalOrder w).
Proof.
  intros w' nodeId. subst w'. unfold Workflow.addNode, rejected_by_specification.
  fold nodeId. set (ds := default [] (NodeOptions.dependencies o)).
  destruct (decide (nodeId = "initial")) as [Hi|Hi]; simpl.
  { split; [|done]. split; [by left; left|eauto]. }
  destruct (JsMap.has (Workflow.nodes w) nodeId) eqn:Hhas; simpl.
  { split; [|done]. split; [by left; right; left|eauto]. }
  destruct (Node.new o) as [node|e] eqn:Hnew; simpl.
  2:{ split; [|done]. split; [by right|eauto]. }
  pose proof (addDependencies_None w nodeId ds) as Hnone.
  pose proof (addDependencies_frame w nodeId ds) as Hframe.
  rewrite acceptable_dependencies_iff in Hnone.
  destruct (Workflow.addDependencies w nodeId ds) as [w1 [e|]] eqn:Hadd;
    simpl in *.
  - split; [|done]. split; [|eauto]. intros _. left. right. right.
    apply (addDependencies_Some w nodeId ds e). by rewrite Hadd.
  - destruct Hnone as [Hn _]. specialize (Hn eq_refl).
    split.
    + split; [by intros [? ?]|].
      intros [[?|[?|?]]|?]; [done|done| |done]. destruct Hn. tauto.
    + intros _. exists node.
      destruct Hframe as (Hn1 & Ho & Hc & Hk & added & Ha & _ & Hok).
      split_and!; try done.
      * rewrite Hn1. apply JsMap_set_fresh. rewrite <- JsMap_has_true.
        by rewrite Hhas.
      * by rewrite Ha, Hok.
Qed.

Lemma addNode_contract_witness :
  (Workflow.addNode empty_builder (plain "node1" [] (JStr "result1"))).2 = None
  ∧ ∃ node, Node.new (plain "node1" [] (JStr "result1")) = Ok node
      ∧ Workflow.nodes one_node = [("node1", node)].
Proof.
  split; [reflexivity|].
  destruct (addNode_contract empty_builder (plain "node1" [] (JStr "result1")))
    as [_ H].
  destruct (H eq_refl) as (node & Hn & Hnodes & _).
  exists node. split; [exact Hn|exact Hnodes].
Defined.

(* ===================================================================== *)
(** ** Builders made through the public interface *)
(* ===================================================================== *)

Lemma new_options o n : Node.new o = Ok n → Node.options n = o.
Proof.
  unfold Node.new. destruct (NodeOptions.retryPolicy o) as [p|].
  - destruct (Node.validateRetryPolicy p) as [[]|e]; simpl; [|done].
    by intros [= <-].
  - by intros [= <-].
Qed.

Lemma new_with_context options w :
  Workflow.new options = Ok w → ∃ x, w = Workflow.with_context x.
Proof.
  unfold Workflow.new, throw_if. intros H.
  repeat case_match; simplify_eq; eauto.
Qed.

Lemma with_context_well_formed x : well_formed (Workflow.with_context x).
Proof.
  split; simpl; try done.
  - constructor.
  - apply not_elem_of_nil.
  - by intros k n ?%elem_of_nil.
  - intros a b Hab. unfold depends_on in Hab.
    rewrite DependencyMap_get_empty in Hab. by apply elem_of_nil in Hab.
Qed.

Lemma addDependencies_well_formed w nodeId ds :
  well_formed w → nodeId ∉ JsMap.keys (Workflow.nodes w) →
  well_formed (Workflow.addDependencies w nodeId ds).1.
Proof.
  intros [Hnd Hini Hids Hord Hedges] Hfresh.
  destruct (addDependencies_frame w nodeId ds)
    as (Hn & Ho & _ & Hk & added & Ha & Hin & _).
  split; rewrite ?Hn, ?Ho; try done.
  intros a b. unfold depends_on. destruct (decide (a = nodeId)) as [->|Hne].
  - rewrite Ha, elem_of_app. intros [Hb|Hb]; [by apply Hedges|].
    apply Hin in Hb as [_ Hb]. apply list_elem_of_lookup in Hb as [i Hib].
    exists i. split; [done|]. intros j Hj. destruct Hfresh.
    apply list_elem_of_lookup. eauto.
  - rewrite Hk by done. apply Hedges.
Qed.

Lemma addNode_well_formed w o :
  well_formed w → well_formed (Workflow.addNode w o).1.
Proof.
  intros Hw. unfold Workflow.addNode.
  destruct (decide (NodeOptions.id o = "initial")) as [|Hi]; [done|].
  destruct (JsMap.has _ _) eqn:Hhas; [done|].
  assert (NodeOptions.id o ∉ JsMap.keys (Workflow.nodes w)) as Hfresh.
  { rewrite <- JsMap_has_true. by rewrite Hhas. }
  destruct (Node.new o) as [node|e] eqn:Hnew; [|done].
  pose proof (addDependencies_well_formed w (NodeOptions.id o)
    (default [] (NodeOptions.dependencies o)) Hw Hfresh) as Hw1.
  destruct (addDependencies_frame w (NodeOptions.id o)
    (default [] (NodeOptions.dependencies o))) as (Hn & _).
  destruct (Workflow.addDependencies _ _ _) as [w1 [e|]]; [done|].
  simpl in *. destruct Hw1 as [Hnd Hini Hids Hord Hedges].
  rewrite Hn in *.
  assert (JsMap.keys (JsMap.set (Workflow.nodes w) (NodeOptions.id o) node)
          = JsMap.keys (Workflow.nodes w) ++ [NodeOptions.id o]) as Hkeys.
  { rewrite JsMap_set_fresh by done. unfold JsMap.keys. by rewrite fmap_app. }
  split; simpl; rewrite ?Hkeys; try done.
  - apply NoDup_app. split_and!; [done| |apply NoDup_singleton].
    by intros x ? ->%list_elem_of_singleton.
  - rewrite elem_of_app, list_elem_of_singleton. naive_solver.
  - rewrite JsMap_set_fresh by done. intros k n.
    rewrite elem_of_app, list_elem_of_singleton.
    intros [?|[= -> ->]]; [auto|].
    unfold Node.id. by rewrite (new_options _ _ Hnew).
  - intros a b Hab. destruct (Hedges a b Hab) as (i & Hib & Hlt).
    exists i. split; [by apply lookup_app_l_Some|].
    intros j Hj. apply lookup_app_Some in Hj as [Hj|[Hge Hj]]; [auto|].
    apply lookup_lt_Some in Hib. lia.
Qed.

Lemma constructed_well_formed w : constructed w → well_formed w.
Proof.
  induction 1 as [options w Hnew|w options _ IH].
  - apply new_with_context in Hnew as [x ->]. apply with_context_well_formed.
  - by apply addNode_well_formed.
Qed.

(** A listing in which every edge leads to an earlier position admits no
    cycle through its elements. *)
Lemma descending_acyclic (deps : DependencyMap.t) (l : list string) :
  NoDup l →
  (∀ a b j, depends_on deps a b → l !! j = Some a →
            ∃ i, l !! i = Some b ∧ i < j) →
  ∀ x, x ∈ l → ¬ depends_transitively deps x x.
Proof.
  intros Hnd Hdesc x Hx Hcycle.
  assert (∀ a b, depends_transitively deps a b →
            ∀ j, l !! j = Some a → ∃ i, l !! i = Some b ∧ i < j) as Hpath.
  { induction 1 as [a b Hab|a c b Hac _ IH]; intros j Hj; [eauto|].
    destruct (Hdesc a c j Hac Hj) as (k & Hk & Hlt).
    destruct (IH k Hk) as (i & Hi & Hlt'). exists i. split; [done|lia]. }
  apply list_elem_of_lookup in Hx as [j Hj].
  destruct (Hpath x x Hcycle j Hj) as (i & Hi & Hlt).
  pose proof (NoDup_lookup _ _ _ _ Hnd Hi Hj). lia.
Qed.

Lemma well_formed_edges_closed w : well_formed w → edges_closed w.
Proof.
  intros Hw a b Hab. destruct (wf_edges w Hw a b Hab) as (i & Hi & _).
  apply list_elem_of_lookup. eauto.
Qed.

Lemma well_formed_acyclic w : well_formed w → ¬ cyclic w.
Proof.
  intros Hw (x & Hx & Hcycle).
  eapply (descending_acyclic _ (JsMap.keys (Workflow.nodes w)));
    [apply Hw| |exact Hx|exact Hcycle].
  intros a b j Hab Hj. destruct (wf_edges w Hw a b Hab) as (i & Hi & Hlt).
  eauto.
Qed.

Lemma path_target_registered w a b :
  edges_closed w →
  depends_transitively (Workflow.nodeDependencies w) a b →
  b ∈ JsMap.keys (Workflow.nodes w).
Proof. intros Hc. induction 1; eauto. Qed.

(* ===================================================================== *)
(** ** [Workflow.build] *)
(* ===================================================================== *)

Lemma mentioned_closed w a b :
  depends_on (Workflow.nodeDependencies w) a b → b ∈ Workflow.mentioned w.
Proof.
  unfold depends_on, DependencyMap.get, Workflow.mentioned. intros Hb.
  destruct (Workflow.nodeDependencies w !! a) as [l|] eqn:Ha; simpl in Hb;
    [|by apply elem_of_nil in Hb].
  apply elem_of_union_r, elem_of_union_list.
  exists (list_to_set l). split; [|by apply elem_of_list_to_set].
  apply list_elem_of_fmap. exists (a, l). split; [done|].
  by apply elem_of_map_to_list.
Qed.

(** The fuel given to the sort is never exhausted. *)
Lemma topologicalSort_fuel w : Workflow.topologicalSort w ≠ SortOutOfFuel.
Proof.
  unfold Workflow.topologicalSort.
  apply (visit_roots_fuel _ (Workflow.mentioned w)); simpl; [| |done|].
  - intros a b _. apply mentioned_closed.
  - intros x Hx. unfold Workflow.mentioned.
    by apply elem_of_union_l, elem_of_list_to_set.
  - unfold Workflow.sort_fuel. lia.
Qed.

Lemma topologicalSort_prepend w :
  Workflow.topologicalSort w
  = prepend (Workflow.topologicalOrder w)
      (Workflow.visit_roots (Workflow.sort_fuel w) (Workflow.nodeDependencies w)
         (JsMap.keys (Workflow.nodes w)) fresh_sort).
Proof.
  unfold Workflow.topologicalSort.
  rewrite <- visit_roots_prepend. unfold with_order, fresh_sort. simpl.
  by rewrite app_nil_r.
Qed.

Lemma fresh_sort_sorted deps U : sorted_so_far deps U fresh_sort.
Proof.
  split; simpl; try set_solver.
  - constructor.
  - intros l1 k l2 H. by destruct l1.
Qed.

(** What a returning sort has appended to the array. *)
Lemma topologicalSort_Sorted w st :
  edges_closed w →
  Workflow.topologicalSort w = Sorted st →
  ∃ new, order st = Workflow.topologicalOrder w ++ new
    ∧ NoDup new
    ∧ (∀ x, x ∈ new ↔ x ∈ JsMap.keys (Workflow.nodes w))
    ∧ dependencies_first (Workflow.nodeDependencies w) new.
Proof.
  intros Hclosed. rewrite topologicalSort_prepend.
  destruct (Workflow.visit_roots _ _ _ _) as [st0| |] eqn:Hv; simpl; try done.
  intros [= <-]. exists (order st0). split; [done|].
  apply (visit_roots_sorted _ (list_to_set (JsMap.keys (Workflow.nodes w))))
    in Hv as ([Hvis Hnd Hfirst _ Hwithin] & _ & Hroots).
  - split_and!; [done| |].
    + intros x. split.
      * intros Hx%Hwithin. by apply elem_of_list_to_set in Hx.
      * intros Hx. by apply Hvis, Hroots.
    + intros i j n d Hj Hi Hnd'.
      pose proof (take_drop_middle _ _ _ Hj) as Hsplit.
      symmetry in Hsplit. apply Hfirst with (d := d) in Hsplit; [|done].
      apply list_elem_of_lookup in Hsplit as [i' Hi'].
      pose proof (lookup_lt_Some _ _ _ Hi') as Hlt.
      rewrite length_take in Hlt.
      rewrite lookup_take_lt in Hi' by lia.
      pose proof (NoDup_lookup _ _ _ _ Hnd Hi Hi'). lia.
  - intros a b _ Hab. apply elem_of_list_to_set. by eapply Hclosed.
  - intros x Hx. by apply elem_of_list_to_set.
  - apply fresh_sort_sorted.
Qed.

Lemma topologicalSort_Sorted_acyclic w st :
  edges_closed w → Workflow.topologicalSort w = Sorted st → ¬ cyclic w.
Proof.
  intros Hclosed (new & _ & Hnd & Hin & Hfirst)%topologicalSort_Sorted; [|done].
  intros (x & Hx & Hcycle).
  eapply (descending_acyclic _ new); [done| |by apply Hin|exact Hcycle].
  intros a b j Hab Hj.
  assert (b ∈ new) as [i Hi]%list_elem_of_lookup by (apply Hin; eauto).
  exists i. split; [done|]. by eapply Hfirst.
Qed.

Lemma topologicalSort_Circular w m :
  edges_closed w → Workflow.topologicalSort w = Circular m →
  depends_transitively (Workflow.nodeDependencies w) m m
  ∧ m ∈ JsMap.keys (Workflow.nodes w).
Proof.
  intros Hclosed. rewrite topologicalSort_prepend.
  destruct (Workflow.visit_roots _ _ _ _) as [st0|m'|] eqn:Hv; simpl; try done.
  intros [= ->]. apply visit_roots_Circular in Hv; [|done].
  split; [done|]. by eapply path_target_registered.
Qed.

(* ===================================================================== *)
(** ** [Workflow.build] *)
(* ===================================================================== *)

Lemma build_Ok w hook w' r :
  Workflow.build w hook = Ran (Ok (w', r)) →
  ∃ st, Workflow.topologicalSort w = Sorted st
    ∧ Workflow.size w ≠ 0
    ∧ (truthy_or hook = false ∨ typeof_function hook = true)
    ∧ WorkflowRunner.topologicalOrder r = order st
    ∧ WorkflowRunner.nodes r = Workflow.nodes w
    ∧ WorkflowRunner.nodeDependencies r = Workflow.nodeDependencies w
    ∧ WorkflowRunner.contextValueOrFactory r = Workflow.contextValueOrFactory w
    ∧ WorkflowRunner.onNodesCompleted r = hook.
Proof.
  unfold Workflow.build.
  destruct (Nat.eqb_spec (Workflow.size w) 0); [done|].
  destruct (truthy_or hook) eqn:Ht, (typeof_function hook) eqn:Hf; simpl;
    try done;
    (destruct (Workflow.topologicalSort w) as [st| |]; [|done..];
     intros [= <- <-]; exists st; simpl; split_and!; auto).
Qed.

(** The order that [build] hands to the runner, for a builder that
    satisfies the invariant of the builder. *)
Lemma build_sorted w hook w' r :
  well_formed w →
  Workflow.build w hook = Ran (Ok (w', r)) →
  let order := WorkflowRunner.topologicalOrder r in
  dependencies_first (WorkflowRunner.nodeDependencies r) order
  ∧ NoDup order
  ∧ (∀ x, x ∈ order ↔ x ∈ JsMap.keys (WorkflowRunner.nodes r))
  ∧ order ≡ₚ JsMap.keys (WorkflowRunner.nodes r).
Proof.
  intros Hw (st & Hsort & _ & _ & -> & -> & -> & _)%build_Ok. simpl.
  apply topologicalSort_Sorted in Hsort
    as (new & -> & Hnd & Hin & Hfirst); [|by apply well_formed_edges_closed].
  rewrite (wf_order w Hw). simpl. split_and!; try done.
  apply NoDup_Permutation; [done|apply Hw|done].
Qed.


Lemma diamond_constructed : constructed diamond.
Proof.
  unfold diamond. repeat apply constructed_addNode.
  by apply (constructed_new None).
Qed.



(** C7 (counterexample): with one registered node, [build] given
    [onNodesCompleted: false] returns a runner. *)
Lemma build_accepts_falsy_hook : ¬ build_rejects_every_non_function_hook.
Proof.
  intros H.
  destruct (H one_node (NotFun (JBool false))) as [e He]; [done..|].
  vm_compute in He. discriminate He.
Qed.

(** C7 (amended): [build] throws when no node is registered, and when the
    supplied completion hook is truthy and not a function (a falsy hook is
    taken as absent); otherwise, for every graph whose edges lead to
    registered nodes, a dependency cycle makes [build] itself throw the
    circular-dependency error, which names a registered node lying on a
    cycle, so that no runner exists to be triggered, and without a cycle
    [build] returns a runner over the same nodes and dependency index. *)
Theorem build_contract w hook :
  edges_closed w →
  (Workflow.size w = 0 →
     Workflow.build w hook = Ran (Throws (Error
       "Unable to build WorkflowRunner. No nodes added to the workflow")))
  ∧ (Workflow.size w ≠ 0 → truthy_or hook = true →
     typeof_function hook = false →
     Workflow.build w hook = Ran (Throws (Error
       "onNodesCompleted must be a function (sync or async).")))
  ∧ (Workflow.size w ≠ 0 →
     truthy_or hook = false ∨ typeof_function hook = true →
     (cyclic w →
        ∃ n, Workflow.build w hook = Ran (Throws (Error
               ("Circular dependency detected involving node " +:+ n)))
          ∧ n ∈ JsMap.keys (Workflow.nodes w)
          ∧ depends_transitively (Workflow.nodeDependencies w) n n)
     ∧ (¬ cyclic w →
        ∃ w' r, Workflow.build w hook = Ran (Ok (w', r))
          ∧ WorkflowRunner.nodes r = Workflow.nodes w
          ∧ WorkflowRunner.nodeDependencies r = Workflow.nodeDependencies w
          ∧ WorkflowRunner.onNodesCompleted r = hook)).
Proof.
  intros Hclosed. unfold Workflow.build. split_and!.
  - by intros ->.
  - intros Hs Ht Hf. destruct (Nat.eqb_spec (Workflow.size w) 0); [done|].
    by rewrite Ht, Hf.
  - intros Hs Hhook. destruct (Nat.eqb_spec (Workflow.size w) 0); [done|].
    assert (truthy_or hook && negb (typeof_function hook) = false) as ->.
    { destruct Hhook as [-> | ->]; [done|]. by rewrite andb_false_r. }
    pose proof (topologicalSort_fuel w) as Hfuel.
    destruct (Workflow.topologicalSort w) as [st|m|] eqn:Hsort; [| |done].
    + split.
      * intros Hc. by apply topologicalSort_Sorted_acyclic in Hsort.
      * intros _. eexists _, _. split; [done|]. by simpl.
    + apply topologicalSort_Circular in Hsort as [Hm Hin]; [|done].
      split.
      * intros _. exists m. by split_and!.
      * intros Hc. destruct Hc. by exists m.
Qed.

Lemma two_cycle_edges_closed : edges_closed two_cycle.
Proof.
  intros a b. unfold depends_on, DependencyMap.get, two_cycle.
  change (Workflow.nodeDependencies _) with two_cycle_dependencies.
  change (JsMap.keys _) with ["A"; "B"]. unfold two_cycle_dependencies.
  destruct (decide (a = "A")) as [->|Ha]; [|destruct (decide (a = "B")) as [->|Hb]].
  - rewrite lookup_insert_eq. intros ->%list_elem_of_singleton. set_solver.
  - rewrite lookup_insert_ne, lookup_insert_eq by done.
    intros ->%list_elem_of_singleton. set_solver.
  - rewrite lookup_insert_ne, lookup_insert_ne, lookup_empty by done.
    by intros ?%elem_of_nil.
Qed.

Lemma two_cycle_cyclic : cyclic two_cycle.
Proof.
  exists "A". split; [set_solver|].
  apply tc_l with "B"; [|apply tc_once]; unfold depends_on; vm_compute;
    apply list_elem_of_here.
Qed.

Lemma build_contract_witness :
  ∃ n, Workflow.build two_cycle (NotFun JUndefined)
       = Ran (Throws (Error
           ("Circular dependency detected involving node " +:+ n)))
    ∧ n ∈ JsMap.keys (Workflow.nodes two_cycle)
    ∧ depends_transitively (Workflow.nodeDependencies two_cycle) n n.
Proof.
  destruct (build_contract two_cycle (NotFun JUndefined) two_cycle_edges_closed)
    as (_ & _ & H).
  destruct H as [H _].
  - done.
  - by left.
  - apply H, two_cycle_cyclic.
Defined.

(* ===================================================================== *)
(** ** The scheduler: consistency of its bookkeeping *)
(* ===================================================================== *)

Lemma built_runnable r : built r → runnable r.
Proof.
  intros (w & hook & w' & Hc & Hb).
  pose proof (constructed_well_formed w Hc) as Hw.
  pose proof (build_sorted w hook w' r Hw Hb) as (_ & _ & _ & Hp).
  apply build_Ok in Hb as (st & _ & Hsize & Hhook & _ & Hn & Hd & _ & Hh).
  destruct Hw. split; rewrite ?Hn, ?Hd, ?Hh; try done.
  - by rewrite <- Hn.
  - intros Hnil. apply Hsize. unfold Workflow.size. by rewrite Hnil.
Qed.

Lemma elem_of_Set_add l x y : y ∈ Set_add l x ↔ y ∈ l ∨ y = x.
Proof.
  unfold Set_add. destruct (decide (x ∈ l)).
  - naive_solver.
  - rewrite elem_of_app, list_elem_of_singleton. done.
Qed.

Lemma NoDup_Set_add l x : NoDup l → NoDup (Set_add l x).
Proof.
  unfold Set_add. intros Hl. destruct (decide (x ∈ l)); [done|].
  apply NoDup_app. split_and!; [done| |apply NoDup_singleton].
  by intros y ? ->%list_elem_of_singleton.
Qed.

Section scheduler.

Variable r : WorkflowRunner.t.
Hypothesis Hr : runnable r.

Local Notation nodes := (WorkflowRunner.nodes r).
Local Notation deps := (WorkflowRunner.nodeDependencies r).
Local Notation keys := (JsMap.keys (WorkflowRunner.nodes r)).

Lemma get_node id : id ∈ keys → ∃ n, JsMap.get nodes id = Some n ∧ Node.id n = id.
Proof.
  intros [n Hn]%JsMap_get_is_Some. exists n. split; [done|].
  apply (rn_ids r Hr). by apply JsMap_get_Some.
Qed.

Lemma canRun_true s n :
  canRun r s n = true ↔
  ∀ d, d ∈ DependencyMap.get deps (Node.id n) →
       d ∈ completed s ∧ status_of (status s) d = NodeStatus.completed.
Proof.
  unfold canRun. simpl. rewrite forallb_forall. split.
  - intros H d Hd. apply list_elem_of_In, H in Hd. unfold dependency_done in Hd.
    destruct (JsMap.get nodes d); [|done]. simpl in Hd.
    rewrite andb_true_r in Hd. apply andb_true_iff in Hd as [H1 H2].
    by apply bool_decide_eq_true in H1, H2.
  - intros H d Hd%list_elem_of_In. unfold dependency_done.
    destruct (H d Hd) as [H1 H2].
    destruct (rn_edges r Hr (Node.id n) d Hd) as (i & Hi & _).
    destruct (get_node d) as (dn & -> & _); [apply list_elem_of_lookup; eauto|].
    simpl. rewrite andb_true_r.
    apply andb_true_iff. by rewrite !bool_decide_eq_true.
Qed.

Lemma elem_of_scan s ns ready id :
  id ∈ scan r s ns ready ↔
  id ∈ ready
  ∨ ∃ n, (id, n) ∈ ns ∧ id ∉ completed s ∧ running s !! id = None
         ∧ canRun r s n = true.
Proof.
  revert ready. induction ns as [|[k n] ns IH]; intros ready; simpl.
  - split; [by left|]. intros [?|(n & ?%elem_of_nil & _)]; done.
  - rewrite IH. clear IH.
    destruct (bool_decide (k ∉ completed s) && bool_decide (running s !! k = None)
              && canRun r s n) eqn:Hc.
    + apply andb_true_iff in Hc as [[H1 H2]%andb_true_iff H3].
      apply bool_decide_eq_true in H1, H2.
      rewrite elem_of_Set_add. split.
      * intros [[? | ->]|(n' & ? & ?)].
        -- by left.
        -- right. exists n. split; [left|done].
        -- right. exists n'. split; [by right|done].
      * intros [?|(n' & [[= -> ->]|?]%elem_of_cons & ?)].
        -- by left; left.
        -- by left; right.
        -- right. by exists n'.
    + split.
      * intros [?|(n' & ? & ?)]; [by left|].
        right. exists n'. split; [by right|done].
      * intros [?|(n' & [[= -> ->]|?]%elem_of_cons & H1 & H2 & H3)].
        -- by left.
        -- rewrite H3, andb_true_r in Hc.
           apply andb_false_iff in Hc as [Hc|Hc];
             apply bool_decide_eq_false in Hc; done.
        -- right. by exists n'.
Qed.

Lemma NoDup_scan s ns ready : NoDup ready → NoDup (scan r s ns ready).
Proof.
  revert ready. induction ns as [|[k n] ns IH]; intros ready Hnd; simpl; [done|].
  apply IH. case_match; [by apply NoDup_Set_add|done].
Qed.

Lemma growing_snoc l e :
  growing l → (∀ e', e' ∈ l → ev_context e' ⊆ ev_context e) →
  growing (l ++ [e]).
Proof.
  intros Hl He i j e1 e2 Hij H1 H2.
  apply lookup_app_Some in H2 as [H2|[Hge H2]].
  - pose proof (lookup_lt_Some _ _ _ H2) as Hlt.
    rewrite lookup_app_l in H1 by lia. by eapply (Hl i j).
  - apply list_lookup_singleton_Some in H2 as [_ <-].
    apply lookup_app_Some in H1 as [H1|[_ H1]].
    + apply He, list_elem_of_lookup. eauto.
    + by apply list_lookup_singleton_Some in H1 as [_ <-].
Qed.

(** [running.set(nodeId, promise)] after the synchronous part of [runNode]. *)
Lemma consistent_start l s s' id res :
  consistent r (id :: l) s →
  object s' = object s → updateQueue s' = updateQueue s →
  completed s' = completed s →
  running s' = <[id := InRun res]> (running s) →
  events s' = events s → loop s' = loop s →
  queueRejected s' = queueRejected s →
  consistent r l s'.
Proof.
  intros [Hc Hrun Hready Hnd Hph Hq Hqnd Hobj Hev Hgr Hl Hrj] Eo Eq Ec Er Ee El Ej.
  destruct (Hready id) as (Hk & Hnc & Hnr); [left|].
  apply NoDup_cons in Hnd as [Hnin Hnd].
  split; rewrite ?Eo, ?Eq, ?Ec, ?Er, ?Ee, ?El, ?Ej; try done.
  - intros id' p. rewrite lookup_insert. case_decide; [by subst|eauto].
  - intros id' Hin. destruct (Hready id') as (? & ? & ?); [by right|].
    split_and!; [done..|]. rewrite lookup_insert_ne; [done|]. by intros ->.
  - intros id' p. rewrite lookup_insert. case_decide; [|eauto].
    subst id'. intros [= <-]. naive_solver.
  - intros id' v Hin. rewrite lookup_insert_ne; [eauto|].
    intros ->. apply Hq in Hin. congruence.
  - intros id' Hs. destruct (Hobj id' Hs) as [?|[?|(v & Hv & ?)]]; [eauto..|].
    right; right. exists v. rewrite lookup_insert_ne; [done|]. congruence.
  - intros id' e. rewrite lookup_insert. case_decide; [done|eauto].
Qed.

(** [this.#context.update(...)] called when [node.run] resolved. *)
Lemma consistent_enqueue ready s s' id res v :
  consistent r ready s →
  running s !! id = Some (InRun res) →
  object s' = object s → updateQueue s' = updateQueue s ++ [(id, v)] →
  completed s' = completed s →
  running s' = <[id := InUpdate v]> (running s) →
  events s' = events s → loop s' = loop s →
  queueRejected s' = queueRejected s →
  consistent r ready s'.
Proof.
  intros [Hc Hrun Hready Hnd Hph Hq Hqnd Hobj Hev Hgr Hl Hrj] Hid Eo Eq Ec Er Ee El Ej.
  assert (id ∉ (updateQueue s).*1) as Hfresh.
  { intros [[id' v'] [[= <-] Hin]]%list_elem_of_fmap. apply Hq in Hin. congruence. }
  split; rewrite ?Eo, ?Eq, ?Ec, ?Er, ?Ee, ?El, ?Ej; try done.
  - intros id' p. rewrite lookup_insert. case_decide; [subst; eauto|eauto].
  - intros id' Hin. destruct (Hready id' Hin) as (? & ? & ?).
    split_and!; [done..|]. rewrite lookup_insert_ne; [done|]. congruence.
  - intros id' p. rewrite lookup_insert. case_decide; [|eauto].
    subst id'. intros [= <-]. apply Hph in Hid. naive_solver.
  - intros id' v'. rewrite elem_of_app, list_elem_of_singleton, lookup_insert.
    intros [Hin|[= -> ->]].
    + case_decide; [subst; apply Hq in Hin; congruence|eauto].
    + by rewrite decide_True.
  - rewrite fmap_app. apply NoDup_app. split_and!; [done| |apply NoDup_singleton].
    by intros x ? ->%list_elem_of_singleton.
  - intros id' Hs. destruct (Hobj id' Hs) as [?|[?|(v' & Hv & ?)]]; [eauto..|].
    assert (id' ≠ id) by congruence.
    right; right. exists v'. rewrite lookup_insert_ne by done.
    split; [done|]. rewrite fmap_app, elem_of_app. simpl.
    rewrite list_elem_of_singleton. naive_solver.
  - intros id' e. rewrite lookup_insert. case_decide; [done|eauto].
Qed.

(** The key merged by the oldest queued update is new to the snapshot. *)
Lemma queue_head_fresh ready s id v rest :
  consistent r ready s → updateQueue s = (id, v) :: rest →
  object s !! id = None.
Proof.
  intros [Hc Hrun Hready Hnd Hph Hq Hqnd Hobj Hev Hgr Hl Hrj] Hqueue.
  assert (running s !! id = Some (InUpdate v)) as Hid
    by (apply Hq; rewrite Hqueue; left).
  destruct (object s !! id) eqn:Ho; [|done].
  destruct (Hobj id) as [->|[Hin|(v' & _ & Hnin)]]; [eauto| | |].
  - apply Hrun in Hid. by destruct (rn_initial r Hr).
  - apply Hph in Hid. naive_solver.
  - destruct Hnin. rewrite Hqueue. simpl. left.
Qed.

(** The update queue applies a merge. *)
Lemma consistent_apply ready s s' id v rest :
  consistent r ready s →
  updateQueue s = (id, v) :: rest →
  object s' = <[id := v]> (object s) → updateQueue s' = rest →
  completed s' = completed s → running s' = running s →
  events s' = events s → loop s' = loop s →
  queueRejected s' = queueRejected s →
  consistent r ready s'.
Proof.
  intros Hcons Hqueue Eo Eq Ec Er Ee El Ej.
  pose proof (queue_head_fresh _ _ _ _ _ Hcons Hqueue) as Hfresh.
  destruct Hcons as [Hc Hrun Hready Hnd Hph Hq Hqnd Hobj Hev Hgr Hl Hrj].
  rewrite Hqueue in Hq, Hqnd, Hobj. simpl in Hqnd.
  apply NoDup_cons in Hqnd as [Hnin Hqnd].
  split; rewrite ?Eo, ?Eq, ?Ec, ?Er, ?Ee, ?El, ?Ej; try done.
  - intros id' v' Hin. apply Hq. by right.
  - intros id'. rewrite lookup_insert. case_decide.
    + subst id'. intros _. right; right. exists v. split; [|done].
      apply Hq. left.
    + intros Hs. destruct (Hobj id' Hs) as [?|[?|(v' & Hv & Hn)]]; [eauto..|].
      right; right. exists v'. split; [done|]. simpl in Hn.
      by apply not_elem_of_cons in Hn as [_ ?].
  - intros e He. etrans; [by apply Hev|]. by apply insert_subseteq.
Qed.

(** The update queue rejects the promise of a node. *)
Lemma consistent_reject ready s s' id v rest reason :
  consistent r ready s →
  updateQueue s = (id, v) :: rest →
  object s' = object s → updateQueue s' = rest →
  completed s' = completed s →
  running s' = <[id := UpdateRejected reason]> (running s) →
  events s' = events s → loop s' = loop s →
  queueRejected s = None ∨ queueRejected s = Some reason →
  queueRejected s' = Some reason →
  consistent r ready s'.
Proof.
  intros Hcons Hqueue Eo Eq Ec Er Ee El Hj Ej.
  pose proof (queue_head_fresh _ _ _ _ _ Hcons Hqueue) as Hfresh.
  destruct Hcons as [Hc Hrun Hready Hnd Hph Hq Hqnd Hobj Hev Hgr Hl Hrj].
  assert (running s !! id = Some (InUpdate v)) as Hid
    by (apply Hq; rewrite Hqueue; left).
  rewrite Hqueue in Hq, Hqnd, Hobj. simpl in Hqnd.
  apply NoDup_cons in Hqnd as [Hnin Hqnd].
  split; rewrite ?Eo, ?Eq, ?Ec, ?Er, ?Ee, ?El, ?Ej; try done.
  - intros id' p. rewrite lookup_insert. case_decide; [subst; eauto|eauto].
  - intros id' Hin. destruct (Hready id' Hin) as (? & ? & ?).
    split_and!; [done..|]. rewrite lookup_insert_ne; [done|]. congruence.
  - intros id' p. rewrite lookup_insert. case_decide; [|eauto].
    subst id'. intros [= <-]. apply Hph in Hid. naive_solver.
  - intros id' v' Hin. rewrite lookup_insert_ne; [apply Hq; by right|].
    intros ->. apply Hnin. apply list_elem_of_fmap. by exists (id', v').
  - intros id' Hs. destruct (Hobj id' Hs) as [?|[?|(v' & Hv & Hn)]]; [eauto..|].
    simpl in Hn. apply not_elem_of_cons in Hn as [Hne Hn].
    right; right. exists v'. by rewrite lookup_insert_ne.
  - intros id' e. rewrite lookup_insert. case_decide; [by intros [= <-]|].
    intros He. apply Hrj in He. destruct Hj; congruence.
Qed.

(** [completed.add(nodeId)] followed by the call of [onCompleted]. *)
Lemma consistent_hook ready s s' id p ev :
  consistent r ready s →
  running s !! id = Some p → p ≠ InHook → id ∉ (updateQueue s).*1 →
  ev_context ev = object s →
  object s' = object s → updateQueue s' = updateQueue s →
  completed s' = {[id]} ∪ completed s →
  running s' = <[id := InHook]> (running s) →
  events s' = events s ++ [ev] → loop s' = loop s →
  queueRejected s' = queueRejected s →
  consistent r ready s'.
Proof.
  intros [Hc Hrun Hready Hnd Hph Hq Hqnd Hobj Hev Hgr Hl Hrj] Hid Hp Hnq Hctx
    Eo Eq Ec Er Ee El Ej.
  split; rewrite ?Eo, ?Eq, ?Ec, ?Er, ?Ee, ?El, ?Ej; try done.
  - intros id'. rewrite elem_of_union, elem_of_singleton.
    intros [->|?]; eauto.
  - intros id' p'. rewrite lookup_insert. case_decide; [subst; eauto|eauto].
  - intros id' Hin. destruct (Hready id' Hin) as (? & ? & ?).
    assert (id' ≠ id) by congruence.
    split_and!; [done|set_solver|by rewrite lookup_insert_ne].
  - intros id' p'. rewrite lookup_insert, elem_of_union, elem_of_singleton.
    case_decide.
    + subst id'. intros [= <-]. naive_solver.
    + intros Hp'. rewrite <- (Hph id' p' Hp'). naive_solver.
  - intros id' v Hin. rewrite lookup_insert_ne; [eauto|].
    intros ->. apply Hnq. apply list_elem_of_fmap. by exists (id', v).
  - intros id' Hs. rewrite elem_of_union, elem_of_singleton.
    destruct (decide (id' = id)) as [->|Hne]; [eauto|].
    destruct (Hobj id' Hs) as [?|[?|(v' & Hv & ?)]]; [eauto..|].
    right; right. exists v'. by rewrite lookup_insert_ne.
  - intros e [He| ->%list_elem_of_singleton]%elem_of_app; [eauto|].
    by rewrite Hctx.
  - apply growing_snoc; [done|]. intros e' He'. rewrite Hctx. eauto.
  - intros id' e. rewrite lookup_insert. case_decide; [done|eauto].
Qed.

(** [completed.add(nodeId)] (unless done before) and the [finally] block. *)
Lemma consistent_finally s s' id p :
  consistent r (readyNodes s) s →
  running s !! id = Some p → id ∉ (updateQueue s).*1 →
  object s' = object s → updateQueue s' = updateQueue s →
  completed s' = {[id]} ∪ completed s → running s' = running s →
  readyNodes s' = readyNodes s →
  events s' = events s → loop s' = loop s →
  queueRejected s' = queueRejected s →
  consistent r (readyNodes (finally r s' id)) (finally r s' id).
Proof.
  intros [Hc Hrun Hready Hnd Hph Hq Hqnd Hobj Hev Hgr Hl Hrj] Hid Hnq
    Eo Eq Ec Er Ey Ee El Ej.
  split; simpl; rewrite ?Eo, ?Eq, ?Ec, ?Er, ?Ey, ?Ee, ?El, ?Ej; try done.
  - intros id'. rewrite elem_of_union, elem_of_singleton.
    intros [->|?]; eauto.
  - intros id' p'. rewrite lookup_delete. case_decide; [done|eauto].
  - intros id'. rewrite elem_of_scan. simpl. rewrite ?Ec, ?Er.
    intros [Hin|(n & Hin & Hnc & Hnr & _)].
    + destruct (Hready id' Hin) as (? & ? & ?).
      assert (id' ≠ id) by congruence.
      split_and!; [done|set_solver|by rewrite lookup_delete_ne].
    + split_and!; [|done..].
      apply list_elem_of_fmap. by exists (id', n).
  - by apply NoDup_scan.
  - intros id' p'. rewrite lookup_delete, elem_of_union, elem_of_singleton.
    case_decide; [done|].
    intros Hp'. rewrite <- (Hph id' p' Hp'). naive_solver.
  - intros id' v Hin. rewrite lookup_delete_ne; [eauto|].
    intros ->. apply Hnq. apply list_elem_of_fmap. by exists (id', v).
  - intros id' Hs. rewrite elem_of_union, elem_of_singleton.
    destruct (decide (id' = id)) as [->|Hne]; [eauto|].
    destruct (Hobj id' Hs) as [?|[?|(v' & Hv & ?)]]; [eauto..|].
    right; right. exists v'. by rewrite lookup_delete_ne.
  - intros id' e. rewrite lookup_delete. case_decide; [done|eauto].
Qed.

End scheduler.

(* ===================================================================== *)
(** ** The scheduler: steps keep the bookkeeping consistent *)
(* ===================================================================== *)

Section scheduler_steps.

Variable r : WorkflowRunner.t.
Hypothesis Hr : runnable r.

Local Notation nodes := (WorkflowRunner.nodes r).
Local Notation deps := (WorkflowRunner.nodeDependencies r).
Local Notation keys := (JsMap.keys (WorkflowRunner.nodes r)).

Lemma start_readyNodes s id : readyNodes (start r s id) = readyNodes s.
Proof. unfold start. by destruct (JsMap.get nodes id). Qed.

Lemma foldl_start_readyNodes l s :
  readyNodes (foldl (start r) s l) = readyNodes s.
Proof.
  revert s. induction l as [|id l IH]; intros s; simpl; [done|].
  by rewrite IH, start_readyNodes.
Qed.

Lemma start_consistent l s id :
  consistent r (id :: l) s → consistent r l (start r s id).
Proof.
  intros Hs. destruct (cs_ready r _ _ Hs id) as (Hk & _); [left|].
  unfold start. destruct (get_node r Hr id Hk) as (n & -> & _).
  by eapply consistent_start.
Qed.

Lemma foldl_start_consistent l s :
  consistent r l s → consistent r [] (foldl (start r) s l).
Proof.
  revert s. induction l as [|id l IH]; intros s Hs; simpl; [done|].
  by apply IH, start_consistent.
Qed.

Lemma consistent_fields ready s s' :
  consistent r ready s →
  object s' = object s → updateQueue s' = updateQueue s →
  completed s' = completed s → running s' = running s →
  events s' = events s → (∀ e, loop s' ≠ Crashed e) →
  queueRejected s' = queueRejected s →
  consistent r ready s'.
Proof.
  intros [] Eo Eq Ec Er Ee El Ej.
  split; rewrite ?Eo, ?Eq, ?Ec, ?Er, ?Ee, ?Ej; done.
Qed.

Lemma start_ready_consistent s :
  consistent r (readyNodes s) s →
  consistent r [] (start_ready r s) ∧ readyNodes (start_ready r s) = [].
Proof.
  intros Hs. unfold start_ready. split.
  - apply foldl_start_consistent.
    eapply consistent_fields; [exact Hs|done..|apply Hs|done].
  - by rewrite foldl_start_readyNodes.
Qed.

Lemma iterate_consistent s :
  consistent r (readyNodes s) s →
  consistent r (readyNodes (iterate r s)) (iterate r s).
Proof.
  intros Hs. unfold iterate. case_match.
  - destruct (start_ready_consistent s Hs) as [Hs' Hready].
    destruct (loop (start_ready r s)) eqn:Hl;
      try (by destruct (cs_loop r _ _ Hs' e));
      (case_match; simpl; rewrite Hready;
       (eapply consistent_fields; [exact Hs'|done..]));
      (eapply consistent_fields; [exact Hs'|done..]).
  - simpl. by eapply consistent_fields.
Qed.

Lemma not_queued ready s id p :
  consistent r ready s → running s !! id = Some p →
  (∀ v, p ≠ InUpdate v) → id ∉ (updateQueue s).*1.
Proof.
  intros Hs Hid Hp [[id' v] [[= <-] Hin]]%list_elem_of_fmap.
  apply (cs_queue r _ _ Hs) in Hin. rewrite Hid in Hin.
  injection Hin as ->. by destruct (Hp v).
Qed.

Lemma notify_consistent s s' id n p ev :
  consistent r (readyNodes s) s →
  running s !! id = Some p → p ≠ InHook → id ∉ (updateQueue s).*1 →
  ev_context ev = object s →
  object s' = object s → updateQueue s' = updateQueue s →
  completed s' = {[id]} ∪ completed s → running s' = running s →
  readyNodes s' = readyNodes s →
  events s' = events s → loop s' = loop s →
  queueRejected s' = queueRejected s →
  consistent r (readyNodes (notify r s' id n ev)) (notify r s' id n ev).
Proof.
  intros Hs Hid Hp Hnq Hctx Eo Eq Ec Er Ey Ee El Ej. unfold notify.
  destruct (Node.onCompleted n).
  - simpl. rewrite Ey.
    eapply (consistent_hook r Hr _ s); try done; simpl; congruence.
  - by eapply (consistent_finally r Hr s).
Qed.

Lemma fail_consistent s s' id n p err :
  consistent r (readyNodes s) s →
  running s !! id = Some p → p ≠ InHook → (∀ v, p ≠ InUpdate v) →
  object s' = object s → updateQueue s' = updateQueue s →
  completed s' = completed s → running s' = running s →
  readyNodes s' = readyNodes s →
  events s' = events s → loop s' = loop s →
  queueRejected s' = queueRejected s →
  consistent r (readyNodes (fail r s' id n err)) (fail r s' id n err).
Proof.
  intros Hs Hid Hp Hv Eo Eq Ec Er Ey Ee El Ej. unfold fail.
  eapply (notify_consistent s); try done; simpl; try congruence.
  by eapply not_queued.
Qed.

Lemma step_consistent s e s' :
  consistent r (readyNodes s) s → step r s e = Some s' →
  consistent r (readyNodes s') s'.
Proof.
  intros Hs. destruct e as [|id| |id|id]; simpl.
  - destruct (loop s); try done; [|case_match; [|done]];
      intros [= <-]; by apply iterate_consistent.
  - destruct (running s !! id) as [[res| | |]|] eqn:Hid; try done.
    destruct (JsMap.get nodes id) as [n|]; [|done].
    destruct (Node.settled res) as [out|] eqn:Hres; [|done]. intros [= <-].
    unfold settle. rewrite Hres. destruct out as [v|err].
    + by eapply (consistent_enqueue r _ s).
    + by eapply (fail_consistent s).
  - destruct (updateQueue s) as [|[id v] rest] eqn:Hq; [done|].
    intros [= <-]. unfold apply_update, Context.update. simpl.
    destruct (queueRejected s) as [reason|] eqn:Hj.
    { eapply (consistent_reject r Hr _ s); try done. by right. }
    destruct (Context.deepFreeze v) as [reason|].
    { eapply (consistent_reject r Hr _ s); try done. by left. }
    eapply (consistent_apply r Hr _ s); try done.
    simpl. unfold Context.merge. by rewrite insert_union_singleton_l.
  - destruct (running s !! id) as [[res|v|reason|]|] eqn:Hid; try done.
    + destruct (JsMap.get nodes id) as [n|]; [|done].
      case_bool_decide as Hnq; [done|]. intros [= <-].
      unfold continue. by eapply (notify_consistent s).
    + destruct (JsMap.get nodes id) as [n|]; [|done]. intros [= <-].
      by eapply (fail_consistent s).
  - destruct (running s !! id) as [[res|v|reason|]|] eqn:Hid; try done.
    intros [= <-]. eapply (consistent_finally r Hr s); try done.
    + by eapply not_queued.
    + apply (cs_phase r _ _ Hs) in Hid as [_ Hin]. specialize (Hin eq_refl).
      apply set_eq. set_solver.
Qed.

Lemma exec_consistent schedule s s' :
  consistent r (readyNodes s) s → exec r s schedule = Some s' →
  consistent r (readyNodes s') s'.
Proof.
  revert s. induction schedule as [|e schedule IH]; intros s Hs; simpl.
  - by intros [= <-].
  - destruct (step r s e) as [s1|] eqn:He; [|done].
    apply IH. by eapply step_consistent.
Qed.

Lemma seed_singleton o :
  seed r = Returned o → ∃ v, o = {[ "initial" := v ]}.
Proof.
  unfold seed, idle_object, Context.reset.
  intros H. repeat case_match; simplify_eq; eauto.
Qed.

Lemma initial_ready_keys order ready :
  initial_ready r order = Ok ready → ∀ id, id ∈ ready → id ∈ keys.
Proof.
  revert ready. induction order as [|x order IH]; intros ready; simpl.
  - intros [= <-] id ?%elem_of_nil. done.
  - destruct (JsMap.get nodes x) as [n|] eqn:Hx; [|done].
    destruct (initial_ready r order) as [ready0|]; simpl; [|done].
    intros [= <-] id Hid.
    assert (id = x ∨ id ∈ ready0) as [->|?].
    { case_match; [|by right]. apply elem_of_cons in Hid. tauto. }
    + apply JsMap_get_is_Some. by rewrite Hx.
    + by eapply IH.
Qed.

Lemma elem_of_Set_of l x : x ∈ Set_of l ↔ x ∈ l.
Proof.
  unfold Set_of.
  enough (∀ acc, x ∈ foldl Set_add acc l ↔ x ∈ acc ∨ x ∈ l) as ->.
  { rewrite elem_of_nil. tauto. }
  induction l as [|y l IH]; intros acc; simpl.
  - rewrite elem_of_nil. tauto.
  - rewrite IH, elem_of_Set_add, elem_of_cons. tauto.
Qed.

Lemma NoDup_Set_of l : NoDup (Set_of l).
Proof.
  unfold Set_of.
  enough (∀ acc, NoDup acc → NoDup (foldl Set_add acc l)) as H
    by apply H, NoDup_nil_2.
  induction l as [|y l IH]; intros acc Hacc; simpl; [done|].
  by apply IH, NoDup_Set_add.
Qed.

Lemma init_consistent status0 queue0 s0 :
  init r status0 queue0 = Returned s0 → consistent r (readyNodes s0) s0.
Proof.
  unfold init. case_match; [done|].
  destruct (seed r) as [o|] eqn:Hseed; [|done].
  destruct (initial_ready r _) as [ready|] eqn:Hready; [|done].
  intros [= <-]. apply seed_singleton in Hseed as [v ->].
  split; simpl; try done.
  - intros id. rewrite elem_of_Set_of. intros Hid. split_and!; [|set_solver|done].
    by eapply initial_ready_keys.
  - apply NoDup_Set_of.
  - by intros id v' ?%elem_of_nil.
  - constructor.
  - intros id [v' Hv]. left. apply lookup_singleton_Some in Hv. naive_solver.
  - by intros e ?%elem_of_nil.
Qed.

(** Every run keeps the bookkeeping consistent. *)
Lemma run_consistent status0 queue0 s0 schedule s :
  init r status0 queue0 = Returned s0 → exec r s0 schedule = Some s →
  consistent r (readyNodes s) s.
Proof. intros H0 He. eapply exec_consistent; [by eapply init_consistent|done]. Qed.

(** A step leaves the snapshot alone or replaces it by its merge with the
    complete result of one node, under a key it did not have. *)
Lemma step_object s e s' :
  consistent r (readyNodes s) s → step r s e = Some s' →
  object s' = object s
  ∨ ∃ id v rest, updateQueue s = (id, v) :: rest
      ∧ object s' = Context.merge (object s) {[ id := v ]}
      ∧ object s' = <[id := v]> (object s)
      ∧ object s !! id = None.
Proof.
  intros Hs. destruct e as [|id| |id|id]; simpl.
  - assert (object (iterate r s) = object s) as Hit.
    { unfold iterate, start_ready.
      assert (∀ l s0, object (foldl (start r) s0 l) = object s0) as Hfold.
      { induction l as [|x l IH]; intros s0; simpl; [done|].
        rewrite IH. unfold start. by destruct (JsMap.get nodes x). }
      repeat case_match; simpl; by rewrite ?Hfold. }
    destruct (loop s); try done; [|case_match; [|done]];
      intros [= <-]; by left.
  - destruct (running s !! id) as [[res| | |]|]; try done.
    destruct (JsMap.get nodes id) as [n|]; [|done].
    destruct (Node.settled res) as [out|] eqn:Hres; [|done].
    intros [= <-]. left.
    unfold settle, fail, notify. rewrite Hres. by repeat case_match.
  - destruct (updateQueue s) as [|[id v] rest] eqn:Hq; [done|].
    intros [= <-]. unfold apply_update, Context.update. simpl.
    destruct (queueRejected s) as [reason|]; [by left|].
    destruct (Context.deepFreeze v) as [reason|]; [by left|].
    right. exists id, v, rest. simpl.
    split_and!; [done|done| |by eapply queue_head_fresh].
    unfold Context.merge. by rewrite insert_union_singleton_l.
  - destruct (running s !! id) as [[res|v|reason|]|]; try done.
    + destruct (JsMap.get nodes id) as [n|]; [|done].
      case_bool_decide; [done|]. intros [= <-]. left.
      unfold continue, notify. by repeat case_match.
    + destruct (JsMap.get nodes id) as [n|]; [|done]. intros [= <-]. left.
      unfold fail, notify. by repeat case_match.
  - destruct (running s !! id) as [[res|v|reason|]|]; try done.
    intros [= <-]. by left.
Qed.

Lemma step_object_grows s e s' :
  consistent r (readyNodes s) s → step r s e = Some s' →
  object s ⊆ object s'.
Proof.
  intros Hs He.
  destruct (step_object s e s' Hs He) as [->|(id & v & _ & _ & _ & -> & Hf)];
    [done|]. by apply insert_subseteq.
Qed.

Lemma exec_object_grows schedule s s' :
  consistent r (readyNodes s) s → exec r s schedule = Some s' →
  object s ⊆ object s'.
Proof.
  revert s. induction schedule as [|e schedule IH]; intros s Hs; simpl.
  - by intros [= <-].
  - destruct (step r s e) as [s1|] eqn:He; [|done]. intros Hx.
    etrans; [by eapply step_object_grows|].
    apply IH; [|done]. by eapply step_consistent.
Qed.

End scheduler_steps.

(** C4: in a run of a built workflow, the snapshots handed to successive
    completion hooks only grow: a key of an earlier snapshot is in every
    later snapshot with the same value; no step of the run removes or
    changes a key of the context; and each change of the context replaces
    the snapshot by its merge with the whole result of one node, so that
    every snapshot read is either the previous one or that merge. *)
Theorem snapshots_only_grow r status0 queue0 s0 schedule s :
  built r →
  Scheduler.init r status0 queue0 = Returned s0 →
  Scheduler.exec r s0 schedule = Some s →
  (∀ i j e1 e2 key value, i ≤ j →
     events s !! i = Some e1 → events s !! j = Some e2 →
     ev_context e1 !! key = Some value → ev_context e2 !! key = Some value)
  ∧ (∀ e key value, e ∈ events s →
     ev_context e !! key = Some value → object s !! key = Some value)
  ∧ (∀ before e after s1 s2, schedule = before ++ e :: after →
     Scheduler.exec r s0 before = Some s1 → Scheduler.step r s1 e = Some s2 →
     (∀ key value, object s1 !! key = Some value →
                   object s2 !! key = Some value)
     ∧ (object s2 = object s1
        ∨ ∃ id v, object s2 = Context.merge (object s1) {[ id := v ]}
                  ∧ object s1 !! id = None)).
Proof.
  intros Hr%built_runnable H0 He.
  pose proof (run_consistent r Hr _ _ _ _ _ H0 He) as Hs.
  split_and!.
  - intros i j e1 e2 key value Hij H1 H2.
    pose proof (cs_growing r _ _ Hs i j e1 e2 Hij H1 H2) as Hsub.
    by apply map_subseteq_spec.
  - intros e key value Hin.
    pose proof (cs_events r _ _ Hs e Hin) as Hsub.
    by apply map_subseteq_spec.
  - intros before e after s1 s2 _ H1 H2.
    pose proof (run_consistent r Hr _ _ _ _ _ H0 H1) as Hs1.
    split.
    + apply map_subseteq_spec. by eapply step_object_grows.
    + destruct (step_object r Hr s1 e s2 Hs1 H2)
        as [->|(id & v & _ & _ & -> & _ & Hf)]; [by left|].
      right. by exists id, v.
Qed.

(* ===================================================================== *)
(** ** [Node.run]: how a call ends *)
(* ===================================================================== *)

Lemma isEnabled_determined n ctx :
  ∃ o, Node.isEnabled n (Some ctx) false = Some o.
Proof. unfold Node.isEnabled. repeat case_match; eauto. Qed.

Lemma last_attempt_shape n ctx t calls :
  let res := Node.last_attempt n ctx t calls in
  Node.executeCalls res = calls
  ∧ ((∃ e, Node.status res = Some NodeStatus.failed
           ∧ Node.settled res = Some (Threw (ThrowError e)))
     ∨ (∃ e, Node.status res = Some NodeStatus.running
             ∧ Node.settled res = Some (Threw e))).
Proof.
  destruct (last_attempt_cases n ctx t calls)
    as [(e & _ & ->)|[(_ & _ & ->)|(h & _ & _ & [[_ ->]|(? & e & _ & _ & ->)])]];
    simpl; split; eauto.
Qed.

(** How the loop of [run] ends, whatever the retry count. *)
Lemma run_loop_cases n ctx fuel attempt calls :
  let res := Node.run_loop n ctx fuel attempt calls in
  (∃ v, Node.status res = Some NodeStatus.completed
        ∧ Node.settled res = Some (Returned v) ∧ 0 < Node.executeCalls res)
  ∨ (∃ e, Node.status res = Some NodeStatus.failed
          ∧ Node.settled res = Some (Threw (ThrowError e))
          ∧ 0 < Node.executeCalls res)
  ∨ (Node.status res = Some NodeStatus.running
     ∧ ∀ v, Node.settled res ≠ Some (Returned v))
  ∨ (Node.status res = None ∧ Node.executeCalls res = 0
     ∧ ∀ v, Node.settled res ≠ Some (Returned v)).
Proof.
  revert attempt calls. induction fuel as [|fuel IH]; intros attempt calls; simpl.
  { right; right; left. done. }
  case_match; simpl.
  - destruct (NodeOptions.execute _ _ _) as [v|err]; simpl.
    + left. exists v. split_and!; [done..|lia].
    + case_match.
      * destruct (last_attempt_shape n ctx err (S calls))
          as [Hc [(e & -> & ->)|(e & -> & ->)]]; simpl in *.
        -- right; left. exists e. split_and!; [done..|lia].
        -- right; right; left. done.
      * destruct (interpolate err); simpl; [by right; right; left|apply IH].
  - destruct (Nat.eqb_spec calls 0) as [->|Hne].
    + right; right; right. done.
    + right; right; left. done.
Qed.

(** How a call of [run] ends. *)
Lemma run_cases n ctx :
  let res := Node.run n ctx in
  (∃ v, Node.status res = Some NodeStatus.completed
        ∧ Node.settled res = Some (Returned v) ∧ 0 < Node.executeCalls res)
  ∨ (Node.status res = Some NodeStatus.skipped
     ∧ Node.settled res = Some (Returned JNull) ∧ Node.executeCalls res = 0)
  ∨ (∃ e, Node.status res = Some NodeStatus.failed
          ∧ Node.settled res = Some (Threw (ThrowError e))
          ∧ 0 < Node.executeCalls res)
  ∨ (Node.status res = Some NodeStatus.running
     ∧ ∀ v, Node.settled res ≠ Some (Returned v))
  ∨ (Node.status res = None ∧ Node.executeCalls res = 0
     ∧ ∀ v, Node.settled res ≠ Some (Returned v)).
Proof.
  unfold Node.run. destruct (Node.isEnabled n (Some ctx) false) as [[[]|t]|].
  - destruct (run_loop_cases n ctx (Node.run_fuel n) 0 0) as [?|[?|[?|?]]];
      [by left|by right; right; left|by right; right; right; left
      |by right; right; right; right].
  - right; left. done.
  - right; right; right; right. done.
  - right; right; right; right. done.
Qed.

Lemma run_status n ctx x :
  Node.status (Node.run n ctx) = Some x →
  match x with
  | NodeStatus.completed =>
      ∃ v, Node.settled (Node.run n ctx) = Some (Returned v)
           ∧ 0 < Node.executeCalls (Node.run n ctx)
  | NodeStatus.skipped =>
      Node.settled (Node.run n ctx) = Some (Returned JNull)
      ∧ Node.executeCalls (Node.run n ctx) = 0
  | NodeStatus.failed =>
      ∃ e, Node.settled (Node.run n ctx) = Some (Threw (ThrowError e))
  | NodeStatus.running =>
      ∀ v, Node.settled (Node.run n ctx) ≠ Some (Returned v)
  | NodeStatus.pending => False
  end.
Proof.
  destruct (run_cases n ctx)
    as [(v & -> & ? & ?)|[(-> & ? & ?)|[(e & -> & ? & ?)|[(-> & ?)|(-> & ?)]]]];
    intros [= <-]; eauto.
Qed.

(** A call of [run] that resolves leaves the status [completed], or
    [skipped] with the value [null]. *)
Lemma run_resolved n ctx v :
  Node.settled (Node.run n ctx) = Some (Returned v) →
  (Node.status (Node.run n ctx) = Some NodeStatus.completed
   ∧ 0 < Node.executeCalls (Node.run n ctx))
  ∨ (Node.status (Node.run n ctx) = Some NodeStatus.skipped ∧ v = JNull
     ∧ Node.executeCalls (Node.run n ctx) = 0).
Proof.
  destruct (run_cases n ctx)
    as [(v' & -> & ? & ?)|[(-> & Hs & ?)|[(e & ? & Hs & ?)|[(? & Hs)|(? & ? & Hs)]]]];
    intros Hv.
  - by left.
  - right. rewrite Hs in Hv. by injection Hv as <-.
  - congruence.
  - by destruct (Hs v).
  - by destruct (Hs v).
Qed.

(** With retry counts up to [2^53] the model follows the loop to its end. *)
Lemma run_loop_settles n ctx fuel attempt calls :
  (N.of_nat (Node.maxRetries_nat n) ≤ two53)%N →
  attempt ≤ Node.maxRetries_nat n →
  N.to_nat (N.min (N.of_nat (Node.maxRetries_nat n) + 1) two53) < fuel + attempt →
  is_Some (Node.settled (Node.run_loop n ctx fuel attempt calls)).
Proof.
  intros Hm. revert attempt calls.
  induction fuel as [|fuel IH]; intros attempt calls Hle Hfuel; simpl; [lia|].
  case_match eqn:Hlt; simpl; [|eauto].
  destruct (NodeOptions.execute _ _ _) as [v|err]; simpl; [eauto|].
  case_match eqn:Heq.
  - destruct (last_attempt_shape n ctx err (S calls))
      as [_ [(e & _ & ->)|(e & _ & ->)]]; eauto.
  - destruct (interpolate err); simpl; [eauto|].
    apply Nat.eqb_neq in Heq.
    rewrite plus_one_exact by lia. apply IH; lia.
Qed.

Lemma run_settles n ctx :
  (N.of_nat (Node.maxRetries_nat n) ≤ two53)%N →
  is_Some (Node.settled (Node.run n ctx)).
Proof.
  intros Hm. unfold Node.run.
  destruct (isEnabled_determined n ctx) as [[[]|t] ->]; [|eauto..].
  apply run_loop_settles; [done|lia|]. unfold Node.run_fuel. lia.
Qed.

(* ===================================================================== *)
(** ** The scheduler: what the log of calls records *)
(* ===================================================================== *)

Lemma status_of_insert st id x k :
  status_of (<[id := x]> st) k = if decide (id = k) then x else status_of st k.
Proof.
  unfold status_of. rewrite lookup_insert. by destruct (decide (id = k)).
Qed.

Lemma same_call (l : list Call) c1 c2 :
  NoDup (call_id <$> l) → c1 ∈ l → c2 ∈ l → call_id c1 = call_id c2 →
  c1 = c2.
Proof.
  intros Hnd [i H1]%list_elem_of_lookup [j H2]%list_elem_of_lookup Heq.
  assert (i = j) as ->.
  { eapply NoDup_lookup; [exact Hnd| |];
      rewrite list_lookup_fmap; [by rewrite H1|by rewrite H2, Heq]. }
  congruence.
Qed.

Section history_steps.

Variable r : WorkflowRunner.t.
Hypothesis Hr : runnable r.

Local Notation nodes := (WorkflowRunner.nodes r).
Local Notation deps := (WorkflowRunner.nodeDependencies r).
Local Notation keys := (JsMap.keys (WorkflowRunner.nodes r)).

Lemma recorded_start l s s' id n :
  consistent r (id :: l) s → recorded r (id :: l) s →
  JsMap.get nodes id = Some n →
  object s' = object s → updateQueue s' = updateQueue s →
  completed s' = completed s → errors s' = errors s →
  running s' = <[id := InRun (Node.run n (object s))]> (running s) →
  (∀ k, k ≠ id → status_of (status s') k = status_of (status s) k) →
  calls s' = calls s ++ [{| call_id := id; call_ctx := object s;
                            call_result := Node.run n (object s) |}] →
  queueRejected s' = queueRejected s →
  recorded r l s'.
Proof.
  intros Hcs [Hnd Hcalled Hrun Hready Hdeps Hinrun Hinup Hst Hres Herr Hecm Hend]
    Hn Eo Eq Ec Ee Er Es El Ej.
  destruct (cs_ready r _ _ Hcs id) as (Hk & Hnc & Hnr); [left|].
  assert (id ∉ call_id <$> calls s) as Hfresh.
  { rewrite Hcalled. intros [?|[? ?]]; [done|congruence]. }
  assert (∀ d, succeeded s d → succeeded s' d) as Hsucc.
  { intros d [Hd Hs]. split; rewrite ?Ec; [done|].
    rewrite Es; [done|]. by intros ->. }
  assert (∀ c, c ∈ calls s → call_id c ≠ id) as Hold.
  { intros c Hc Heq. apply Hfresh. rewrite <- Heq.
    apply list_elem_of_fmap. eauto. }
  split; rewrite ?Eo, ?Eq, ?Ec, ?Ee, ?Er, ?El, ?Ej; try done.
  - rewrite fmap_app. apply NoDup_app. split_and!; [done| |apply NoDup_singleton].
    by intros x ? ->%list_elem_of_singleton.
  - intros id'. rewrite fmap_app, elem_of_app, Hcalled. simpl.
    rewrite list_elem_of_singleton, lookup_insert. case_decide; [subst|];
      naive_solver.
  - intros c [Hc| ->%list_elem_of_singleton]%elem_of_app; [eauto|].
    by exists n.
  - intros id' d Hin Hd. apply Hsucc. eapply Hready; [by right|done].
  - intros c d [Hc| ->%list_elem_of_singleton]%elem_of_app Hd; apply Hsucc.
    + by eapply Hdeps.
    + eapply Hready; [left|done].
  - intros id' res. rewrite lookup_insert. case_decide.
    + subst. intros [= <-]. eexists. apply elem_of_app. right. left.
    + intros [ctx Hc]%Hinrun. exists ctx. apply elem_of_app. by left.
  - intros id' v. rewrite lookup_insert. case_decide; [done|].
    intros [(c & Hc & ?) Ho]%Hinup. split; [|done].
    exists c. split; [|done]. apply elem_of_app. by left.
  - intros c x [Hc| ->%list_elem_of_singleton]%elem_of_app Hx; simpl.
    + rewrite !lookup_insert_ne by (by apply not_eq_sym, Hold).
      rewrite Es by (by apply Hold). by apply Hst.
    + rewrite !lookup_insert_eq. intros [?|[[v ?]|[e ?]]]; done.
  - intros Hj c v [Hc| ->%list_elem_of_singleton]%elem_of_app; [by apply Hres|done].
  - intros Hj ne. rewrite (Herr Hj). split.
    + intros (c & Hc & ?). exists c. split; [|done]. apply elem_of_app. by left.
    + intros (c & [Hc| ->%list_elem_of_singleton]%elem_of_app & Hin & ?);
        [by exists c|done].
Qed.

Lemma recorded_enqueue ready s s' id res v :
  consistent r ready s → recorded r ready s →
  running s !! id = Some (InRun res) →
  Node.settled res = Some (Returned v) →
  object s' = object s → updateQueue s' = updateQueue s ++ [(id, v)] →
  completed s' = completed s → errors s' = errors s →
  running s' = <[id := InUpdate v]> (running s) →
  status s' = match Node.status res with
              | Some x => <[id := x]> (status s)
              | None => status s
              end →
  calls s' = calls s →
  queueRejected s' = queueRejected s →
  recorded r ready s'.
Proof.
  intros Hcs [Hnd Hcalled Hrun Hready Hdeps Hinrun Hinup Hst Hres Herr Hecm Hend]
    Hid Hv Eo Eq Ec Ee Er Es El Ej.
  assert (id ∉ completed s) as Hnc.
  { intros Hin. apply (cs_phase r _ _ Hcs) in Hid. naive_solver. }
  assert (∀ k, k ≠ id → status_of (status s') k = status_of (status s) k) as Hsame.
  { intros k Hk. rewrite Es. destruct (Node.status res); [|done].
    rewrite status_of_insert. by rewrite decide_False. }
  assert (∀ d, succeeded s d → succeeded s' d) as Hsucc.
  { intros d [Hd Hs]. split; rewrite ?Ec; [done|].
    rewrite Hsame; [done|]. by intros ->. }
  split; rewrite ?Eo, ?Eq, ?Ec, ?Ee, ?Er, ?El, ?Ej; try done.
  - intros id'. rewrite Hcalled, lookup_insert. case_decide; [subst|];
      naive_solver.
  - intros id' d Hin Hd. apply Hsucc. by eapply Hready.
  - intros c d Hc Hd. apply Hsucc. by eapply Hdeps.
  - intros id' res'. rewrite lookup_insert. case_decide; [done|]. apply Hinrun.
  - intros id' v'. rewrite lookup_insert. case_decide.
    + subst id'. intros [= <-]. split.
      * destruct (Hinrun id res Hid) as [ctx Hc]. by eexists.
      * intros Hnq. destruct Hnq. rewrite fmap_app, elem_of_app. right. left.
    + intros [Hc Ho]%Hinup. split; [done|]. intros Hnq. apply Ho.
      rewrite fmap_app, elem_of_app in Hnq. tauto.
  - intros c x Hc Hx Hp. destruct (decide (call_id c = id)) as [Heq|Hne].
    + destruct (Hinrun id res Hid) as [ctx Hc'].
      assert (c = {| call_id := id; call_ctx := ctx; call_result := res |})
        as -> by (by eapply same_call).
      simpl in *. rewrite Es, Hx, status_of_insert. by rewrite decide_True.
    + rewrite Hsame by done. apply Hst; [done..|].
      by rewrite !lookup_insert_ne in Hp.
Qed.

Lemma recorded_apply ready s s' id v rest :
  consistent r ready s → recorded r ready s →
  updateQueue s = (id, v) :: rest →
  object s' = <[id := v]> (object s) → updateQueue s' = rest →
  completed s' = completed s → errors s' = errors s →
  running s' = running s → status s' = status s → calls s' = calls s →
  queueRejected s' = queueRejected s →
  recorded r ready s'.
Proof.
  intros Hcs [Hnd Hcalled Hrun Hready Hdeps Hinrun Hinup Hst Hres Herr Hecm Hend]
    Hq Eo Eq Ec Ee Er Es El Ej.
  assert (running s !! id = Some (InUpdate v)) as Hid.
  { apply (cs_queue r _ _ Hcs). rewrite Hq. left. }
  assert (id ∉ completed s) as Hnc.
  { intros Hin. apply (cs_phase r _ _ Hcs) in Hid. naive_solver. }
  split; unfold succeeded in *;
    rewrite ?Eo, ?Eq, ?Ec, ?Ee, ?Er, ?Es, ?El, ?Ej; try done.
  - intros id' v' Hid'. destruct (Hinup id' v' Hid') as [Hc Ho].
    split; [done|]. rewrite lookup_insert. case_decide.
    + subst id'. intros _. congruence.
    + intros Hnq. apply Ho. rewrite Hq. simpl. rewrite not_elem_of_cons.
      split; [done|done].
  - intros Hj c v' Hc Hin Hv'. rewrite lookup_insert_ne; [eauto|]. by intros ->.
Qed.

(** The update queue rejects the promise of a node. *)
Lemma recorded_reject ready s s' id v rest reason :
  consistent r ready s → recorded r ready s →
  updateQueue s = (id, v) :: rest →
  object s' = object s → updateQueue s' = rest →
  completed s' = completed s → errors s' = errors s →
  running s' = <[id := UpdateRejected reason]> (running s) →
  status s' = status s → calls s' = calls s →
  queueRejected s' = Some reason →
  recorded r ready s'.
Proof.
  intros Hcs [Hnd Hcalled Hrun Hready Hdeps Hinrun Hinup Hst Hres Herr Hecm Hend]
    Hq Eo Eq Ec Ee Er Es El Ej.
  assert (running s !! id = Some (InUpdate v)) as Hid.
  { apply (cs_queue r _ _ Hcs). rewrite Hq. left. }
  split; unfold succeeded in *;
    rewrite ?Eo, ?Eq, ?Ec, ?Ee, ?Er, ?Es, ?El, ?Ej; try done.
  - intros id'. rewrite Hcalled, lookup_insert. case_decide; [subst|];
      naive_solver.
  - intros id' res'. rewrite lookup_insert. case_decide; [done|]. apply Hinrun.
  - intros id' v'. rewrite lookup_insert. case_decide; [done|].
    intros Hid'. destruct (Hinup id' v' Hid') as [Hc Ho].
    split; [done|]. intros Hnq. apply Ho. rewrite Hq. simpl.
    rewrite not_elem_of_cons. split; [by apply not_eq_sym|done].
  - intros c x Hc Hx Hp. apply Hst; [done..|].
    destruct (decide (call_id c = id)) as [Heq|Hne].
    + rewrite Heq. right; left. eauto.
    + by rewrite !lookup_insert_ne in Hp by done.
Qed.

(** A rejected [node.run]: the [catch] block, then a hook or [finally]. *)
Lemma recorded_failed ready ready' s s' id res err :
  consistent r ready s → recorded r ready s →
  running s !! id = Some (InRun res) →
  Node.settled res = Some (Threw err) →
  object s' = object s → updateQueue s' = updateQueue s →
  completed s' = {[id]} ∪ completed s →
  errors s' = errors s ++ option_list
    match err with
    | ThrowError e => Some {| ne_id := id; ne_error := e |}
    | ThrowValue _ => None
    end →
  (∀ k, k ≠ id → running s' !! k = running s !! k) →
  (running s' !! id = None ∨ running s' !! id = Some InHook) →
  status s' = match Node.status res with
              | Some x => <[id := x]> (status s)
              | None => status s
              end →
  calls s' = calls s →
  (∀ k, k ∈ ready' → k ∈ ready ∨ ∃ n, (k, n) ∈ nodes ∧ canRun r s' n = true) →
  queueRejected s' = queueRejected s →
  recorded r ready' s'.
Proof.
  intros Hcs [Hnd Hcalled Hrun Hready Hdeps Hinrun Hinup Hst Hres Herr Hecm Hend]
    Hid Hv Eo Eq Ec Ee Er Er' Es El Ey Ej.
  assert (id ∉ completed s) as Hnc.
  { intros Hin. apply (cs_phase r _ _ Hcs) in Hid. naive_solver. }
  assert (∀ k, k ≠ id → status_of (status s') k = status_of (status s) k) as Hsame.
  { intros k Hk. rewrite Es. destruct (Node.status res); [|done].
    rewrite status_of_insert. by rewrite decide_False. }
  assert (∀ d, succeeded s d → succeeded s' d) as Hsucc.
  { intros d [Hd Hs]. split; rewrite ?Ec; [set_solver|].
    rewrite Hsame; [done|]. by intros ->. }
  destruct (Hinrun id res Hid) as [ctx Hcall].
  assert (∀ c, c ∈ calls s → call_id c = id →
            c = {| call_id := id; call_ctx := ctx; call_result := res |})
    as Hthe by (intros; by eapply same_call).
  split; rewrite ?Eo, ?Eq, ?Ec, ?El, ?Ej; try done.
  - intros id'. rewrite Hcalled, elem_of_union, elem_of_singleton.
    destruct (decide (id' = id)) as [->|Hne]; [naive_solver|].
    rewrite Er by done. naive_solver.
  - intros k d Hk Hd. destruct (Ey k Hk) as [Hin|(n & Hn & Hcan)].
    + apply Hsucc. by eapply Hready.
    + rewrite (canRun_true r Hr) in Hcan. apply Hcan.
      by rewrite (rn_ids r Hr k n Hn).
  - intros c d Hc Hd. apply Hsucc. by eapply Hdeps.
  - intros id' res' Hid'. destruct (decide (id' = id)) as [->|Hne].
    + destruct Er' as [E|E]; congruence.
    + rewrite Er in Hid' by done. by apply Hinrun.
  - intros id' v' Hid'. destruct (decide (id' = id)) as [->|Hne].
    + destruct Er' as [E|E]; congruence.
    + rewrite Er in Hid' by done. by apply Hinup.
  - intros c x Hc Hx Hp. destruct (decide (call_id c = id)) as [Heq|Hne].
    + rewrite (Hthe c Hc Heq) in Hx |- *. simpl in *.
      rewrite Es, Hx, status_of_insert. by rewrite decide_True.
    + rewrite Hsame by done. apply Hst; [done..|].
      rewrite !Er in Hp by done. set_solver.
  - intros Hj c v Hc Hin Hv'. destruct (decide (call_id c = id)) as [Heq|Hne].
    + rewrite (Hthe c Hc Heq) in Hv'. simpl in Hv'. congruence.
    + apply (Hres Hj); [done| |done]. set_solver.
  - intros Hj ne. rewrite Ee, elem_of_app, (Herr Hj). split.
    + intros [(c & Hc & Hin & Hs & Hi)|Hne].
      * exists c. split_and!; [done|set_solver|done..].
      * destruct err as [e|]; simpl in Hne; [|by apply elem_of_nil in Hne].
        apply list_elem_of_singleton in Hne as ->. simpl.
        eexists. split_and!; [exact Hcall|set_solver|done..].
    + intros (c & Hc & Hin & Hs & Hi).
      destruct (decide (call_id c = id)) as [Heq|Hne].
      * right. rewrite (Hthe c Hc Heq) in Hs. simpl in Hs.
        rewrite Hv in Hs. injection Hs as ->. simpl.
        apply list_elem_of_singleton. destruct ne. simpl in *. congruence.
      * left. exists c. split_and!; [done|set_solver|done..].
  - intros ne. rewrite Ee, elem_of_app. intros [Hne%Hecm|Hne]; [set_solver|].
    destruct err as [e|]; simpl in Hne; [|by apply elem_of_nil in Hne].
    apply list_elem_of_singleton in Hne as ->. simpl. set_solver.
  - rewrite Ee, fmap_app. apply NoDup_app. split_and!; [done| |].
    + intros x Hx. destruct err as [e|]; simpl; [|apply not_elem_of_nil].
      intros ->%list_elem_of_singleton.
      apply list_elem_of_fmap in Hx as (ne & Heq & Hne).
      apply Hecm in Hne. rewrite <- Heq in Hne. done.
    + destruct err; simpl; [apply NoDup_singleton|apply NoDup_nil_2].
Qed.

(** A rejected [context.update]: the [catch] block, then a hook or
    [finally]. *)
Lemma recorded_refused ready ready' s s' id err :
  consistent r ready s → recorded r ready s →
  running s !! id = Some (UpdateRejected err) →
  object s' = object s → updateQueue s' = updateQueue s →
  completed s' = {[id]} ∪ completed s →
  errors s' = errors s ++ option_list
    match err with
    | ThrowError e => Some {| ne_id := id; ne_error := e |}
    | ThrowValue _ => None
    end →
  (∀ k, k ≠ id → running s' !! k = running s !! k) →
  (running s' !! id = None ∨ running s' !! id = Some InHook) →
  status s' = status s → calls s' = calls s →
  (∀ k, k ∈ ready' → k ∈ ready ∨ ∃ n, (k, n) ∈ nodes ∧ canRun r s' n = true) →
  queueRejected s' = queueRejected s →
  recorded r ready' s'.
Proof.
  intros Hcs [Hnd Hcalled Hrun Hready Hdeps Hinrun Hinup Hst Hres Herr Hecm Hend]
    Hid Eo Eq Ec Ee Er Er' Es El Ey Ej.
  assert (id ∉ completed s) as Hnc.
  { intros Hin. apply (cs_phase r _ _ Hcs) in Hid. naive_solver. }
  assert (∀ d, succeeded s d → succeeded s' d) as Hsucc.
  { intros d [Hd Hs]. split; rewrite ?Ec, ?Es; [set_solver|done]. }
  pose proof (cs_rejected r _ _ Hcs _ _ Hid) as Hreason.
  split; rewrite ?Eo, ?Eq, ?Ec, ?Es, ?El, ?Ej; try done.
  - intros id'. rewrite Hcalled, elem_of_union, elem_of_singleton.
    destruct (decide (id' = id)) as [->|Hne]; [naive_solver|].
    rewrite Er by done. naive_solver.
  - intros k d Hk Hd. destruct (Ey k Hk) as [Hin|(n & Hn & Hcan)].
    + apply Hsucc. by eapply Hready.
    + rewrite (canRun_true r Hr) in Hcan. apply Hcan.
      by rewrite (rn_ids r Hr k n Hn).
  - intros c d Hc Hd. apply Hsucc. by eapply Hdeps.
  - intros id' res' Hid'. destruct (decide (id' = id)) as [->|Hne].
    + destruct Er' as [E|E]; congruence.
    + rewrite Er in Hid' by done. by apply Hinrun.
  - intros id' v' Hid'. destruct (decide (id' = id)) as [->|Hne].
    + destruct Er' as [E|E]; congruence.
    + rewrite Er in Hid' by done. by apply Hinup.
  - intros c x Hc Hx Hp. apply Hst; [done..|].
    destruct (decide (call_id c = id)) as [Heq|Hne].
    + rewrite Heq. right; right. eauto.
    + rewrite !Er in Hp by done. set_solver.
  - congruence.
  - congruence.
  - intros ne. rewrite Ee, elem_of_app. intros [Hne%Hecm|Hne]; [set_solver|].
    destruct err as [e|]; simpl in Hne; [|by apply elem_of_nil in Hne].
    apply list_elem_of_singleton in Hne as ->. simpl. set_solver.
  - rewrite Ee, fmap_app. apply NoDup_app. split_and!; [done| |].
    + intros x Hx. destruct err as [e|]; simpl; [|apply not_elem_of_nil].
      intros ->%list_elem_of_singleton.
      apply list_elem_of_fmap in Hx as (ne & Heq & Hne).
      apply Hecm in Hne. rewrite <- Heq in Hne. done.
    + destruct err; simpl; [apply NoDup_singleton|apply NoDup_nil_2].
Qed.

(** A node whose result is merged, or whose hook returned, goes on to
    [completed.add] and a hook or to [finally]. *)
Lemma recorded_finished ready ready' s s' id :
  consistent r ready s → recorded r ready s →
  (∃ v, running s !! id = Some (InUpdate v) ∧ id ∉ (updateQueue s).*1)
  ∨ running s !! id = Some InHook →
  object s' = object s → updateQueue s' = updateQueue s →
  completed s' = {[id]} ∪ completed s → errors s' = errors s →
  (∀ k, k ≠ id → running s' !! k = running s !! k) →
  (running s' !! id = None ∨ running s' !! id = Some InHook) →
  status s' = status s → calls s' = calls s →
  (∀ k, k ∈ ready' → k ∈ ready ∨ ∃ n, (k, n) ∈ nodes ∧ canRun r s' n = true) →
  queueRejected s' = queueRejected s →
  recorded r ready' s'.
Proof.
  intros Hcs [Hnd Hcalled Hrun Hready Hdeps Hinrun Hinup Hst Hres Herr Hecm Hend]
    Hid Eo Eq Ec Ee Er Er' Es El Ey Ej.
  assert (∀ d, succeeded s d → succeeded s' d) as Hsucc.
  { intros d [Hd Hs]. split; rewrite ?Ec, ?Es; [set_solver|done]. }
  assert (is_Some (running s !! id)) as Hsome.
  { destruct Hid as [(v & -> & _)| ->]; eauto. }
  split; rewrite ?Eo, ?Eq, ?Ec, ?Ee, ?Es, ?El, ?Ej; try done.
  - intros id'. rewrite Hcalled, elem_of_union, elem_of_singleton.
    destruct (decide (id' = id)) as [->|Hne]; [naive_solver|].
    rewrite Er by done. naive_solver.
  - intros k d Hk Hd. destruct (Ey k Hk) as [Hin|(n & Hn & Hcan)].
    + apply Hsucc. by eapply Hready.
    + rewrite (canRun_true r Hr) in Hcan. apply Hcan.
      by rewrite (rn_ids r Hr k n Hn).
  - intros c d Hc Hd. apply Hsucc. by eapply Hdeps.
  - intros id' res' Hid'. destruct (decide (id' = id)) as [->|Hne].
    + destruct Er' as [E|E]; congruence.
    + rewrite Er in Hid' by done. by apply Hinrun.
  - intros id' v' Hid'. destruct (decide (id' = id)) as [->|Hne].
    + destruct Er' as [E|E]; congruence.
    + rewrite Er in Hid' by done. by apply Hinup.
  - intros c x Hc Hx Hp. apply Hst; [done..|].
    destruct (decide (call_id c = id)) as [Heq|Hne].
    + rewrite Heq. destruct Hid as [(v & Hv & _)|Hh]; [right; left; eauto|].
      left. apply (cs_phase r _ _ Hcs) in Hh. naive_solver.
    + rewrite !Er in Hp by done. set_solver.
  - intros Hj c v Hc Hin Hv. destruct (decide (call_id c = id)) as [Heq|Hne].
    + destruct Hid as [(v' & Hv' & Hnq)|Hh].
      * destruct (Hinup id v' Hv') as [(c' & Hc' & Hi' & Hs') Ho].
        assert (c = c') as -> by (eapply same_call; [done..|congruence]).
        rewrite Heq, Ho by done. congruence.
      * apply (Hres Hj); [done| |done]. rewrite Heq.
        apply (cs_phase r _ _ Hcs) in Hh. naive_solver.
    + apply (Hres Hj); [done| |done]. set_solver.
  - intros Hj ne. rewrite (Herr Hj). split.
    + intros (c & Hc & Hin & Hs & Hi). exists c.
      split_and!; [done|set_solver|done..].
    + intros (c & Hc & Hin & Hs & Hi). exists c. split_and!; try done.
      destruct (decide (call_id c = id)) as [Heq|Hne]; [|set_solver].
      destruct Hid as [(v' & Hv' & Hnq)|Hh].
      * destruct (Hinup id v' Hv') as [(c' & Hc' & Hi' & Hs') Ho].
        assert (c = c') as -> by (eapply same_call; [done..|congruence]).
        congruence.
      * rewrite Heq. apply (cs_phase r _ _ Hcs) in Hh. naive_solver.
  - intros ne Hne%Hecm. set_solver.
Qed.

End history_steps.

(* ===================================================================== *)
(** ** The scheduler: the invariant of a run *)
(* ===================================================================== *)

Section run_invariant.

Variable r : WorkflowRunner.t.
Hypothesis Hr : runnable r.

Local Notation nodes := (WorkflowRunner.nodes r).
Local Notation deps := (WorkflowRunner.nodeDependencies r).
Local Notation keys := (JsMap.keys (WorkflowRunner.nodes r)).

Lemma canRun_ext s1 s2 n :
  completed s1 = completed s2 → status s1 = status s2 →
  canRun r s1 n = canRun r s2 n.
Proof.
  intros Ec Es. unfold canRun. f_equal.
  induction (DependencyMap.get deps (Node.id n)) as [|d l IH]; simpl; [done|].
  rewrite IH. unfold dependency_done. by rewrite Ec, Es.
Qed.

Lemma caught_up_weaken ready ready' s s' :
  caught_up r ready s →
  (∀ d, settled_well s' d → settled_well s d) →
  (∀ k, k ∈ ready ∨ k ∈ completed s ∨ is_Some (running s !! k) →
        k ∈ ready' ∨ k ∈ completed s' ∨ is_Some (running s' !! k)) →
  caught_up r ready' s'.
Proof. intros Hc Hd Hk id Hid Hdeps. apply Hk, Hc; [done|]. auto. Qed.

Lemma caught_up_scan ready s s1 :
  completed s1 = completed s → status s1 = status s →
  running s1 = running s →
  caught_up r (scan r s1 nodes ready) s.
Proof.
  intros Ec Es Er id Hid Hdeps.
  destruct (decide (id ∈ completed s)) as [|Hnc]; [by right; left|].
  destruct (running s !! id) as [p|] eqn:Hp; [by right; right|].
  left. apply elem_of_scan.
  destruct (get_node r Hr id Hid) as (n & Hn & Hidn). right. exists n.
  rewrite Ec, Er. split_and!; [by apply JsMap_get_Some|done..|].
  rewrite (canRun_ext s1 s) by done. apply (canRun_true r Hr). rewrite Hidn.
  intros d Hd. by apply Hdeps.
Qed.

Lemma start_starting l s id :
  starting r (id :: l) s → starting r l (start r s id).
Proof.
  intros [Hcs Hrc Hcu].
  destruct (cs_ready r _ _ Hcs id) as (Hk & Hnc & Hnr); [left|].
  pose proof (start_consistent r Hr l s id Hcs) as Hcs'.
  unfold start in *. destruct (get_node r Hr id Hk) as (n & Hn & _).
  rewrite Hn in *.
  assert (∀ k, k ≠ id →
    status_of
      match Node.status (Node.run n (object s)) with
      | Some NodeStatus.skipped => <[id:=NodeStatus.skipped]> (status s)
      | Some _ => <[id:=NodeStatus.running]> (status s)
      | None => status s
      end k = status_of (status s) k) as Hst.
  { intros k Hne. repeat case_match; rewrite ?status_of_insert;
      by rewrite ?decide_False. }
  split; [done| |].
  - by eapply (recorded_start r l s).
  - eapply caught_up_weaken; [exact Hcu| |]; simpl.
    + intros d [[Hd Hs] Hrun]. simpl in Hd, Hs, Hrun.
      rewrite lookup_insert in Hrun.
      case_decide; [done|]. split; [|done]. split; [done|].
      by rewrite Hst in Hs.
    + intros k. rewrite elem_of_cons, lookup_insert.
      case_decide; [subst|]; naive_solver.
Qed.

Lemma foldl_start_starting l s :
  starting r l s → starting r [] (foldl (start r) s l).
Proof.
  revert s. induction l as [|id l IH]; intros s Hs; simpl; [done|].
  by apply IH, start_starting.
Qed.

Lemma starting_fields ready s s' :
  starting r ready s →
  object s' = object s → updateQueue s' = updateQueue s →
  status s' = status s → completed s' = completed s →
  running s' = running s → errors s' = errors s → calls s' = calls s →
  events s' = events s → (∀ e, loop s' ≠ Crashed e) →
  queueRejected s' = queueRejected s →
  starting r ready s'.
Proof.
  intros [Hcs [] Hcu] Eo Eq Es Ec Er Ee El Ev Hl Ej. split.
  - by eapply consistent_fields.
  - split; unfold succeeded in *;
      rewrite ?Eo, ?Eq, ?Es, ?Ec, ?Er, ?Ee, ?El, ?Ej; done.
  - intros id Hid Hd. rewrite Ec, Er. apply Hcu; [done|].
    intros d Hdd. specialize (Hd d Hdd). unfold settled_well, succeeded in *.
    by rewrite Ec, Es, Er in Hd.
Qed.

Lemma foldl_start_running l s :
  (∀ id, id ∈ l → id ∈ keys) →
  ∀ k, is_Some (running (foldl (start r) s l) !! k)
       ↔ k ∈ l ∨ is_Some (running s !! k).
Proof.
  revert s. induction l as [|id l IH]; intros s Hl k; simpl.
  - rewrite elem_of_nil. tauto.
  - rewrite IH by (intros; apply Hl; by right).
    unfold start. destruct (get_node r Hr id) as (n & -> & _); [apply Hl; left|].
    simpl. rewrite lookup_insert, elem_of_cons.
    case_decide; [subst|]; naive_solver.
Qed.

Lemma foldl_start_same l s :
  (∀ id, id ∈ l → id ∈ keys) →
  let s' := foldl (start r) s l in
  completed s' = completed s ∧ loop s' = loop s
  ∧ updateQueue s' = updateQueue s.
Proof.
  revert s. induction l as [|id l IH]; intros s Hl; simpl; [done|].
  destruct (IH (start r s id)) as (-> & -> & ->); [intros; apply Hl; by right|].
  unfold start. by destruct (get_node r Hr id) as (n & -> & _); [apply Hl; left|].
Qed.

Lemma all_completed s :
  (∀ id, id ∈ completed s → id ∈ keys) →
  ¬ size (completed s) < JsMap.size nodes →
  ∀ k, k ∈ keys → k ∈ completed s.
Proof.
  intros Hsub Hsize.
  assert (completed s ⊆ list_to_set keys) as Hsubset.
  { intros x Hx. apply elem_of_list_to_set. by apply Hsub. }
  assert (size (list_to_set keys : gset string) = JsMap.size nodes) as Hk.
  { rewrite size_list_to_set by apply Hr.
    unfold JsMap.size, JsMap.keys. by rewrite length_fmap. }
  assert (completed s = list_to_set keys) as ->.
  { apply set_eq. apply set_subseteq_size_equiv; [done|]. lia. }
  intros k Hkin. by apply elem_of_list_to_set.
Qed.

Lemma iterate_invariant s :
  invariant r s → loop s ≠ Exited → invariant r (iterate r s).
Proof.
  intros [Hst Hlp] Hne. pose proof (st_consistent r _ _ Hst) as Hcs.
  assert (∀ id, id ∈ readyNodes s → id ∈ keys) as Hready.
  { intros id Hid. by destruct (cs_ready r _ _ Hcs id Hid). }
  unfold iterate. case_match eqn:Hsize.
  - assert (starting r [] (start_ready r s)) as Hst'.
    { unfold start_ready. apply foldl_start_starting.
      eapply starting_fields; [exact Hst|done..|apply Hcs|done]. }
    assert (readyNodes (start_ready r s) = []) as Hre.
    { unfold start_ready. by rewrite foldl_start_readyNodes. }
    set (s1 := start_ready r s) in *.
    assert (match loop s1 with
            | Crashed _ => s1
            | _ => if 0 <? size (running s1)
                   then set_loop s1 (Racing (elements (dom (running s1))))
                   else set_loop s1 Exited
            end
            = if 0 <? size (running s1)
              then set_loop s1 (Racing (elements (dom (running s1))))
              else set_loop s1 Exited) as ->.
    { destruct (loop s1) eqn:Hl; try done.
      by destruct (cs_loop r _ _ (st_consistent r _ _ Hst') e). }
    destruct (Nat.ltb_spec 0 (size (running s1))) as [Hpos|Hzero].
    + split; simpl; rewrite ?Hre.
      * eapply starting_fields; [exact Hst'|done..].
      * split; simpl; try done. intros ids [= <-] Hnil.
        apply elements_empty_iff in Hnil.
        apply dom_empty_iff in Hnil. rewrite Hnil, map_size_empty in Hpos. lia.
    + split; simpl; rewrite ?Hre.
      * eapply starting_fields; [exact Hst'|done..].
      * split; simpl; try done. intros _. split; [done|]. left.
        apply map_size_empty_iff. lia.
  - apply Nat.ltb_ge in Hsize.
    assert (∀ k, k ∈ keys → k ∈ completed s) as Hall.
    { apply all_completed; [apply Hcs|lia]. }
    split; simpl.
    + eapply starting_fields; [exact Hst|done..].
    + split; simpl; try done. intros _. split; [|by right].
      destruct (readyNodes s) as [|id l] eqn:Hre; [done|].
      pose proof (st_consistent r _ _ Hst) as Hcs'.
      destruct (cs_ready r _ _ Hcs' id) as (Hk & Hnc & _); [left|].
      destruct Hnc. by apply Hall.
Qed.

(** What [notify] leaves behind. *)
Lemma notify_fields s id n ev :
  let s' := notify r s id n ev in
  object s' = object s ∧ updateQueue s' = updateQueue s
  ∧ status s' = status s ∧ completed s' = completed s
  ∧ errors s' = errors s ∧ calls s' = calls s ∧ loop s' = loop s
  ∧ (∀ k, k ≠ id → running s' !! k = running s !! k)
  ∧ (running s' !! id = None ∨ running s' !! id = Some InHook)
  ∧ (∀ k, k ∈ readyNodes s' →
       k ∈ readyNodes s ∨ ∃ n', (k, n') ∈ nodes ∧ canRun r s' n' = true)
  ∧ queueRejected s' = queueRejected s.
Proof.
  unfold notify. destruct (Node.onCompleted n); simpl.
  - split_and!; try done.
    + intros k Hk. by rewrite lookup_insert_ne.
    + right. by rewrite lookup_insert_eq.
    + auto.
  - split_and!; try done.
    + intros k Hk. by rewrite lookup_delete_ne.
    + left. by rewrite lookup_delete_eq.
    + intros k [?|(n' & Hn' & _ & _ & Hcan)]%elem_of_scan; [by left|].
      right. exists n'. split; [done|].
      by erewrite canRun_ext; [exact Hcan|..].
Qed.

Lemma notify_caught_up s s0 id n ev :
  caught_up r (readyNodes s0) s0 →
  object s = object s0 → updateQueue s = updateQueue s0 →
  completed s = {[id]} ∪ completed s0 → running s = running s0 →
  readyNodes s = readyNodes s0 →
  is_Some (running s0 !! id) →
  (∀ k, k ≠ id → status_of (status s) k = status_of (status s0) k) →
  caught_up r (readyNodes (notify r s id n ev)) (notify r s id n ev).
Proof.
  intros Hcu Eo Eq Ec Er Ey Hid Hst. unfold notify.
  destruct (Node.onCompleted n).
  - simpl. rewrite Ey. eapply caught_up_weaken; [exact Hcu| |]; simpl.
    + intros d [[Hd Hs] Hrun]. simpl in *.
      rewrite lookup_insert in Hrun. case_decide; [done|].
      rewrite Er in Hrun. rewrite Ec in Hd. rewrite Hst in Hs by done.
      split; [|done]. split; [set_solver|done].
    + intros k. rewrite Ec, Er, lookup_insert, elem_of_union, elem_of_singleton.
      case_decide; [subst|]; naive_solver.
  - unfold finally. by apply caught_up_scan.
Qed.

Lemma looping_fields s s' :
  looping r s → loop s' = loop s → loop s ≠ Exited →
  (loop s = Iterating → running s' = ∅) →
  looping r s'.
Proof.
  intros [Hi Hra He] El Hne Hrun. split; rewrite El; try done.
Qed.

End run_invariant.

(* ===================================================================== *)
(** ** The scheduler: steps keep the invariant *)
(* ===================================================================== *)

Section run_steps.

Variable r : WorkflowRunner.t.
Hypothesis Hr : runnable r.

Local Notation nodes := (WorkflowRunner.nodes r).
Local Notation deps := (WorkflowRunner.nodeDependencies r).
Local Notation keys := (JsMap.keys (WorkflowRunner.nodes r)).

Lemma exited_running s id p :
  invariant r s → loop s = Exited → running s !! id = Some p →
  p = InHook ∧ ∀ k, k ∈ keys → k ∈ completed s.
Proof.
  intros [[Hcs _ _] Hlp] Hl Hid.
  destruct (lp_exited r _ Hlp Hl) as [_ [He|Hall]].
  - by rewrite He, lookup_empty in Hid.
  - split; [|done]. apply (cs_phase r _ _ Hcs _ _ Hid), Hall.
    by eapply (cs_running r _ _ Hcs).
Qed.

(** While a node is in flight and not yet marked completed, the loop is
    suspended in its race. *)
Lemma in_flight_racing s id p :
  invariant r s → running s !! id = Some p → p ≠ InHook →
  ∃ ids, loop s = Racing ids.
Proof.
  intros Hinv Hid Hp. destruct (loop s) as [|ids| |e] eqn:Hl; [| |exfalso..].
  - destruct Hinv as [_ Hlp]. rewrite (lp_iterating r _ Hlp Hl) in Hid.
    by rewrite lookup_empty in Hid.
  - eauto.
  - by destruct (exited_running s id p Hinv Hl Hid).
  - destruct Hinv as [[Hcs _ _] _]. by destruct (cs_loop r _ _ Hcs e).
Qed.

Lemma looping_racing s s' ids :
  loop s = Racing ids → looping r s → loop s' = loop s → looping r s'.
Proof.
  intros Hl [_ Hra _] El. split; rewrite El, Hl; try done.
  intros ids' [= <-]. by apply Hra.
Qed.

Lemma scan_all_completed s1 ns ready :
  (∀ k n, (k, n) ∈ ns → k ∈ completed s1) → scan r s1 ns ready = ready.
Proof.
  revert ready. induction ns as [|[k n] ns IH]; intros ready Hall; simpl; [done|].
  rewrite IH by (intros; eapply Hall; by right).
  rewrite (bool_decide_eq_false_2 (k ∉ completed s1)); [done|].
  intros Hk. apply Hk. eapply Hall. left.
Qed.

Lemma settle_invariant s id n res out :
  invariant r s → running s !! id = Some (InRun res) →
  JsMap.get nodes id = Some n → Node.settled res = Some out →
  invariant r (settle r s id n res).
Proof.
  intros Hinv Hid Hn Hres. pose proof Hinv as [[Hcs Hrc Hcu] Hlp].
  destruct (in_flight_racing s id _ Hinv Hid) as [ids Hl]; [done|].
  assert (id ∉ completed s) as Hnc.
  { intros Hin. apply (cs_phase r _ _ Hcs) in Hid. naive_solver. }
  assert (∀ k, k ≠ id →
    status_of match Node.status res with
              | Some x => <[id:=x]> (status s)
              | None => status s
              end k = status_of (status s) k) as Hst.
  { intros k Hk. destruct (Node.status res); [|done].
    rewrite status_of_insert. by rewrite decide_False. }
  unfold settle. rewrite Hres. destruct out as [v|err].
  - split; [split|]; simpl.
    + by eapply (consistent_enqueue r _ s).
    + by eapply (recorded_enqueue r _ s).
    + eapply caught_up_weaken; [exact Hcu| |]; simpl.
      * intros d [[Hd Hs] Hrun]. simpl in Hd, Hs, Hrun.
        rewrite lookup_insert in Hrun. case_decide; [done|].
        split; [|done]. split; [done|]. by rewrite Hst in Hs.
      * intros k. rewrite lookup_insert. case_decide; [subst|]; naive_solver.
    + by eapply looping_racing.
  - unfold fail.
    match goal with |- invariant r (notify r ?s1 id n ?ev) =>
      set (s' := s1); set (e := ev) end.
    destruct (notify_fields r s' id n e)
      as (Eo & Eq & Es & Ec & Ee & El & Elp & Er & Er' & Ey & Ej).
    split; [split|].
    + eapply (notify_consistent r Hr s); try done.
      by eapply not_queued.
    + eapply (recorded_failed r Hr _ _ s); try done;
        rewrite ?Eo, ?Eq, ?Es, ?Ec, ?Ee, ?El, ?Ej; done.
    + by eapply (notify_caught_up r Hr s' s).
    + eapply looping_racing; [done..|]. by rewrite Elp.
Qed.

Lemma refuse_invariant s id n err :
  invariant r s → running s !! id = Some (UpdateRejected err) →
  invariant r (fail r s id n err).
Proof.
  intros Hinv Hid. pose proof Hinv as [[Hcs Hrc Hcu] Hlp].
  destruct (in_flight_racing s id _ Hinv Hid) as [ids Hl]; [done|].
  unfold fail.
  match goal with |- invariant r (notify r ?s1 id n ?ev) =>
    set (s' := s1); set (e := ev) end.
  destruct (notify_fields r s' id n e)
    as (Eo & Eq & Es & Ec & Ee & El & Elp & Er & Er' & Ey & Ej).
  split; [split|].
  - eapply (notify_consistent r Hr s); try done.
    by eapply not_queued.
  - eapply (recorded_refused r Hr _ _ s); try done;
      rewrite ?Eo, ?Eq, ?Es, ?Ec, ?Ee, ?El, ?Ej; done.
  - by eapply (notify_caught_up r Hr s' s).
  - eapply looping_racing; [done..|]. by rewrite Elp.
Qed.

Lemma continue_invariant s id n v :
  invariant r s → running s !! id = Some (InUpdate v) →
  id ∉ (updateQueue s).*1 →
  invariant r (continue r s id n v).
Proof.
  intros Hinv Hid Hnq. pose proof Hinv as [[Hcs Hrc Hcu] Hlp].
  destruct (in_flight_racing s id _ Hinv Hid) as [ids Hl]; [done|].
  unfold continue.
  match goal with |- invariant r (notify r ?s1 id n ?ev) =>
    set (s' := s1); set (e := ev) end.
  destruct (notify_fields r s' id n e)
    as (Eo & Eq & Es & Ec & Ee & El & Elp & Er & Er' & Ey & Ej).
  split; [split|].
  - by eapply (notify_consistent r Hr s).
  - eapply (recorded_finished r Hr _ _ s); try done;
      rewrite ?Eo, ?Eq, ?Es, ?Ec, ?Ee, ?El, ?Ej; try done.
    left. eauto.
  - by eapply (notify_caught_up r Hr s' s).
  - eapply looping_racing; [done..|]. by rewrite Elp.
Qed.

Lemma finally_invariant s id :
  invariant r s → running s !! id = Some InHook →
  invariant r (finally r s id).
Proof.
  intros Hinv Hid. pose proof Hinv as [[Hcs Hrc Hcu] Hlp].
  assert (id ∈ completed s) as Hin.
  { apply (cs_phase r _ _ Hcs) in Hid. naive_solver. }
  assert (completed s = {[id]} ∪ completed s) as Hc.
  { apply set_eq. set_solver. }
  split; [split|].
  - eapply (consistent_finally r Hr s); try done. by eapply not_queued.
  - eapply (recorded_finished r Hr _ _ s); try done; simpl.
    + by right.
    + intros k Hk. by rewrite lookup_delete_ne.
    + left. by rewrite lookup_delete_eq.
    + intros k [?|(n' & Hn' & _ & _ & Hcan)]%elem_of_scan; [by left|].
      right. exists n'. split; [done|].
      by erewrite canRun_ext; [exact Hcan|..].
  - unfold finally. by apply caught_up_scan.
  - destruct (loop s) as [|ids| |e] eqn:Hl.
    + rewrite (lp_iterating r _ Hlp Hl) in Hid. by rewrite lookup_empty in Hid.
    + by eapply looping_racing.
    + destruct (exited_running s id _ Hinv Hl Hid) as [_ Hall].
      split; simpl; rewrite Hl; try done. intros _.
      destruct (lp_exited r _ Hlp Hl) as [-> _]. split; [|by right].
      apply scan_all_completed. intros k n Hk. simpl. apply Hall.
      apply list_elem_of_fmap. by exists (k, n).
    + by destruct (cs_loop r _ _ Hcs e).
Qed.

Lemma Context_update_Returned o k v o' :
  Context.update o k v = Returned o' → o' = <[k := v]> o.
Proof.
  unfold Context.update, Context.merge. destruct (Context.deepFreeze v); [done|].
  intros [= <-]. by rewrite insert_union_singleton_l.
Qed.

Lemma reject_invariant s id v rest reason :
  invariant r s → updateQueue s = (id, v) :: rest →
  queueRejected s = None ∨ queueRejected s = Some reason →
  invariant r (reject_update s id rest reason).
Proof.
  intros Hinv Hq Hj. pose proof Hinv as [[Hcs Hrc Hcu] Hlp].
  assert (running s !! id = Some (InUpdate v)) as Hid.
  { apply (cs_queue r _ _ Hcs). rewrite Hq. left. }
  destruct (in_flight_racing s id _ Hinv Hid) as [ids Hl]; [done|].
  split; [split|].
  - by eapply (consistent_reject r Hr _ s).
  - by eapply (recorded_reject r _ s).
  - eapply caught_up_weaken; [exact Hcu| |]; simpl.
    + intros d [[Hd Hs] Hrun]. simpl in Hd, Hs, Hrun.
      rewrite lookup_insert in Hrun. case_decide; [done|]. done.
    + intros k. rewrite lookup_insert. case_decide; [subst|]; naive_solver.
  - by eapply looping_racing.
Qed.

Lemma apply_invariant s u rest :
  invariant r s → updateQueue s = u :: rest →
  invariant r (apply_update s u rest).
Proof.
  intros Hinv Hq. pose proof Hinv as [[Hcs Hrc Hcu] Hlp]. destruct u as [id v].
  assert (running s !! id = Some (InUpdate v)) as Hid.
  { apply (cs_queue r _ _ Hcs). rewrite Hq. left. }
  destruct (in_flight_racing s id _ Hinv Hid) as [ids Hl]; [done|].
  unfold apply_update. simpl.
  destruct (queueRejected s) as [reason|] eqn:Hj;
    [eapply reject_invariant; [done..|by right]|].
  destruct (Context.update (object s) id v) as [o|reason] eqn:Hup;
    [|eapply reject_invariant; [done..|by left]].
  apply Context_update_Returned in Hup as ->.
  split; [split|].
  - by eapply (consistent_apply r Hr _ s).
  - by eapply (recorded_apply r _ s).
  - by eapply caught_up_weaken; [exact Hcu|..].
  - by eapply looping_racing.
Qed.

Lemma step_invariant s e s' :
  invariant r s → step r s e = Some s' → invariant r s'.
Proof.
  intros Hinv. destruct e as [|id| |id|id]; simpl.
  - destruct (loop s) eqn:Hl; try done; [|case_match; [|done]];
      intros [= <-]; apply iterate_invariant; congruence.
  - destruct (running s !! id) as [[res| | |]|] eqn:Hid; try done.
    destruct (JsMap.get nodes id) as [n|] eqn:Hn; [|done].
    destruct (Node.settled res) as [out|] eqn:Hres; [|done]. intros [= <-].
    by eapply settle_invariant.
  - destruct (updateQueue s) as [|u rest] eqn:Hq; [done|].
    intros [= <-]. by apply apply_invariant.
  - destruct (running s !! id) as [[res|v|reason|]|] eqn:Hid; try done.
    + destruct (JsMap.get nodes id) as [n|]; [|done].
      case_bool_decide as Hnq; [done|]. intros [= <-].
      by apply continue_invariant.
    + destruct (JsMap.get nodes id) as [n|]; [|done]. intros [= <-].
      by apply refuse_invariant.
  - destruct (running s !! id) as [[res|v|reason|]|] eqn:Hid; try done.
    intros [= <-]. by apply finally_invariant.
Qed.

Lemma exec_invariant schedule s s' :
  invariant r s → exec r s schedule = Some s' → invariant r s'.
Proof.
  revert s. induction schedule as [|e schedule IH]; intros s Hs; simpl.
  - by intros [= <-].
  - destruct (step r s e) as [s1|] eqn:He; [|done].
    apply IH. by eapply step_invariant.
Qed.

Lemma initial_ready_spec order ready :
  initial_ready r order = Ok ready →
  ∀ id, id ∈ ready ↔ id ∈ order ∧ DependencyMap.get deps id = [].
Proof.
  revert ready. induction order as [|x order IH]; intros ready; simpl.
  - intros [= <-] id. rewrite !elem_of_nil. tauto.
  - destruct (JsMap.get nodes x) as [n|] eqn:Hx; [|done].
    destruct (initial_ready r order) as [ready0|]; simpl; [|done].
    intros [= <-] id. specialize (IH ready0 eq_refl id).
    destruct (DependencyMap.get deps x) as [|d l] eqn:Hd; simpl.
    + rewrite !elem_of_cons, IH. naive_solver.
    + rewrite elem_of_cons, IH. split; [naive_solver|].
      intros [[->|?] ?]; [congruence|done].
Qed.

Lemma init_invariant status0 queue0 s0 :
  init r status0 queue0 = Returned s0 → invariant r s0.
Proof.
  intros H0. pose proof (init_consistent r Hr status0 queue0 s0 H0) as Hcs.
  unfold init in H0. case_match; [done|].
  destruct (seed r) as [o|] eqn:Hseed; [|done].
  destruct (initial_ready r _) as [ready|] eqn:Hready; [|done].
  injection H0 as <-. simpl in *.
  pose proof (initial_ready_spec _ _ Hready) as Hspec.
  split; [split|]; simpl; try done.
  - split; simpl; try done.
    + constructor.
    + intros id. rewrite elem_of_nil, lookup_empty.
      split; [done|]. intros [?|[? ?]]; set_solver.
    + by intros c ?%elem_of_nil.
    + intros id d Hid Hd. apply (proj1 (elem_of_Set_of _ _)) in Hid.
      apply Hspec in Hid as [_ Hnil].
      unfold depends_on in Hd. rewrite Hnil in Hd. by apply elem_of_nil in Hd.
    + by intros c d ?%elem_of_nil.
    + by intros c x ?%elem_of_nil.
    + intros _ ne. rewrite elem_of_nil. split; [done|].
      by intros (c & ?%elem_of_nil & _).
    + by intros ne ?%elem_of_nil.
    + constructor.
  - intros id Hid Hd. left. apply elem_of_Set_of, Hspec.
    split; [by rewrite (rn_order r Hr)|].
    destruct (DependencyMap.get deps id) as [|d l] eqn:Hg; [done|].
    destruct (Hd d) as [[Hc _] _]; [unfold depends_on; rewrite Hg; left|].
    simpl in Hc. set_solver.
Qed.

(** Every state of a run satisfies the invariant. *)
Lemma run_invariant status0 queue0 s0 schedule s :
  init r status0 queue0 = Returned s0 → exec r s0 schedule = Some s →
  invariant r s.
Proof. intros H0 He. eapply exec_invariant; [by eapply init_invariant|done]. Qed.

End run_steps.

(* ===================================================================== *)
(** ** The scheduler: every run ends *)
(* ===================================================================== *)

Lemma sum_list_fmap_le {A} (f g : A → nat) l :
  (∀ x, x ∈ l → f x ≤ g x) → sum_list (f <$> l) ≤ sum_list (g <$> l).
Proof.
  induction l as [|x l IH]; intros H; [done|].
  change (f x + sum_list (f <$> l) ≤ g x + sum_list (g <$> l)).
  assert (f x ≤ g x) by (apply H; left).
  assert (sum_list (f <$> l) ≤ sum_list (g <$> l))
    by (apply IH; intros; apply H; by right).
  lia.
Qed.

Lemma sum_list_fmap_lt {A} (f g : A → nat) l y :
  y ∈ l → (∀ x, x ∈ l → f x ≤ g x) → f y < g y →
  sum_list (f <$> l) < sum_list (g <$> l).
Proof.
  induction l as [|x l IH]; intros Hy H Hlt; [by apply elem_of_nil in Hy|].
  change (f x + sum_list (f <$> l) < g x + sum_list (g <$> l)).
  assert (f x ≤ g x) by (apply H; left).
  apply elem_of_cons in Hy as [->|Hy].
  - assert (sum_list (f <$> l) ≤ sum_list (g <$> l))
      by (apply sum_list_fmap_le; intros; apply H; by right).
    lia.
  - assert (sum_list (f <$> l) < sum_list (g <$> l))
      by (apply IH; [done| |done]; intros; apply H; by right).
    lia.
Qed.

Section termination.

Variable r : WorkflowRunner.t.
Hypothesis Hr : runnable r.

Local Notation nodes := (WorkflowRunner.nodes r).
Local Notation deps := (WorkflowRunner.nodeDependencies r).
Local Notation keys := (JsMap.keys (WorkflowRunner.nodes r)).

(** Unless the run is over, some continuation can run. *)
Lemma progress s :
  followed r →
  invariant r s → is_over s = false → ∃ e s', step r s e = Some s'.
Proof.
  intros Hf [[Hcs Hrc _] Hlp] Hover. unfold is_over in Hover.
  destruct (loop s) as [|ids| |] eqn:Hl; try done.
  { exists Resume. simpl. rewrite Hl. eauto. }
  destruct (map_choose_or_empty (running s)) as [(id & p & Hid)|Hempty].
  - pose proof (cs_running r _ _ Hcs _ _ Hid) as Hk.
    destruct (get_node r Hr id Hk) as (n & Hn & _).
    destruct p as [res|v|reason|].
    + exists (Settle id). simpl. rewrite Hid, Hn.
      destruct (rc_inrun r _ _ Hrc id res Hid) as [ctx Hc].
      destruct (rc_run r _ _ Hrc _ Hc) as (n' & Hn' & Hres). simpl in *.
      assert (n' = n) as -> by congruence.
      destruct (run_settles n ctx) as [out Hout].
      { apply (Hf id). by apply JsMap_get_Some. }
      rewrite Hres, Hout. eauto.
    + destruct (updateQueue s) as [|u rest] eqn:Hq.
      * exists (Continue id). simpl. rewrite Hid, Hn, Hq. simpl. eauto.
      * exists Apply. simpl. rewrite Hq. eauto.
    + exists (Continue id). simpl. rewrite Hid, Hn. eauto.
    + exists (Finish id). simpl. rewrite Hid. eauto.
  - exists Resume. simpl. rewrite Hl.
    destruct ids as [|id ids]; [by destruct (lp_racing r _ Hlp [] Hl)|].
    simpl. rewrite Hempty, lookup_empty.
    rewrite bool_decide_eq_true_2 by done. simpl. eauto.
Qed.

Lemma loop_pending_le s : loop_pending s ≤ 1.
Proof. unfold loop_pending. repeat case_match; lia. Qed.

Lemma remaining_node_step s s' id :
  id ∈ keys →
  (∀ k, k ≠ id → distance s' k = distance s k) →
  distance s' id < distance s id →
  remaining r s' < remaining r s.
Proof.
  intros Hid Hsame Hlt. unfold remaining.
  pose proof (loop_pending_le s').
  enough (sum_list (distance s' <$> keys) < sum_list (distance s <$> keys))
    by lia.
  apply (sum_list_fmap_lt _ _ _ id); [done| |done].
  intros k _. destruct (decide (k = id)) as [->|Hne]; [lia|].
  by rewrite Hsame.
Qed.

Lemma distance_notify s1 id n ev :
  id ∈ completed s1 →
  distance (notify r s1 id n ev) id ≤ 1
  ∧ ∀ k, k ≠ id → distance (notify r s1 id n ev) k = distance s1 k.
Proof.
  intros Hin.
  destruct (notify_fields r s1 id n ev)
    as (Eo & Eq & Es & Ec & Ee & El & Elp & Er & Er' & Ey & Ej).
  unfold distance. rewrite Eq, Ec. split.
  - destruct Er' as [-> | ->]; [|lia].
    rewrite bool_decide_eq_true_2 by done. lia.
  - intros k Hk. by rewrite Er.
Qed.

Lemma foldl_start_lookup l s k :
  (∀ id, id ∈ l → id ∈ keys) →
  (k ∉ l → running (foldl (start r) s l) !! k = running s !! k)
  ∧ (k ∈ l → ∃ res, running (foldl (start r) s l) !! k = Some (InRun res)).
Proof.
  revert s. induction l as [|id l IH]; intros s Hl; simpl.
  - split; [done|]. by intros ?%elem_of_nil.
  - destruct (IH (start r s id)) as [IH1 IH2]; [intros; apply Hl; by right|].
    assert (∃ res, running (start r s id) = <[id := InRun res]> (running s))
      as [res Hst].
    { unfold start. destruct (get_node r Hr id) as (n & -> & _);
        [apply Hl; left|]. eauto. }
    split.
    + intros [Hne Hk]%not_elem_of_cons. rewrite IH1 by done.
      by rewrite Hst, lookup_insert_ne.
    + intros Hk. destruct (decide (k ∈ l)) as [|Hnl]; [by apply IH2|].
      apply elem_of_cons in Hk as [->|?]; [|done].
      rewrite IH1 by done. rewrite Hst, lookup_insert_eq. eauto.
Qed.

Lemma iterate_fields s :
  invariant r s →
  let s' := iterate r s in
  completed s' = completed s ∧ updateQueue s' = updateQueue s
  ∧ (∀ k, k ∉ readyNodes s → running s' !! k = running s !! k)
  ∧ (∀ k, k ∈ readyNodes s →
       running s !! k = None ∧ k ∉ completed s
       ∧ (running s' !! k = None ∨ ∃ res, running s' !! k = Some (InRun res)))
  ∧ loop_pending s' = 0.
Proof.
  intros [[Hcs _ _] _].
  assert (∀ id, id ∈ readyNodes s → id ∈ keys) as Hready.
  { intros id Hid. by destruct (cs_ready r _ _ Hcs id Hid). }
  unfold iterate. case_match.
  - set (s0 := {| object := object s; updateQueue := updateQueue s;
                  queueRejected := queueRejected s;
                  status := status s; completed := completed s;
                  running := running s; readyNodes := [];
                  loop := loop s; errors := errors s; calls := calls s;
                  events := events s |}).
    assert (start_ready r s = foldl (start r) s0 (readyNodes s)) as Hsr by done.
    destruct (foldl_start_same r Hr (readyNodes s) s0 Hready) as (Ec & El & Eq).
    assert (∀ l, completed (set_loop (start_ready r s) l) = completed s
                 ∧ updateQueue (set_loop (start_ready r s) l) = updateQueue s
                 ∧ running (set_loop (start_ready r s) l)
                   = running (start_ready r s)) as Hset.
    { intros l. simpl. by rewrite Hsr, Ec, Eq. }
    assert (∀ k, k ∉ readyNodes s →
              running (start_ready r s) !! k = running s !! k) as H1.
    { intros k Hk. rewrite Hsr.
      by destruct (foldl_start_lookup (readyNodes s) s0 k Hready) as [-> _]. }
    assert (∀ k, k ∈ readyNodes s →
              running s !! k = None ∧ k ∉ completed s
              ∧ (running (start_ready r s) !! k = None
                 ∨ ∃ res, running (start_ready r s) !! k = Some (InRun res)))
      as H2.
    { intros k Hk. destruct (cs_ready r _ _ Hcs k Hk) as (_ & ? & ?).
      split_and!; [done..|]. right. rewrite Hsr.
      by destruct (foldl_start_lookup (readyNodes s) s0 k Hready) as [_ ?]; auto. }
    destruct (loop (start_ready r s)) eqn:Hl.
    1,2,3: case_match;
      [destruct (Hset (Racing (elements (dom (running (start_ready r s))))))
         as (-> & -> & ->)
      |destruct (Hset Exited) as (-> & -> & ->)];
      split_and!; try done; unfold loop_pending; simpl;
      [match goal with |- context [existsb ?f ?l] =>
         destruct (existsb f l) eqn:Hex; [|done] end;
       apply existsb_exists in Hex as (id & Hin%list_elem_of_In & Hb);
       apply bool_decide_eq_true in Hb;
       apply elem_of_elements, elem_of_dom in Hin as [? ?]; congruence..].
    rewrite Hsr, El in Hl. simpl in Hl.
    by destruct (cs_loop r _ _ Hcs e).
  - simpl. split_and!; try done.
    intros k Hk. destruct (cs_ready r _ _ Hcs k Hk) as (_ & ? & ?). auto.
Qed.

(** Every step brings the end of the run nearer. *)
Lemma step_remaining s e s' :
  invariant r s → step r s e = Some s' → remaining r s' < remaining r s.
Proof.
  intros Hinv. pose proof Hinv as [[Hcs Hrc _] _].
  destruct e as [|id| |id|id]; simpl.
  - intros Hstep.
    assert (s' = iterate r s ∧ loop_pending s = 1) as [-> Hlp].
    { unfold loop_pending. destruct (loop s); try done.
      - by injection Hstep as <-.
      - case_match; [|done]. by injection Hstep as <-. }
    destruct (iterate_fields s Hinv) as (Ec & Eq & H1 & H2 & Hlp').
    unfold remaining. rewrite Hlp, Hlp'.
    enough (sum_list (distance (iterate r s) <$> keys)
            ≤ sum_list (distance s <$> keys)) by lia.
    apply sum_list_fmap_le. intros k _. unfold distance. rewrite Ec, Eq.
    destruct (decide (k ∈ readyNodes s)) as [Hk|Hk].
    + destruct (H2 k Hk) as (-> & Hnc & [-> | [res ->]]); [done|].
      rewrite bool_decide_eq_false_2 by done. lia.
    + by rewrite H1.
  - destruct (running s !! id) as [[res| | |]|] eqn:Hid; try done.
    destruct (JsMap.get nodes id) as [n|] eqn:Hn; [|done].
    destruct (Node.settled res) as [out|] eqn:Hres; [|done]. intros [= <-].
    pose proof (cs_running r _ _ Hcs _ _ Hid) as Hk.
    assert (distance s id = 4) as Hd by (unfold distance; by rewrite Hid).
    apply (remaining_node_step _ _ id Hk); unfold settle, fail; rewrite Hres;
      destruct out as [v|err].
    + intros k Hne. unfold distance. simpl. rewrite lookup_insert_ne by done.
      destruct (running s !! k) as [[]|]; try done.
      rewrite fmap_app. simpl.
      repeat case_bool_decide; try done; exfalso;
        rewrite elem_of_app, list_elem_of_singleton in *; naive_solver.
    + match goal with |- context [notify r ?s1 id n ?ev] =>
        destruct (distance_notify s1 id n ev) as [_ Hsame]; [simpl; set_solver|]
      end.
      intros k Hne. rewrite Hsame by done. unfold distance. simpl.
      destruct (running s !! k) as [[]|] eqn:Hrk; try done.
      repeat case_bool_decide; try done; exfalso; set_solver.
    + rewrite Hd. unfold distance. simpl. rewrite lookup_insert_eq.
      case_match; lia.
    + match goal with |- context [notify r ?s1 id n ?ev] =>
        destruct (distance_notify s1 id n ev) as [Hle _]; [simpl; set_solver|]
      end. lia.
  - destruct (updateQueue s) as [|[id v] rest] eqn:Hq; [done|].
    intros [= <-].
    assert (running s !! id = Some (InUpdate v)) as Hid.
    { apply (cs_queue r _ _ Hcs). rewrite Hq. left. }
    pose proof (cs_running r _ _ Hcs _ _ Hid) as Hk.
    pose proof (cs_queue_NoDup r _ _ Hcs) as Hnd. rewrite Hq in Hnd.
    simpl in Hnd. apply NoDup_cons in Hnd as [Hnin _].
    assert (∀ reason, remaining r (reject_update s id rest reason)
                      < remaining r s) as Hrej.
    { intros reason. apply (remaining_node_step _ _ id Hk).
      - intros k Hne. unfold distance. simpl. rewrite Hq. simpl.
        rewrite lookup_insert_ne by done.
        destruct (running s !! k) as [[]|]; try done.
        repeat case_bool_decide; try done; exfalso;
          rewrite elem_of_cons in *; naive_solver.
      - unfold distance. simpl. rewrite lookup_insert_eq, Hid, Hq. simpl.
        rewrite bool_decide_eq_true_2 by left. lia. }
    unfold apply_update. simpl.
    destruct (queueRejected s); [apply Hrej|].
    destruct (Context.update (object s) id v); [|apply Hrej].
    apply (remaining_node_step _ _ id Hk).
    + intros k Hne. unfold distance. simpl. rewrite Hq. simpl.
      destruct (running s !! k) as [[]|]; try done.
      repeat case_bool_decide; try done; exfalso;
        rewrite elem_of_cons in *; naive_solver.
    + unfold distance. simpl. rewrite Hid, Hq. simpl.
      rewrite bool_decide_eq_false_2 by done.
      rewrite bool_decide_eq_true_2 by left. lia.
  - destruct (running s !! id) as [[res|v|reason|]|] eqn:Hid; try done.
    + destruct (JsMap.get nodes id) as [n|]; [|done].
      case_bool_decide as Hnq; [done|]. intros [= <-].
      pose proof (cs_running r _ _ Hcs _ _ Hid) as Hk.
      assert (id ∉ completed s) as Hnc.
      { intros Hin. apply (cs_phase r _ _ Hcs) in Hid. naive_solver. }
      unfold continue.
      match goal with |- context [notify r ?s1 id n ?ev] =>
        destruct (distance_notify s1 id n ev) as [Hle Hsame];
          [simpl; set_solver|]
      end.
      apply (remaining_node_step _ _ id Hk).
      * intros k Hne. rewrite Hsame by done. unfold distance. simpl.
        destruct (running s !! k) as [[]|] eqn:Hrk; try done.
        repeat case_bool_decide; try done; exfalso; set_solver.
      * assert (distance s id = 2) as ->; [|lia].
        unfold distance. rewrite Hid. by rewrite bool_decide_eq_false_2.
    + destruct (JsMap.get nodes id) as [n|]; [|done]. intros [= <-].
      pose proof (cs_running r _ _ Hcs _ _ Hid) as Hk.
      assert (id ∉ completed s) as Hnc.
      { intros Hin. apply (cs_phase r _ _ Hcs) in Hid. naive_solver. }
      unfold fail.
      match goal with |- context [notify r ?s1 id n ?ev] =>
        destruct (distance_notify s1 id n ev) as [Hle Hsame];
          [simpl; set_solver|]
      end.
      apply (remaining_node_step _ _ id Hk).
      * intros k Hne. rewrite Hsame by done. unfold distance. simpl.
        destruct (running s !! k) as [[]|] eqn:Hrk; try done.
        repeat case_bool_decide; try done; exfalso; set_solver.
      * assert (distance s id = 2) as ->; [|lia].
        unfold distance. by rewrite Hid.
  - destruct (running s !! id) as [[res|v|reason|]|] eqn:Hid; try done.
    intros [= <-].
    pose proof (cs_running r _ _ Hcs _ _ Hid) as Hk.
    assert (id ∈ completed s) as Hin.
    { apply (cs_phase r _ _ Hcs) in Hid. naive_solver. }
    apply (remaining_node_step _ _ id Hk).
    + intros k Hne. unfold distance. simpl. by rewrite lookup_delete_ne.
    + unfold distance. simpl. rewrite lookup_delete_eq, Hid.
      rewrite bool_decide_eq_true_2 by done. lia.
Qed.

(** No schedule is longer than the bound of the state it starts in. *)
Lemma exec_bounded schedule s s' :
  invariant r s → exec r s schedule = Some s' →
  length schedule + remaining r s' ≤ remaining r s.
Proof.
  revert s. induction schedule as [|e schedule IH]; intros s Hs; simpl.
  - intros [= <-]. lia.
  - destruct (step r s e) as [s1|] eqn:He; [|done]. intros Hx.
    pose proof (step_remaining _ _ _ Hs He).
    pose proof (IH s1 (step_invariant r Hr _ _ _ Hs He) Hx). lia.
Qed.

(** Every state of a run can be continued to the end of the run. *)
Lemma exec_completes s :
  followed r →
  invariant r s → ∃ schedule s', exec r s schedule = Some s' ∧ is_over s' = true.
Proof.
  intros Hf. remember (remaining r s) as n eqn:Hn. revert s Hn.
  induction n as [n IH] using lt_wf_ind. intros s -> Hs.
  destruct (is_over s) eqn:Hover; [by exists [], s|].
  destruct (progress s Hf Hs Hover) as (e & s1 & He).
  destruct (IH (remaining r s1) (step_remaining _ _ _ Hs He) s1 eq_refl)
    as (schedule & s' & Hx & Hend);
    [by eapply step_invariant|].
  exists (e :: schedule), s'. simpl. by rewrite He.
Qed.

End termination.

(* ===================================================================== *)
(** ** [trigger]: what a run delivers *)
(* ===================================================================== *)

Lemma runner_of_built w hook w' r :
  constructed w → Workflow.build w hook = Ran (Ok (w', r)) →
  runner_of w hook = r ∧ built r.
Proof.
  intros Hc Hb. unfold runner_of. rewrite Hb. split; [done|].
  by exists w, hook, w'.
Qed.

Section delivery.

Variable r : WorkflowRunner.t.
Hypothesis Hb : built r.

Local Notation nodes := (WorkflowRunner.nodes r).
Local Notation deps := (WorkflowRunner.nodeDependencies r).
Local Notation keys := (JsMap.keys (WorkflowRunner.nodes r)).

Local Notation Hr := (built_runnable r Hb).

Lemma trigger_final status0 queue0 schedule t s :
  trigger r status0 queue0 schedule = Some t → final t = Some s →
  ∃ s0, init r status0 queue0 = Returned s0 ∧ exec r s0 schedule = Some s
        ∧ is_over s = true ∧ t = conclude r s.
Proof.
  unfold trigger.
  destruct (init r status0 queue0) as [s0|x]; [|intros [= <-]; simpl; done].
  destruct (exec r s0 schedule) as [s'|] eqn:He; [|done].
  destruct (is_over s') eqn:Hover; [|done]. intros [= <-] Hf.
  assert (final (conclude r s') = Some s') as Hs'.
  { unfold conclude. by repeat case_match. }
  rewrite Hs' in Hf. injection Hf as <-. by exists s0.
Qed.

Lemma over_exited s : invariant r s → is_over s = true → loop s = Exited.
Proof.
  intros [[Hcs _ _] _]. unfold is_over.
  destruct (loop s) eqn:Hl; try done. by destruct (cs_loop r _ _ Hcs e).
Qed.

Lemma init_built status0 queue0 :
  match seed r with
  | Returned o =>
      ∃ s0, init r status0 queue0 = Returned s0 ∧ object s0 = o
            ∧ queueRejected s0 = queue0
  | Threw x => init r status0 queue0 = Threw x
  end.
Proof.
  unfold init.
  assert (length (WorkflowRunner.topologicalOrder r) ≠ 0) as Hlen.
  { rewrite (rn_order r Hr). unfold JsMap.keys. rewrite length_fmap.
    pose proof (rn_nonempty r Hr). by destruct nodes. }
  destruct (Nat.eqb_spec (length (WorkflowRunner.topologicalOrder r)) 0)
    as [Hz|Hnz]; [done|].
  destruct (seed r) as [o|x]; [|done].
  assert (∀ ids, (∀ id, id ∈ ids → id ∈ keys) →
            ∃ ready, initial_ready r ids = Ok ready) as Hready.
  { induction ids as [|x ids IH]; intros Hin; simpl; [eauto|].
    destruct (get_node r Hr x) as (n & -> & _); [apply Hin; left|].
    destruct IH as [ready ->]; [intros; apply Hin; by right|]. simpl. eauto. }
  destruct (Hready (WorkflowRunner.topologicalOrder r)) as [ready ->].
  { intros id. by rewrite (rn_order r Hr). }
  eauto.
Qed.

(** After the loop, [conclude] is reached with the loop exited. *)
Lemma conclude_exited s :
  loop s = Exited →
  let errs := if (0 <? length (errors s))%nat then Some (errors s) else None in
  match WorkflowRunner.onNodesCompleted r with
  | IsFun hook =>
      hookCalls (conclude r s) = [(object s, errs)]
      ∧ promise (conclude r s)
        = match hook (object s) errs with
          | Returned _ => Returned (object s)
          | Threw x => Threw x
          end
  | NotFun _ =>
      hookCalls (conclude r s) = []
      ∧ promise (conclude r s) = Returned (object s)
  end.
Proof.
  intros Hl. unfold conclude. rewrite Hl.
  destruct (rn_hook r Hr) as [Hh|Hh];
    destruct (WorkflowRunner.onNodesCompleted r) as [hook|v]; simpl in *;
    try done. by rewrite Hh.
Qed.

Lemma promise_object s c :
  loop s = Exited → promise (conclude r s) = Returned c → c = object s.
Proof.
  intros Hl. pose proof (conclude_exited s Hl) as Hc. simpl in Hc.
  destruct (WorkflowRunner.onNodesCompleted r) as [hook|v].
  - destruct Hc as [_ ->]. destruct (hook _ _); [|done]. by intros [= <-].
  - destruct Hc as [_ ->]. by intros [= <-].
Qed.

(** At the end of a run, a node has finished when every call of [run] for
    it and for what it depends on left the status [completed]. *)
Lemma exited_unobstructed s Z :
  invariant r s → loop s = Exited → Z ∈ keys → unobstructed r s Z →
  Z ∈ completed s.
Proof.
  intros Hinv Hl. pose proof Hinv as [[Hcs Hrc Hcu] Hlp].
  destruct (lp_exited r _ Hlp Hl) as [Hready [Hempty|Hall]]; [|auto].
  intros [j Hj]%list_elem_of_lookup. revert Z Hj.
  induction j as [j IH] using lt_wf_ind. intros Z Hj Hun.
  assert (Z ∈ keys) as HZ by (apply list_elem_of_lookup; eauto).
  destruct (Hcu Z HZ) as [Hin|[?|[p Hp]]]; [|by rewrite Hready in Hin; apply elem_of_nil in Hin|done|by rewrite Hempty, lookup_empty in Hp].
  intros d Hd. destruct (rn_edges r Hr Z d Hd) as (i & Hi & Hlt).
  assert (unobstructed r s d) as Hund.
  { intros c Hc [Heq|Hk]; apply (Hun c Hc); right.
    - rewrite Heq. by apply tc_once.
    - by eapply tc_l. }
  pose proof (IH i (Hlt j Hj) d Hi Hund) as Hdc.
  split; [|by rewrite Hempty, lookup_empty]. split; [done|].
  assert (d ∈ call_id <$> calls s) as (c & -> & Hc)%list_elem_of_fmap
    by (apply (rc_called r _ _ Hrc); by left).
  apply (rc_status r _ _ Hrc c); [done| |by left].
  apply Hund; [done|by left].
Qed.

Lemma completed_unobstructed s Z :
  invariant r s → Z ∈ completed s → unobstructed r s Z →
  ∃ c v, c ∈ calls s ∧ call_id c = Z
    ∧ 0 < Node.executeCalls (call_result c)
    ∧ Node.settled (call_result c) = Some (Returned v)
    ∧ status_of (status s) Z = NodeStatus.completed
    ∧ (queueRejected s = None → object s !! Z = Some v).
Proof.
  intros [[Hcs Hrc Hcu] Hlp] HZ Hun.
  assert (Z ∈ call_id <$> calls s) as (c & -> & Hc)%list_elem_of_fmap
    by (apply (rc_called r _ _ Hrc); by left).
  destruct (rc_run r _ _ Hrc c Hc) as (n & Hn & Hres).
  assert (Node.status (call_result c) = Some NodeStatus.completed) as Hst.
  { apply Hun; [done|by left]. }
  pose proof Hst as Hst'. rewrite Hres in Hst'.
  apply run_status in Hst' as (v & Hv & Hpos). rewrite <- Hres in Hv, Hpos.
  exists c, v. split_and!; try done.
  - apply (rc_status r _ _ Hrc c); [done..|by left].
  - intros Hj. by apply (rc_result r _ _ Hrc Hj c).
Qed.

Lemma failed_blocks s X Y :
  invariant r s → failed_in s X → depends_on deps Y X → Y ∈ keys →
  (∀ c, c ∈ calls s → call_id c ≠ Y) ∧ object s !! Y = None.
Proof.
  intros [[Hcs Hrc Hcu] Hlp] (cx & t & Hcx & <- & Hf & Ht) Hd HY.
  assert (∀ c, c ∈ calls s → call_id c ≠ Y) as Hnot.
  { intros c Hc <-.
    destruct (rc_deps r _ _ Hrc c (call_id cx) Hc Hd) as [Hin Hst].
    pose proof (rc_status r _ _ Hrc cx _ Hcx Hf (or_introl Hin)). congruence. }
  split; [done|].
  destruct (object s !! Y) as [v|] eqn:Ho; [|done]. exfalso.
  assert (Y ∈ call_id <$> calls s) as (c & -> & Hc)%list_elem_of_fmap.
  { apply (rc_called r _ _ Hrc).
    destruct (cs_object r _ _ Hcs Y) as [->|[?|(v' & Hv' & _)]]; [eauto| | |].
    - by destruct (rn_initial r Hr).
    - by left.
    - right. eauto. }
  by eapply Hnot.
Qed.

End delivery.

(** C2 (counterexample): X fails and Y lists X among its dependencies; Z
    has no dependencies and fails too.  Z has no dependency path to X, its
    [execute] is invoked, and the final context has no key Z. *)
Lemma independent_failure_leaves_no_key : ¬ independent_nodes_always_appear.
Proof.
  intros H.
  set (r := runner_of two_failures no_hook).
  set (schedule := [Resume; Settle "X"; Settle "Z"; Resume]).
  assert (built r) as Hb.
  { eapply (runner_of_built two_failures no_hook).
    - unfold two_failures. repeat apply constructed_addNode.
      by apply (constructed_new None).
    - vm_compute. reflexivity. }
  destruct (trigger r ∅ None schedule) as [t|] eqn:Ht;
    [|vm_compute in Ht; discriminate Ht].
  destruct (final t) as [s|] eqn:Hs;
    [|vm_compute in Ht; injection Ht as <-; discriminate Hs].
  destruct (H r ∅ None schedule t s "X" "Y" "Z" Hb Ht Hs) as [_ [v Hv]].
  - vm_compute in Ht. injection Ht as <-. injection Hs as <-.
    eexists _, _. split_and!; [left|reflexivity..].
  - vm_compute. left.
  - vm_compute. repeat first [apply list_elem_of_here|apply list_elem_of_further].
  - vm_compute. repeat first [apply list_elem_of_here|apply list_elem_of_further].
  - done.
  - intros Hp.
    assert (∀ b, ¬ depends_on (WorkflowRunner.nodeDependencies r) "Z" b) as He.
    { intros b Hab. vm_compute in Hab. by apply elem_of_nil in Hab. }
    inversion Hp; subst; by eapply He.
  - vm_compute in Ht. injection Ht as <-. injection Hs as <-.
    vm_compute in Hv. discriminate Hv.
Qed.

(* ===================================================================== *)
(** ** [trigger]: the end of a run *)
(* ===================================================================== *)

Section outcome.

Variable r : WorkflowRunner.t.
Hypothesis Hb : built r.

Local Notation nodes := (WorkflowRunner.nodes r).
Local Notation deps := (WorkflowRunner.nodeDependencies r).
Local Notation keys := (JsMap.keys (WorkflowRunner.nodes r)).

Local Notation Hr := (built_runnable r Hb).

Lemma call_registered s c : invariant r s → c ∈ calls s → call_id c ∈ keys.
Proof.
  intros [[_ Hrc _] _] Hc. destruct (rc_run r _ _ Hrc c Hc) as (n & Hn & _).
  apply JsMap_get_is_Some. eauto.
Qed.

Lemma exited_call_completed s c :
  invariant r s → loop s = Exited → c ∈ calls s → call_id c ∈ completed s.
Proof.
  intros Hinv Hl Hc. pose proof Hinv as [[_ Hrc _] Hlp].
  destruct (lp_exited r _ Hlp Hl) as [_ [Hempty|Hall]].
  - assert (call_id c ∈ call_id <$> calls s) as Hin
      by (apply list_elem_of_fmap; eauto).
    apply (rc_called r _ _ Hrc) in Hin as [?|[p Hp]]; [done|].
    by rewrite Hempty, lookup_empty in Hp.
  - apply Hall. by eapply call_registered.
Qed.

(** The error list at the end of a run in which no update of the context
    was rejected: one entry for each node whose [run] was rejected with an
    [Error], holding that error. *)
Lemma exited_errors s :
  invariant r s → loop s = Exited →
  (queueRejected s = None →
   ∀ ne, ne ∈ errors s ↔
     ∃ c, c ∈ calls s ∧ call_id c = ne_id ne
          ∧ Node.settled (call_result c)
            = Some (Threw (ThrowError (ne_error ne))))
  ∧ NoDup (ne_id <$> errors s).
Proof.
  intros Hinv Hl. pose proof Hinv as [[_ Hrc _] _].
  split; [|apply (rc_errors_NoDup r _ _ Hrc)].
  intros Hj ne. rewrite (rc_errors r _ _ Hrc Hj). split.
  - intros (c & Hc & _ & Ht & Hid). eauto.
  - intros (c & Hc & Hid & Ht). exists c. split_and!; try done.
    by apply exited_call_completed.
Qed.

(** A node with [enabled: false] is not executed, and neither is a node
    that depends on it, directly or not. *)
Lemma disabled_blocks s D n :
  invariant r s → JsMap.get nodes D = Some n →
  NodeOptions.enabled (Node.options n) = Some (EnabledBool false) →
  ¬ executed_in s D
  ∧ ∀ Y, depends_transitively deps Y D → Y ∈ keys →
      (∀ c, c ∈ calls s → call_id c ≠ Y) ∧ object s !! Y = None.
Proof.
  intros Hinv Hn Hen. pose proof Hinv as [[Hcs Hrc _] _].
  assert (∀ ctx, Node.run n ctx
            = {| Node.status := Some NodeStatus.skipped;
                 Node.settled := Some (Returned JNull);
                 Node.executeCalls := 0; Node.handled := [] |}) as Hrun.
  { intros ctx. apply run_disabled. unfold Node.isEnabled. by rewrite Hen. }
  assert (¬ succeeded s D) as Hnot.
  { intros [Hin Hst].
    assert (D ∈ call_id <$> calls s) as (c & -> & Hc)%list_elem_of_fmap
      by (apply (rc_called r _ _ Hrc); by left).
    destruct (rc_run r _ _ Hrc c Hc) as (n' & Hn' & Hres).
    assert (n' = n) as -> by congruence.
    pose proof (rc_status r _ _ Hrc c NodeStatus.skipped Hc) as Hs.
    rewrite Hres, Hrun in Hs. specialize (Hs eq_refl (or_introl Hin)).
    congruence. }
  split.
  - intros (c & Hc & <- & Hpos).
    destruct (rc_run r _ _ Hrc c Hc) as (n' & Hn' & Hres).
    assert (n' = n) as -> by congruence.
    rewrite Hres, Hrun in Hpos. simpl in Hpos. lia.
  - assert (∀ Y, depends_transitively deps Y D →
              ∀ c, c ∈ calls s → call_id c ≠ Y) as Hcalls.
    { intros Y Hp. unfold depends_transitively in Hp.
      induction Hp as [Y D Hd|Y Z D Hd Hp IH]; intros c Hc <-.
      - by apply Hnot, (rc_deps r _ _ Hrc c).
      - destruct (rc_deps r _ _ Hrc c Z Hc Hd) as [Hin _].
        assert (Z ∈ call_id <$> calls s) as (c' & Hid & Hc')%list_elem_of_fmap
          by (apply (rc_called r _ _ Hrc); by left).
        by apply (IH Hn Hnot c' Hc'). }
    intros Y Hp HY. split; [by apply Hcalls|].
    destruct (object s !! Y) as [v|] eqn:Ho; [|done]. exfalso.
    assert (Y ∈ call_id <$> calls s) as (c & -> & Hc)%list_elem_of_fmap.
    { apply (rc_called r _ _ Hrc).
      destruct (cs_object r _ _ Hcs Y) as [->|[?|(v' & Hv' & _)]]; [eauto| | |].
      - by destruct (rn_initial r Hr).
      - by left.
      - right. eauto. }
    by eapply Hcalls.
Qed.

Lemma trigger_exists status0 queue0 :
  followed r → ∃ schedule t, trigger r status0 queue0 schedule = Some t.
Proof.
  intros Hf. unfold trigger. pose proof (init_built r Hb status0 queue0) as Hi.
  destruct (seed r) as [o|x].
  - destruct Hi as (s0 & H0 & _). rewrite H0.
    destruct (exec_completes r Hr s0 Hf) as (schedule & s' & He & Hover);
      [by eapply (init_invariant r Hr)|].
    exists schedule. rewrite He, Hover. eauto.
  - rewrite Hi. exists []. eauto.
Qed.

End outcome.

(** C1: on the workflow of the test "disabled node is skipped" (one node,
    [enabled: false]), [trigger] starts the node: [execute] is not invoked,
    [run] resolves to [null] with the status [skipped], and the final
    context holds the key of the disabled node with the value [null]. *)
Theorem disabled_node_key_in_final_context :
  let r := runner_of disabled_only no_hook in
  ∃ t s c,
    trigger r ∅ None one_node_schedule = Some t
    ∧ final t = Some s
    ∧ calls s = [c] ∧ call_id c = "node1"
    ∧ Node.executeCalls (call_result c) = 0
    ∧ Node.status (call_result c) = Some NodeStatus.skipped
    ∧ promise t = Returned (object s)
    ∧ Context.reset JUndefined = Returned {[ "initial" := JUndefined ]}
    ∧ object s = <["node1" := JNull]> {[ "initial" := JUndefined ]}
    ∧ object s !! "node1" = Some JNull.
Proof.
  simpl. eexists _, _, _. split; [vm_compute; reflexivity|].
  split; [reflexivity|]. split; [reflexivity|].
  split_and!; try reflexivity.
Qed.

(* ===================================================================== *)
(** ** [trigger]: the properties of the specification *)
(* ===================================================================== *)

(** C2 (amended): when the [run] of node X failed after its last attempt
    and Y lists X among its dependencies, [execute] of Y is not invoked and
    the final context has no key Y; and every node that in this run is
    enabled and succeeds, as does every node it depends on directly or
    not, has its [execute] invoked and its [run] resolved, and the result
    is under its id in the final context when no update of the context was
    rejected; the final context is what [trigger] resolves to. *)
Theorem failure_blocks_only_dependents r status0 queue0 schedule t s X Y :
  built r → trigger r status0 queue0 schedule = Some t → final t = Some s →
  failed_in s X →
  depends_on (WorkflowRunner.nodeDependencies r) Y X →
  Y ∈ JsMap.keys (WorkflowRunner.nodes r) →
  (¬ executed_in s Y ∧ object s !! Y = None)
  ∧ (∀ Z, Z ∈ JsMap.keys (WorkflowRunner.nodes r) → unobstructed r s Z →
       ∃ c v, c ∈ calls s ∧ call_id c = Z
         ∧ 0 < Node.executeCalls (call_result c)
         ∧ Node.settled (call_result c) = Some (Returned v)
         ∧ (queueRejected s = None → object s !! Z = Some v))
  ∧ (∀ c, promise t = Returned c → c = object s).
Proof.
  intros Hb Ht Hs Hx Hd HY.
  destruct (trigger_final r _ _ _ _ _ Ht Hs) as (s0 & H0 & He & Hover & ->).
  pose proof (run_invariant r (built_runnable r Hb) _ _ _ _ _ H0 He) as Hinv.
  pose proof (over_exited r s Hinv Hover) as Hl.
  destruct (failed_blocks r Hb s X Y Hinv Hx Hd HY) as [Hcalls Ho].
  split; [|split].
  - split; [|done]. intros (c & Hc & Hid & _). by eapply Hcalls.
  - intros Z HZ Hun.
    pose proof (exited_unobstructed r Hb s Z Hinv Hl HZ Hun) as Hin.
    destruct (completed_unobstructed r s Z Hinv Hin Hun)
      as (c & v & ? & ? & ? & ? & ? & ?).
    by exists c, v.
  - intros c. by apply promise_object.
Qed.

Lemma failing_branch_built : built (runner_of failing_branch quiet_hook).
Proof.
  eapply (runner_of_built failing_branch quiet_hook).
  - unfold failing_branch. repeat apply constructed_addNode.
    by apply (constructed_new None).
  - vm_compute. reflexivity.
Qed.

Lemma failure_blocks_only_dependents_witness :
  ∃ t s, trigger (runner_of failing_branch quiet_hook) ∅ None
           failing_branch_schedule = Some t
    ∧ final t = Some s
    ∧ failed_in s "X"
    ∧ (¬ executed_in s "Y" ∧ object s !! "Y" = None)
    ∧ object s !! "Z" = Some (JStr "z").
Proof.
  set (r := runner_of failing_branch quiet_hook).
  destruct (trigger r ∅ None failing_branch_schedule) as [t|] eqn:Ht;
    [|vm_compute in Ht; discriminate Ht].
  destruct (final t) as [s|] eqn:Hs;
    [|vm_compute in Ht; injection Ht as <-; discriminate Hs].
  assert (failed_in s "X") as Hx.
  { vm_compute in Ht. injection Ht as <-. injection Hs as <-.
    eexists _, _. split_and!; [left|reflexivity..]. }
  assert (depends_on (WorkflowRunner.nodeDependencies r) "Y" "X") as Hd
    by (vm_compute; left).
  assert ("Y" ∈ JsMap.keys (WorkflowRunner.nodes r)) as HY
    by (vm_compute;
        repeat first [apply list_elem_of_here|apply list_elem_of_further]).
  destruct (failure_blocks_only_dependents r ∅ None failing_branch_schedule
              t s "X" "Y" failing_branch_built Ht Hs Hx Hd HY)
    as (HnY & HZ & _).
  destruct (HZ "Z") as (c & v & _ & _ & _ & _ & Ho).
  - vm_compute. repeat first [apply list_elem_of_here|apply list_elem_of_further].
  - intros c Hc [Hid|Hp].
    + clear - Ht Hs Hc Hid.
      vm_compute in Ht. injection Ht as <-. injection Hs as <-.
      cbn [calls] in Hc.
      repeat (apply elem_of_cons in Hc as [->|Hc];
              [first [reflexivity|discriminate Hid]|]).
      by apply elem_of_nil in Hc.
    + exfalso. inversion Hp as [? ? Hz|? z ? Hz]; subst;
        vm_compute in Hz; by apply elem_of_nil in Hz.
  - assert (queueRejected s = None) as Hj.
    { clear - Ht Hs. vm_compute in Ht. injection Ht as <-.
      by injection Hs as <-. }
    specialize (Ho Hj). exists t, s.
    split; [reflexivity|]. split; [exact Hs|]. split; [exact Hx|].
    split; [exact HnY|]. rewrite Ho. f_equal. clear - Ht Hs Ho.
    vm_compute in Ht. injection Ht as <-. injection Hs as <-.
    vm_compute in Ho. by injection Ho as <-.
Defined.

(** C8: X fails, Y depends on X, Z stands alone, and the overall completion
    hook throws.  The failure of X is recorded in the error list and the
    hook is invoked once with the final context and that list, but
    [trigger] does not resolve: it rejects with what the hook threw. *)
Theorem throwing_hook_rejects_trigger :
  let r := runner_of failing_branch throwing_hook in
  ∃ t s ne,
    trigger r ∅ None failing_branch_schedule = Some t
    ∧ final t = Some s
    ∧ failed_in s "X"
    ∧ errors s = [ne] ∧ ne_id ne = "X" ∧ ne_error ne = Error "X failed"
    ∧ hookCalls t = [(object s, Some (errors s))]
    ∧ promise t = Threw (ThrowError (Error "hook failed")).
Proof.
  simpl. eexists _, _, _. split; [vm_compute; reflexivity|].
  split; [reflexivity|]. split.
  { eexists _, _. split_and!; [left|reflexivity..]. }
  split_and!; reflexivity.
Qed.

(** C10 (counterexample): a context factory that resolves to [0] sets the
    initial key of the final context to [0]. *)
Lemma factory_zero_is_kept : ¬ falsy_seed_leaves_initial_undefined.
Proof.
  intros H.
  set (r := runner_of factory_zero no_hook).
  assert (built r) as Hb.
  { eapply (runner_of_built factory_zero no_hook).
    - unfold factory_zero. apply constructed_addNode.
      by apply (constructed_new
        (Some {| Workflow.contextValue := None;
                 Workflow.contextFactory := Some (IsFun (Returned (int 0))) |})).
    - vm_compute. reflexivity. }
  destruct (trigger r ∅ None one_node_schedule) as [t|] eqn:Ht;
    [|vm_compute in Ht; discriminate Ht].
  destruct (promise t) as [c|x] eqn:Hp;
    [|vm_compute in Ht; injection Ht as <-; discriminate Hp].
  assert (c !! "initial" = Some JUndefined) as Hc.
  { eapply (H r ∅ None one_node_schedule t c (int 0) Hb);
      [done|by right|done..]. }
  vm_compute in Ht. injection Ht as <-. injection Hp as <-.
  vm_compute in Hc. discriminate Hc.
Qed.

Lemma reset_Returned v o :
  Context.reset v = Returned o →
  o = {[ "initial" := match v with JNull => JUndefined | _ => v end ]}.
Proof.
  unfold Context.reset.
  destruct v; try (by intros [= <-]); simpl;
    (destruct freezing; [done|by intros [= <-]]).
Qed.

(** C10 (amended): [Context.reset] maps [null], like [undefined], to
    [{ initial: undefined }].  In the final context that [trigger] of a
    built workflow resolves to, the initial key is [undefined] when the
    context value of the runner is falsy, the value itself when it is
    truthy, and, with a context factory, the value the factory resolves
    to, falsy or not, except that [null] becomes [undefined]. *)
Theorem context_seeding r status0 queue0 schedule t c :
  built r → trigger r status0 queue0 schedule = Some t →
  promise t = Returned c →
  Context.reset JNull = Context.reset JUndefined
  ∧ match WorkflowRunner.contextValueOrFactory r with
    | NotFun v => c !! "initial" = Some (if truthy v then v else JUndefined)
    | IsFun (Returned v) =>
        c !! "initial" = Some (match v with JNull => JUndefined | _ => v end)
    | IsFun (Threw _) => False
    end.
Proof.
  intros Hb Ht Hp. split; [done|].
  pose proof (init_built r Hb status0 queue0) as Hi.
  unfold trigger in Ht.
  destruct (seed r) as [o|x] eqn:Hseed.
  2:{ rewrite Hi in Ht. injection Ht as <-. discriminate Hp. }
  assert (o ⊆ c) as Hsub.
  { destruct Hi as (s0 & H0 & <- & _). rewrite H0 in Ht.
    destruct (exec r s0 schedule) as [s|] eqn:He; [|done].
    destruct (is_over s) eqn:Hover; [|done]. injection Ht as <-.
    pose proof (run_invariant r (built_runnable r Hb) _ _ _ _ _ H0 He) as Hinv.
    pose proof (over_exited r s Hinv Hover) as Hl.
    apply (promise_object r Hb s c Hl) in Hp as ->.
    eapply (exec_object_grows r (built_runnable r Hb)); [|exact He].
    by eapply (init_consistent r (built_runnable r Hb)). }
  unfold seed in Hseed.
  destruct (WorkflowRunner.contextValueOrFactory r) as [[v|x]|v]; simpl in *.
  - apply reset_Returned in Hseed as ->.
    eapply lookup_weaken; [|exact Hsub]. by rewrite lookup_singleton_eq.
  - done.
  - destruct (truthy v) eqn:Hv.
    + apply reset_Returned in Hseed as ->.
      eapply lookup_weaken; [|exact Hsub]. rewrite lookup_singleton_eq.
      by destruct v.
    + injection Hseed as <-. eapply lookup_weaken; [|exact Hsub].
      unfold idle_object. by rewrite lookup_singleton_eq.
Qed.

Lemma context_seeding_witness :
  ∃ t c, Workflow.new
           (Some {| Workflow.contextValue := Some (NotFun (int 0));
                    Workflow.contextFactory := None |})
         = Ok (Workflow.with_context (NotFun (int 0)))
    ∧ trigger (runner_of value_zero no_hook) ∅ None one_node_schedule = Some t
    ∧ promise t = Returned c
    ∧ c !! "initial" = Some JUndefined.
Proof.
  set (r := runner_of value_zero no_hook).
  assert (built r) as Hb.
  { eapply (runner_of_built value_zero no_hook).
    - unfold value_zero. apply constructed_addNode.
      by apply (constructed_new
        (Some {| Workflow.contextValue := Some (NotFun (int 0));
                 Workflow.contextFactory := None |})).
    - vm_compute. reflexivity. }
  destruct (trigger r ∅ None one_node_schedule) as [t|] eqn:Ht;
    [|vm_compute in Ht; discriminate Ht].
  destruct (promise t) as [c|x] eqn:Hp;
    [|vm_compute in Ht; injection Ht as <-; discriminate Hp].
  destruct (context_seeding r ∅ None one_node_schedule t c Hb Ht Hp) as [_ H].
  assert (WorkflowRunner.contextValueOrFactory r = NotFun (int 0)) as E
    by reflexivity.
  rewrite E in H. clear E.
  exists t, c. split; [reflexivity|]. split; [reflexivity|].
  split; [exact Hp|exact H].
Defined.

Lemma hooked_built : built (runner_of hooked no_hook).
Proof.
  eapply (runner_of_built hooked no_hook).
  - unfold hooked. repeat apply constructed_addNode.
    by apply (constructed_new None).
  - vm_compute. reflexivity.
Qed.

Lemma snapshots_only_grow_witness :
  ∃ s0 s e1 e2,
    init (runner_of hooked no_hook) ∅ None = Returned s0
    ∧ exec (runner_of hooked no_hook) s0 hooked_schedule = Some s
    ∧ events s = [e1; e2]
    ∧ ev_context e1 !! "A" = Some (int 1)
    ∧ ev_context e2 !! "A" = Some (int 1).
Proof.
  set (r := runner_of hooked no_hook).
  destruct (init r ∅ None) as [s0|] eqn:H0; [|vm_compute in H0; discriminate H0].
  destruct (exec r s0 hooked_schedule) as [s|] eqn:He.
  2:{ vm_compute in H0. injection H0 as <-. vm_compute in He.
      discriminate He. }
  destruct (snapshots_only_grow r ∅ None s0 hooked_schedule s hooked_built H0 He)
    as (Hgrow & _ & _).
  assert (∃ e1 e2, events s = [e1; e2]
                   ∧ ev_context e1 !! "A" = Some (int 1)) as (e1 & e2 & Hev & HA).
  { vm_compute in H0. injection H0 as <-. vm_compute in He.
    injection He as <-. eexists _, _. split; reflexivity. }
  exists s0, s, e1, e2. split; [reflexivity|]. split; [exact He|].
  split; [exact Hev|]. split; [exact HA|].
  apply (Hgrow 0 1 e1 e2 "A" (int 1)); [lia| | |exact HA];
    rewrite Hev; reflexivity.
Defined.
(* ===================================================================== *)
(** ** [Node]: how [run] ends, and the constructor's errors *)
(* ===================================================================== *)

Lemma round_double_pos y : (0 < y)%N → (0 < Node.round_double y)%N.
Proof.
  intros Hy. unfold Node.round_double.
  destruct (N.leb_spec y two53) as [|Hbig]; [done|].
  set (unit := (2 ^ (N.log2 y - 52))%N).
  assert (0 < unit)%N as Hu by (apply N.neq_0_lt_0, N.pow_nonzero; lia).
  assert (unit ≤ y)%N as Hle.
  { etrans; [apply N.pow_le_mono_r with (c := N.log2 y); lia|].
    by apply N.log2_spec. }
  assert (0 < y / unit)%N as Hq by (apply N.div_str_pos; lia).
  repeat case_match; nia.
Qed.

Lemma plus_one_pos x : 0 < Node.plus_one x.
Proof.
  unfold Node.plus_one.
  pose proof (round_double_pos (N.of_nat x + 1) ltac:(lia)). lia.
Qed.

Lemma run_loop_executeCalls n ctx fuel attempt calls :
  calls ≤ Node.executeCalls (Node.run_loop n ctx fuel attempt calls).
Proof.
  revert attempt calls. induction fuel as [|fuel IH]; intros attempt calls;
    simpl; [done|].
  case_match; simpl; [|done].
  destruct (NodeOptions.execute _ _ _) as [v|err]; simpl; [lia|].
  case_match.
  - destruct (last_attempt_shape n ctx err (S calls)) as [-> _]. lia.
  - destruct (interpolate err); simpl; [lia|].
    etrans; [|apply IH]. lia.
Qed.

(** An enabled node makes a first attempt, whatever its retry count. *)
Lemma run_enabled_executes n ctx :
  Node.isEnabled n (Some ctx) false = Some (Returned true) →
  0 < Node.executeCalls (Node.run n ctx).
Proof.
  intros Hen. rewrite (run_enabled _ _ Hen).
  assert (∃ fuel, Node.run_fuel n = S fuel) as [fuel ->].
  { unfold Node.run_fuel. exists (N.to_nat (N.min (N.of_nat (Node.maxRetries_nat n) + 1) two53)). lia. }
  simpl. pose proof (plus_one_pos (Node.maxRetries_nat n)).
  destruct (Nat.ltb_spec 0 (Node.plus_one (Node.maxRetries_nat n)));
    [|lia].
  destruct (NodeOptions.execute _ _ _) as [v|err]; simpl; [lia|].
  case_match.
  - destruct (last_attempt_shape n ctx err 1) as [-> _]. lia.
  - destruct (interpolate err); simpl; [lia|].
    eapply Nat.lt_le_trans; [|apply run_loop_executeCalls]. lia.
Qed.

Lemma last_attempt_exhausted n ctx t m :
  interpolate t = None →
  exhausted_run n ctx m t (Node.last_attempt n ctx t (m + 1)).
Proof.
  intros Hi. unfold exhausted_run, Node.last_attempt, failed_run.
  rewrite Hi.
  destruct (NodeOptions.errorHandler (Node.options n)) as [h|]; [|done].
  destruct (h (Node.as_Error t) ctx) as [u|thrown]; [done|].
  by destruct (interpolate thrown).
Qed.

(** X1: how [run] ends on a node whose retry count [m] is below [2^53].
    The [enabled] callback throws: [execute] is not invoked, no status is
    written and the promise rejects with what the callback threw.  Or the
    node is not enabled for the context: [execute] and the error handler
    are not invoked, the status is [skipped], the promise resolves to
    [null].  Or attempt [k <= m] is the first that does not throw something
    the report of the failure can convert to a string.  If it returns,
    [execute] was invoked [k + 1] times, the error handler not at all, the
    status is [completed] and the promise resolves to what the attempt
    returned.  If it throws something that cannot be converted to a
    string, [execute] was invoked [k + 1] times, the error handler not at
    all, the status stays [running] and the promise rejects with what the
    conversion threw.  Or all [m + 1] attempts threw something that can be
    converted: the error handler, if there is one, is invoked once with
    the error made from what the last attempt threw, and the status
    becomes [failed] and the promise rejects with that error, unless the
    handler throws something that cannot be converted to a string, which
    leaves the status [running] and rejects the promise with what the
    conversion threw. *)
Theorem run_endings n ctx :
  let m := Node.maxRetries_nat n in
  (N.of_nat m < two53)%N →
  let res := Node.run n ctx in
  (∃ t, Node.isEnabled n (Some ctx) false = Some (Threw t)
        ∧ res = refused_run t)
  ∨ (Node.isEnabled n (Some ctx) false = Some (Returned false)
     ∧ res = skipped_run)
  ∨ (Node.isEnabled n (Some ctx) false = Some (Returned true)
     ∧ ((∃ k v, k ≤ m ∧ (∀ j, j < k → attempt_reported n ctx j)
           ∧ NodeOptions.execute (Node.options n) k ctx = Returned v
           ∧ res = completed_run k v)
        ∨ (∃ k t e, k ≤ m ∧ (∀ j, j < k → attempt_reported n ctx j)
             ∧ NodeOptions.execute (Node.options n) k ctx = Threw t
             ∧ interpolate t = Some e
             ∧ res = Node.escaped e (k + 1) [])
        ∨ (∃ t, (∀ j, j < m → attempt_reported n ctx j)
             ∧ NodeOptions.execute (Node.options n) m ctx = Threw t
             ∧ interpolate t = None
             ∧ exhausted_run n ctx m t res))).
Proof.
  intros m Hm res.
  destruct (isEnabled_determined n ctx) as [[[]|t] Hen].
  - right; right. split; [done|].
    destruct (run_enabled_inversion n ctx Hm Hen)
      as [H|[(k & t & e & Hk & H)|(t & Hrep & Ht & Hres)]].
    + by left.
    + right; left. exists k, t, e. split; [fold m; lia|done].
    + destruct (interpolate t) as [e|] eqn:Hi.
      * right; left. exists m, t, e. split_and!; try done.
        subst res. rewrite Hres. unfold Node.last_attempt. by rewrite Hi.
      * right; right. exists t. split_and!; try done.
        subst res. rewrite Hres. by apply last_attempt_exhausted.
  - right; left. split; [done|]. by apply run_disabled.
  - left. exists t. split; [done|]. subst res. unfold Node.run.
    by rewrite Hen.
Qed.

Lemma run_endings_witness :
  (N.of_nat (Node.maxRetries_nat flaky) < two53)%N
  ∧ Node.run flaky ∅ = completed_run 2 (JStr "success").
Proof.
  assert (Hm : (N.of_nat (Node.maxRetries_nat flaky) < two53)%N)
    by (vm_compute; reflexivity).
  split; [exact Hm|].
  destruct (run_endings flaky ∅ Hm)
    as [(t & _ & H)|[(_ & H)|(_ & [(k & v & _ & _ & _ & H)
       |[(k & t & e & _ & _ & _ & _ & H)|(t & _ & _ & _ & H)]])]];
    vm_compute; reflexivity.
Defined.

(** X2: the getter [enabledType] tells how [run] treats the node.  When it
    is ["disabled"], [run] skips the node whatever the context; when it is
    ["enabled"], [run] invokes [execute] at least once whatever the
    context; when it is ["conditional"], [run] skips the node on exactly
    the contexts on which the callback returns [false]. *)
Theorem enabledType_tells_run n :
  (Node.enabledType n = "disabled" ∨ Node.enabledType n = "enabled"
   ∨ Node.enabledType n = "conditional")
  ∧ (Node.enabledType n = "disabled" →
       ∀ ctx, Node.run n ctx = skipped_run)
  ∧ (Node.enabledType n = "enabled" →
       ∀ ctx, 0 < Node.executeCalls (Node.run n ctx))
  ∧ (Node.enabledType n = "conditional" →
       ∃ f, NodeOptions.enabled (Node.options n) = Some (EnabledFn f)
         ∧ ∀ ctx, (f ctx = Returned false → Node.run n ctx = skipped_run)
                  ∧ (f ctx = Returned true →
                     0 < Node.executeCalls (Node.run n ctx))
                  ∧ (∀ t, f ctx = Threw t → Node.run n ctx = refused_run t)).
Proof.
  pose proof (run_enabled_executes n) as Hrun.
  unfold Node.enabledType, Node.run in *. unfold Node.isEnabled in *.
  destruct (NodeOptions.enabled (Node.options n)) as [[[]|f]|]; simpl in *;
    split_and!; try done; auto.
  intros _. exists f. split; [done|]. intros ctx. split_and!.
  - by intros ->.
  - intros Hf. apply Hrun. by rewrite Hf.
  - by intros t ->.
Qed.

Lemma enabledType_tells_run_witness :
  Node.run
    {| Node.options :=
         node_options "n" [] (Some (EnabledBool false)) None
           (fun _ _ => Returned (JStr "result"));
       Node.retryPolicy := Node.defaultRetryPolicy |} ∅
  = skipped_run.
Proof.
  destruct (enabledType_tells_run
    {| Node.options :=
         node_options "n" [] (Some (EnabledBool false)) None
           (fun _ _ => Returned (JStr "result"));
       Node.retryPolicy := Node.defaultRetryPolicy |}) as (_ & H & _).
  apply H. reflexivity.
Defined.

(** X3: the constructor of [Node].  Without a retry policy it does not
    throw and the node has the policy [{ maxRetries: 0, retryDelayMs: 0 }].
    With a policy whose [maxRetries] is not a non-negative integer it
    throws the error about [maxRetries], whatever [retryDelayMs] is; with
    such a [maxRetries] and a [retryDelayMs] that is not a number or is
    below zero it throws the error about [retryDelayMs]. *)
Theorem Node_new_errors o :
  match NodeOptions.retryPolicy o with
  | None =>
      Node.new o = Ok {| Node.options := o;
                         Node.retryPolicy := Node.defaultRetryPolicy |}
      ∧ Node.maxRetries_nat {| Node.options := o;
                               Node.retryPolicy := Node.defaultRetryPolicy |}
        = 0
  | Some p =>
      (¬ nonneg_integer (maxRetries p) →
         Node.new o = Throws (Error "maxRetries must be a non-negative integer"))
      ∧ (nonneg_integer (maxRetries p) →
         ¬ (nonneg_number (retryDelayMs p) ∨ retryDelayMs p = JNum NaN) →
         Node.new o
         = Throws (Error "retryDelayMs must be a non-negative number"))
      ∧ (nonneg_integer (maxRetries p) →
         nonneg_number (retryDelayMs p) ∨ retryDelayMs p = JNum NaN →
         Node.new o = Ok {| Node.options := o; Node.retryPolicy := p |})
  end.
Proof.
  unfold Node.new. destruct (NodeOptions.retryPolicy o) as [p|]; [|done].
  pose proof (validateRetryPolicy_Ok p) as Hok.
  pose proof (nonneg_integer_spec (maxRetries p)) as Hint.
  unfold Node.validateRetryPolicy, throw_if in *.
  destruct (typeof_number (maxRetries p)), (js_lt_zero (maxRetries p)),
    (Number_isInteger (maxRetries p)); simpl in *;
    try (split_and!; [done|intros H; apply Hint in H; naive_solver..]).
  destruct (negb (typeof_number (retryDelayMs p)) || js_lt_zero (retryDelayMs p));
    simpl in *.
  - split_and!; [intros H; exfalso; apply H; by apply Hint|done|].
    intros H1 H2. assert (Throws (A:=unit) (Error
      "retryDelayMs must be a non-negative number") = Ok tt) as [=].
    apply Hok. done.
  - split_and!; [intros H; exfalso; apply H; by apply Hint| |done].
    intros _ H. exfalso. apply H. by apply Hok.
Qed.

Lemma Node_new_errors_witness :
  Node.new bad_policy_options
  = Throws (Error "maxRetries must be a non-negative integer").
Proof.
  pose proof (Node_new_errors bad_policy_options) as H. simpl in H.
  destruct H as (H & _). apply H.
  intros (z & Hz & q & [= <-] & Hq).
  unfold Qeq in Hq. simpl in Hq. lia.
Defined.

(* ===================================================================== *)
(** ** [DependencyMap]: [add] and [get] *)
(* ===================================================================== *)

(** X4: after any sequence of calls of [add] on an empty dependency map,
    [get(key)] is the list of the values added under that key, in the order
    of the calls and with repetitions; for a key under which nothing was
    added it is the empty list. *)
Theorem DependencyMap_get_add_all l key :
  DependencyMap.get (add_all DependencyMap.empty l) key = values_under key l
  ∧ (key ∉ l.*1 →
       DependencyMap.get (add_all DependencyMap.empty l) key = []).
Proof.
  assert (∀ m, DependencyMap.get (add_all m l) key
               = DependencyMap.get m key ++ values_under key l) as H.
  { unfold add_all, values_under.
    induction l as [|[k v] l IH]; intros m; simpl.
    - by rewrite app_nil_r.
    - rewrite IH, DependencyMap_get_add. rewrite filter_cons. simpl.
      destruct (decide (k = key)) as [->|]; simpl; [|done].
      by rewrite <- app_assoc. }
  split.
  - by rewrite H, DependencyMap_get_empty.
  - intros Hk. rewrite H, DependencyMap_get_empty. simpl. clear H.
    unfold values_under. induction l as [|[k v] l IH]; [done|].
    simpl in Hk. apply not_elem_of_cons in Hk as [Hne Hk].
    rewrite filter_cons. simpl. rewrite decide_False by done. by apply IH.
Qed.

Lemma DependencyMap_get_add_all_witness :
  DependencyMap.get
    (add_all DependencyMap.empty [("B", "A"); ("C", "A"); ("B", "A")]) "D"
  = [].
Proof.
  apply (DependencyMap_get_add_all [("B", "A"); ("C", "A"); ("B", "A")] "D").
  intros H. vm_compute in H.
  repeat (apply elem_of_cons in H as [H|H]; [discriminate H|]).
  by apply elem_of_nil in H.
Defined.

(* ===================================================================== *)
(** ** [Node.isEnabled] *)
(* ===================================================================== *)

Lemma missing_dependency_strings ids ctx :
  Node.missing_dependency (JStr <$> ids) ctx
  = Some (Returned (existsb (fun dep => negb (has_property ctx (Some dep))) ids)).
Proof.
  induction ids as [|dep ids IH]; [done|].
  rewrite fmap_cons. cbn [Node.missing_dependency existsb].
  unfold Node.dep_in. cbn [ToPropertyKey].
  destruct (has_property ctx (Some dep)); [exact IH|done].
Qed.

(** X5: [isEnabled] throws for want of a context exactly when [enabled] is
    a callback and no context is given.  Given a context, it answers what
    the callback returns, or throws what the callback throws.  With the
    flag [skipCallbackIfMissingDeps] and dependencies listed as strings, it
    answers [true] without consulting the callback when some listed
    dependency is not a property of the context, own or inherited from
    [Object.prototype]; when every listed dependency is such a property,
    the flag changes nothing.  When [enabled] is not a callback it never
    throws. *)
Theorem isEnabled_edge_cases n :
  (∀ skip, (∃ t, Node.isEnabled n None skip = Some (Threw t))
     ↔ ∃ f, NodeOptions.enabled (Node.options n) = Some (EnabledFn f))
  ∧ (∀ f ctx,
       NodeOptions.enabled (Node.options n) = Some (EnabledFn f) →
       Node.isEnabled n (Some ctx) false = Some (f ctx)
       ∧ ∀ ids, listed_strings n ids →
           ((∃ dep, dep ∈ ids ∧ has_property ctx (Some dep) = false) →
              Node.isEnabled n (Some ctx) true = Some (Returned true))
           ∧ ((∀ dep, dep ∈ ids → has_property ctx (Some dep) = true) →
              Node.isEnabled n (Some ctx) true = Some (f ctx)))
  ∧ (∀ ctx skip,
       (∀ f, NodeOptions.enabled (Node.options n) ≠ Some (EnabledFn f)) →
       ∃ b, Node.isEnabled n ctx skip = Some (Returned b)).
Proof.
  split_and!.
  - intros skip. unfold Node.isEnabled.
    destruct (NodeOptions.enabled (Node.options n)) as [[b|f]|]; split;
      try (by intros [t [=]]); try (by intros [f' [=]]); eauto.
  - intros f ctx Hf. unfold Node.isEnabled. rewrite Hf.
    split; [by destruct (f ctx) as [[]|]|].
    intros ids Hids. unfold listed_strings in Hids.
    rewrite Hids, missing_dependency_strings. split.
    + intros (dep & Hin & Hdep).
      assert (existsb (fun dep => negb (has_property ctx (Some dep))) ids
              = true) as ->; [|done].
      apply existsb_exists. exists dep.
      split; [by apply list_elem_of_In|by rewrite Hdep].
    + intros Hall.
      assert (existsb (fun dep => negb (has_property ctx (Some dep))) ids
              = false) as ->; [|by destruct (f ctx) as [[]|]].
      apply not_true_is_false. intros (dep & Hin & Hdep)%existsb_exists.
      apply list_elem_of_In in Hin. by rewrite (Hall dep Hin) in Hdep.
  - intros ctx skip Hf. unfold Node.isEnabled.
    destruct (NodeOptions.enabled (Node.options n)) as [[b|f]|]; eauto.
    by destruct (Hf f).
Qed.

Lemma isEnabled_edge_cases_witness :
  Node.isEnabled conditional_node (Some ∅) true = Some (Returned true)
  ∧ Node.isEnabled conditional_node (Some ∅) false = Some (Returned false).
Proof.
  destruct (isEnabled_edge_cases conditional_node) as (_ & H & _).
  destruct (H (fun ctx =>
                Returned
                  match ctx !! "A" with Some (JBool b) => b | _ => false end)
              ∅ eq_refl)
    as (H2 & H1).
  split; [|exact H2].
  destruct (H1 ["A"] eq_refl) as [H3 _].
  apply H3. exists "A". split; [left|reflexivity].
Defined.

(* ===================================================================== *)
(** ** [Workflow.addNode]: what a throwing call leaves behind *)
(* ===================================================================== *)

Lemma addDependencies_prefix w nodeId ds :
  let res := Workflow.addDependencies w nodeId ds in
  ∃ k, Forall (acceptable_dependency w nodeId) (take k ds)
    ∧ DependencyMap.get (Workflow.nodeDependencies res.1) nodeId
      = DependencyMap.get (Workflow.nodeDependencies w) nodeId
        ++ dep_strings (take k ds)
    ∧ (res.2 = None → k = length ds)
    ∧ (∀ e, res.2 = Some e →
         ∃ d, ds !! k = Some d ∧ ¬ acceptable_dependency w nodeId d).
Proof.
  simpl. revert w. induction ds as [|d ds IH]; intros w; simpl.
  { exists 0. simpl. rewrite app_nil_r. split_and!; try done. }
  assert (∀ e, ¬ acceptable_dependency w nodeId d →
    ∃ k, Forall (acceptable_dependency w nodeId) (take k (d :: ds))
      ∧ DependencyMap.get (Workflow.nodeDependencies w) nodeId
        = DependencyMap.get (Workflow.nodeDependencies w) nodeId
          ++ dep_strings (take k (d :: ds))
      ∧ (Some e = @None JsError → k = S (length ds))
      ∧ (∀ e', Some e = Some e' →
           ∃ d', (d :: ds) !! k = Some d'
                 ∧ ¬ acceptable_dependency w nodeId d')) as Hbad.
  { intros e Hd. exists 0. simpl. rewrite app_nil_r.
    split_and!; try done. intros _ _. by exists d. }
  destruct d as [| |b|x|depId|ref cv fz|desc];
    try (apply Hbad; intros (s & [=] & _)).
  destruct (decide (depId = nodeId)) as [->|Hne]; simpl.
  { apply Hbad. intros (s & [= <-] & Hs & _). done. }
  destruct (JsMap.get (Workflow.nodes w) depId) as [n|] eqn:Hget; simpl.
  2:{ apply Hbad. intros (s & [= <-] & _ & [n Hn]). congruence. }
  destruct (IH (Workflow.set_nodeDependencies w
                  (DependencyMap.add (Workflow.nodeDependencies w) nodeId depId)))
    as (k & Hacc & Hdeps & Hnone & Hsome).
  exists (S k). simpl. split_and!.
  - constructor; [by exists depId; eauto|]. exact Hacc.
  - rewrite Hdeps. simpl. rewrite DependencyMap_get_add, decide_True by done.
    by rewrite <- app_assoc.
  - intros H. by rewrite (Hnone H).
  - intros e He. destruct (Hsome e He) as (d' & Hd' & Hn). by exists d'.
Qed.

(** X6: a call of [addNode] that throws does not register the node: the
    node map, and with it [size], are as before, as are the entries of the
    other ids in the dependency index.  The entry of the id of the call has
    grown by the dependencies listed before the first one that is rejected
    (none when the id, an earlier registration or the retry policy is the
    cause): the edges recorded before the [throw] stay in the index. *)
Theorem addNode_throw_leaves w o e :
  (Workflow.addNode w o).2 = Some e →
  let w' := (Workflow.addNode w o).1 in
  let nodeId := NodeOptions.id o in
  let ds := default [] (NodeOptions.dependencies o) in
  Workflow.nodes w' = Workflow.nodes w
  ∧ Workflow.size w' = Workflow.size w
  ∧ (∀ k, k ≠ nodeId →
       DependencyMap.get (Workflow.nodeDependencies w') k
       = DependencyMap.get (Workflow.nodeDependencies w) k)
  ∧ ∃ k, Forall (acceptable_dependency w nodeId) (take k ds)
      ∧ DependencyMap.get (Workflow.nodeDependencies w') nodeId
        = DependencyMap.get (Workflow.nodeDependencies w) nodeId
          ++ dep_strings (take k ds)
      ∧ (nodeId = "initial" ∨ JsMap.has (Workflow.nodes w) nodeId = true
         ∨ is_Ok (Node.new o) = false → k = 0)
      ∧ (nodeId ≠ "initial" → JsMap.has (Workflow.nodes w) nodeId = false →
         is_Ok (Node.new o) = true →
         ∃ d, ds !! k = Some d ∧ ¬ acceptable_dependency w nodeId d).
Proof.
  simpl. unfold Workflow.addNode, Workflow.size.
  assert (∃ k, Forall (acceptable_dependency w (NodeOptions.id o))
                 (take k (default [] (NodeOptions.dependencies o)))
      ∧ DependencyMap.get (Workflow.nodeDependencies w) (NodeOptions.id o)
        = DependencyMap.get (Workflow.nodeDependencies w) (NodeOptions.id o)
          ++ dep_strings (take k (default [] (NodeOptions.dependencies o)))
      ∧ k = 0) as (k0 & H1 & H2 & ->).
  { exists 0. simpl. by rewrite app_nil_r. }
  destruct (decide (NodeOptions.id o = "initial")) as [Hi|Hi]; simpl.
  { intros _. split_and!; try done. exists 0. split_and!; try done. }
  destruct (JsMap.has (Workflow.nodes w) (NodeOptions.id o)) eqn:Hhas; simpl.
  { intros _. split_and!; try done. exists 0. split_and!; try done. }
  destruct (Node.new o) as [node|e'] eqn:Hnew; simpl.
  2:{ intros _. split_and!; try done. exists 0. split_and!; try done. }
  pose proof (addDependencies_frame w (NodeOptions.id o)
                (default [] (NodeOptions.dependencies o)))
    as (Hn & _ & _ & Hother & _).
  pose proof (addDependencies_prefix w (NodeOptions.id o)
                (default [] (NodeOptions.dependencies o)))
    as (k & Hacc & Hdeps & _ & Hsome).
  simpl in *.
  destruct (Workflow.addDependencies w (NodeOptions.id o)
              (default [] (NodeOptions.dependencies o))) as [w' [e'|]];
    simpl in *; [|done].
  intros _. split_and!; try done; [by rewrite Hn|].
  exists k. split_and!; try done.
  - intros [?|[?|?]]; done.
  - intros _ _ _. by apply (Hsome e').
Qed.

Lemma addNode_throw_leaves_witness :
  Workflow.size after_failed_addNode = 1
  ∧ DependencyMap.get (Workflow.nodeDependencies after_failed_addNode) "B"
    = ["A"].
Proof.
  destruct (addNode_throw_leaves
              (Workflow.addNode empty_builder (plain "A" [] (int 1))).1
              (plain "B" ["A"; "missing"] (int 2))
              (Error "Dependency missing not found for node B") eq_refl)
    as (_ & Hsize & _ & k & _ & Hdeps & _ & Hbad).
  split; [exact Hsize|].
  destruct (Hbad ltac:(discriminate) eq_refl eq_refl) as (d & Hd & Hn).
  reflexivity.
Defined.

(* ===================================================================== *)
(** ** [Workflow.build] on builders made through the public interface *)
(* ===================================================================== *)

Lemma visit_each_known fuel deps ds st :
  (∀ d, d ∈ ds → d ∉ temp st ∧ d ∈ visited st) →
  Workflow.visit_each (Workflow.visit (S fuel) deps) ds st = Sorted st.
Proof.
  induction ds as [|d ds IH]; intros H; simpl; [done|].
  destruct (H d) as [Ht Hv]; [left|].
  rewrite decide_False, decide_True by done. apply IH.
  intros d' Hd'. apply H. by right.
Qed.

Lemma visit_after_dependencies fuel deps n st :
  n ∉ temp st → n ∉ visited st →
  (∀ d, depends_on deps n d → d ≠ n ∧ d ∉ temp st ∧ d ∈ visited st) →
  (DependencyMap.get deps n = [] ∨ 1 ≤ fuel) →
  Workflow.visit (S fuel) deps n st
  = Sorted {| visited := {[n]} ∪ visited st;
              temp := ({[n]} ∪ temp st) ∖ {[n]};
              order := order st ++ [n] |}.
Proof.
  intros Ht Hv Hd Hf. simpl. rewrite !decide_False by done.
  destruct Hf as [->|Hf]; [done|].
  destruct fuel as [|fuel]; [lia|].
  rewrite visit_each_known; [done|]. simpl.
  intros d Hin. destruct (Hd d Hin) as (? & ? & ?). split; [|done].
  set_solver.
Qed.

Lemma visit_roots_in_order fuel deps roots st :
  temp st = ∅ → NoDup roots → (∀ x, x ∈ roots → x ∉ visited st) →
  (∀ l1 x l2 d, roots = l1 ++ x :: l2 → depends_on deps x d →
     d ≠ x ∧ (d ∈ visited st ∨ d ∈ l1)) →
  (∀ x d, x ∈ roots → depends_on deps x d → 1 ≤ fuel) →
  ∃ st', Workflow.visit_roots (S fuel) deps roots st = Sorted st'
    ∧ order st' = order st ++ roots
    ∧ temp st' = ∅.
Proof.
  unfold Workflow.visit_roots. revert st.
  induction roots as [|x roots IH]; intros st Ht Hnd Hnew Hedge Hfuel.
  { exists st. simpl. by rewrite app_nil_r. }
  apply NoDup_cons in Hnd as [Hx Hnd].
  cbn [Workflow.visit_each].
  rewrite decide_False by (apply Hnew; left).
  rewrite visit_after_dependencies.
  - destruct (IH {| visited := {[x]} ∪ visited st;
                    temp := ({[x]} ∪ temp st) ∖ {[x]};
                    order := order st ++ [x] |})
      as (st' & Hrun & Ho & Ht'); simpl.
    + rewrite Ht. set_solver.
    + done.
    + intros y Hy. apply not_elem_of_union. split.
      * intros ->%elem_of_singleton. done.
      * apply Hnew. by right.
    + intros l1 y l2 d -> Hd.
      destruct (Hedge (x :: l1) y l2 d eq_refl Hd) as [Hne [Hin|Hin]].
      * split; [done|]. left. set_solver.
      * split; [done|]. apply elem_of_cons in Hin as [->|Hin]; [|by right].
        left. set_solver.
    + intros y d Hy. apply Hfuel. by right.
    + exists st'. split; [exact Hrun|]. split; [|done].
      rewrite Ho. simpl. by rewrite <- app_assoc.
  - rewrite Ht. set_solver.
  - apply Hnew. left.
  - intros d Hd. destruct (Hedge [] x roots d eq_refl Hd) as [Hne [Hin|Hin]].
    + split_and!; [done| |done]. rewrite Ht. set_solver.
    + by apply elem_of_nil in Hin.
  - destruct (DependencyMap.get deps x) as [|d ds] eqn:Hget; [by left|].
    right. apply (Hfuel x d); [left|]. unfold depends_on. rewrite Hget. left.
Qed.

(** The sort on a graph whose edges lead to nodes registered earlier: the
    nodes are pushed in the order of registration. *)
Lemma topologicalSort_registration_order w :
  NoDup (JsMap.keys (Workflow.nodes w)) →
  (∀ a b, depends_on (Workflow.nodeDependencies w) a b →
     ∃ i, JsMap.keys (Workflow.nodes w) !! i = Some b
          ∧ ∀ j, JsMap.keys (Workflow.nodes w) !! j = Some a → i < j) →
  ∃ st, Workflow.topologicalSort w = Sorted st
    ∧ order st = Workflow.topologicalOrder w ++ JsMap.keys (Workflow.nodes w).
Proof.
  intros Hnd Hedges. unfold Workflow.topologicalSort, Workflow.sort_fuel.
  destruct (visit_roots_in_order (size (Workflow.mentioned w))
              (Workflow.nodeDependencies w) (JsMap.keys (Workflow.nodes w))
              {| visited := ∅; temp := ∅;
                 order := Workflow.topologicalOrder w |})
    as (st & Hrun & Ho & _); simpl; try done.
  - intros l1 x l2 d Hkeys Hd.
    destruct (Hedges x d Hd) as (i & Hi & Hlt).
    assert (JsMap.keys (Workflow.nodes w) !! length l1 = Some x) as Hx.
    { rewrite Hkeys. by rewrite list_lookup_middle. }
    pose proof (Hlt _ Hx) as Hil. split.
    + intros ->. pose proof (NoDup_lookup _ _ _ _ Hnd Hi Hx). lia.
    + right. rewrite Hkeys, lookup_app_l in Hi by done.
      by eapply list_elem_of_lookup_2.
  - intros x d _ Hd. apply mentioned_closed in Hd.
    destruct (decide (size (Workflow.mentioned w) = 0)) as [H0|]; [|lia].
    apply size_empty_iff in H0. set_solver.
  - by exists st.
Qed.

(** X7: every builder made by the constructor and calls of [addNode],
    returning or throwing, keeps this invariant: the ids of the registered
    nodes are distinct, none is ["initial"], each node is stored under its
    own id, and every edge of the dependency index leads to a node that was
    registered, and registered before the node the edge starts from.  So
    the graph has no cycle. *)
Theorem constructed_builder_invariant w :
  constructed w →
  NoDup (JsMap.keys (Workflow.nodes w))
  ∧ "initial" ∉ JsMap.keys (Workflow.nodes w)
  ∧ (∀ k n, (k, n) ∈ Workflow.nodes w → Node.id n = k)
  ∧ (∀ a b, depends_on (Workflow.nodeDependencies w) a b →
       ∃ i, JsMap.keys (Workflow.nodes w) !! i = Some b
            ∧ ∀ j, JsMap.keys (Workflow.nodes w) !! j = Some a → i < j)
  ∧ ¬ cyclic w.
Proof.
  intros Hw%constructed_well_formed. split_and!; try apply Hw.
  by apply well_formed_acyclic.
Qed.

Lemma constructed_builder_invariant_witness :
  NoDup (JsMap.keys (Workflow.nodes diamond)) ∧ ¬ cyclic diamond.
Proof.
  destruct (constructed_builder_invariant diamond diamond_constructed)
    as (H1 & _ & _ & _ & H2).
  split; [exact H1|exact H2].
Defined.

(** [build] on a builder that satisfies the invariant of the builder. *)
Lemma build_well_formed w hook :
  well_formed w →
  (∀ e, Workflow.build w hook = Ran (Throws e) →
     (Workflow.size w = 0
      ∧ e = Error "Unable to build WorkflowRunner. No nodes added to the workflow")
     ∨ (truthy_or hook = true ∧ typeof_function hook = false
        ∧ e = Error "onNodesCompleted must be a function (sync or async)."))
  ∧ (Workflow.size w ≠ 0 →
     truthy_or hook = false ∨ typeof_function hook = true →
     ∃ w' r, Workflow.build w hook = Ran (Ok (w', r))
       ∧ WorkflowRunner.topologicalOrder r = JsMap.keys (Workflow.nodes w)
       ∧ WorkflowRunner.nodes r = Workflow.nodes w
       ∧ WorkflowRunner.nodeDependencies r = Workflow.nodeDependencies w
       ∧ WorkflowRunner.contextValueOrFactory r
         = Workflow.contextValueOrFactory w
       ∧ WorkflowRunner.onNodesCompleted r = hook).
Proof.
  intros Hw.
  destruct (topologicalSort_registration_order w (wf_NoDup w Hw) (wf_edges w Hw))
    as (st & Hsort & Ho).
  rewrite (wf_order w Hw) in Ho. simpl in Ho.
  unfold Workflow.build. rewrite Hsort.
  destruct (Nat.eqb_spec (Workflow.size w) 0) as [Hz|Hnz].
  { split; [|done]. intros e [= <-]. by left. }
  destruct (truthy_or hook) eqn:Ht, (typeof_function hook) eqn:Hf; simpl;
    (split; [intros e He; try discriminate He; injection He as <-; by right|]);
    intros _ Hhook; try (destruct Hhook; discriminate);
    eexists _, _; (split; [reflexivity|]); simpl; by rewrite ?Ho.
Qed.

(** X8: on a builder made through the public interface [build] throws
    only when no node is registered or when the completion hook is truthy
    and not a function; the circular-dependency error cannot occur.
    Otherwise it returns a runner whose order is the order in which the
    nodes were registered. *)
Theorem build_of_constructed w hook :
  constructed w →
  (∀ e, Workflow.build w hook = Ran (Throws e) →
     (Workflow.size w = 0
      ∧ e = Error "Unable to build WorkflowRunner. No nodes added to the workflow")
     ∨ (truthy_or hook = true ∧ typeof_function hook = false
        ∧ e = Error "onNodesCompleted must be a function (sync or async)."))
  ∧ (Workflow.size w ≠ 0 →
     truthy_or hook = false ∨ typeof_function hook = true →
     ∃ w' r, Workflow.build w hook = Ran (Ok (w', r))
       ∧ WorkflowRunner.topologicalOrder r = JsMap.keys (Workflow.nodes w)
       ∧ WorkflowRunner.nodes r = Workflow.nodes w
       ∧ WorkflowRunner.nodeDependencies r = Workflow.nodeDependencies w
       ∧ WorkflowRunner.contextValueOrFactory r
         = Workflow.contextValueOrFactory w
       ∧ WorkflowRunner.onNodesCompleted r = hook).
Proof.
  intros Hw%constructed_well_formed. by apply build_well_formed.
Qed.

Lemma build_of_constructed_witness :
  ∃ w' r, Workflow.build diamond no_hook = Ran (Ok (w', r))
    ∧ WorkflowRunner.topologicalOrder r = ["A"; "B"; "C"; "D"].
Proof.
  destruct (build_of_constructed diamond no_hook diamond_constructed)
    as [_ H].
  destruct H as (w' & r & Hb & Ho & _); [discriminate|by left|].
  exists w', r. split; [exact Hb|exact Ho].
Defined.

(* ===================================================================== *)
(** ** [Workflow.build] called twice *)
(* ===================================================================== *)

Lemma foldl_Set_add_known l acc :
  (∀ x, x ∈ l → x ∈ acc) → foldl Set_add acc l = acc.
Proof.
  induction l as [|x l IH]; intros H; simpl; [done|].
  unfold Set_add at 2. rewrite decide_True by (apply H; left).
  apply IH. intros y Hy. apply H. by right.
Qed.

Lemma Set_of_twice l : Set_of (l ++ l) = Set_of l.
Proof.
  unfold Set_of. rewrite foldl_app. apply foldl_Set_add_known.
  intros x Hx. by apply elem_of_Set_of.
Qed.

Lemma initial_ready_app r l1 l2 :
  initial_ready r (l1 ++ l2)
  = (a ← initial_ready r l1; b ← initial_ready r l2; Ok (a ++ b)).
Proof.
  induction l1 as [|x l1 IH]; simpl.
  - by destruct (initial_ready r l2).
  - destruct (JsMap.get (WorkflowRunner.nodes r) x) as [n|]; [|done].
    rewrite IH. destruct (initial_ready r l1) as [a|]; [|done]. simpl.
    destruct (initial_ready r l2) as [b|]; [|done]. simpl.
    by case_match.
Qed.

Lemma initial_ready_twice r o :
  match initial_ready r o with
  | Ok ready => initial_ready r (o ++ o) = Ok (ready ++ ready)
  | Throws e => initial_ready r (o ++ o) = Throws e
  end.
Proof. rewrite initial_ready_app. by destruct (initial_ready r o). Qed.

(** The array of the order is only read to seed the set of ready nodes:
    listing every node twice changes nothing in a run. *)
Lemma trigger_order_twice r r' :
  WorkflowRunner.topologicalOrder r'
  = WorkflowRunner.topologicalOrder r ++ WorkflowRunner.topologicalOrder r →
  WorkflowRunner.nodes r' = WorkflowRunner.nodes r →
  WorkflowRunner.nodeDependencies r' = WorkflowRunner.nodeDependencies r →
  WorkflowRunner.contextValueOrFactory r'
  = WorkflowRunner.contextValueOrFactory r →
  WorkflowRunner.onNodesCompleted r' = WorkflowRunner.onNodesCompleted r →
  ∀ status0 queue0 schedule,
    trigger r' status0 queue0 schedule = trigger r status0 queue0 schedule.
Proof.
  destruct r as [c o ns ds h], r' as [c' o' ns' ds' h']. simpl.
  intros -> -> -> -> -> status0 queue0 schedule.
  set (r := {| WorkflowRunner.contextValueOrFactory := c;
               WorkflowRunner.topologicalOrder := o;
               WorkflowRunner.nodes := ns;
               WorkflowRunner.nodeDependencies := ds;
               WorkflowRunner.onNodesCompleted := h |}).
  set (r' := {| WorkflowRunner.contextValueOrFactory := c;
                WorkflowRunner.topologicalOrder := o ++ o;
                WorkflowRunner.nodes := ns;
                WorkflowRunner.nodeDependencies := ds;
                WorkflowRunner.onNodesCompleted := h |}).
  assert (init r' status0 queue0 = init r status0 queue0) as Hinit.
  { unfold init.
    change (WorkflowRunner.topologicalOrder r') with (o ++ o).
    change (WorkflowRunner.topologicalOrder r) with o.
    change (seed r') with (seed r).
    change (initial_ready r' (o ++ o)) with (initial_ready r (o ++ o)).
    pose proof (initial_ready_twice r o) as Ht.
    destruct o as [|x o]; [done|].
    destruct (Nat.eqb_spec (length ((x :: o) ++ x :: o)) 0) as [H|_];
      [simpl in H; lia|].
    destruct (Nat.eqb_spec (length (x :: o)) 0) as [H|_]; [done|].
    destruct (seed r); [|done].
    destruct (initial_ready r (x :: o)) as [ready|e]; rewrite Ht; [|done].
    by rewrite Set_of_twice. }
  unfold trigger. rewrite Hinit.
  destruct (init r status0 queue0) as [s0|]; [|done].
  assert (∀ s, exec r' s schedule = exec r s schedule) as ->.
  { induction schedule as [|e schedule IH]; intros s; [done|]. simpl.
    change (step r' s e) with (step r s e).
    destruct (step r s e); [apply IH|done]. }
  destruct (exec r s0 schedule) as [s|]; [|done].
  destruct (is_over s); [|done]. reflexivity.
Qed.

(** X9: a second call of [build] on the same builder returns a runner
    again.  The array of the order is not emptied between the calls, so the
    second runner lists every node twice; the set of ready nodes drops the
    repetitions, and with the same completion hook every run of the second
    runner is a run of the first with the same result. *)
Theorem build_twice w hook w1 r1 hook2 :
  constructed w →
  Workflow.build w hook = Ran (Ok (w1, r1)) →
  truthy_or hook2 = false ∨ typeof_function hook2 = true →
  ∃ w2 r2, Workflow.build w1 hook2 = Ran (Ok (w2, r2))
    ∧ WorkflowRunner.topologicalOrder r2
      = WorkflowRunner.topologicalOrder r1 ++ WorkflowRunner.topologicalOrder r1
    ∧ WorkflowRunner.nodes r2 = WorkflowRunner.nodes r1
    ∧ WorkflowRunner.nodeDependencies r2 = WorkflowRunner.nodeDependencies r1
    ∧ (hook2 = hook →
       ∀ status0 queue0 schedule,
         trigger r2 status0 queue0 schedule
         = trigger r1 status0 queue0 schedule).
Proof.
  intros Hc Hb Hhook. pose proof (constructed_well_formed w Hc) as Hw.
  destruct (build_well_formed w hook Hw) as [_ Hok].
  pose proof Hb as Hb'.
  apply build_Ok in Hb' as (st & _ & Hsize & Hh & _).
  destruct (Hok Hsize Hh) as (w1' & r1' & Hb1 & Ho1 & Hn1 & Hd1 & Hc1 & Hh1).
  rewrite Hb in Hb1. injection Hb1 as <- <-.
  assert (w1 = Workflow.set_topologicalOrder w (JsMap.keys (Workflow.nodes w)))
    as Hw1.
  { unfold Workflow.build in Hb.
    destruct (Workflow.size w =? 0); [done|].
    destruct (truthy_or hook && negb (typeof_function hook)); [done|].
    destruct (Workflow.topologicalSort w) as [st'| |]; try done.
    injection Hb as <- <-. simpl in Ho1. by rewrite Ho1. }
  destruct (topologicalSort_registration_order w1) as (st2 & Hsort & Ho2).
  { rewrite Hw1. apply Hw. }
  { rewrite Hw1. apply Hw. }
  assert (Workflow.build w1 hook2
          = Ran (Ok (Workflow.set_topologicalOrder w1 (order st2),
                     {| WorkflowRunner.contextValueOrFactory :=
                          Workflow.contextValueOrFactory w1;
                        WorkflowRunner.topologicalOrder := order st2;
                        WorkflowRunner.nodes := Workflow.nodes w1;
                        WorkflowRunner.nodeDependencies :=
                          Workflow.nodeDependencies w1;
                        WorkflowRunner.onNodesCompleted := hook2 |}))) as Hb2.
  { unfold Workflow.build. rewrite Hsort.
    assert (Workflow.size w1 = Workflow.size w) as -> by by rewrite Hw1.
    destruct (Nat.eqb_spec (Workflow.size w) 0); [done|].
    by destruct Hhook as [->| ->]; [|rewrite andb_false_r]. }
  eexists _, _. split; [exact Hb2|]. simpl.
  assert (order st2 = WorkflowRunner.topologicalOrder r1
                      ++ WorkflowRunner.topologicalOrder r1) as Ho.
  { rewrite Ho2, Ho1, Hw1. done. }
  split_and!.
  - exact Ho.
  - by rewrite Hn1, Hw1.
  - by rewrite Hd1, Hw1.
  - intros -> status0 queue0 schedule. apply trigger_order_twice; simpl.
    + exact Ho.
    + by rewrite Hn1, Hw1.
    + by rewrite Hd1, Hw1.
    + by rewrite Hc1, Hw1.
    + by rewrite Hh1.
Qed.

Lemma build_twice_witness :
  ∃ w1 r1 w2 r2,
    Workflow.build diamond no_hook = Ran (Ok (w1, r1))
    ∧ Workflow.build w1 no_hook = Ran (Ok (w2, r2))
    ∧ WorkflowRunner.topologicalOrder r2
      = ["A"; "B"; "C"; "D"; "A"; "B"; "C"; "D"].
Proof.
  destruct (Workflow.build diamond no_hook) as [[[w1 r1]|e]|] eqn:Hb;
    [|vm_compute in Hb; discriminate Hb..].
  destruct (build_twice diamond no_hook w1 r1 no_hook diamond_constructed Hb)
    as (w2 & r2 & Hb2 & Ho & _); [by left|].
  exists w1, r1, w2, r2. split; [reflexivity|]. split; [exact Hb2|].
  rewrite Ho. clear - Hb. vm_compute in Hb. injection Hb as <- <-.
  reflexivity.
Defined.

(* ===================================================================== *)
(** ** The scheduler: what the nodes are told and what is reported *)
(* ===================================================================== *)

Section observed_steps.

Variable r : WorkflowRunner.t.
Hypothesis Hr : runnable r.

Local Notation nodes := (WorkflowRunner.nodes r).
Local Notation deps := (WorkflowRunner.nodeDependencies r).
Local Notation keys := (JsMap.keys (WorkflowRunner.nodes r)).

Lemma start_observed s id :
  object (start r s id) = object s
  ∧ events (start r s id) = events s
  ∧ completed (start r s id) = completed s
  ∧ calls (start r s id) = calls s ++ calls_of r (object s) [id]
  ∧ ∀ k, (∀ c, c ∈ calls_of r (object s) [id] → call_id c = k →
               Node.status (call_result c) = None) →
         status (start r s id) !! k = status s !! k.
Proof.
  unfold start, calls_of. simpl.
  destruct (JsMap.get nodes id) as [n|]; simpl.
  - split_and!; try done. intros k Hk.
    destruct (decide (k = id)) as [->|Hne].
    + pose proof (Hk {| call_id := id; call_ctx := object s;
                        call_result := Node.run n (object s) |}
                    ltac:(left) eq_refl) as Hnone.
      simpl in Hnone. by rewrite Hnone.
    + destruct (Node.status (Node.run n (object s))) as [[]|];
        by rewrite ?lookup_insert_ne.
  - by rewrite app_nil_r.
Qed.

Lemma calls_of_cons ctx id l :
  calls_of r ctx (id :: l) = calls_of r ctx [id] ++ calls_of r ctx l.
Proof. unfold calls_of. simpl. by destruct (JsMap.get nodes id). Qed.

Lemma foldl_start_observed l s :
  let s' := foldl (start r) s l in
  object s' = object s ∧ events s' = events s ∧ completed s' = completed s
  ∧ calls s' = calls s ++ calls_of r (object s) l
  ∧ ∀ k, (∀ c, c ∈ calls_of r (object s) l → call_id c = k →
               Node.status (call_result c) = None) →
         status s' !! k = status s !! k.
Proof.
  revert s. induction l as [|id l IH]; intros s; cbv zeta.
  { unfold calls_of. simpl. by rewrite app_nil_r. }
  cbn [foldl].
  destruct (IH (start r s id)) as (Ho & He & Hc & Hcalls & Hst).
  destruct (start_observed s id) as (Ho1 & He1 & Hc1 & Hcalls1 & Hst1).
  rewrite Ho, He, Hc, Hcalls, Ho1, He1, Hc1, Hcalls1.
  split_and!; try done.
  - by rewrite <- app_assoc, <- calls_of_cons.
  - intros k Hk. rewrite calls_of_cons in Hk.
    rewrite Hst.
    + apply Hst1. intros c Hc'. apply Hk, elem_of_app. by left.
    + rewrite Ho1. intros c Hc'. apply Hk, elem_of_app. by right.
Qed.

Lemma iterate_observed s :
  let s' := iterate r s in
  object s' = object s ∧ events s' = events s ∧ completed s' = completed s
  ∧ (∃ l, calls s' = calls s ++ calls_of r (object s) l
          ∧ (∀ k, k ∈ l → k ∈ readyNodes s)
          ∧ ∀ k, (∀ c, c ∈ calls_of r (object s) l → call_id c = k →
                       Node.status (call_result c) = None) →
                 status s' !! k = status s !! k).
Proof.
  unfold iterate. simpl. destruct (_ <? _).
  - unfold start_ready.
    match goal with |- context [foldl (start r) ?s0 ?l] =>
      pose proof (foldl_start_observed l s0) as (Ho & He & Hc & Hcalls & Hst);
      set (s1 := foldl (start r) s0 l) in *
    end.
    simpl in *.
    assert (∃ l, calls s1 = calls s ++ calls_of r (object s) l
                 ∧ (∀ k, k ∈ l → k ∈ readyNodes s)
                 ∧ ∀ k, (∀ c, c ∈ calls_of r (object s) l → call_id c = k →
                              Node.status (call_result c) = None) →
                        status s1 !! k = status s !! k) as Hl
      by (exists (readyNodes s); done).
    destruct (loop s1); try destruct (_ <? _); simpl; done.
  - simpl. split_and!; try done. exists []. unfold calls_of. simpl.
    rewrite app_nil_r. split_and!; try done. by intros k ?%elem_of_nil.
Qed.

Lemma foldl_start_queueRejected l s :
  queueRejected (foldl (start r) s l) = queueRejected s.
Proof.
  revert s. induction l as [|id l IH]; intros s; simpl; [done|].
  rewrite IH. unfold start. by destruct (JsMap.get nodes id).
Qed.

Lemma iterate_queueRejected s :
  queueRejected (iterate r s) = queueRejected s.
Proof.
  unfold iterate. destruct (_ <? _); [|done].
  assert (queueRejected (start_ready r s) = queueRejected s) as H
    by (unfold start_ready; by rewrite foldl_start_queueRejected).
  destruct (loop (start_ready r s)); try destruct (_ <? _); simpl; done.
Qed.

(** The rejection of the update queue is final. *)
Lemma step_queueRejected s e s' :
  step r s e = Some s' →
  queueRejected s' = queueRejected s
  ∨ (queueRejected s = None ∧ is_Some (queueRejected s')).
Proof.
  destruct e as [|id| |id|id]; simpl.
  - destruct (loop s); try done; [|case_match; [|done]];
      intros [= <-]; left; apply iterate_queueRejected.
  - destruct (running s !! id) as [[res| | |]|]; try done.
    destruct (JsMap.get nodes id) as [n|]; [|done].
    destruct (Node.settled res) as [[v|err]|] eqn:Hres; [| |done];
      intros [= <-]; left; unfold settle; rewrite Hres; [done|].
    unfold fail.
    match goal with |- queueRejected (notify r ?s1 _ _ ?ev) = _ =>
      destruct (notify_fields r s1 id n ev) as (_&_&_&_&_&_&_&_&_&_&->) end.
    done.
  - destruct (updateQueue s) as [|[id v] rest]; [done|]. intros [= <-].
    unfold apply_update. simpl.
    destruct (queueRejected s) as [reason|] eqn:Hj; [by left|].
    destruct (Context.update (object s) id v); [left|right]; simpl; eauto.
  - destruct (running s !! id) as [[|v|reason|]|]; try done.
    + destruct (JsMap.get nodes id) as [n|]; [|done].
      case_bool_decide; [done|]. intros [= <-]. left. unfold continue.
      match goal with |- queueRejected (notify r ?s1 _ _ ?ev) = _ =>
        destruct (notify_fields r s1 id n ev) as (_&_&_&_&_&_&_&_&_&_&->) end.
      done.
    + destruct (JsMap.get nodes id) as [n|]; [|done].
      intros [= <-]. left. unfold fail.
      match goal with |- queueRejected (notify r ?s1 _ _ ?ev) = _ =>
        destruct (notify_fields r s1 id n ev) as (_&_&_&_&_&_&_&_&_&_&->) end.
      done.
  - destruct (running s !! id) as [[| | |]|]; try done.
    intros [= <-]. by left.
Qed.

Lemma step_clean s e s' :
  step r s e = Some s' → queueRejected s' = None → queueRejected s = None.
Proof.
  intros [->|[? [x Hx]]]%step_queueRejected; [done|congruence].
Qed.

Lemma exec_clean schedule s s' :
  exec r s schedule = Some s' → queueRejected s' = None →
  queueRejected s = None.
Proof.
  revert s. induction schedule as [|e schedule IH]; intros s; simpl.
  - by intros [= <-].
  - destruct (step r s e) as [s1|] eqn:He; [|done]. intros Hx Hj.
    eapply step_clean; [done|]. by eapply IH.
Qed.

Lemma elem_of_calls_of ctx l c :
  c ∈ calls_of r ctx l →
  call_ctx c = ctx ∧ call_id c ∈ l
  ∧ ∃ n, JsMap.get nodes (call_id c) = Some n
         ∧ call_result c = Node.run n ctx.
Proof.
  unfold calls_of. intros (id & Hid & Hc)%list_elem_of_omap.
  destruct (JsMap.get nodes id) as [n|] eqn:Hn; [|done].
  simpl in Hc. injection Hc as <-. simpl. eauto.
Qed.

Lemma step_calls s e s' :
  step r s e = Some s' → e ≠ Resume → calls s' = calls s.
Proof.
  destruct e as [|id| |id|id]; simpl; try done; intros Hstep _.
  - destruct (running s !! id) as [[res| | |]|]; try done.
    destruct (JsMap.get nodes id) as [n|]; [|done].
    destruct (Node.settled res) as [[v|err]|] eqn:Hres; [| |done];
      injection Hstep as <-; unfold settle; rewrite Hres; [done|].
    unfold fail.
    match goal with |- calls (notify r ?s1 _ _ ?ev) = _ =>
      by destruct (notify_fields r s1 id n ev) as (_&_&_&_&_&->&_) end.
  - destruct (updateQueue s) as [|[id v] rest]; [done|].
    injection Hstep as <-. unfold apply_update, reject_update.
    by repeat case_match.
  - destruct (running s !! id) as [[|v|reason|]|]; try done.
    + destruct (JsMap.get nodes id) as [n|]; [|done].
      case_bool_decide; [done|]. injection Hstep as <-. unfold continue.
      match goal with |- calls (notify r ?s1 _ _ ?ev) = _ =>
        by destruct (notify_fields r s1 id n ev) as (_&_&_&_&_&->&_) end.
    + destruct (JsMap.get nodes id) as [n|]; [|done].
      injection Hstep as <-. unfold fail.
      match goal with |- calls (notify r ?s1 _ _ ?ev) = _ =>
        by destruct (notify_fields r s1 id n ev) as (_&_&_&_&_&->&_) end.
  - destruct (running s !! id) as [[| | |]|]; try done.
    by injection Hstep as <-.
Qed.

(** The log of calls only grows. *)
Lemma step_calls_incl s e s' :
  step r s e = Some s' → ∀ c, c ∈ calls s → c ∈ calls s'.
Proof.
  intros Hstep c Hc.
  assert (e = Resume ∨ e ≠ Resume) as [->|Hne]
    by (destruct e; auto; by right).
  - simpl in Hstep.
    assert (s' = iterate r s) as ->.
    { destruct (loop s); try done; [by injection Hstep|].
      case_match; [by injection Hstep|done]. }
    destruct (iterate_observed s) as (_ & _ & _ & l & -> & _).
    apply elem_of_app. by left.
  - by rewrite (step_calls _ _ _ Hstep Hne).
Qed.

Lemma exec_calls_incl schedule s s' :
  exec r s schedule = Some s' → ∀ c, c ∈ calls s → c ∈ calls s'.
Proof.
  revert s. induction schedule as [|e schedule IH]; intros s; simpl.
  - by intros [= <-].
  - destruct (step r s e) as [s1|] eqn:He; [|done]. intros Hx c Hc.
    eapply IH; [done|]. by eapply step_calls_incl.
Qed.

Lemma step_undisturbed s e s' :
  step r s e = Some s' → undisturbed s' → undisturbed s.
Proof.
  intros Hstep [Hj Hd]. split; [by eapply step_clean|].
  intros c Hc. apply Hd. by eapply step_calls_incl.
Qed.

(** What a started node was waiting for. *)
Lemma ready_dependency_result s id d :
  invariant r s → undisturbed s →
  id ∈ readyNodes s → depends_on deps id d →
  ∃ i c v, calls s !! i = Some c ∧ call_id c = d
    ∧ Node.settled (call_result c) = Some (Returned v)
    ∧ Node.status (call_result c) = Some NodeStatus.completed
    ∧ object s !! d = Some v.
Proof.
  intros [[Hcs Hrc _] _] [Hj Hdec] Hid Hd.
  destruct (rc_ready r _ _ Hrc id d Hid Hd) as [Hin Hst].
  assert (d ∈ call_id <$> calls s) as (c & -> & Hc)%list_elem_of_fmap
    by (apply (rc_called r _ _ Hrc); by left).
  destruct (rc_run r _ _ Hrc c Hc) as (n & Hn & Hres).
  destruct (Hdec c Hc) as [x Hx].
  pose proof (rc_status r _ _ Hrc c x Hc Hx (or_introl Hin)) as Hx'.
  assert (x = NodeStatus.completed) as -> by congruence.
  pose proof Hx as Hv. rewrite Hres in Hv.
  apply run_status in Hv as (v & Hv & _). rewrite <- Hres in Hv.
  apply list_elem_of_lookup in Hc as Hi. destruct Hi as [i Hi].
  exists i, c, v. split_and!; try done.
  by apply (rc_result r _ _ Hrc Hj c).
Qed.

Lemma informed_calls seeded s s' :
  informed r seeded s →
  object s ⊆ object s' →
  (∀ k v, object s' !! k = Some v →
     object s !! k = Some v
     ∨ ∃ c, c ∈ calls s ∧ call_id c = k
            ∧ Node.settled (call_result c) = Some (Returned v)) →
  calls s' = calls s →
  (queueRejected s' = None → queueRejected s = None) →
  informed r seeded s'.
Proof.
  intros [H1 H2 H3 H4 H6 H5] Hsub Hnew Hcalls Hclean.
  split; rewrite ?Hcalls; try done.
  - intros c Hc. etrans; [by apply H1|done].
  - intros [Hj Hd]. apply H3. split; [by apply Hclean|].
    unfold decided in *. by rewrite <- Hcalls.
  - by etrans.
  - intros k v Hk Hne. destruct (Hnew k v Hk) as [Hold|?]; [|done].
    by apply H5.
Qed.

Lemma informed_iterate seeded s :
  informed r seeded s → invariant r s → informed r seeded (iterate r s).
Proof.
  intros [H1 H2 H3 H4 H6 H5] Hinv.
  destruct (iterate_observed s) as (Ho & _ & _ & l & Hcalls & Hl & _).
  assert (undisturbed (iterate r s) → undisturbed s) as Hund.
  { intros [Hj Hd]. split; [by rewrite <- iterate_queueRejected|].
    intros c Hc. apply Hd. rewrite Hcalls, elem_of_app. by left. }
  split; rewrite ?Ho, ?Hcalls.
  - intros c [Hc|Hc]%elem_of_app; [by apply H1|].
    apply elem_of_calls_of in Hc as (-> & _). done.
  - intros i j ci cj Hij Hi Hj.
    destruct (proj1 (lookup_app_Some _ _ _ _) Hj) as [Hj'|[Hlen Hj']].
    + rewrite lookup_app_l in Hi by (apply lookup_lt_Some in Hj'; lia).
      by eapply H2.
    + apply list_elem_of_lookup_2, elem_of_calls_of in Hj' as (-> & _).
      destruct (proj1 (lookup_app_Some _ _ _ _) Hi) as [Hi'|[_ Hi']].
      * apply H1. by eapply list_elem_of_lookup_2.
      * by apply list_elem_of_lookup_2, elem_of_calls_of in Hi' as (-> & _).
  - intros Hu%Hund j c d Hj Hd.
    destruct (proj1 (lookup_app_Some _ _ _ _) Hj) as [Hj'|[Hlen Hj']].
    + destruct (H3 Hu j c d Hj' Hd) as (i & c' & v & Hij & Hi & Hinf).
      exists i, c', v. split_and!; try done. by apply lookup_app_l_Some.
    + apply list_elem_of_lookup_2, elem_of_calls_of in Hj'
        as (Hctx & Hid & _).
      destruct (ready_dependency_result s (call_id c) d Hinv Hu (Hl _ Hid) Hd)
        as (i & c' & v & Hi & Hcid & Hv & Hst & Hobj).
      exists i, c', v. split_and!.
      * apply lookup_lt_Some in Hi. lia.
      * by apply lookup_app_l_Some.
      * unfold informs. by rewrite Hctx.
  - done.
  - intros c [Hc|Hc]%elem_of_app; [by apply H6|].
    apply elem_of_calls_of in Hc as (-> & _). done.
  - intros k v Hk Hne. destruct (H5 k v Hk Hne) as (c & Hc & ?).
    exists c. split; [|done]. apply elem_of_app. by left.
Qed.

Lemma step_informed seeded s e s' :
  invariant r s → informed r seeded s → step r s e = Some s' →
  informed r seeded s'.
Proof.
  intros Hinv Hinf Hstep. pose proof Hinv as [[Hcs Hrc _] _].
  assert (e = Resume ∨ e ≠ Resume) as [->|Hne]
    by (destruct e; auto; by right).
  { simpl in Hstep. destruct (loop s); try done.
    - injection Hstep as <-. by apply informed_iterate.
    - case_match; [|done]. injection Hstep as <-. by apply informed_iterate. }
  apply (informed_calls seeded s s'); try done.
  - by eapply step_object_grows.
  - intros k v Hk.
    destruct (step_object r Hr s e s' Hcs Hstep)
      as [Ho|(id & v' & rest & Hq & _ & Ho & _)]; [left; congruence|].
    rewrite Ho in Hk. destruct (decide (id = k)) as [->|Hk'].
    + rewrite lookup_insert_eq in Hk. injection Hk as ->. right.
      assert ((k, v) ∈ updateQueue s) as Hin by (rewrite Hq; left).
      apply (cs_queue r _ _ Hcs) in Hin.
      by destruct (rc_inupdate r _ _ Hrc k v Hin) as [? _].
    + rewrite lookup_insert_ne in Hk by done. by left.
  - by eapply step_calls.
  - by eapply step_clean.
Qed.

Lemma exec_informed seeded schedule s s' :
  invariant r s → informed r seeded s → exec r s schedule = Some s' →
  informed r seeded s'.
Proof.
  revert s. induction schedule as [|e schedule IH]; intros s Hinv Hinf; simpl.
  - by intros [= <-].
  - destruct (step r s e) as [s1|] eqn:He; [|done].
    apply IH; [by eapply step_invariant|by eapply step_informed].
Qed.

Lemma init_informed status0 queue0 s0 :
  init r status0 queue0 = Returned s0 →
  seed r = Returned (object s0) ∧ informed r (object s0) s0.
Proof.
  unfold init. case_match; [done|].
  destruct (seed r) as [o|] eqn:Hseed; [|done].
  destruct (initial_ready r _) as [ready|]; [|done].
  intros [= <-]. split; [done|]. split; simpl; try done.
  - by intros c ?%elem_of_nil.
  - by intros c ?%elem_of_nil.
  - intros k v Hk Hne. exfalso.
    destruct (seed_singleton r o Hseed) as [x ->].
    by rewrite lookup_singleton_ne in Hk.
Qed.

Lemma run_informed status0 queue0 s0 schedule s :
  init r status0 queue0 = Returned s0 → exec r s0 schedule = Some s →
  informed r (object s0) s.
Proof.
  intros H0 He.
  eapply exec_informed; [|by apply init_informed in H0 as [_ ?]|done].
  by eapply init_invariant.
Qed.

(** The results of all the dependencies, direct or not, are in the
    context a node is run with. *)
Lemma informed_transitively seeded s j c d :
  informed r seeded s → undisturbed s →
  calls s !! j = Some c →
  depends_transitively deps (call_id c) d →
  ∃ i c' v, i < j ∧ calls s !! i = Some c' ∧ informs c' d v c.
Proof.
  intros Hinf Hu Hj Hp. remember (call_id c) as x eqn:Hx.
  revert j c Hj Hx. unfold depends_transitively in Hp.
  induction Hp as [x d Hd|x y d Hd Hp IH]; intros j c Hj ->.
  - by apply (inf_dependencies r _ _ Hinf Hu).
  - destruct (inf_dependencies r _ _ Hinf Hu j c y Hj Hd)
      as (i & c' & v & Hij & Hi & <- & _).
    destruct (IH i c' Hi eq_refl) as (i' & c'' & v' & Hii & Hi' & Hc & Hv & Hs & Hl).
    exists i', c'', v'. split_and!; try done; [lia|].
    unfold informs. split_and!; try done.
    eapply lookup_weaken; [exact Hl|].
    apply (inf_growing r _ _ Hinf i j); [lia|done..].
Qed.

(* --------------------------------------------------------------------- *)

Lemma event_of_mono q q' c e :
  q' = q ∨ q = None → event_of q c e → event_of q' c e.
Proof.
  intros Hq [Hid Hev]. split; [done|].
  destruct (Node.settled (call_result c)) as [[v|t]|]; try done.
  destruct Hev as [?|(reason & Hr' & ?)]; [by left|right].
  exists reason. split; [|done]. destruct Hq; congruence.
Qed.

Lemma reported_fields s s' :
  reported r s → events s' = events s → completed s' = completed s →
  (∀ c, c ∈ calls s → c ∈ calls s') →
  queueRejected s' = queueRejected s ∨ queueRejected s = None →
  (∀ id reason, running s' !! id = Some (UpdateRejected reason) →
     running s !! id = Some (UpdateRejected reason)
     ∨ ∃ c v, c ∈ calls s ∧ call_id c = id
              ∧ Node.settled (call_result c) = Some (Returned v)) →
  reported r s'.
Proof.
  intros [H1 H2 H3 H4] He Hc Hcalls Hq Hrun. split; rewrite ?He, ?Hc; try done.
  - intros e Hin. destruct (H1 e Hin) as (? & c & n & ? & ? & ? & ?).
    split; [done|]. exists c, n. split_and!; [by apply Hcalls|done..|].
    by eapply event_of_mono.
  - intros id reason Hid.
    destruct (Hrun id reason Hid) as [Hold|(c & v & ? & ? & ?)].
    + destruct (H4 id reason Hold) as (c & v & ? & ? & ?).
      exists c, v. split_and!; [by apply Hcalls|done..].
    + exists c, v. split_and!; [by apply Hcalls|done..].
Qed.

Lemma reported_notify s s1 id n ev c :
  reported r s →
  events s1 = events s → completed s1 = {[id]} ∪ completed s →
  calls s1 = calls s → running s1 = running s →
  queueRejected s1 = queueRejected s →
  id ∉ completed s → JsMap.get nodes id = Some n →
  c ∈ calls s → call_id c = id → event_of (queueRejected s) c ev →
  reported r (notify r s1 id n ev).
Proof.
  intros [H1 H2 H3 H4] He Hc Hcalls Hrun Hq Hid Hn Hin Hcid Hev.
  assert (∀ e, e ∈ events s →
    ev_nodeId e ∈ {[id]} ∪ completed s
    ∧ ∃ c n, c ∈ calls s ∧ JsMap.get nodes (call_id c) = Some n
             ∧ is_Some (Node.onCompleted n)
             ∧ event_of (queueRejected s) c e) as H1'.
  { intros e He'. destruct (H1 e He') as [? ?]. split; [set_solver|done]. }
  unfold notify. destruct (Node.onCompleted n) as [h|] eqn:Hh.
  - split; simpl; rewrite ?He, ?Hc, ?Hcalls, ?Hq.
    + intros e [He' | ->%list_elem_of_singleton]%elem_of_app; [by apply H1'|].
      destruct Hev as [Hnode Hrest]. split; [rewrite Hnode, Hcid; set_solver|].
      exists c, n. rewrite Hcid. split_and!; try done.
    + rewrite fmap_app. apply NoDup_app. split_and!; [done| |apply NoDup_singleton].
      intros x (e & -> & He')%list_elem_of_fmap.
      simpl. intros Hx%list_elem_of_singleton.
      destruct Hev as [Hnode _]. rewrite Hnode, Hcid in Hx.
      destruct (H1 e He') as [Hdone _]. congruence.
    + intros id' n' [->%elem_of_singleton|Hdone]%elem_of_union Hn' Hh'.
      * rewrite fmap_app, elem_of_app. right. simpl.
        destruct Hev as [-> _]. rewrite Hcid. left.
      * rewrite fmap_app, elem_of_app. left. by eapply H3.
    + intros id' reason. rewrite Hrun, lookup_insert.
      case_decide; [done|]. apply H4.
  - unfold finally. split; simpl; rewrite ?He, ?Hc, ?Hcalls, ?Hq; try done.
    + intros id' n' [->%elem_of_singleton|Hdone]%elem_of_union Hn' Hh'.
      * assert (n' = n) as -> by congruence.
        unfold Node.onCompleted in *. rewrite Hh in Hh'. by destruct Hh'.
      * by eapply H3.
    + intros id' reason. rewrite Hrun, lookup_delete.
      case_decide; [done|]. apply H4.
Qed.

Lemma no_key_in_flight s id p :
  consistent r (readyNodes s) s → running s !! id = Some p →
  id ∉ completed s → (∀ v, p ≠ InUpdate v) → object s !! id = None.
Proof.
  intros Hcs Hrun Hid Hp.
  destruct (object s !! id) as [x|] eqn:Hobj; [|done]. exfalso.
  destruct (cs_object r _ _ Hcs id) as [->|[?|(v' & Hv' & _)]];
    [eauto| |done|].
  - assert ("initial" ∈ keys) as Hk by (by eapply (cs_running r _ _ Hcs)).
    by destruct (rn_initial r Hr).
  - rewrite Hrun in Hv'. injection Hv' as ->. by destruct (Hp v').
Qed.

Lemma step_reported s e s' :
  invariant r s → reported r s → step r s e = Some s' → reported r s'.
Proof.
  intros Hinv Hrp. pose proof Hinv as [[Hcs Hrc _] _].
  destruct e as [|id| |id|id]; simpl.
  - intros Hstep.
    assert (s' = iterate r s) as ->.
    { destruct (loop s); try done; [by injection Hstep|].
      case_match; [by injection Hstep|done]. }
    destruct (iterate_observed s) as (_ & He & Hc & l & Hcalls & _).
    destruct (iterate_fields r Hr s Hinv) as (_ & _ & H1 & H2 & _).
    apply (reported_fields s); try done.
    + intros c Hc'. rewrite Hcalls. apply elem_of_app. by left.
    + left. apply iterate_queueRejected.
    + intros id reason Hid. left.
      destruct (decide (id ∈ readyNodes s)) as [Hin|Hin].
      * destruct (H2 id Hin) as (_ & _ & [Hn|[res Hres]]); congruence.
      * by rewrite <- H1.
  - destruct (running s !! id) as [[res| | |]|] eqn:Hrun; try done.
    destruct (JsMap.get nodes id) as [n|] eqn:Hn; [|done].
    destruct (Node.settled res) as [[v|err]|] eqn:Hres; [| |done];
      intros [= <-]; unfold settle; rewrite Hres.
    + apply (reported_fields s); try done; [by left|]. simpl.
      intros id' reason. rewrite lookup_insert. case_decide; [done|]. auto.
    + destruct (rc_inrun r _ _ Hrc id res Hrun) as [ctx Hc].
      assert (id ∉ completed s) as Hid.
      { intros Hin. by apply (cs_phase r _ _ Hcs id _ Hrun) in Hin. }
      unfold fail. eapply (reported_notify s); try done; simpl.
      split; [done|]. simpl. rewrite Hres. split_and!; try done.
      by eapply no_key_in_flight.
  - destruct (updateQueue s) as [|[id v] rest] eqn:Hq; [done|].
    intros [= <-].
    assert (running s !! id = Some (InUpdate v)) as Hid.
    { apply (cs_queue r _ _ Hcs). rewrite Hq. left. }
    assert (∀ reason, queueRejected s = None ∨ queueRejected s = Some reason →
              reported r (reject_update s id rest reason)) as Hrej.
    { intros reason Hj. apply (reported_fields s); try done.
      - simpl. destruct Hj as [?|?]; [by right|left; congruence].
      - simpl. intros id' reason'. rewrite lookup_insert.
        case_decide; [subst id'|by left]. intros _. right.
        destruct (rc_inupdate r _ _ Hrc id v Hid) as [(c & ? & ? & ?) _].
        by exists c, v. }
    unfold apply_update. simpl.
    destruct (queueRejected s) as [reason|] eqn:Hj; [apply Hrej; by right|].
    destruct (Context.update (object s) id v); [|apply Hrej; by left].
    apply (reported_fields s); try done; simpl; [by left|auto].
  - destruct (running s !! id) as [[|v|reason|]|] eqn:Hrun; try done.
    + destruct (JsMap.get nodes id) as [n|] eqn:Hn; [|done].
      case_bool_decide as Hq; [done|]. intros [= <-]. unfold continue.
      destruct (rc_inupdate r _ _ Hrc id v Hrun) as [(c & Hc & Hcid & Hv) Hobj].
      assert (id ∉ completed s) as Hid.
      { intros Hin. by apply (cs_phase r _ _ Hcs id _ Hrun) in Hin. }
      eapply (reported_notify s); try done.
      split; [by rewrite Hcid|]. simpl. rewrite Hv, Hcid.
      left. split_and!; try done. by apply Hobj.
    + destruct (JsMap.get nodes id) as [n|] eqn:Hn; [|done].
      intros [= <-]. unfold fail.
      destruct (rp_rejected r _ Hrp id reason Hrun) as (c & v & Hc & Hcid & Hv).
      assert (id ∉ completed s) as Hid.
      { intros Hin. by apply (cs_phase r _ _ Hcs id _ Hrun) in Hin. }
      eapply (reported_notify s); try done.
      split; [by rewrite Hcid|]. simpl. rewrite Hv, Hcid.
      right. exists reason. split; [by apply (cs_rejected r _ _ Hcs id)|].
      split_and!; try done. by eapply no_key_in_flight.
  - destruct (running s !! id) as [[| | |]|] eqn:Hrun; try done.
    intros [= <-].
    apply (reported_fields s); try done; simpl; [by left|].
    intros id' reason. rewrite lookup_delete. case_decide; [done|]. auto.
Qed.

Lemma exec_reported schedule s s' :
  invariant r s → reported r s → exec r s schedule = Some s' →
  reported r s'.
Proof.
  revert s. induction schedule as [|e schedule IH]; intros s Hinv Hinf; simpl.
  - by intros [= <-].
  - destruct (step r s e) as [s1|] eqn:He; [|done].
    apply IH; [by eapply step_invariant|by eapply step_reported].
Qed.

Lemma run_reported status0 queue0 s0 schedule s :
  init r status0 queue0 = Returned s0 → exec r s0 schedule = Some s →
  reported r s.
Proof.
  intros H0 He. eapply exec_reported; [by eapply init_invariant| |done].
  unfold init in H0. case_match; [done|].
  destruct (seed r) as [o|]; [|done].
  destruct (initial_ready r _) as [ready|]; [|done].
  injection H0 as <-. split; simpl.
  - by intros e ?%elem_of_nil.
  - constructor.
  - intros id n Hid. set_solver.
  - intros id reason. by rewrite lookup_empty.
Qed.

(* --------------------------------------------------------------------- *)

Lemma step_status s e s' k :
  invariant r s → step r s e = Some s' →
  (∀ c, c ∈ calls s' → call_id c = k → Node.status (call_result c) = None) →
  status s' !! k = status s !! k.
Proof.
  intros Hinv. pose proof Hinv as [[Hcs Hrc _] _].
  destruct e as [|id| |id|id]; simpl.
  - intros Hstep.
    assert (s' = iterate r s) as ->.
    { destruct (loop s); try done; [by injection Hstep|].
      case_match; [by injection Hstep|done]. }
    destruct (iterate_observed s) as (_ & _ & _ & l & Hcalls & Hl & Hst).
    rewrite Hcalls. intros Hk. apply Hst.
    intros c Hc. apply Hk, elem_of_app. by right.
  - destruct (running s !! id) as [[res| | |]|] eqn:Hrun; try done.
    destruct (JsMap.get nodes id) as [n|] eqn:Hn; [|done].
    destruct (rc_inrun r _ _ Hrc id res Hrun) as [ctx Hc].
    assert (∀ s1, calls s1 = calls s →
      (∀ c, c ∈ calls s1 → call_id c = k →
            Node.status (call_result c) = None) →
      match Node.status res with
      | Some x => <[id:=x]> (status s)
      | None => status s
      end !! k = status s !! k) as Hsame.
    { intros s1 E Hk. destruct (Node.status res) as [x|] eqn:Hx; [|done].
      apply lookup_insert_ne. intros ->.
      rewrite E in Hk. specialize (Hk _ Hc eq_refl). simpl in Hk.
      congruence. }
    destruct (Node.settled res) as [[v|err]|] eqn:Hres; [| |done];
      intros [= <-]; unfold settle; rewrite Hres.
    + simpl. by apply Hsame.
    + unfold fail.
      match goal with |- context [notify r ?s1 id n ?ev] =>
        destruct (notify_fields r s1 id n ev) as (_&_&->&_&_&->&_) end.
      simpl. by apply (Hsame s).
  - destruct (updateQueue s) as [|[id v] rest]; [done|]. intros [= <-] _.
    unfold apply_update, reject_update. by repeat case_match.
  - destruct (running s !! id) as [[|v|reason|]|] eqn:Hrun; try done.
    + destruct (JsMap.get nodes id) as [n|] eqn:Hn; [|done].
      case_bool_decide as Hq; [done|]. intros [= <-]. unfold continue.
      match goal with |- context [notify r ?s1 id n ?ev] =>
        destruct (notify_fields r s1 id n ev) as (_&_&->&_&_&->&_) end.
      done.
    + destruct (JsMap.get nodes id) as [n|] eqn:Hn; [|done].
      intros [= <-]. unfold fail.
      match goal with |- context [notify r ?s1 id n ?ev] =>
        destruct (notify_fields r s1 id n ev) as (_&_&->&_&_&->&_) end.
      done.
  - destruct (running s !! id) as [[| | |]|]; try done. by intros [= <-].
Qed.

Lemma exec_untouched status0 schedule s s' :
  invariant r s → untouched status0 s → exec r s schedule = Some s' →
  untouched status0 s'.
Proof.
  revert s. induction schedule as [|e schedule IH]; intros s Hinv Hun; simpl.
  - by intros [= <-].
  - destruct (step r s e) as [s1|] eqn:He; [|done].
    apply IH; [by eapply step_invariant|].
    intros k Hk. rewrite (step_status s e s1 k Hinv He Hk). apply Hun.
    intros c Hc. apply Hk. by eapply step_calls_incl.
Qed.

Lemma run_untouched status0 queue0 s0 schedule s :
  init r status0 queue0 = Returned s0 → exec r s0 schedule = Some s →
  untouched status0 s.
Proof.
  intros H0 He. eapply exec_untouched; [by eapply init_invariant| |done].
  unfold init in H0. case_match; [done|].
  destruct (seed r) as [o|]; [|done].
  destruct (initial_ready r _) as [ready|]; [|done].
  injection H0 as <-. by intros k _.
Qed.

End observed_steps.

(* ===================================================================== *)
(** ** Runs: what the nodes are told and what is reported *)
(* ===================================================================== *)

(** X10: in a run, [run] is invoked at most once for each node, only for
    registered nodes, and with the context current at that moment: a
    context that holds the initial value the run was seeded with and that
    every later context extends. *)
Theorem each_node_runs_at_most_once r status0 queue0 s0 schedule s :
  built r → init r status0 queue0 = Returned s0 →
  exec r s0 schedule = Some s →
  NoDup (call_id <$> calls s)
  ∧ length (calls s) ≤ length (WorkflowRunner.nodes r)
  ∧ ∀ c, c ∈ calls s →
      ∃ n, JsMap.get (WorkflowRunner.nodes r) (call_id c) = Some n
        ∧ call_result c = Node.run n (call_ctx c)
        ∧ object s0 ⊆ call_ctx c ∧ call_ctx c ⊆ object s.
Proof.
  intros Hr%built_runnable H0 He.
  pose proof (run_invariant r Hr _ _ _ _ _ H0 He) as [[Hcs Hrc _] _].
  pose proof (run_informed r Hr _ _ _ _ _ H0 He) as Hinf.
  assert (∀ c, c ∈ calls s →
      ∃ n, JsMap.get (WorkflowRunner.nodes r) (call_id c) = Some n
        ∧ call_result c = Node.run n (call_ctx c)
        ∧ object s0 ⊆ call_ctx c ∧ call_ctx c ⊆ object s) as Hcalls.
  { intros c Hc. destruct (rc_run r _ _ Hrc c Hc) as (n & Hn & Hres).
    exists n. split_and!; try done.
    - by apply (inf_initial r _ _ Hinf).
    - by apply (inf_object r _ _ Hinf). }
  split_and!; [apply Hrc| |done].
  rewrite <- (length_fmap call_id), <- (length_fmap fst (WorkflowRunner.nodes r)).
  apply submseteq_length, NoDup_submseteq; [apply Hrc|].
  intros id (c & -> & Hc)%list_elem_of_fmap.
  destruct (Hcalls c Hc) as (n & Hn & _).
  apply JsMap_get_is_Some. eauto.
Qed.

Lemma each_node_runs_at_most_once_witness :
  ∃ s0 s, init (runner_of hooked no_hook) ∅ None = Returned s0
    ∧ exec (runner_of hooked no_hook) s0 hooked_schedule = Some s
    ∧ NoDup (call_id <$> calls s)
    ∧ length (calls s) ≤ 2.
Proof.
  set (r := runner_of hooked no_hook).
  destruct (init r ∅ None) as [s0|] eqn:H0; [|vm_compute in H0; discriminate H0].
  destruct (exec r s0 hooked_schedule) as [s|] eqn:He.
  2:{ vm_compute in H0. injection H0 as <-. vm_compute in He.
      discriminate He. }
  destruct (each_node_runs_at_most_once r ∅ None s0 hooked_schedule s
              hooked_built H0 He) as (Hnd & Hlen & _).
  exists s0, s. split; [reflexivity|]. split; [exact He|].
  split; [exact Hnd|exact Hlen].
Defined.

(** X11: up to a point of a run at which no update of the context has been
    rejected, in this run or in an earlier one, and every call of [run]
    has written a status (no [enabled] callback threw): when [run] was
    invoked for a node, each node it depends on, directly or through other
    nodes, had been run earlier in the same run, had its [execute] invoked
    and resolved, and its result is in the context handed to [run] under
    its id. *)
Theorem run_sees_dependency_results r status0 queue0 s0 schedule s j c d :
  built r → init r status0 queue0 = Returned s0 →
  exec r s0 schedule = Some s →
  undisturbed s →
  calls s !! j = Some c →
  depends_transitively (WorkflowRunner.nodeDependencies r) (call_id c) d →
  ∃ i c' v, i < j ∧ calls s !! i = Some c' ∧ call_id c' = d
    ∧ Node.settled (call_result c') = Some (Returned v)
    ∧ 0 < Node.executeCalls (call_result c')
    ∧ call_ctx c !! d = Some v.
Proof.
  intros Hr%built_runnable H0 He Hu Hj Hp.
  pose proof (run_invariant r Hr _ _ _ _ _ H0 He) as [[Hcs Hrc _] _].
  pose proof (run_informed r Hr _ _ _ _ _ H0 He) as Hinf.
  destruct (informed_transitively r _ _ j c d Hinf Hu Hj Hp)
    as (i & c' & v & Hij & Hi & Hid & Hv & Hst & Hl).
  exists i, c', v. split_and!; try done.
  destruct (rc_run r _ _ Hrc c') as (n & Hn & Hres);
    [by eapply list_elem_of_lookup_2|].
  rewrite Hres in Hst |- *. by apply run_status in Hst as (? & _ & ?).
Qed.

Lemma run_sees_dependency_results_witness :
  ∃ s0 s c, init (runner_of hooked no_hook) ∅ None = Returned s0
    ∧ exec (runner_of hooked no_hook) s0 hooked_schedule = Some s
    ∧ calls s !! 1 = Some c ∧ call_id c = "B"
    ∧ call_ctx c !! "A" = Some (int 1).
Proof.
  set (r := runner_of hooked no_hook).
  destruct (init r ∅ None) as [s0|] eqn:H0; [|vm_compute in H0; discriminate H0].
  destruct (exec r s0 hooked_schedule) as [s|] eqn:He.
  2:{ vm_compute in H0. injection H0 as <-. vm_compute in He.
      discriminate He. }
  assert (∃ c, calls s !! 1 = Some c ∧ call_id c = "B") as (c & Hc & Hid).
  { vm_compute in H0. injection H0 as <-. vm_compute in He.
    injection He as <-. eexists. split; reflexivity. }
  assert (undisturbed s) as Hu.
  { clear - H0 He. vm_compute in H0. injection H0 as <-. vm_compute in He.
    injection He as <-. split; [reflexivity|]. intros c' Hc'.
    cbn [calls] in Hc'.
    repeat (apply elem_of_cons in Hc' as [->|Hc']; [by eexists|]).
    by apply elem_of_nil in Hc'. }
  destruct (run_sees_dependency_results r ∅ None s0 hooked_schedule s 1 c "A"
              hooked_built H0 He Hu Hc)
    as (i & c' & v & Hi & Hc' & Hid' & Hv & _ & Hctx).
  { rewrite Hid. apply tc_once. vm_compute. left. }
  exists s0, s, c. split; [reflexivity|]. split; [exact He|].
  split; [exact Hc|]. split; [exact Hid|]. rewrite Hctx. f_equal.
  clear - H0 He Hc Hctx. vm_compute in H0. injection H0 as <-.
  vm_compute in He. injection He as <-.
  vm_compute in Hc. injection Hc as <-. vm_compute in Hctx.
  by injection Hctx as <-.
Defined.

(** X12: the context that a finished run leaves holds the key ["initial"]
    with the value the run was seeded with, and beside it only keys of
    nodes whose [run] resolved, each with the value it resolved to.  When
    no update of the context was rejected, in this run or in an earlier
    one, every node whose [run] resolved has its key. *)
Theorem final_context_keys r status0 queue0 schedule t s :
  built r → trigger r status0 queue0 schedule = Some t → final t = Some s →
  ∃ seeded, seed r = Returned seeded
    ∧ object s !! "initial" = seeded !! "initial"
    ∧ (∀ k v, object s !! k = Some v → k ≠ "initial" →
         ∃ c, c ∈ calls s ∧ call_id c = k
              ∧ Node.settled (call_result c) = Some (Returned v))
    ∧ (queueRejected s = None →
       ∀ c v, c ∈ calls s →
         Node.settled (call_result c) = Some (Returned v) →
         object s !! call_id c = Some v).
Proof.
  intros Hb Ht Hs. pose proof (built_runnable r Hb) as Hr.
  destruct (trigger_final r _ _ _ _ _ Ht Hs) as (s0 & H0 & He & Hover & ->).
  pose proof (run_invariant r Hr _ _ _ _ _ H0 He) as Hinv.
  pose proof (over_exited r s Hinv Hover) as Hl.
  pose proof Hinv as [[Hcs Hrc _] _].
  pose proof (run_informed r Hr _ _ _ _ _ H0 He) as Hinf.
  destruct (init_informed r status0 queue0 s0 H0) as [Hseed _].
  exists (object s0). split; [done|].
  destruct (seed_singleton r _ Hseed) as [x Hx].
  split_and!.
  - rewrite Hx, lookup_singleton_eq.
    eapply lookup_weaken; [|apply (inf_seeded r _ _ Hinf)].
    by rewrite Hx, lookup_singleton_eq.
  - intros k v Hk Hne. by apply (inf_results r _ _ Hinf).
  - intros Hj c v Hc Hv. apply (rc_result r _ _ Hrc Hj c); [done| |done].
    by apply (exited_call_completed r).
Qed.

Lemma final_context_keys_witness :
  ∃ t s, trigger (runner_of failing_branch quiet_hook) ∅ None
           failing_branch_schedule = Some t
    ∧ final t = Some s
    ∧ object s !! "initial" = Some JUndefined.
Proof.
  set (r := runner_of failing_branch quiet_hook).
  destruct (trigger r ∅ None failing_branch_schedule) as [t|] eqn:Ht;
    [|vm_compute in Ht; discriminate Ht].
  destruct (final t) as [s|] eqn:Hs;
    [|vm_compute in Ht; injection Ht as <-; discriminate Hs].
  destruct (final_context_keys r ∅ None failing_branch_schedule t s
              failing_branch_built Ht Hs) as (seeded & Hseed & Hinit & _).
  exists t, s. split; [reflexivity|]. split; [exact Hs|].
  rewrite Hinit.
  assert (seed r = Returned {[ "initial" := JUndefined ]}) as Hseed'
    by reflexivity.
  rewrite Hseed' in Hseed. injection Hseed as <-. reflexivity.
Defined.

(** X13: in a finished run every node that was started and has an
    [onCompleted] hook got exactly one completion event, and no other
    event was emitted.  When [run] resolved and the update of the context
    was applied, the event has the status ["completed"] (also for a
    skipped node, whose result is [null]), the result, no error, and a
    context that already holds the result under the id of the node.  When
    [run] rejected, or when [run] resolved and the update of the context
    was rejected, the event has the status ["failed"], no result, a
    [NodeError] with the id of the node and what was caught if that is an
    [Error] and no error otherwise, and a context without a key for the
    node.  The context of every event is part of the final context. *)
Theorem completion_events r status0 queue0 schedule t s :
  built r → trigger r status0 queue0 schedule = Some t → final t = Some s →
  NoDup (ev_nodeId <$> events s)
  ∧ (∀ e, e ∈ events s →
       ev_context e ⊆ object s
       ∧ ∃ c n, c ∈ calls s
           ∧ JsMap.get (WorkflowRunner.nodes r) (call_id c) = Some n
           ∧ is_Some (Node.onCompleted n)
           ∧ event_of (queueRejected s) c e)
  ∧ (∀ c n, c ∈ calls s →
       JsMap.get (WorkflowRunner.nodes r) (call_id c) = Some n →
       is_Some (Node.onCompleted n) →
       ∃ e, e ∈ events s ∧ event_of (queueRejected s) c e).
Proof.
  intros Hb Ht Hs. pose proof (built_runnable r Hb) as Hr.
  destruct (trigger_final r _ _ _ _ _ Ht Hs) as (s0 & H0 & He & Hover & ->).
  pose proof (run_invariant r Hr _ _ _ _ _ H0 He) as Hinv.
  pose proof (over_exited r s Hinv Hover) as Hl.
  pose proof Hinv as [[Hcs Hrc _] _].
  pose proof (run_reported r Hr _ _ _ _ _ H0 He) as [H1 H2 H3 _].
  split_and!; [done| |].
  - intros e Hin. split; [by apply (cs_events r _ _ Hcs)|].
    by destruct (H1 e Hin) as [_ ?].
  - intros c n Hc Hn Hh.
    assert (call_id c ∈ ev_nodeId <$> events s)
      as (e & Hid & Hin)%list_elem_of_fmap.
    { apply (H3 _ n); [|done..]. by apply (exited_call_completed r). }
    exists e. split; [done|].
    destruct (H1 e Hin) as (_ & c' & n' & Hc' & _ & _ & Hev).
    assert (c' = c) as ->; [|done].
    apply (same_call (calls s)); [apply Hrc|done..|].
    destruct Hev as [<- _]. done.
Qed.

Lemma completion_events_witness :
  ∃ t s, trigger (runner_of hooked no_hook) ∅ None hooked_schedule = Some t
    ∧ final t = Some s
    ∧ NoDup (ev_nodeId <$> events s).
Proof.
  set (r := runner_of hooked no_hook).
  destruct (trigger r ∅ None hooked_schedule) as [t|] eqn:Ht;
    [|vm_compute in Ht; discriminate Ht].
  destruct (final t) as [s|] eqn:Hs;
    [|vm_compute in Ht; injection Ht as <-; discriminate Hs].
  destruct (completion_events r ∅ None hooked_schedule t s hooked_built Ht Hs)
    as (Hnd & _).
  exists t, s. split; [reflexivity|]. split; [exact Hs|exact Hnd].
Defined.

(** X14: after a finished run, the status of a started node whose [run]
    wrote a status is the last one it wrote: ["completed"], ["failed"],
    ["skipped"], or ["running"] when an exception left [run] from inside
    its [catch] block; it is never ["pending"], and [run] resolved exactly
    when it is ["completed"] or ["skipped"].  The status of every other
    node, never started or started with an [enabled] callback that threw,
    is what it was when [trigger] was called. *)
Theorem statuses_after_run r status0 queue0 schedule t s id :
  built r → trigger r status0 queue0 schedule = Some t → final t = Some s →
  id ∈ JsMap.keys (WorkflowRunner.nodes r) →
  (∃ c x, c ∈ calls s ∧ call_id c = id
     ∧ Node.status (call_result c) = Some x
     ∧ status_of (status s) id = x
     ∧ x ≠ NodeStatus.pending
     ∧ ((∃ v, Node.settled (call_result c) = Some (Returned v))
        ↔ x = NodeStatus.completed ∨ x = NodeStatus.skipped))
  ∨ ((id ∉ call_id <$> calls s
      ∨ ∃ c, c ∈ calls s ∧ call_id c = id
             ∧ Node.status (call_result c) = None)
     ∧ status s !! id = status0 !! id).
Proof.
  intros Hb Ht Hs Hid. pose proof (built_runnable r Hb) as Hr.
  destruct (trigger_final r _ _ _ _ _ Ht Hs) as (s0 & H0 & He & Hover & ->).
  pose proof (run_invariant r Hr _ _ _ _ _ H0 He) as Hinv.
  pose proof (over_exited r s Hinv Hover) as Hl.
  pose proof Hinv as [[Hcs Hrc _] _].
  pose proof (run_untouched r Hr _ _ _ _ _ H0 He) as Hun.
  destruct (decide (id ∈ call_id <$> calls s)) as [Hin|Hin].
  - apply list_elem_of_fmap in Hin as (c & -> & Hc).
    destruct (rc_run r _ _ Hrc c Hc) as (n & Hn & Hres).
    destruct (Node.status (call_result c)) as [x|] eqn:Hx.
    + left.
      pose proof (rc_status r _ _ Hrc c x Hc Hx
        (or_introl (exited_call_completed r s c Hinv Hl Hc))) as Hst.
      exists c, x. split_and!; try done.
      * rewrite Hres in Hx. apply run_status in Hx. by destruct x.
      * rewrite Hres in Hx |- *. pose proof (run_status _ _ _ Hx) as Hrs.
        destruct x; simpl in Hrs.
        -- done.
        -- split; [intros [v Hv]; by destruct (Hrs v)|intros [|]; done].
        -- destruct Hrs as (v & -> & _). split; [by left|eauto].
        -- destruct Hrs as (e & ->).
           split; [by intros [v [=]]|intros [|]; done].
        -- destruct Hrs as (-> & _). split; [by right|eauto].
    + right. split; [right; by exists c|].
      apply Hun. intros c' Hc' Hid'.
      assert (c' = c) as -> by (eapply same_call; [apply Hrc|done..]).
      done.
  - right. split; [by left|]. apply Hun. intros c Hc Hid'. destruct Hin.
    apply list_elem_of_fmap. by exists c.
Qed.

Lemma statuses_after_run_witness :
  ∃ t s, trigger (runner_of failing_branch quiet_hook) ∅ None
           failing_branch_schedule = Some t
    ∧ final t = Some s
    ∧ status s !! "Y" = None.
Proof.
  set (r := runner_of failing_branch quiet_hook).
  destruct (trigger r ∅ None failing_branch_schedule) as [t|] eqn:Ht;
    [|vm_compute in Ht; discriminate Ht].
  destruct (final t) as [s|] eqn:Hs;
    [|vm_compute in Ht; injection Ht as <-; discriminate Hs].
  destruct (statuses_after_run r ∅ None failing_branch_schedule t s "Y"
              failing_branch_built Ht Hs) as [(c & x & Hc & Hid & _)|[_ Hst]].
  - vm_compute. repeat first [apply list_elem_of_here|apply list_elem_of_further].
  - exfalso. clear - Ht Hs Hc Hid.
    vm_compute in Ht. injection Ht as <-. injection Hs as <-.
    cbn [calls] in Hc.
    repeat (apply elem_of_cons in Hc as [->|Hc]; [discriminate Hid|]).
    by apply elem_of_nil in Hc.
  - exists t, s. split; [reflexivity|]. split; [exact Hs|]. exact Hst.
Defined.
(* ===================================================================== *)
(** ** Runs do not depend on the statuses left by earlier runs *)
(* ===================================================================== *)

Section same_runs.

Variable r : WorkflowRunner.t.
Hypothesis Hr : runnable r.

Local Notation nodes := (WorkflowRunner.nodes r).
Local Notation deps := (WorkflowRunner.nodeDependencies r).
Local Notation keys := (JsMap.keys (WorkflowRunner.nodes r)).

Lemma start_same_run s1 s2 id :
  same_run s1 s2 → same_run (start r s1 id) (start r s2 id).
Proof.
  intros (st & -> & Hag). unfold start, set_status. simpl.
  destruct (JsMap.get nodes id) as [n|]; simpl.
  - eexists. split; [reflexivity|]. simpl.
    intros c [Hc| ->%list_elem_of_singleton]%elem_of_app Hs; simpl.
    + destruct (Node.status (Node.run n (object s1))) as [x|];
        [|by apply Hag].
      destruct (decide (call_id c = id)) as [->|Hne].
      * destruct x; by rewrite !lookup_insert_eq.
      * destruct x; rewrite !lookup_insert_ne by done; by apply Hag.
    + simpl in Hs. destruct Hs as [x ->].
      destruct x; by rewrite !lookup_insert_eq.
  - eexists. split; [reflexivity|]. done.
Qed.

Lemma foldl_start_same_run l s1 s2 :
  same_run s1 s2 → same_run (foldl (start r) s1 l) (foldl (start r) s2 l).
Proof.
  revert s1 s2. induction l as [|id l IH]; intros s1 s2 H; simpl; [done|].
  by apply IH, start_same_run.
Qed.

Lemma same_run_fields s1 s2 :
  same_run s1 s2 →
  object s2 = object s1 ∧ updateQueue s2 = updateQueue s1
  ∧ completed s2 = completed s1 ∧ running s2 = running s1
  ∧ readyNodes s2 = readyNodes s1 ∧ loop s2 = loop s1
  ∧ errors s2 = errors s1 ∧ calls s2 = calls s1 ∧ events s2 = events s1
  ∧ queueRejected s2 = queueRejected s1.
Proof. by intros (st & -> & _). Qed.

Lemma iterate_same_run s1 s2 :
  same_run s1 s2 → same_run (iterate r s1) (iterate r s2).
Proof.
  intros H. pose proof H as (st & -> & Hag). unfold iterate. simpl.
  destruct (_ <? _).
  - assert (same_run (start_ready r s1) (start_ready r (set_status s1 st)))
      as H1.
    { unfold start_ready. simpl. apply foldl_start_same_run.
      exists st. split; [done|]. done. }
    destruct H1 as (st1 & -> & Hag1). simpl.
    destruct (loop (start_ready r s1)); try destruct (_ <? _);
      (eexists; split; [reflexivity|done]).
  - eexists. split; [reflexivity|done].
Qed.

Lemma scan_same_run s1 st ns ready :
  (∀ d, d ∈ completed s1 → status s1 !! d = st !! d) →
  scan r (set_status s1 st) ns ready = scan r s1 ns ready.
Proof.
  intros Hag. revert ready.
  induction ns as [|[id n] ns IH]; intros ready; simpl; [done|].
  rewrite IH. do 2 f_equal.
  assert (canRun r (set_status s1 st) n = canRun r s1 n) as ->; [|done].
  unfold canRun. f_equal.
  induction (DependencyMap.get deps (Node.id n)) as [|d ds IHd]; [done|].
  simpl. rewrite IHd. f_equal. unfold dependency_done. simpl.
  destruct (JsMap.get nodes d); [|done]. f_equal.
  destruct (bool_decide (d ∈ completed s1)) eqn:Hd; [|done].
  apply bool_decide_eq_true in Hd. simpl.
  unfold status_of. by rewrite (Hag d Hd).
Qed.

Lemma finally_same_run s1 s2 id :
  same_run s1 s2 → finished_decided s1 →
  same_run (finally r s1 id) (finally r s2 id).
Proof.
  intros (st & -> & Hag) Hdone. unfold finally. simpl.
  match goal with |- context [scan r ?s0 nodes (readyNodes s1)] =>
    match s0 with
    | context [st] =>
        change s0 with
          (set_status
             {| object := object s1; updateQueue := updateQueue s1;
                queueRejected := queueRejected s1;
                status := status s1; completed := completed s1;
                running := delete id (running s1);
                readyNodes := readyNodes s1; loop := loop s1;
                errors := errors s1; calls := calls s1;
                events := events s1 |} st)
    end
  end.
  rewrite scan_same_run.
  - eexists. split; [reflexivity|done].
  - simpl. intros d Hd. destruct (Hdone d Hd) as (c & Hc & <- & Hs).
    by apply Hag.
Qed.

Lemma notify_same_run s1 s2 id n ev :
  same_run s1 s2 → finished_decided s1 →
  same_run (notify r s1 id n ev) (notify r s2 id n ev).
Proof.
  intros H Hdone. unfold notify. destruct (Node.onCompleted n).
  - destruct H as (st & -> & Hag). simpl.
    eexists. split; [reflexivity|done].
  - by apply finally_same_run.
Qed.

Lemma fail_same_run s1 s2 id n err c :
  same_run s1 s2 → finished_decided s1 →
  c ∈ calls s1 → call_id c = id → is_Some (Node.status (call_result c)) →
  same_run (fail r s1 id n err) (fail r s2 id n err).
Proof.
  intros Hsame Hdone Hc Hid Hs. unfold fail.
  destruct (same_run_fields _ _ Hsame)
    as (Eo & Eq & Ec & Erun & Eready & El & Eerr & Ecalls & Eev & Ej).
  rewrite Eo, Eerr. apply notify_same_run.
  - destruct Hsame as (st & -> & Hag). eexists. split; [reflexivity|done].
  - simpl. intros d [->%elem_of_singleton|Hd]%elem_of_union; [|by apply Hdone].
    by exists c.
Qed.

Lemma step_same_run s1 s2 e s1' :
  invariant r s1 → decided s1' → same_run s1 s2 →
  step r s1 e = Some s1' →
  ∃ s2', step r s2 e = Some s2' ∧ same_run s1' s2'.
Proof.
  intros Hinv Hdec' Hsame Hstep. pose proof Hinv as [[Hcs Hrc _] _].
  assert (decided s1) as Hdec.
  { intros c Hc. apply Hdec'. by eapply step_calls_incl. }
  assert (finished_decided s1) as Hdone.
  { intros d Hd.
    assert (d ∈ call_id <$> calls s1) as (c & -> & Hc)%list_elem_of_fmap
      by (apply (rc_called r _ _ Hrc); by left).
    exists c. split_and!; [done..|]. by apply Hdec. }
  destruct (same_run_fields _ _ Hsame)
    as (Eo & Eq & Ec & Erun & Eready & El & Eerr & Ecalls & Eev & Ej).
  revert Hstep.
  destruct e as [|id| |id|id]; simpl; rewrite ?El, ?Erun, ?Eq.
  - destruct (loop s1).
    + intros [= <-]. eexists. split; [done|]. by apply iterate_same_run.
    + destruct (existsb _ _); [|done]. intros [= <-].
      eexists. split; [done|]. by apply iterate_same_run.
    + done.
    + done.
  - destruct (running s1 !! id) as [[res| | |]|] eqn:Hrun; try done.
    destruct (JsMap.get nodes id) as [n|] eqn:Hn; [|done].
    destruct (Node.settled res) as [out|] eqn:Hres; [|done].
    intros [= <-]. eexists. split; [done|].
    destruct (rc_inrun r _ _ Hrc id res Hrun) as [ctx Hc].
    pose proof (Hdec _ Hc) as [x Hx]. simpl in Hx.
    destruct Hsame as (st & -> & Hag). unfold settle. simpl.
    rewrite Hres, Hx.
    assert (∀ c, c ∈ calls s1 → is_Some (Node.status (call_result c)) →
              <[id:=x]> (status s1) !! call_id c
              = <[id:=x]> st !! call_id c) as Hag'.
    { intros c Hc' Hs. destruct (decide (id = call_id c)) as [->|];
        [by rewrite !lookup_insert_eq|].
      rewrite !lookup_insert_ne by done. by apply Hag. }
    destruct out as [v|err].
    + eexists. split; [reflexivity|done].
    + eapply fail_same_run; [| |exact Hc|done|simpl; eauto].
      * eexists. split; [reflexivity|done].
      * exact Hdone.
  - destruct (updateQueue s1) as [|[id v] rest]; [done|]. intros [= <-].
    eexists. split; [done|].
    destruct Hsame as (st & -> & Hag).
    unfold apply_update, reject_update. simpl.
    repeat case_match; (eexists; split; [reflexivity|done]).
  - destruct (running s1 !! id) as [[|v|reason|]|] eqn:Hrun; try done.
    + destruct (JsMap.get nodes id) as [n|] eqn:Hn; [|done].
      case_bool_decide as Hq; [done|]. intros [= <-].
      eexists. split; [done|]. unfold continue.
      destruct (rc_inupdate r _ _ Hrc id v Hrun) as [(c & Hc & Hcid & _) _].
      rewrite Eo.
      apply notify_same_run.
      * destruct Hsame as (st & -> & Hag). eexists. split; [reflexivity|done].
      * simpl. intros d [->%elem_of_singleton|Hd]%elem_of_union;
          [|by apply Hdone].
        exists c. split_and!; [done..|]. by apply Hdec.
    + destruct (JsMap.get nodes id) as [n|] eqn:Hn; [|done].
      intros [= <-]. eexists. split; [done|].
      assert (id ∈ call_id <$> calls s1) as (c & Hcid & Hc)%list_elem_of_fmap
        by (apply (rc_called r _ _ Hrc); right; eauto).
      eapply fail_same_run; [done..|by apply Hdec].
  - destruct (running s1 !! id) as [[| | |]|]; try done. intros [= <-].
    eexists. split; [done|]. by apply finally_same_run.
Qed.

Lemma exec_same_run schedule s1 s2 s1' :
  invariant r s1 → decided s1' → same_run s1 s2 →
  exec r s1 schedule = Some s1' →
  ∃ s2', exec r s2 schedule = Some s2' ∧ same_run s1' s2'.
Proof.
  revert s1 s2. induction schedule as [|e schedule IH];
    intros s1 s2 Hinv Hdec Hsame; simpl.
  - intros [= <-]. by exists s2.
  - destruct (step r s1 e) as [s1a|] eqn:He; [|done]. intros Hx.
    assert (decided s1a) as Hdeca.
    { intros c Hc. apply Hdec. by eapply exec_calls_incl. }
    destruct (step_same_run _ _ _ _ Hinv Hdeca Hsame He) as (s2a & -> & Hsame').
    apply (IH s1a); [by eapply step_invariant|done..].
Qed.

End same_runs.

(** X15: a run in which every call of [run] wrote a status (no [enabled]
    callback threw) does not depend on the statuses that the nodes carry
    from earlier runs: whatever these are, the same schedule is a run, with
    the same calls, events, errors and final context, the hook is called
    with the same arguments and [trigger] settles in the same way. *)
Theorem trigger_ignores_earlier_statuses r status0 status0' queue0 schedule t :
  built r → trigger r status0 queue0 schedule = Some t →
  (∀ s, final t = Some s → decided s) →
  ∃ t', trigger r status0' queue0 schedule = Some t'
    ∧ promise t' = promise t ∧ hookCalls t' = hookCalls t
    ∧ ∀ s, final t = Some s →
        ∃ s', final t' = Some s' ∧ object s' = object s
          ∧ errors s' = errors s ∧ calls s' = calls s
          ∧ events s' = events s.
Proof.
  intros Hb Ht Hdec. pose proof (built_runnable r Hb) as Hr.
  unfold trigger in *.
  assert (match init r status0 queue0 with
          | Returned s0 =>
              ∃ s0', init r status0' queue0 = Returned s0' ∧ same_run s0 s0'
          | Threw x => init r status0' queue0 = Threw x
          end) as Hinit.
  { unfold init.
    destruct (length (WorkflowRunner.topologicalOrder r) =? 0); [done|].
    destruct (seed r); [|done].
    destruct (initial_ready r _); [|done].
    eexists. split; [done|]. exists status0'. split; [done|].
    simpl. by intros id ?%elem_of_nil. }
  destruct (init r status0 queue0) as [s0|x] eqn:H0.
  - destruct Hinit as (s0' & -> & Hsame).
    destruct (exec r s0 schedule) as [s|] eqn:He; [|done].
    assert (is_over s = true → decided s) as Hdecs.
    { intros Hover. rewrite Hover in Ht. injection Ht as <-. apply Hdec.
      unfold conclude. by repeat case_match. }
    destruct (is_over s) eqn:Hover; [|done]. specialize (Hdecs eq_refl).
    destruct (exec_same_run r Hr schedule s0 s0' s
                (init_invariant r Hr _ _ _ H0) Hdecs Hsame He)
      as (s' & -> & Hs).
    destruct (same_run_fields _ _ Hs)
      as (Eo & Eq & Ec & Erun & Eready & El & Eerr & Ecalls & Eev & Ej).
    assert (is_over s' = true) as -> by (unfold is_over in *; by rewrite El).
    injection Ht as <-. eexists. split; [done|].
    unfold conclude. rewrite El, Eerr, Eo.
    destruct (loop s); simpl;
      (destruct (truthy_or (WorkflowRunner.onNodesCompleted r));
       [destruct (WorkflowRunner.onNodesCompleted r)|]);
      simpl; split_and!; try done;
      intros ? [= <-]; eexists; split_and!; done.
  - rewrite Hinit. injection Ht as <-. eexists. split; [done|].
    split_and!; try done.
Qed.

Lemma trigger_ignores_earlier_statuses_witness :
  ∃ t', trigger (runner_of failing_branch quiet_hook)
          {[ "Y" := NodeStatus.completed ]} None failing_branch_schedule
        = Some t'
    ∧ ∃ c, promise t' = Returned c.
Proof.
  set (r := runner_of failing_branch quiet_hook).
  destruct (trigger r ∅ None failing_branch_schedule) as [t|] eqn:Ht;
    [|vm_compute in Ht; discriminate Ht].
  destruct (trigger_ignores_earlier_statuses r ∅
              {[ "Y" := NodeStatus.completed ]} None failing_branch_schedule t
              failing_branch_built Ht) as (t' & Ht' & Hp & _).
  { clear - Ht. vm_compute in Ht. injection Ht as <-.
    intros s [= <-] c Hc. cbn [calls] in Hc.
    repeat (apply elem_of_cons in Hc as [->|Hc]; [by eexists|]).
    by apply elem_of_nil in Hc. }
  exists t'. split; [exact Ht'|]. rewrite Hp. clear - Ht.
  vm_compute in Ht. injection Ht as <-. eexists. reflexivity.
Defined.
(** ** [WorkflowRunner.printWorkflow] *)
(* ===================================================================== *)

Lemma sanitizeId_word id : all_word_units (sanitizeId id) = true.
Proof.
  induction id as [|a id IH]; [done|]. simpl. rewrite IH, andb_true_r.
  by destruct (is_word_unit a) eqn:Ha.
Qed.

Lemma sanitizeId_clean id : all_word_units id = true → sanitizeId id = id.
Proof.
  induction id as [|a id IH]; [done|]. simpl.
  intros [-> ?]%andb_true_iff. by rewrite IH.
Qed.

(** X16: [sanitizeId] keeps the length of the id, leaves only letters,
    digits and underscores, and returns an id made of such characters as
    it is, so that applying it twice is applying it once.  It is not
    injective: ids that differ in other characters only get the same
    Mermaid identifier. *)
Theorem sanitizeId_properties id :
  String.length (sanitizeId id) = String.length id
  ∧ all_word_units (sanitizeId id) = true
  ∧ (all_word_units id = true → sanitizeId id = id)
  ∧ sanitizeId (sanitizeId id) = sanitizeId id
  ∧ sanitizeId (id +:+ "-") = sanitizeId (id +:+ ".").
Proof.
  split_and!.
  - induction id as [|a id IH]; [done|]. simpl. by rewrite IH.
  - apply sanitizeId_word.
  - apply sanitizeId_clean.
  - apply sanitizeId_clean, sanitizeId_word.
  - induction id as [|a id IH]; [done|]. simpl. by rewrite IH.
Qed.

Lemma sanitizeId_properties_witness : sanitizeId "node_1" = "node_1".
Proof.
  destruct (sanitizeId_properties "node_1") as (_ & _ & H & _).
  apply H. reflexivity.
Defined.

Section printed.

Variable r : WorkflowRunner.t.

Lemma foldl_print_node ns p :
  foldl (print_node r) p ns
  = {| output := output (foldl (print_node r) p ns);
       edges := edges (foldl (print_node r) p ns) |}
  ∧ output (foldl (print_node r) p ns) = output p ++ (node_line <$> ns.*1)
  ∧ edges (foldl (print_node r) p ns)
    = foldl Set_add (edges p) (edge_lines r ns).
Proof.
  revert p. induction ns as [|[id n] ns IH]; intros p; simpl.
  { rewrite app_nil_r. by destruct p. }
  destruct (IH (print_node r p (id, n))) as (H1 & H2 & H3).
  split; [done|]. rewrite H2, H3. clear IH H1 H2 H3.
  assert (getNodeLabel r id = id) as Hlabel.
  { unfold getNodeLabel. by destruct (JsMap.get _ id). }
  unfold print_node, edge_lines. simpl. rewrite Hlabel.
  fold (node_line id).
  assert (∀ ds acc,
    foldl (fun es depId => Set_add es (edge_line (sanitizeId id) depId)) acc ds
    = foldl Set_add acc (edge_line (sanitizeId id) <$> ds)) as Hfold.
  { induction ds as [|d ds IHd]; intros acc; simpl; [done|]. by rewrite IHd. }
  destruct (DependencyMap.get (WorkflowRunner.nodeDependencies r) id)
    as [|d ds]; simpl.
  - split; [by rewrite <- app_assoc|done].
  - split; [by rewrite <- app_assoc|].
    rewrite foldl_app. simpl. by rewrite Hfold.
Qed.

End printed.

(** X17: on a runner without nodes [printWorkflow] returns
    ["Empty workflow"], which does not happen for a runner that [build]
    returned.  Otherwise it returns, joined by newlines: the two header
    lines; one line for each node in the order of registration, labelled
    with the id of the node as it is; one line for each edge, in the order
    in which the dependencies are listed and without repetitions; and the
    closing line.  No node is labelled as disabled and no style line is
    emitted, also for a node with [enabled: false]. *)
Theorem printWorkflow_output r :
  (WorkflowRunner.nodes r = [] → printWorkflow r = "Empty workflow")
  ∧ (WorkflowRunner.nodes r ≠ [] →
     printWorkflow r
     = String.concat newline
         (["```mermaid"; "graph TD"]
          ++ (node_line <$> JsMap.keys (WorkflowRunner.nodes r))
          ++ Set_of (edge_lines r (WorkflowRunner.nodes r))
          ++ ["```"]))
  ∧ NoDup (Set_of (edge_lines r (WorkflowRunner.nodes r)))
  ∧ (∀ nodeId depId,
       nodeId ∈ JsMap.keys (WorkflowRunner.nodes r) →
       depends_on (WorkflowRunner.nodeDependencies r) nodeId depId →
       edge_line (sanitizeId nodeId) depId
       ∈ Set_of (edge_lines r (WorkflowRunner.nodes r)))
  ∧ (built r → WorkflowRunner.nodes r ≠ []).
Proof.
  split_and!.
  - unfold printWorkflow. by intros ->.
  - intros Hne. unfold printWorkflow, printWorkflow_lines.
    destruct (WorkflowRunner.nodes r) as [|entry ns] eqn:Hn; [done|].
    cbn [JsMap.size length Nat.eqb].
    destruct (foldl_print_node r (entry :: ns)
                {| output := ["```mermaid"; "graph TD"]; edges := [] |})
      as (_ & -> & ->).
    cbn [output edges]. unfold Set_of, JsMap.keys. by rewrite <- app_assoc.
  - apply NoDup_Set_of.
  - intros nodeId depId Hid Hd. apply elem_of_Set_of.
    unfold edge_lines. apply list_elem_of_In, in_flat_map.
    apply list_elem_of_fmap in Hid as ([id n] & -> & Hin).
    exists (id, n). split; [by apply list_elem_of_In|].
    apply list_elem_of_In, list_elem_of_fmap. by exists depId.
  - intros Hb. apply (rn_nonempty r (built_runnable r Hb)).
Qed.

Lemma with_disabled_built : built (runner_of with_disabled no_hook).
Proof.
  eapply (runner_of_built with_disabled no_hook).
  - unfold with_disabled. repeat apply constructed_addNode.
    by apply (constructed_new None).
  - vm_compute. reflexivity.
Qed.

Lemma printWorkflow_output_witness :
  printWorkflow_lines (runner_of with_disabled no_hook)
  = ["```mermaid"; "graph TD";
     node_line "off"; node_line "next";
     "    off --> next";
     "```"]
  ∧ printWorkflow (runner_of with_disabled no_hook)
    = String.concat newline
        (printWorkflow_lines (runner_of with_disabled no_hook)).
Proof.
  split; [reflexivity|].
  destruct (printWorkflow_output (runner_of with_disabled no_hook))
    as (_ & H & _ & _ & Hne).
  rewrite H by (apply Hne, with_disabled_built). reflexivity.
Defined.

(* ===================================================================== *)
(** ** Runs: which nodes are started *)
(* ===================================================================== *)

(** X18: in a finished run the nodes that were started are exactly the
    registered nodes all of whose direct dependencies were started and
    have the status [completed] when the run ends; the status of a started
    node whose [run] wrote a status is then the one its [run] left. *)
Theorem started_iff_dependencies_completed r status0 queue0 schedule t s id :
  built r → trigger r status0 queue0 schedule = Some t → final t = Some s →
  id ∈ JsMap.keys (WorkflowRunner.nodes r) →
  (id ∈ call_id <$> calls s ↔
   ∀ d, depends_on (WorkflowRunner.nodeDependencies r) id d →
        d ∈ call_id <$> calls s
        ∧ status_of (status s) d = NodeStatus.completed)
  ∧ (∀ c x, c ∈ calls s → Node.status (call_result c) = Some x →
            status_of (status s) (call_id c) = x).
Proof.
  intros Hb Ht Hs Hid. pose proof (built_runnable r Hb) as Hr.
  destruct (trigger_final r _ _ _ _ _ Ht Hs) as (s0 & H0 & He & Hover & ->).
  pose proof (run_invariant r Hr _ _ _ _ _ H0 He) as Hinv.
  pose proof (over_exited r s Hinv Hover) as Hl.
  pose proof Hinv as [[Hcs Hrc Hcu] Hlp].
  split; [split|].
  - intros (c & -> & Hc)%list_elem_of_fmap d Hd.
    destruct (rc_deps r _ _ Hrc c d Hc Hd) as [Hin Hst].
    split; [|done]. apply (rc_called r _ _ Hrc). by left.
  - intros Hdeps. apply (rc_called r _ _ Hrc).
    destruct (lp_exited r _ Hlp Hl) as [Hready [Hempty|Hall]]; [|left; auto].
    destruct (Hcu id Hid) as [Hin|[?|[p Hp]]].
    + intros d Hd. destruct (Hdeps d Hd) as [(c & -> & Hc)%list_elem_of_fmap Hst].
      split; [|by rewrite Hempty, lookup_empty].
      split; [by apply (exited_call_completed r)|done].
    + rewrite Hready in Hin. by apply elem_of_nil in Hin.
    + by left.
    + by rewrite Hempty, lookup_empty in Hp.
  - intros c x Hc Hx. apply (rc_status r _ _ Hrc c); [done..|left].
    by apply (exited_call_completed r).
Qed.

Lemma started_iff_dependencies_completed_witness :
  ∃ t s, trigger (runner_of failing_branch quiet_hook) ∅ None
           failing_branch_schedule = Some t
    ∧ final t = Some s
    ∧ "Z" ∈ call_id <$> calls s.
Proof.
  set (r := runner_of failing_branch quiet_hook).
  destruct (trigger r ∅ None failing_branch_schedule) as [t|] eqn:Ht;
    [|vm_compute in Ht; discriminate Ht].
  destruct (final t) as [s|] eqn:Hs;
    [|vm_compute in Ht; injection Ht as <-; discriminate Hs].
  exists t, s. split; [reflexivity|]. split; [exact Hs|].
  apply (started_iff_dependencies_completed r ∅ None failing_branch_schedule
           t s "Z" failing_branch_built Ht Hs).
  - vm_compute. repeat first [apply list_elem_of_here|apply list_elem_of_further].
  - intros d Hd. exfalso. vm_compute in Hd. by apply elem_of_nil in Hd.
Defined.

(** X19: when [run] skips a node, because [enabled] is [false] or because
    the [enabled] callback returns [false] on the context, [execute] is
    not invoked; when the run has finished, the context holds [null] under
    the id of the node unless an update of the context was rejected, in
    this run or in an earlier one; the nodes that depend on the skipped
    node, directly or not, were not started and have no key in the
    context. *)
Theorem skipped_node_blocks_dependents r status0 queue0 schedule t s c :
  built r → trigger r status0 queue0 schedule = Some t → final t = Some s →
  c ∈ calls s → Node.status (call_result c) = Some NodeStatus.skipped →
  Node.executeCalls (call_result c) = 0
  ∧ (queueRejected s = None → object s !! call_id c = Some JNull)
  ∧ ∀ Y, depends_transitively (WorkflowRunner.nodeDependencies r) Y (call_id c) →
         Y ∈ JsMap.keys (WorkflowRunner.nodes r) →
         Y ∉ call_id <$> calls s ∧ object s !! Y = None.
Proof.
  intros Hb Ht Hs Hc Hst. pose proof (built_runnable r Hb) as Hr.
  destruct (trigger_final r _ _ _ _ _ Ht Hs) as (s0 & H0 & He & Hover & ->).
  pose proof (run_invariant r Hr _ _ _ _ _ H0 He) as Hinv.
  pose proof (over_exited r s Hinv Hover) as Hl.
  pose proof Hinv as [[Hcs Hrc Hcu] Hlp].
  destruct (rc_run r _ _ Hrc c Hc) as (n & Hn & Hres).
  pose proof Hst as Hst'. rewrite Hres in Hst'.
  apply run_status in Hst' as [Hnull Hzero]. rewrite <- Hres in Hnull, Hzero.
  pose proof (exited_call_completed r s c Hinv Hl Hc) as Hdone.
  assert (¬ succeeded s (call_id c)) as Hnot.
  { intros [_ Hcompleted].
    pose proof (rc_status r _ _ Hrc c _ Hc Hst (or_introl Hdone)).
    congruence. }
  split_and!; [done|intros Hj; by apply (rc_result r _ _ Hrc Hj c)|].
  assert (∀ Y, depends_transitively (WorkflowRunner.nodeDependencies r) Y
                 (call_id c) →
               Y ∉ call_id <$> calls s) as Hcalls.
  { intros Y Hp. remember (call_id c) as D eqn:HD.
    unfold depends_transitively in Hp.
    induction Hp as [Y D Hd|Y Z D Hd Hp IH];
      intros (c' & -> & Hc')%list_elem_of_fmap.
    - subst D. by apply Hnot, (rc_deps r _ _ Hrc c').
    - destruct (rc_deps r _ _ Hrc c' Z Hc' Hd) as [Hin _].
      apply IH; [done..|]. apply (rc_called r _ _ Hrc). by left. }
  intros Y Hp HY. split; [by apply Hcalls|].
  destruct (object s !! Y) as [v|] eqn:Ho; [|done]. exfalso.
  apply (Hcalls Y Hp), (rc_called r _ _ Hrc).
  destruct (cs_object r _ _ Hcs Y) as [->|[?|(v' & Hv' & _)]]; [eauto| | |].
  - by destruct (rn_initial r Hr).
  - by left.
  - right. eauto.
Qed.

Lemma skipped_node_blocks_dependents_witness :
  ∃ t s, trigger (runner_of with_disabled no_hook) ∅ None
           with_disabled_schedule = Some t
    ∧ final t = Some s
    ∧ object s !! "off" = Some JNull
    ∧ object s !! "next" = None.
Proof.
  set (r := runner_of with_disabled no_hook).
  destruct (trigger r ∅ None with_disabled_schedule) as [t|] eqn:Ht;
    [|vm_compute in Ht; discriminate Ht].
  destruct (final t) as [s|] eqn:Hs;
    [|vm_compute in Ht; injection Ht as <-; discriminate Hs].
  assert (∃ c, c ∈ calls s ∧ call_id c = "off"
               ∧ Node.status (call_result c) = Some NodeStatus.skipped)
    as (c & Hc & Hid & Hst).
  { vm_compute in Ht. injection Ht as <-. injection Hs as <-.
    eexists. split; [left|]. split; reflexivity. }
  assert (queueRejected s = None) as Hj.
  { clear - Ht Hs. vm_compute in Ht. injection Ht as <-.
    by injection Hs as <-. }
  destruct (skipped_node_blocks_dependents r ∅ None with_disabled_schedule
              t s c with_disabled_built Ht Hs Hc Hst) as (_ & Hnull & Hdeps).
  specialize (Hnull Hj). rewrite Hid in Hnull, Hdeps.
  destruct (Hdeps "next") as [_ Hnext].
  - apply tc_once. vm_compute. left.
  - vm_compute. repeat first [apply list_elem_of_here|apply list_elem_of_further].
  - exists t, s. split; [reflexivity|]. split; [exact Hs|].
    split; [exact Hnull|exact Hnext].
Defined.

(* ===================================================================== *)
(** ** From the retry policy to the number of attempts *)
(* ===================================================================== *)

(** X20: a node constructed with [maxRetries: z] for [z] below [2^53] (or
    without a retry policy, in which case [z] is 0) that is enabled and
    whose [execute] throws at every attempt, each time something that the
    report of the failure can convert to a string, has [execute] invoked
    exactly [z + 1] times by [run] and its error handler, if it has one,
    invoked once; it is left [failed] unless the handler throws something
    that cannot be converted to a string. *)
Theorem attempts_of_constructed_node o n z ctx :
  Node.new o = Ok n →
  (0 ≤ z < Z.of_N two53)%Z →
  (∃ p, NodeOptions.retryPolicy o = Some p ∧ maxRetries p = int z)
  ∨ (NodeOptions.retryPolicy o = None ∧ z = 0%Z) →
  Node.isEnabled n (Some ctx) false = Some (Returned true) →
  (∀ k, attempt_reported n ctx k) →
  Node.executeCalls (Node.run n ctx) = Z.to_nat z + 1
  ∧ (is_Some (NodeOptions.errorHandler o) →
       length (Node.handled (Node.run n ctx)) = 1)
  ∧ ((∀ h e thrown, NodeOptions.errorHandler o = Some h →
        h e ctx = Threw thrown → interpolate thrown = None) →
     Node.status (Node.run n ctx) = Some NodeStatus.failed).
Proof.
  intros Hnew Hz Hp Hen Hfail.
  assert (Node.maxRetries_nat n = Z.to_nat z ∧ Node.options n = o) as [Hm Ho].
  { unfold Node.new in Hnew. destruct Hp as [(p & Hp & Hmax)|[Hp ->]];
      rewrite Hp in Hnew.
    - destruct (Node.validateRetryPolicy p); [|done]. simpl in Hnew.
      injection Hnew as <-. unfold Node.maxRetries_nat. simpl.
      rewrite Hmax. simpl. by rewrite Z.div_1_r.
    - by injection Hnew as <-. }
  assert (N.of_nat (Node.maxRetries_nat n) < two53)%N as Hlt
    by (rewrite Hm; lia).
  destruct (run_enabled_inversion n ctx Hlt Hen)
    as [(k & v & _ & _ & Hex & _)
       |[(k & t & e & _ & _ & Hex & Hi & _)|(t & _ & Ht & ->)]].
  - destruct (attempt_reported_not_returned _ _ _ _ (Hfail k) Hex).
  - destruct (attempt_reported_interpolate _ _ _ _ _ (Hfail k) Hex Hi).
  - destruct (Hfail (Node.maxRetries_nat n)) as (t' & Ht' & Hi).
    assert (t' = t) as -> by congruence.
    rewrite <- Ho, <- Hm.
    destruct (last_attempt_cases n ctx t (Node.maxRetries_nat n + 1))
      as [(e & He & _)|[(_ & Hnone & ->)
         |(h & _ & Hh & [[Hok ->]|(thrown & e & Hth & He & ->)])]];
      [congruence|simpl; split_and!; try done..].
    + rewrite Hnone. by intros [? ?].
    + intros Hok. by rewrite (Hok h _ thrown Hh Hth) in He.
Qed.

Lemma attempts_of_constructed_node_witness :
  ∃ n, Node.new always_throws = Ok n
       ∧ Node.executeCalls (Node.run n ∅) = 4.
Proof.
  destruct (Node.new always_throws) as [n|e] eqn:Hn;
    [|vm_compute in Hn; discriminate Hn].
  exists n. split; [reflexivity|].
  destruct (attempts_of_constructed_node always_throws n 3 ∅ Hn) as (H & _).
  - split; [lia|]. vm_compute. reflexivity.
  - left. eexists. split; reflexivity.
  - vm_compute in Hn. injection Hn as <-. reflexivity.
  - intros k. vm_compute in Hn. injection Hn as <-.
    eexists. split; reflexivity.
  - exact H.
Defined.
(* ===================================================================== *)
(** ** [trigger]: every run ends, and how *)
(* ===================================================================== *)

(** X21: a run of a built workflow comes to an end.  When no retry count
    exceeds [2^53] a complete schedule exists, and no schedule is longer
    than a bound fixed by the state the run starts in.  When the context
    factory throws, or the seed cannot be frozen, [trigger] rejects with
    what was thrown and the completion hook is not invoked.  Otherwise the
    loop exits; the error list names no node twice and, when no update of
    the context was rejected, has exactly one [NodeError] for each node
    whose [run] rejected with an [Error], holding that error; a completion
    hook that is a function is invoked once, with the final context and
    either [null] (no error) or the error list; and [trigger] resolves to
    the final context unless that hook throws, in which case it rejects
    with what the hook threw. *)
Theorem trigger_settles r status0 queue0 :
  built r →
  (followed r → ∃ schedule t, trigger r status0 queue0 schedule = Some t)
  ∧ (∀ s0 schedule s, init r status0 queue0 = Returned s0 →
       exec r s0 schedule = Some s → length schedule ≤ remaining r s0)
  ∧ ∀ schedule t, trigger r status0 queue0 schedule = Some t →
    match seed r with
    | Threw x => promise t = Threw x ∧ hookCalls t = [] ∧ final t = None
    | Returned _ =>
      ∃ s, final t = Some s ∧ loop s = Exited
        ∧ (queueRejected s = None →
           ∀ ne, ne ∈ errors s ↔
             ∃ c, c ∈ calls s ∧ call_id c = ne_id ne
               ∧ Node.settled (call_result c)
                 = Some (Threw (ThrowError (ne_error ne))))
        ∧ NoDup (ne_id <$> errors s)
        ∧ let errs := match errors s with [] => None | l => Some l end in
          match WorkflowRunner.onNodesCompleted r with
          | IsFun hook =>
              hookCalls t = [(object s, errs)]
              ∧ promise t = match hook (object s) errs with
                            | Returned _ => Returned (object s)
                            | Threw x => Threw x
                            end
          | NotFun _ =>
              hookCalls t = [] ∧ promise t = Returned (object s)
          end
    end.
Proof.
  intros Hb. pose proof (built_runnable r Hb) as Hr. split_and!.
  - by apply trigger_exists.
  - intros s0 schedule s H0 He.
    pose proof (exec_bounded r Hr schedule s0 s
                  (init_invariant r Hr _ _ _ H0) He). lia.
  - intros schedule t Ht. pose proof (init_built r Hb status0 queue0) as Hi.
    unfold trigger in Ht. destruct (seed r) as [o|x].
    + destruct Hi as (s0 & H0 & _). rewrite H0 in Ht.
      destruct (exec r s0 schedule) as [s|] eqn:He; [|done].
      destruct (is_over s) eqn:Hover; [|done]. injection Ht as <-.
      pose proof (run_invariant r Hr _ _ _ _ _ H0 He) as Hinv.
      pose proof (over_exited r s Hinv Hover) as Hl.
      destruct (exited_errors r s Hinv Hl) as (H1 & H2).
      exists s. split_and!; try done.
      * unfold conclude. rewrite Hl. by repeat case_match.
      * pose proof (conclude_exited r Hb s Hl) as Hc. simpl in *.
        by destruct (errors s).
    + rewrite Hi in Ht. by injection Ht as <-.
Qed.

Lemma trigger_settles_witness :
  ∃ t s, trigger (runner_of failing_branch quiet_hook) ∅ None
           failing_branch_schedule = Some t
    ∧ final t = Some s
    ∧ ne_id <$> errors s = ["X"]
    ∧ hookCalls t = [(object s, Some (errors s))]
    ∧ promise t = Returned (object s).
Proof.
  set (r := runner_of failing_branch quiet_hook).
  destruct (trigger r ∅ None failing_branch_schedule) as [t|] eqn:Ht;
    [|vm_compute in Ht; discriminate Ht].
  destruct (trigger_settles r ∅ None failing_branch_built) as (_ & _ & H).
  specialize (H failing_branch_schedule t Ht).
  assert (seed r = Returned {[ "initial" := JUndefined ]}) as Hseed
    by reflexivity.
  rewrite Hseed in H.
  destruct H as (s & Hs & _ & _ & _ & Hhook).
  change (WorkflowRunner.onNodesCompleted r) with quiet_hook in Hhook.
  simpl in Hhook. destruct Hhook as [Hcalls Hp].
  assert (ne_id <$> errors s = ["X"]) as He.
  { vm_compute in Ht. injection Ht as <-. injection Hs as <-. reflexivity. }
  exists t, s. split; [reflexivity|]. split; [exact Hs|].
  split; [exact He|]. split; [|exact Hp].
  rewrite Hcalls. clear - He. by destruct (errors s).
Defined.

(* ===================================================================== *)
(** ** [Context.update]: a result that cannot be frozen *)
(* ===================================================================== *)

